(** * 1-bit LAMB optimizer (deepspeed/runtime/fp16/onebit/onebitlamb.py)

    A shallow embedding of [OnebitLamb]: its constructor, [step],
    [state_dict], [load_state_dict] and [get_lamb_coeffs].

    Conventions of the embedding.
    - Python floats and tensor elements are values of a type [F] with the
      operations of the class [Scalar].  The instance is IEEE binary64
      ([float], what Python's [float] and a [torch.float64] tensor are):
      the definitions compute on it, with its rounding, infinities and NaN.
    - A tensor is the list of its elements in row-major order; shapes are
      only seen through [numel].  An elementwise operation on two tensors
      of different element counts raises (broadcasting is not modelled).
    - Python mutates in place and an exception leaves the mutations done so
      far.  Every statement sequence is therefore a function from a state to
      [out state]: the state it leaves, and the exception if one was raised.
    - [self.state] is a [defaultdict(dict)] keyed by parameter; a parameter
      belongs to one group only (torch refuses duplicates), so the entry of a
      parameter is kept beside the parameter ([p_state]).
    - The momentum [exp_avg] of a parameter is either a tensor with storage
      of its own or, once fused, a view into [exp_avg_flat[0]]. *)

From Stdlib Require Import Floats.PrimFloat.
From Stdlib Require Numbers.Cyclic.Int63.Uint63.
From Stdlib Require Floats.FloatAxioms Floats.SpecFloat Floats.FloatOps.
From Stdlib Require Import List ZArith Bool Lia Arith.
Import ListNotations.

Set Implicit Arguments.
Set Warnings "-inexact-float".

(** ** Scalars *)

Class Scalar (F : Type) : Type := {
  fzero : F;                      (* 0.0 *)
  fone : F;                       (* 1.0 *)
  fadd : F -> F -> F;
  fsub : F -> F -> F;
  fmul : F -> F -> F;
  fdiv : F -> F -> F;
  fopp : F -> F;
  fsqrt : F -> F;
  fltb : F -> F -> bool;          (* a < b *)
  feqb : F -> F -> bool;          (* a == b *)
  of_nat : nat -> F               (* float(n) *)
}.

(** Python's [a > b] is [b < a]. *)
Definition fgtb {F} `{Scalar F} (a b : F) : bool := fltb b a.

(** Python's [min(a, b)]: the first argument unless the second is smaller. *)
Definition pymin {F} `{Scalar F} (a b : F) : F := if fltb b a then b else a.

#[export] Instance float_scalar : Scalar PrimFloat.float := {
  fzero := PrimFloat.zero;
  fone := PrimFloat.one;
  fadd := PrimFloat.add;
  fsub := PrimFloat.sub;
  fmul := PrimFloat.mul;
  fdiv := PrimFloat.div;
  fopp := PrimFloat.opp;
  fsqrt := PrimFloat.sqrt;
  fltb := PrimFloat.ltb;
  feqb := PrimFloat.eqb;
  of_nat := fun n => PrimFloat.of_uint63 (Uint63.of_Z (Z.of_nat n))
}.

(** ** Exceptions and outcomes *)

Inductive error : Type :=
| AmsgradError          (* RuntimeError('1-bit Lamb does not support the AMSGrad variant.') *)
| SparseGradientError   (* RuntimeError('1-bit Lamb does not support sparse gradients') *)
| ShapeError            (* torch: sizes of tensors must match *)
| EmptyReductionError   (* torch: max() of a tensor with no element *)
| EmptyCatError         (* torch.cat of an empty list *)
| KeyError
| IndexError
| ZeroDivisionError
| AttributeError        (* attribute of None *)
| ValueError
| UnboundLocalError.

(** A pure computation that may raise. *)
Inductive res (A : Type) : Type :=
| Ok (a : A)
| Raise (e : error).
Arguments Raise {A} e.

(** A state after a statement sequence, and the exception that ended it. *)
Definition out (S : Type) : Type := (S * option error)%type.

Definition done {S} (s : S) : out S := (s, None).
Definition raised {S} (s : S) (e : error) : out S := (s, Some e).

Definition and_then {S T} (x : out S) (inj : S -> T) (k : S -> out T) : out T :=
  match x with
  | (s, None) => k s
  | (s, Some e) => (inj s, Some e)
  end.

Notation "x >>= k" := (and_then x (fun s => s) k) (at level 58, left associativity).

(** ** Tensors *)

Definition tensor (F : Type) : Type := list F.

Section Tensors.
Context {F : Type} `{Scalar F}.

Definition numel (t : tensor F) : nat := length t.

(** [torch.zeros(n)], [torch.zeros_like(t)] *)
Definition zeros (n : nat) : tensor F := repeat fzero n.
Definition zeros_like (t : tensor F) : tensor F := zeros (numel t).

(** [t.mul_(c)] and [t * c] for a number [c] *)
Definition scale (t : tensor F) (c : F) : tensor F := map (fun x => fmul x c) t.

(** [t.div_(c)] for a number [c] *)
Definition unscale (t : tensor F) (c : F) : tensor F := map (fun x => fdiv x c) t.

(** [t + c] for a number [c] *)
Definition shift (t : tensor F) (c : F) : tensor F := map (fun x => fadd x c) t.

(** [t.sqrt()] *)
Definition tsqrt (t : tensor F) : tensor F := map fsqrt t.

(** An elementwise operation on two tensors of the same element count. *)
Fixpoint ew2 (f : F -> F -> F) (a b : tensor F) : res (tensor F) :=
  match a, b with
  | [], [] => Ok []
  | x :: a', y :: b' =>
      match ew2 f a' b' with
      | Ok r => Ok (f x y :: r)
      | Raise e => Raise e
      end
  | _, _ => Raise ShapeError
  end.

(** [a.add_(alpha, b)]: a + alpha * b *)
Definition add_scaled (a : tensor F) (alpha : F) (b : tensor F) : res (tensor F) :=
  ew2 (fun x y => fadd x (fmul alpha y)) a b.

(** [a.addcmul_(value, b, b)]: a + value * b * b *)
Definition addcmul_sq (a : tensor F) (value : F) (b : tensor F) : res (tensor F) :=
  ew2 (fun x y => fadd x (fmul (fmul value y) y)) a b.

(** [t.sum()] *)
Definition tsum (t : tensor F) : F := fold_left fadd t fzero.

(** [t.pow(2).sum().sqrt()], which is also [torch.norm(t)] *)
Definition norm2 (t : tensor F) : F := fsqrt (tsum (map (fun x => fmul x x) t)).

(** [t.max()]: raises on a tensor with no element; a NaN propagates. *)
Definition max_step (m x : F) : F :=
  if fltb m x then x else if feqb x x then m else x.

Definition tmax (t : tensor F) : res F :=
  match t with
  | [] => Raise EmptyReductionError
  | x :: t' => Ok (fold_left max_step t' x)
  end.
End Tensors.

(** ** Data model *)

Section Model.
Context {F : Type} `{Scalar F}.

(** A gradient tensor F ([p.grad] or an element of [grads]). *)
Record Grad : Type := {
  is_sparse : bool;
  g_data : tensor F
}.

(** Where the elements of a momentum tensor F live: in storage of its own,
    or in [exp_avg_flat[0]] from offset [off], [n] elements (the view
    [_unflatten_dense_tensors] returns, bound by [p.data = q.data]). *)
Inductive Storage : Type :=
| Own (d : tensor F)
| InFlat (off n : nat).

(** The dict [self.state[p]] once it is initialised. *)
Record PState : Type := {
  s_step : Z;
  s_lamb_coeff_freeze : F;
  s_last_factor : F;
  s_exp_avg : Storage;
  s_exp_avg_sq : tensor F;
  s_exp_avg_sq_back : tensor F
}.

(** [self.state] is a [defaultdict(dict)]: reading [self.state[p]] of a
    parameter with no entry creates the empty dict.  [load_state_dict]
    can leave a dict with the two smoothing keys only. *)
Inductive Entry : Type :=
| NoEntry
| EmptyEntry
| PartialEntry (lamb_coeff_freeze last_factor : F)
| FullEntry (s : PState).

Record Param : Type := {
  p_data : tensor F;
  p_grad : option Grad;
  p_state : Entry
}.

(** The keys of a parameter group other than ['params']. *)
Record Hyper : Type := {
  lr : F;
  bias_correction : bool;
  betas : F * F;
  eps : F;
  weight_decay : F;
  max_grad_norm : F;
  max_coeff : F;
  min_coeff : F;
  exp_avg_mask : option (tensor F)
}.

Record Group : Type := {
  hyper : Hyper;
  params : list Param
}.

(** The engine object passed as [deepspeed]. *)
Record Engine : Type := {
  enable_backward_allreduce : bool;
  local_rank : Z
}.

(** Attributes set by the constructor and never assigned again. *)
Record Config : Type := {
  freeze_step : Z;
  coeff_beta : F;
  factor_max : F;
  factor_min : F;
  factor_threshold : F;
  size : nat;                 (* comm_backend_handle.size *)
  divider : nat
}.

Record Opt : Type := {
  config : Config;
  param_groups : list Group;
  deepspeed : option Engine;
  lamb_freeze_key : bool;
  initialize : bool;
  exp_avg_flat : list (tensor F);
  dummy_exp_avg : option Storage;          (* the dict {0: tensor F} or {} *)
  corrected_tensor_sizes : list nat;
  server_chunk_sizes : list nat;
  worker_errors : list (tensor F);
  server_errors : list (tensor F);
  scaling_coeffs : list (list F);
  lamb_coeffs : list F
}.

(** *** Field updates *)

Definition set_param_groups (v : list Group) (o : Opt) : Opt :=
  {| config := config o; param_groups := v; deepspeed := deepspeed o;
     lamb_freeze_key := lamb_freeze_key o; initialize := initialize o;
     exp_avg_flat := exp_avg_flat o; dummy_exp_avg := dummy_exp_avg o;
     corrected_tensor_sizes := corrected_tensor_sizes o;
     server_chunk_sizes := server_chunk_sizes o;
     worker_errors := worker_errors o; server_errors := server_errors o;
     scaling_coeffs := scaling_coeffs o; lamb_coeffs := lamb_coeffs o |}.

Definition set_deepspeed (v : option Engine) (o : Opt) : Opt :=
  {| config := config o; param_groups := param_groups o; deepspeed := v;
     lamb_freeze_key := lamb_freeze_key o; initialize := initialize o;
     exp_avg_flat := exp_avg_flat o; dummy_exp_avg := dummy_exp_avg o;
     corrected_tensor_sizes := corrected_tensor_sizes o;
     server_chunk_sizes := server_chunk_sizes o;
     worker_errors := worker_errors o; server_errors := server_errors o;
     scaling_coeffs := scaling_coeffs o; lamb_coeffs := lamb_coeffs o |}.

Definition set_lamb_freeze_key (v : bool) (o : Opt) : Opt :=
  {| config := config o; param_groups := param_groups o; deepspeed := deepspeed o;
     lamb_freeze_key := v; initialize := initialize o;
     exp_avg_flat := exp_avg_flat o; dummy_exp_avg := dummy_exp_avg o;
     corrected_tensor_sizes := corrected_tensor_sizes o;
     server_chunk_sizes := server_chunk_sizes o;
     worker_errors := worker_errors o; server_errors := server_errors o;
     scaling_coeffs := scaling_coeffs o; lamb_coeffs := lamb_coeffs o |}.

Definition set_initialize (v : bool) (o : Opt) : Opt :=
  {| config := config o; param_groups := param_groups o; deepspeed := deepspeed o;
     lamb_freeze_key := lamb_freeze_key o; initialize := v;
     exp_avg_flat := exp_avg_flat o; dummy_exp_avg := dummy_exp_avg o;
     corrected_tensor_sizes := corrected_tensor_sizes o;
     server_chunk_sizes := server_chunk_sizes o;
     worker_errors := worker_errors o; server_errors := server_errors o;
     scaling_coeffs := scaling_coeffs o; lamb_coeffs := lamb_coeffs o |}.

Definition set_exp_avg_flat (v : list (tensor F)) (o : Opt) : Opt :=
  {| config := config o; param_groups := param_groups o; deepspeed := deepspeed o;
     lamb_freeze_key := lamb_freeze_key o; initialize := initialize o;
     exp_avg_flat := v; dummy_exp_avg := dummy_exp_avg o;
     corrected_tensor_sizes := corrected_tensor_sizes o;
     server_chunk_sizes := server_chunk_sizes o;
     worker_errors := worker_errors o; server_errors := server_errors o;
     scaling_coeffs := scaling_coeffs o; lamb_coeffs := lamb_coeffs o |}.

Definition set_dummy_exp_avg (v : option Storage) (o : Opt) : Opt :=
  {| config := config o; param_groups := param_groups o; deepspeed := deepspeed o;
     lamb_freeze_key := lamb_freeze_key o; initialize := initialize o;
     exp_avg_flat := exp_avg_flat o; dummy_exp_avg := v;
     corrected_tensor_sizes := corrected_tensor_sizes o;
     server_chunk_sizes := server_chunk_sizes o;
     worker_errors := worker_errors o; server_errors := server_errors o;
     scaling_coeffs := scaling_coeffs o; lamb_coeffs := lamb_coeffs o |}.

Definition set_corrected_tensor_sizes (v : list nat) (o : Opt) : Opt :=
  {| config := config o; param_groups := param_groups o; deepspeed := deepspeed o;
     lamb_freeze_key := lamb_freeze_key o; initialize := initialize o;
     exp_avg_flat := exp_avg_flat o; dummy_exp_avg := dummy_exp_avg o;
     corrected_tensor_sizes := v;
     server_chunk_sizes := server_chunk_sizes o;
     worker_errors := worker_errors o; server_errors := server_errors o;
     scaling_coeffs := scaling_coeffs o; lamb_coeffs := lamb_coeffs o |}.

Definition set_server_chunk_sizes (v : list nat) (o : Opt) : Opt :=
  {| config := config o; param_groups := param_groups o; deepspeed := deepspeed o;
     lamb_freeze_key := lamb_freeze_key o; initialize := initialize o;
     exp_avg_flat := exp_avg_flat o; dummy_exp_avg := dummy_exp_avg o;
     corrected_tensor_sizes := corrected_tensor_sizes o;
     server_chunk_sizes := v;
     worker_errors := worker_errors o; server_errors := server_errors o;
     scaling_coeffs := scaling_coeffs o; lamb_coeffs := lamb_coeffs o |}.

Definition set_worker_errors (v : list (tensor F)) (o : Opt) : Opt :=
  {| config := config o; param_groups := param_groups o; deepspeed := deepspeed o;
     lamb_freeze_key := lamb_freeze_key o; initialize := initialize o;
     exp_avg_flat := exp_avg_flat o; dummy_exp_avg := dummy_exp_avg o;
     corrected_tensor_sizes := corrected_tensor_sizes o;
     server_chunk_sizes := server_chunk_sizes o;
     worker_errors := v; server_errors := server_errors o;
     scaling_coeffs := scaling_coeffs o; lamb_coeffs := lamb_coeffs o |}.

Definition set_server_errors (v : list (tensor F)) (o : Opt) : Opt :=
  {| config := config o; param_groups := param_groups o; deepspeed := deepspeed o;
     lamb_freeze_key := lamb_freeze_key o; initialize := initialize o;
     exp_avg_flat := exp_avg_flat o; dummy_exp_avg := dummy_exp_avg o;
     corrected_tensor_sizes := corrected_tensor_sizes o;
     server_chunk_sizes := server_chunk_sizes o;
     worker_errors := worker_errors o; server_errors := v;
     scaling_coeffs := scaling_coeffs o; lamb_coeffs := lamb_coeffs o |}.

Definition set_scaling_coeffs (v : list (list F)) (o : Opt) : Opt :=
  {| config := config o; param_groups := param_groups o; deepspeed := deepspeed o;
     lamb_freeze_key := lamb_freeze_key o; initialize := initialize o;
     exp_avg_flat := exp_avg_flat o; dummy_exp_avg := dummy_exp_avg o;
     corrected_tensor_sizes := corrected_tensor_sizes o;
     server_chunk_sizes := server_chunk_sizes o;
     worker_errors := worker_errors o; server_errors := server_errors o;
     scaling_coeffs := v; lamb_coeffs := lamb_coeffs o |}.

Definition set_lamb_coeffs (v : list F) (o : Opt) : Opt :=
  {| config := config o; param_groups := param_groups o; deepspeed := deepspeed o;
     lamb_freeze_key := lamb_freeze_key o; initialize := initialize o;
     exp_avg_flat := exp_avg_flat o; dummy_exp_avg := dummy_exp_avg o;
     corrected_tensor_sizes := corrected_tensor_sizes o;
     server_chunk_sizes := server_chunk_sizes o;
     worker_errors := worker_errors o; server_errors := server_errors o;
     scaling_coeffs := scaling_coeffs o; lamb_coeffs := v |}.

Definition set_p_state (e : Entry) (p : Param) : Param :=
  {| p_data := p_data p; p_grad := p_grad p; p_state := e |}.

Definition set_p_data (d : tensor F) (p : Param) : Param :=
  {| p_data := d; p_grad := p_grad p; p_state := p_state p |}.

Definition set_params (ps : list Param) (g : Group) : Group :=
  {| hyper := hyper g; params := ps |}.

Definition set_s_step (v : Z) (s : PState) : PState :=
  {| s_step := v; s_lamb_coeff_freeze := s_lamb_coeff_freeze s;
     s_last_factor := s_last_factor s; s_exp_avg := s_exp_avg s;
     s_exp_avg_sq := s_exp_avg_sq s; s_exp_avg_sq_back := s_exp_avg_sq_back s |}.

Definition set_s_lamb_coeff_freeze (v : F) (s : PState) : PState :=
  {| s_step := s_step s; s_lamb_coeff_freeze := v;
     s_last_factor := s_last_factor s; s_exp_avg := s_exp_avg s;
     s_exp_avg_sq := s_exp_avg_sq s; s_exp_avg_sq_back := s_exp_avg_sq_back s |}.

Definition set_s_last_factor (v : F) (s : PState) : PState :=
  {| s_step := s_step s; s_lamb_coeff_freeze := s_lamb_coeff_freeze s;
     s_last_factor := v; s_exp_avg := s_exp_avg s;
     s_exp_avg_sq := s_exp_avg_sq s; s_exp_avg_sq_back := s_exp_avg_sq_back s |}.

Definition set_s_exp_avg (v : Storage) (s : PState) : PState :=
  {| s_step := s_step s; s_lamb_coeff_freeze := s_lamb_coeff_freeze s;
     s_last_factor := s_last_factor s; s_exp_avg := v;
     s_exp_avg_sq := s_exp_avg_sq s; s_exp_avg_sq_back := s_exp_avg_sq_back s |}.

Definition set_s_exp_avg_sq (v : tensor F) (s : PState) : PState :=
  {| s_step := s_step s; s_lamb_coeff_freeze := s_lamb_coeff_freeze s;
     s_last_factor := s_last_factor s; s_exp_avg := s_exp_avg s;
     s_exp_avg_sq := v; s_exp_avg_sq_back := s_exp_avg_sq_back s |}.

Definition set_s_exp_avg_sq_back (v : tensor F) (s : PState) : PState :=
  {| s_step := s_step s; s_lamb_coeff_freeze := s_lamb_coeff_freeze s;
     s_last_factor := s_last_factor s; s_exp_avg := s_exp_avg s;
     s_exp_avg_sq := s_exp_avg_sq s; s_exp_avg_sq_back := v |}.

(** *** The fused buffer and its views *)

(** The elements a momentum tensor F shows, given [exp_avg_flat]. *)
Definition read (flat : list (tensor F)) (s : Storage) : tensor F :=
  match s with
  | Own d => d
  | InFlat off n => firstn n (skipn off (nth 0 flat []))
  end.

(** Writing [v] through a momentum tensor F in place. *)
Definition write (flat : list (tensor F)) (s : Storage) (v : tensor F)
  : Storage * list (tensor F) :=
  match s with
  | Own _ => (Own v, flat)
  | InFlat off n =>
      (s, match flat with
          | b :: rest => (firstn off b ++ v ++ skipn (off + n) b) :: rest
          | [] => []
          end)
  end.
End Model.

Arguments Grad : clear implicits.
Arguments Storage : clear implicits.
Arguments PState : clear implicits.
Arguments Entry : clear implicits.
Arguments Param : clear implicits.
Arguments Hyper : clear implicits.
Arguments Group : clear implicits.
Arguments Config : clear implicits.
Arguments Opt : clear implicits.

(** ** [OnebitLamb.step] *)

Section Step.
Context {F : Type} `{Scalar F}.

(** *** Iteration *)

(** [for k, (a, x) in enumerate(zip(l, xs)): body], starting the count at
    [k], over a state [St] the body shares with the rest of the program.
    [zip] stops at the shorter list; an exception stops the loop and
    leaves the element it was raised on as the body left it. *)
Fixpoint for_each {A X St : Type} (body : nat -> A -> X -> St -> out (A * St))
    (k : nat) (l : list A) (xs : list X) (s : St) : out (list A * St) :=
  match l, xs with
  | a :: l', x :: xs' =>
      match body k a x s with
      | ((a', s'), None) =>
          match for_each body (S k) l' xs' s' with
          | ((l'', s''), e) => ((a' :: l'', s''), e)
          end
      | ((a', s'), Some e) => ((a' :: l', s'), Some e)
      end
  | _, _ => ((l, s), None)
  end.

(** *** The per-parameter dict *)

(** [self.state[p]]: creates the empty dict when there is none. *)
Definition touch (p : Param F) : Param F :=
  match p_state p with
  | NoEntry => set_p_state EmptyEntry p
  | _ => p
  end.

(** [self.state[p]['exp_avg']] *)
Definition state_exp_avg (p : Param F) : res (Storage F) :=
  match p_state p with
  | FullEntry s => Ok (s_exp_avg s)
  | _ => Raise KeyError
  end.

(** [[f(p, self.state[p]['exp_avg']) for p in group['params']]] *)
Fixpoint collect_params {X : Type} (f : Param F -> Storage F -> X) (ps : list (Param F))
  : out (list (Param F) * list X) :=
  match ps with
  | [] => done ([], [])
  | p :: ps' =>
      match state_exp_avg p with
      | Raise e => raised (touch p :: ps', []) e
      | Ok m =>
          match collect_params f ps' with
          | ((ps'', xs), e) => ((touch p :: ps'', f p m :: xs), e)
          end
      end
  end.

(** The same over every group, one list per group. *)
Fixpoint collect_groups {X : Type} (f : Param F -> Storage F -> X) (gs : list (Group F))
  : out (list (Group F) * list (list X)) :=
  match gs with
  | [] => done ([], [])
  | g :: gs' =>
      match collect_params f (params g) with
      | ((ps, _), Some e) => raised (set_params ps g :: gs', []) e
      | ((ps, xs), None) =>
          match collect_groups f gs' with
          | ((gs'', xss), e) => ((set_params ps g :: gs'', xs :: xss), e)
          end
      end
  end.

(** *** Arguments *)

(** The argument [grads]: [None], a generator, a list whose first element
    is not a list, or a list of lists. *)
Inductive GradsArg : Type :=
| GradsNone
| GradsGenerator (g : list (option (Grad F)))
| GradsFlat (l : list (option (Grad F)))
| GradsNested (l : list (list (option (Grad F)))).

(** Lines 144-153. *)
Definition grads_group_of (grads : GradsArg) (n_groups : nat)
  : res (list (option (list (option (Grad F))))) :=
  match grads with
  | GradsNone => Ok (repeat None n_groups)
  | GradsGenerator g => Ok [Some g]
  | GradsFlat [] => Raise IndexError              (* grads[0] *)
  | GradsFlat l => Ok [Some l]
  | GradsNested [] => Raise IndexError            (* grads[0] *)
  | GradsNested l => Ok (map Some l)
  end.

(** [compressed_allreduce(buffer, worker_error, server_error, local_rank)]
    of the communication backend: the new contents of the three tensors.
    The backend is not part of this file. *)
Definition Net : Type :=
  tensor F -> tensor F -> tensor F -> Z ->
  tensor F * tensor F * tensor F.

(** The backend assigns into the tensors it is given: their element
    counts stay. *)
Definition inplace (old new : tensor F) : tensor F :=
  firstn (length old) (new ++ skipn (length new) old).

(** The local variables of [step] that outlive a loop. *)
Record Locals : Type := {
  exp_avg_last_step : list (list (tensor F));
  state_var : option (nat * nat)      (* the parameter [state] was last bound for *)
}.

(** *** Scaling coefficients (lines 158-179) *)

(** [(torch.norm(m) / np.sqrt(torch.numel(m))).item()] *)
Definition momentum_scale (flat : list (tensor F)) (m : Storage F) : F :=
  fdiv (norm2 (read flat m)) (fsqrt (of_nat (numel (read flat m)))).

(** [sum(l)] on Python floats *)
Definition pysum (l : list F) : F := fold_left fadd l fzero.

(** [sum([sum(x) for x in momentum_scales]) / sum([len(x) for x in momentum_scales])] *)
Definition united_scale_of (momentum_scales : list (list F)) : res F :=
  let n := list_sum (map (@length F) momentum_scales) in
  if Nat.eqb n 0 then Raise ZeroDivisionError
  else Ok (fdiv (pysum (map pysum momentum_scales)) (of_nat n)).

(** [[united_scale / momentum_scales[i][j] for j in range(len(group['params']))]] *)
Fixpoint coeffs_row (united_scale : F) (row : list F) : res (list F) :=
  match row with
  | [] => Ok []
  | m :: row' =>
      if feqb m fzero then Raise ZeroDivisionError
      else match coeffs_row united_scale row' with
           | Ok r => Ok (fdiv united_scale m :: r)
           | Raise e => Raise e
           end
  end.

(** The loop of lines 175-179, appending to [self.scaling_coeffs]. *)
Fixpoint append_scaling_coeffs (united_scale : F) (momentum_scales : list (list F))
    (acc : list (list F)) : out (list (list F)) :=
  match momentum_scales with
  | [] => done acc
  | row :: rest =>
      match coeffs_row united_scale row with
      | Ok r => append_scaling_coeffs united_scale rest (acc ++ [r])
      | Raise e => raised acc e
      end
  end.

(** Lines 163-179. *)
Definition calibrate (o : Opt F) : out (Opt F) :=
  if negb (Nat.eqb (length (scaling_coeffs o)) 0) then done o
  else
    match collect_groups (fun _ m => momentum_scale (exp_avg_flat o) m) (param_groups o) with
    | ((gs, _), Some e) => raised (set_param_groups gs o) e
    | ((gs, momentum_scales), None) =>
        let o := set_param_groups gs o in
        match united_scale_of momentum_scales with
        | Raise e => raised o e
        | Ok united_scale =>
            match append_scaling_coeffs united_scale momentum_scales (scaling_coeffs o) with
            | (sc, e) => (set_scaling_coeffs sc o, e)
            end
        end
    end.

(** Lines 158-179. *)
Definition snapshot_and_calibrate (fr : Opt F * Locals) : out (Opt F * Locals) :=
  let (o, loc) := fr in
  if lamb_freeze_key o then
    match collect_groups (fun _ m => read (exp_avg_flat o) m) (param_groups o) with
    | ((gs, _), Some e) => raised (set_param_groups gs o, loc) e
    | ((gs, clones), None) =>
        let loc := {| exp_avg_last_step := clones; state_var := state_var loc |} in
        and_then (calibrate (set_param_groups gs o)) (fun o => (o, loc)) (fun o => done (o, loc))
    end
  else done fr.

(** *** The first loop (lines 181-250) *)

(** What the loop bodies share: [self.exp_avg_flat], through which fused
    momenta are written, [self.lamb_freeze_key], [self.lamb_coeffs] and
    the local variable [state]. *)
Record Shared : Type := {
  sh_flat : list (tensor F);
  sh_key : bool;
  sh_lamb_coeffs : list F;
  sh_state : option (nat * nat)
}.

Definition set_sh_flat (v : list (tensor F)) (sh : Shared) : Shared :=
  {| sh_flat := v; sh_key := sh_key sh;
     sh_lamb_coeffs := sh_lamb_coeffs sh; sh_state := sh_state sh |}.

Definition set_sh_key (v : bool) (sh : Shared) : Shared :=
  {| sh_flat := sh_flat sh; sh_key := v;
     sh_lamb_coeffs := sh_lamb_coeffs sh; sh_state := sh_state sh |}.

Definition set_sh_lamb_coeffs (v : list F) (sh : Shared) : Shared :=
  {| sh_flat := sh_flat sh; sh_key := sh_key sh;
     sh_lamb_coeffs := v; sh_state := sh_state sh |}.

Definition set_sh_state (v : option (nat * nat)) (sh : Shared) : Shared :=
  {| sh_flat := sh_flat sh; sh_key := sh_key sh;
     sh_lamb_coeffs := sh_lamb_coeffs sh; sh_state := v |}.

(** One parameter under update: its dict, its data and the shared state. *)
Record Cell : Type := {
  c_state : PState F;
  c_data : tensor F;
  c_shared : Shared
}.

Definition set_c_state (v : PState F) (c : Cell) : Cell :=
  {| c_state := v; c_data := c_data c; c_shared := c_shared c |}.

Definition set_c_data (v : tensor F) (c : Cell) : Cell :=
  {| c_state := c_state c; c_data := v; c_shared := c_shared c |}.

Definition set_c_shared (v : Shared) (c : Cell) : Cell :=
  {| c_state := c_state c; c_data := c_data c; c_shared := v |}.

(** The elements of [exp_avg]. *)
Definition cell_exp_avg (c : Cell) : tensor F :=
  read (sh_flat (c_shared c)) (s_exp_avg (c_state c)).

(** An in-place operation on [exp_avg]. *)
Definition on_exp_avg (f : tensor F -> res (tensor F)) (c : Cell) : out Cell :=
  match f (cell_exp_avg c) with
  | Raise e => raised c e
  | Ok v =>
      let (m, flat) := write (sh_flat (c_shared c)) (s_exp_avg (c_state c)) v in
      done (set_c_shared (set_sh_flat flat (c_shared c))
              (set_c_state (set_s_exp_avg m (c_state c)) c))
  end.

(** An in-place operation on [exp_avg_sq]. *)
Definition on_exp_avg_sq (f : tensor F -> res (tensor F)) (c : Cell) : out Cell :=
  match f (s_exp_avg_sq (c_state c)) with
  | Raise e => raised c e
  | Ok v => done (set_c_state (set_s_exp_avg_sq v (c_state c)) c)
  end.

(** An in-place operation on [exp_avg_sq_back]. *)
Definition on_exp_avg_sq_back (f : tensor F -> res (tensor F)) (c : Cell) : out Cell :=
  match f (s_exp_avg_sq_back (c_state c)) with
  | Raise e => raised c e
  | Ok v => done (set_c_state (set_s_exp_avg_sq_back v (c_state c)) c)
  end.

(** [p.add_(-group['lr'] * lamb_coeff * update)] *)
Definition apply_update (h : Hyper F) (lamb_coeff : F) (update : tensor F) (c : Cell)
  : out Cell :=
  match ew2 fadd (c_data c) (map (fun u => fmul (fmul (fopp (lr h)) lamb_coeff) u) update) with
  | Raise e => raised c e
  | Ok d => done (set_c_data d c)
  end.

(** [update_prelim + group['weight_decay'] * p.data] *)
Definition with_decay (h : Hyper F) (update : tensor F) (data : tensor F)
  : res (tensor F) :=
  ew2 fadd update (map (fun x => fmul (weight_decay h) x) data).

(** Lines 231-237: the LAMB coefficient of the warmup stage. *)
Definition warmup_lamb_coeff (h : Hyper F) (weight_norm update_norm : F) : F :=
  if negb (feqb weight_norm fzero) && negb (feqb update_norm fzero) then
    let lamb_coeff := fdiv weight_norm update_norm in
    let lamb_coeff := if fgtb lamb_coeff (max_coeff h) then max_coeff h else lamb_coeff in
    let lamb_coeff := if fltb lamb_coeff (min_coeff h) then min_coeff h else lamb_coeff in
    lamb_coeff
  else fone.

(** Lines 225-243: the baseline LAMB update of a parameter. *)
Definition warmup_lamb (cfg : Config F) (h : Hyper F) (c : Cell) : out Cell :=
  let weight_norm := norm2 (c_data c) in
  match ew2 fdiv (cell_exp_avg c) (shift (tsqrt (s_exp_avg_sq (c_state c))) (eps h)) with
  | Raise e => raised c e
  | Ok update =>
      match (if fgtb (weight_decay h) fzero then with_decay h update (c_data c)
             else Ok update) with
      | Raise e => raised c e
      | Ok update =>
          let update_norm := norm2 update in
          let lamb_coeff := warmup_lamb_coeff h weight_norm update_norm in
          let s := c_state c in
          let s := if negb (feqb lamb_coeff fone) then
                     set_s_lamb_coeff_freeze
                       (fadd (fmul (coeff_beta cfg) (s_lamb_coeff_freeze s))
                             (fmul (fsub fone (coeff_beta cfg)) lamb_coeff)) s
                   else s in
          let sh := c_shared c in
          let sh := set_sh_lamb_coeffs (sh_lamb_coeffs sh ++ [lamb_coeff]) sh in
          apply_update h lamb_coeff update (set_c_shared sh (set_c_state s c))
      end
  end.

(** [exp_avg.mul_(beta1).add_(1 - beta1, grad)] *)
Definition momentum_update (beta1 : F) (grad : tensor F) (c : Cell) : out Cell :=
  on_exp_avg (fun m => Ok (scale m beta1)) c >>=
  on_exp_avg (fun m => add_scaled m (fsub fone beta1) grad).

(** Lines 219-243: the warmup stage for one parameter. *)
Definition warmup_stage (cfg : Config F) (init : bool) (h : Hyper F) (grad : tensor F)
    (c : Cell) : out Cell :=
  let (beta1, beta2) := betas h in
  momentum_update beta1 grad c >>=
  on_exp_avg_sq (fun v => Ok (scale v beta2)) >>=
  on_exp_avg_sq (fun v => addcmul_sq v (fsub fone beta2) grad) >>=
  (fun c =>
     let c := if Z.eqb (s_step (c_state c)) (freeze_step cfg) then
                set_c_state (set_s_exp_avg_sq_back (s_exp_avg_sq (c_state c)) (c_state c)) c
              else c in
     if init then warmup_lamb cfg h c else done c).

(** Lines 245-249: the compression stage for one parameter, before the
    communication. *)
Definition compression_stage (init : bool) (sc : list (list F)) (h : Hyper F)
    (i j : nat) (grad : tensor F) (c : Cell) : out Cell :=
  if init then
    momentum_update (fst (betas h)) grad c >>=
    (fun c =>
       match nth_error sc i with
       | None => raised c IndexError
       | Some row =>
           match nth_error row j with
           | None => raised c IndexError
           | Some coeff => on_exp_avg (fun m => Ok (scale m coeff)) c
           end
       end)
  else done c.

(** Lines 199-206. *)
Definition fresh_state (p : Param F) : PState F :=
  {| s_step := 0;
     s_lamb_coeff_freeze := fzero;
     s_last_factor := fone;
     s_exp_avg := Own (zeros_like (p_data p));
     s_exp_avg_sq := zeros_like (p_data p);
     s_exp_avg_sq_back := zeros_like (p_data p) |}.

(** [state = self.state[p]] followed by the initialisation of an empty
    dict (lines 195-206). *)
Definition get_or_init (p : Param F) : Param F :=
  match p_state p with
  | NoEntry | EmptyEntry => set_p_state (FullEntry (fresh_state p)) p
  | _ => p
  end.

Definition close_cell (p : Param F) (c : Cell) : Param F * Shared :=
  ({| p_data := c_data c; p_grad := p_grad p; p_state := FullEntry (c_state c) |},
   c_shared c).

(** The body of the loop over the parameters of group [i] (lines 188-250). *)
Definition first_loop_body (cfg : Config F) (init : bool) (sc : list (list F))
    (h : Hyper F) (i j : nat) (p : Param F) (grad : option (Grad F)) (sh : Shared)
  : out (Param F * Shared) :=
  match (match grad with Some g => Some g | None => p_grad p end) with
  | None => done (p, sh)                                   (* continue *)
  | Some g =>
      if is_sparse g then raised (p, sh) SparseGradientError
      else
        let p := get_or_init p in
        let sh := set_sh_state (Some (i, j)) sh in
        let sh := if negb init then set_sh_key true sh else sh in
        match p_state p with
        | FullEntry s =>
            let c := {| c_state := set_s_step (s_step s + 1) s;
                        c_data := p_data p; c_shared := sh |} in
            and_then (if negb (sh_key sh)
                      then warmup_stage cfg init h (g_data g) c
                      else compression_stage init sc h i j (g_data g) c)
                     (close_cell p) (fun c => done (close_cell p c))
        | _ => raised (p, sh) KeyError                     (* state['exp_avg'] *)
        end
  end.

(** The body of the loop over the groups (lines 181-250). *)
Definition first_loop_group (cfg : Config F) (init : bool) (sc : list (list F))
    (i : nat) (g : Group F) (grads_this_group : option (list (option (Grad F))))
    (sh : Shared) : out (Group F * Shared) :=
  let grads_this_group :=
    match grads_this_group with
    | None => repeat None (length (params g))
    | Some l => l
    end in
  and_then (for_each (first_loop_body cfg init sc (hyper g) i) 0 (params g) grads_this_group sh)
           (fun r => (set_params (fst r) g, snd r))
           (fun r => done (set_params (fst r) g, snd r)).

Definition shared_of (o : Opt F) (loc : Locals) : Shared :=
  {| sh_flat := exp_avg_flat o; sh_key := lamb_freeze_key o;
     sh_lamb_coeffs := lamb_coeffs o; sh_state := state_var loc |}.

Definition store_shared (r : list (Group F) * Shared) (o : Opt F) (loc : Locals)
  : Opt F * Locals :=
  let (gs, sh) := r in
  (set_param_groups gs
     (set_exp_avg_flat (sh_flat sh)
        (set_lamb_freeze_key (sh_key sh)
           (set_lamb_coeffs (sh_lamb_coeffs sh) o))),
   {| exp_avg_last_step := exp_avg_last_step loc; state_var := sh_state sh |}).

(** Lines 181-250. *)
Definition first_loop (grads_group : list (option (list (option (Grad F)))))
    (fr : Opt F * Locals) : out (Opt F * Locals) :=
  let (o, loc) := fr in
  and_then (for_each (first_loop_group (config o) (initialize o) (scaling_coeffs o)) 0
              (param_groups o) grads_group (shared_of o loc))
           (fun r => store_shared r o loc)
           (fun r => done (store_shared r o loc)).

(** *** The fused momentum (lines 252-277) *)

(** [difference], when [tensor_size] is not a multiple of [m]. *)
Definition padding (tensor_size m : nat) : nat := m - tensor_size mod m.

(** [p.data = q.data] for the parameters of a group: the momentum of each
    becomes the view of the fused buffer that follows the previous one. *)
Fixpoint rebind_params (flat : list (tensor F)) (off : nat) (ps : list (Param F))
  : list (Param F) * nat :=
  match ps with
  | [] => ([], off)
  | p :: ps' =>
      match p_state p with
      | FullEntry s =>
          let n := numel (read flat (s_exp_avg s)) in
          let (ps'', off') := rebind_params flat (off + n) ps' in
          (set_p_state (FullEntry (set_s_exp_avg (InFlat off n) s)) p :: ps'', off')
      | _ =>
          let (ps'', off') := rebind_params flat off ps' in
          (p :: ps'', off')
      end
  end.

Fixpoint rebind_groups (flat : list (tensor F)) (off : nat) (gs : list (Group F))
  : list (Group F) * nat :=
  match gs with
  | [] => ([], off)
  | g :: gs' =>
      let (ps, off') := rebind_params flat off (params g) in
      let (gs'', off'') := rebind_groups flat off' gs' in
      (set_params ps g :: gs'', off'')
  end.

(** Lines 253-277. *)
Definition init_fused_momentum (o : Opt F) : out (Opt F) :=
  if negb (Nat.eqb (length (exp_avg_flat o)) 0) then done o
  else
    match collect_groups (fun p m => (m, numel (p_data p))) (param_groups o) with
    | ((gs, _), Some e) => raised (set_param_groups gs o) e
    | ((gs, items), None) =>
        let o := set_param_groups gs o in
        let momentum_groups := map fst (concat items) in
        let tensor_size := list_sum (map snd (concat items)) in
        let m := (size (config o) * divider (config o))%nat in
        if Nat.eqb m 0 then raised o ZeroDivisionError
        else
          let padded := negb (Nat.eqb (tensor_size mod m) 0) in
          let difference := padding tensor_size m in
          let corrected_tensor_size :=
            if padded then (tensor_size + difference)%nat else tensor_size in
          let o := if padded then set_dummy_exp_avg (Some (Own (zeros difference))) o
                   else o in
          let momentum_groups :=
            if padded then momentum_groups ++ [Own (zeros difference)]
            else momentum_groups in
          let o := set_corrected_tensor_sizes
                     (corrected_tensor_sizes o ++ [corrected_tensor_size]) o in
          let o := set_server_chunk_sizes
                     (server_chunk_sizes o ++ [(corrected_tensor_size / size (config o))%nat]) o in
          match momentum_groups with
          | [] => raised o EmptyCatError
          | _ =>
              let old := exp_avg_flat o in
              let o := set_exp_avg_flat
                         (old ++ [concat (map (read old) momentum_groups)]) o in
              let (gs', off) := rebind_groups old 0 (param_groups o) in
              let o := set_param_groups gs' o in
              let o := if padded then set_dummy_exp_avg (Some (InFlat off difference)) o
                       else o in
              done o
          end
    end.

(** *** Error buffers and communication (lines 279-320) *)

(** [self.worker_errors.append(torch.zeros(self.corrected_tensor_sizes[i]))]
    and the same for [self.server_errors]. *)
Definition append_error_buffers (i : nat) (o : Opt F) : out (Opt F) :=
  match nth_error (corrected_tensor_sizes o) i with
  | None => raised o IndexError
  | Some n =>
      let o := set_worker_errors (worker_errors o ++ [zeros n]) o in
      match nth_error (server_chunk_sizes o) i with
      | None => raised o IndexError
      | Some k => done (set_server_errors (server_errors o ++ [zeros k]) o)
      end
  end.

(** [for i in idx: body i] *)
Fixpoint for_range {St : Type} (body : nat -> St -> out St) (idx : list nat) (s : St)
  : out St :=
  match idx with
  | [] => done s
  | i :: rest => body i s >>= for_range body rest
  end.

(** Lines 279-288. *)
Definition init_error_buffers (o : Opt F) : out (Opt F) :=
  if initialize o && Nat.eqb (length (worker_errors o)) 0 then
    for_range append_error_buffers (seq 0 (length (exp_avg_flat o))) o
  else done o.

(** [l[i] = v] for [i] in range. *)
Fixpoint list_set {A : Type} (i : nat) (v : A) (l : list A) : list A :=
  match l, i with
  | [], _ => []
  | _ :: l', O => v :: l'
  | a :: l', S i' => a :: list_set i' v l'
  end.

(** [compressed_allreduce(self.exp_avg_flat[i], self.worker_errors[k],
    self.server_errors[k], self.deepspeed.local_rank)] *)
Definition compressed_allreduce (net : Net) (i k : nat) (o : Opt F) : out (Opt F) :=
  match nth_error (exp_avg_flat o) i with
  | None => raised o IndexError
  | Some buffer =>
      match nth_error (worker_errors o) k with
      | None => raised o IndexError
      | Some worker_error =>
          match nth_error (server_errors o) k with
          | None => raised o IndexError
          | Some server_error =>
              match deepspeed o with
              | None => raised o AttributeError
              | Some engine =>
                  match net buffer worker_error server_error (local_rank engine) with
                  | (b, w, s) =>
                      done (set_exp_avg_flat (list_set i (inplace buffer b) (exp_avg_flat o))
                             (set_worker_errors
                                (list_set k (inplace worker_error w) (worker_errors o))
                                (set_server_errors
                                   (list_set k (inplace server_error s) (server_errors o))
                                   o)))
                  end
              end
          end
      end
  end.

(** The body of the loop of lines 292-320. *)
Definition communicate_body (net : Net) (i : nat) (o : Opt F) : out (Opt F) :=
  if negb (initialize o) then
    append_error_buffers i o >>=
    compressed_allreduce net i 0 >>=
    (fun o => done (set_server_errors [] (set_worker_errors [] o)))
  else compressed_allreduce net i i o.

(** Lines 290-320. *)
Definition communicate (net : Net) (o : Opt F) : out (Opt F) :=
  if lamb_freeze_key o then
    if Nat.ltb 1 (size (config o)) then
      for_range (communicate_body net) (seq 0 (length (exp_avg_flat o))) o
    else done o
  else done o.

(** *** The second loop (lines 322-373) *)

(** Lines 359-366: the factor is clamped, then kept within the threshold
    of the last one. *)
Definition clamp_factor (cfg : Config F) (last_factor factor : F) : F :=
  let factor := if fgtb factor (factor_max cfg) then factor_max cfg else factor in
  let factor := if fltb factor (factor_min cfg) then factor_min cfg else factor in
  let factor :=
    if fgtb factor (fmul last_factor (fadd fone (factor_threshold cfg)))
    then fmul last_factor (fadd fone (factor_threshold cfg)) else factor in
  let factor :=
    if fltb factor (fmul last_factor (fsub fone (factor_threshold cfg)))
    then fmul last_factor (fsub fone (factor_threshold cfg)) else factor in
  factor.

(** Lines 353-358. *)
Definition raw_factor (h : Hyper F) (denom denom_real update_prelim update : tensor F)
  : res F :=
  match ew2 fdiv denom denom_real with
  | Raise e => Raise e
  | Ok ratio =>
      match tmax ratio with
      | Raise e => Raise e
      | Ok factor =>
          if fgtb (weight_decay h) fzero then
            let update_ratio := pymin fone (fdiv (norm2 update_prelim) (norm2 update)) in
            Ok (fadd (fmul factor update_ratio) (fsub fone update_ratio))
          else Ok factor
      end
  end.

(** [scaling_coeffs[i][j]], [exp_avg_last_step[i][j]] *)
Definition index2 {A : Type} (l : list (list A)) (i j : nat) : res A :=
  match nth_error l i with
  | None => Raise IndexError
  | Some row =>
      match nth_error row j with
      | None => Raise IndexError
      | Some a => Ok a
      end
  end.

(** Lines 337-371, once the momentum is unscaled and masked. *)
Definition compressed_lamb (cfg : Config F) (h : Hyper F) (last : tensor F) (c : Cell)
  : out Cell :=
  let (beta1, beta2) := betas h in
  match ew2 fsub (cell_exp_avg c) (scale last beta1) with
  | Raise e => raised c e
  | Ok diff =>
      let grad_reconstruct := unscale diff (fsub fone beta1) in
      on_exp_avg_sq_back (fun v => Ok (scale v beta2)) c >>=
      on_exp_avg_sq_back (fun v => addcmul_sq v (fsub fone beta2) grad_reconstruct) >>=
      (fun c =>
         let denom := shift (tsqrt (s_exp_avg_sq (c_state c))) (eps h) in
         match ew2 fdiv (cell_exp_avg c) denom with
         | Raise e => raised c e
         | Ok update_prelim =>
             match (if fgtb (weight_decay h) fzero
                    then with_decay h update_prelim (c_data c)
                    else Ok update_prelim) with
             | Raise e => raised c e
             | Ok update =>
                 let denom_real :=
                   shift (tsqrt (s_exp_avg_sq_back (c_state c))) (eps h) in
                 match raw_factor h denom denom_real update_prelim update with
                 | Raise e => raised c e
                 | Ok factor =>
                     let s := c_state c in
                     let factor := clamp_factor cfg (s_last_factor s) factor in
                     let s := set_s_last_factor factor s in
                     let lamb_coeff := fmul (s_lamb_coeff_freeze s) factor in
                     let sh := c_shared c in
                     let sh := set_sh_lamb_coeffs (sh_lamb_coeffs sh ++ [lamb_coeff]) sh in
                     apply_update h lamb_coeff update
                       (set_c_shared sh (set_c_state s c))
                 end
             end
         end)
  end.

(** Lines 327-371 for the cell of one parameter. *)
Definition second_loop_cell (cfg : Config F) (sc : list (list F))
    (last_step : list (list (tensor F))) (h : Hyper F) (i j : nat) (c : Cell)
  : out Cell :=
  match index2 sc i j with
  | Raise e => raised c e
  | Ok coeff =>
      on_exp_avg (fun m => Ok (unscale m coeff)) c >>=
      (fun c =>
         match exp_avg_mask h with
         | Some mask => on_exp_avg (fun m => ew2 fmul m mask) c
         | None => done c
         end) >>=
      (fun c =>
         match index2 last_step i j with
         | Raise e => raised c e
         | Ok last => compressed_lamb cfg h last c
         end)
  end.

(** The body of the loop over the parameters of group [i] (lines 326-371). *)
Definition second_loop_body (cfg : Config F) (sc : list (list F))
    (last_step : list (list (tensor F))) (h : Hyper F) (i j : nat)
    (p : Param F) (_ : unit) (sh : Shared) : out (Param F * Shared) :=
  let p := touch p in
  let sh := set_sh_state (Some (i, j)) sh in
  match p_state p with
  | FullEntry s =>
      let c := {| c_state := s; c_data := p_data p; c_shared := sh |} in
      and_then (second_loop_cell cfg sc last_step h i j c)
               (close_cell p) (fun c => done (close_cell p c))
  | _ => raised (p, sh) KeyError                           (* state['exp_avg'] *)
  end.

(** [enumerate(l)] as a list to zip with. *)
Definition units {A : Type} (l : list A) : list unit := map (fun _ => tt) l.

Definition second_loop_group (cfg : Config F) (sc : list (list F))
    (last_step : list (list (tensor F))) (i : nat) (g : Group F) (_ : unit)
    (sh : Shared) : out (Group F * Shared) :=
  and_then (for_each (second_loop_body cfg sc last_step (hyper g) i) 0
              (params g) (units (params g)) sh)
           (fun r => (set_params (fst r) g, snd r))
           (fun r => done (set_params (fst r) g, snd r)).

(** Lines 322-373. *)
Definition second_loop (fr : Opt F * Locals) : out (Opt F * Locals) :=
  let (o, loc) := fr in
  if lamb_freeze_key o && initialize o then
    and_then (for_each (second_loop_group (config o) (scaling_coeffs o)
                          (exp_avg_last_step loc)) 0
                (param_groups o) (units (param_groups o)) (shared_of o loc))
             (fun r => store_shared r o loc)
             (fun r => done (store_shared r o
                               {| exp_avg_last_step := []; state_var := state_var loc |}))
  else done fr.

(** *** The end of the step (lines 375-388) *)

(** [self.state[p]] read through the variable [state]. *)
Definition entry_at (gs : list (Group F)) (ij : nat * nat) : option (Entry F) :=
  match nth_error gs (fst ij) with
  | None => None
  | Some g =>
      match nth_error (params g) (snd ij) with
      | None => None
      | Some p => Some (p_state p)
      end
  end.

Definition disable_backward_allreduce (o : Opt F) : out (Opt F) :=
  match deepspeed o with
  | None => raised o AttributeError
  | Some engine =>
      done (set_deepspeed
              (Some {| enable_backward_allreduce := false;
                       local_rank := local_rank engine |}) o)
  end.

(** Lines 375-388. *)
Definition finish (fr : Opt F * Locals) : out (Opt F) :=
  let (o, loc) := fr in
  if negb (initialize o) then
    done (set_initialize true (set_lamb_freeze_key false o))
  else if negb (lamb_freeze_key o) then
    match state_var loc with
    | None => raised o UnboundLocalError                   (* state *)
    | Some ij =>
        match entry_at (param_groups o) ij with
        | Some (FullEntry s) =>
            if Z.leb (freeze_step (config o)) (s_step s) then
              disable_backward_allreduce (set_lamb_freeze_key true o)
            else done o
        | _ => raised o KeyError
        end
    end
  else done o.

(** *** The whole step *)

(** A statement sequence that does not touch the local variables. *)
Definition on_opt (f : Opt F -> out (Opt F)) (fr : Opt F * Locals) : out (Opt F * Locals) :=
  and_then (f (fst fr)) (fun o => (o, snd fr)) (fun o => done (o, snd fr)).

(** [step(closure, grads)]: the closure, which only produces the value
    returned, is left out. *)
Definition step (net : Net) (grads : GradsArg) (o : Opt F) : out (Opt F) :=
  match grads_group_of grads (length (param_groups o)) with
  | Raise e => raised o e
  | Ok grads_group =>
      and_then
        (snapshot_and_calibrate
           (set_lamb_coeffs [] o, {| exp_avg_last_step := []; state_var := None |}) >>=
         first_loop grads_group >>=
         on_opt init_fused_momentum >>=
         on_opt init_error_buffers >>=
         on_opt (communicate net) >>=
         second_loop)
        fst finish
  end.

(** [get_lamb_coeffs()] *)
Definition get_lamb_coeffs (o : Opt F) : list F := lamb_coeffs o.
End Step.

Arguments GradsArg : clear implicits.
Arguments Net : clear implicits.
Arguments Locals : clear implicits.
Arguments Shared : clear implicits.
Arguments Cell : clear implicits.

(** ** The constructor, [state_dict] and [load_state_dict] *)

Section Checkpoint.
Context {F : Type} `{Scalar F}.

(** [int(self.size * 8 / np.gcd(self.size, 8))] (line 119); the division
    is exact, and the float it goes through holds it for every world size
    below 2^50. *)
Definition make_divider (size : nat) : nat := (size * 8) / Nat.gcd size 8.

(** [OnebitLamb(params, deepspeed, ...)] (lines 54-129).  [groups] are the
    parameter groups with the defaults filled in, as [torch.optim.Optimizer]
    builds them; [backend_size] is [comm_backend_handle.size], or [None]
    when [comm_backend_name] names no backend. *)
Definition OnebitLamb_init (groups : list (Group F)) (deepspeed : option Engine)
    (freeze_step : Z) (amsgrad : bool)
    (coeff_beta factor_max factor_min factor_threshold : F)
    (backend_size : option nat) : res (Opt F) :=
  if amsgrad then Raise AmsgradError
  else
    match groups with
    | [] => Raise ValueError             (* optimizer got an empty parameter list *)
    | _ =>
        match backend_size with
        | None => Raise AttributeError   (* self.comm_backend_handle.size *)
        | Some size =>
            Ok {| config := {| freeze_step := freeze_step;
                               coeff_beta := coeff_beta;
                               factor_max := factor_max;
                               factor_min := factor_min;
                               factor_threshold := factor_threshold;
                               size := size;
                               divider := make_divider size |};
                  param_groups :=
                    map (fun g => set_params (map (set_p_state NoEntry) (params g)) g) groups;
                  deepspeed := deepspeed;
                  lamb_freeze_key := false;
                  initialize := false;
                  exp_avg_flat := [];
                  dummy_exp_avg := None;
                  corrected_tensor_sizes := [];
                  server_chunk_sizes := [];
                  worker_errors := [];
                  server_errors := [];
                  scaling_coeffs := [];
                  lamb_coeffs := [] |}
        end
    end.

(** The dict [state_dict()] returns, taken as written out at once: tensors
    are recorded by value.  ['state'] and ['param_groups'] are kept
    together: each saved group holds its keys other than ['params'] and the
    saved dict of each of its parameters ([NoEntry] when ['state'] has no
    key for it).  The three keys of lines 395-397 are optional in a dict
    that comes from elsewhere. *)
Record StateDict : Type := {
  sd_param_groups : list (Hyper F * list (Entry F));
  sd_worker_errors : option (list (tensor F));
  sd_server_errors : option (list (tensor F));
  sd_scaling_coeffs : option (list (list F))
}.

(** A saved dict: the momentum by value. *)
Definition saved_entry (flat : list (tensor F)) (e : Entry F) : Entry F :=
  match e with
  | FullEntry s => FullEntry (set_s_exp_avg (Own (read flat (s_exp_avg s))) s)
  | _ => e
  end.

(** Lines 390-398. *)
Definition state_dict (o : Opt F) : StateDict :=
  {| sd_param_groups :=
       map (fun g => (hyper g,
                      map (fun p => saved_entry (exp_avg_flat o) (p_state p)) (params g)))
           (param_groups o);
     sd_worker_errors := Some (worker_errors o);
     sd_server_errors := Some (server_errors o);
     sd_scaling_coeffs := Some (scaling_coeffs o) |}.

(** [torch.optim.Optimizer.load_state_dict] (torch 1.8, not part of this
    repository): refuses a dict whose groups differ in number or in size
    from the optimizer's; otherwise every group takes the saved keys and
    keeps its ['params'], and [self.state] becomes a copy of the saved
    state. *)
Definition same_sizes (gs : list (Group F)) (saved : list (Hyper F * list (Entry F))) : bool :=
  forallb (fun gs' => Nat.eqb (length (params (fst gs'))) (length (snd (snd gs'))))
          (combine gs saved).

Definition load_group (g : Group F) (saved : Hyper F * list (Entry F)) : Group F :=
  {| hyper := fst saved;
     params := map (fun pe => set_p_state (snd pe) (fst pe)) (combine (params g) (snd saved)) |}.

Definition torch_load_state_dict (sd : StateDict) (o : Opt F) : res (Opt F) :=
  if negb (Nat.eqb (length (param_groups o)) (length (sd_param_groups sd))) then
    Raise ValueError
  else if negb (same_sizes (param_groups o) (sd_param_groups sd)) then
    Raise ValueError
  else
    Ok (set_param_groups
          (map (fun gs => load_group (fst gs) (snd gs))
               (combine (param_groups o) (sd_param_groups sd))) o).

(** [self.param_groups[k]['exp_avg_mask'] = v] *)
Definition set_exp_avg_mask (v : option (tensor F)) (g : Group F) : Group F :=
  {| hyper := {| lr := lr (hyper g); bias_correction := bias_correction (hyper g);
                 betas := betas (hyper g); eps := eps (hyper g);
                 weight_decay := weight_decay (hyper g);
                 max_grad_norm := max_grad_norm (hyper g);
                 max_coeff := max_coeff (hyper g); min_coeff := min_coeff (hyper g);
                 exp_avg_mask := v |};
     params := params g |}.

(** Lines 404-407 and 413-414: [mask] holds the mask of the groups that
    had one; those groups get it back. *)
Definition restore_mask (g : Group F) (mask : option (tensor F)) : Group F :=
  match mask with
  | Some v => set_exp_avg_mask (Some v) g
  | None => g
  end.

(** Lines 445-448 for one parameter. *)
Definition reset_smoothing (p : Param F) : Param F :=
  match p_state p with
  | FullEntry s =>
      set_p_state (FullEntry (set_s_last_factor fone (set_s_lamb_coeff_freeze fzero s))) p
  | _ => set_p_state (PartialEntry fzero fone) p
  end.

(** Lines 439-448. *)
Definition reset_compression (o : Opt F) : out (Opt F) :=
  and_then
    (if lamb_freeze_key o then
       let o := set_lamb_freeze_key false o in
       match deepspeed o with
       | None => raised o AttributeError
       | Some engine =>
           done (set_deepspeed
                   (Some {| enable_backward_allreduce := true;
                            local_rank := local_rank engine |}) o)
       end
     else done o)
    (fun o => o)
    (fun o =>
       let o := set_scaling_coeffs [] (set_server_errors [] (set_worker_errors [] o)) in
       done (set_param_groups
               (map (fun g => set_params (map reset_smoothing (params g)) g)
                    (param_groups o)) o)).

(** Lines 424-433. *)
Definition load_compression (sd : StateDict) (o : Opt F) : out (Opt F) :=
  match sd_worker_errors sd with
  | None => raised o KeyError
  | Some w =>
      let o := set_worker_errors w o in
      match sd_server_errors sd with
      | None => raised o KeyError
      | Some s =>
          let o := set_server_errors s o in
          match sd_scaling_coeffs sd with
          | None => raised o KeyError
          | Some sc =>
              let o := set_scaling_coeffs sc o in
              if Nat.ltb (length s) (length w) then raised o IndexError
              else done o
          end
      end
  end.

(** [self.state[self.param_groups[0]['params'][0]]]: the first group with
    its first parameter's dict read. *)
Definition touch_first (gs : list (Group F)) : list (Group F) :=
  match gs with
  | g :: gs' =>
      match params g with
      | p :: ps => set_params (touch p :: ps) g :: gs'
      | [] => gs
      end
  | [] => gs
  end.

(** Lines 400-448. *)
Definition load_state_dict (sd : StateDict) (o : Opt F) : out (Opt F) :=
  let mask := map (fun g => exp_avg_mask (hyper g)) (param_groups o) in
  match torch_load_state_dict sd o with
  | Raise e => raised o e
  | Ok o =>
      let o := set_param_groups
                 (map (fun gm => restore_mask (fst gm) (snd gm))
                      (combine (param_groups o) mask)) o in
      let o := set_server_chunk_sizes []
                 (set_corrected_tensor_sizes []
                    (set_dummy_exp_avg None (set_exp_avg_flat [] o))) in
      match param_groups o with
      | [] => raised o IndexError
      | g :: _ =>
          match params g with
          | [] => raised o IndexError
          | p :: _ =>
              match p_state p with
              | FullEntry s =>
                  if Z.leb (freeze_step (config o)) (s_step s)
                  then load_compression sd o
                  else reset_compression o
              | _ => raised (set_param_groups (touch_first (param_groups o)) o) KeyError
              end
          end
      end
  end.
End Checkpoint.

Arguments StateDict : clear implicits.

(** * Notions used in the statements *)

(** [zip(l, xs)] with the elements of [l] that [zip] leaves out, each
    paired with what it was zipped with, if anything. *)
Fixpoint zip_pad {A X : Type} (l : list A) (xs : list X) : list (A * option X) :=
  match l, xs with
  | a :: l', x :: xs' => (a, Some x) :: zip_pad l' xs'
  | _, _ => map (fun a => (a, None)) l
  end.

(** A statement sequence leaves a component of the state as it was,
    whatever its outcome. *)
Definition keeps {S T : Type} (proj : S -> T) (f : S -> out S) : Prop :=
  forall s, proj (fst (f s)) = proj s.

(** What a loop over [zip(l, xs)] leaves in a variable that each visit
    may assign: [upd k a x t] is the variable after the visit of the pair
    [(a, x)] at index [k]. *)
Fixpoint fold_visits {A X T : Type} (upd : nat -> A -> X -> T -> T) (k : nat)
    (l : list A) (xs : list X) (t : T) : T :=
  match l, xs with
  | a :: l', x :: xs' => fold_visits upd (S k) l' xs' (upd k a x t)
  | _, _ => t
  end.

(** A visit assigns the variable when [f] gives a value. *)
Definition pick {A X T : Type} (f : nat -> A -> X -> option T)
    (k : nat) (a : A) (x : X) (t : option T) : option T :=
  match f k a x with
  | Some v => Some v
  | None => t
  end.


(** ** The state of a parameter, seen from outside *)

Section Notions.
Context {F : Type} `{Scalar F}.

(** The parameter has a complete dict. *)
Definition is_full (p : Param F) : Prop := exists s, p_state p = FullEntry s.

Definition all_full (gs : list (Group F)) : Prop :=
  Forall (fun g => Forall is_full (params g)) gs.

(** The momentum tensor of a parameter. *)
Definition exp_avg_of (p : Param F) : Storage F :=
  match p_state p with
  | FullEntry s => s_exp_avg s
  | _ => Own []
  end.

(** The elements of the momentum of a parameter. *)
Definition momentum (flat : list (tensor F)) (p : Param F) : tensor F :=
  read flat (exp_avg_of p).

(** Every parameter, in the order the loops visit them. *)
Definition all_params (gs : list (Group F)) : list (Param F) :=
  concat (map (@params F) gs).

(** The parameter [j] of group [i]. *)
Definition param_at (gs : list (Group F)) (i j : nat) : option (Param F) :=
  match nth_error gs i with
  | Some g => nth_error (params g) j
  | None => None
  end.

(** Two lists of groups of the same shape whose parameters are related. *)
Definition groups_rel (R : Param F -> Param F -> Prop) (gs gs' : list (Group F)) : Prop :=
  Forall2 (fun g g' => hyper g' = hyper g /\ Forall2 R (params g) (params g')) gs gs'.

(** [tensor_size] of line 259: the element count of all parameters. *)
Definition tensor_size (gs : list (Group F)) : nat :=
  list_sum (map (fun p => numel (p_data p)) (all_params gs)).

(** The momentum of every parameter has the parameter's element count. *)
Definition momenta_match (flat : list (tensor F)) (gs : list (Group F)) : Prop :=
  Forall (fun p => numel (momentum flat p) = numel (p_data p)) (all_params gs).

(** The momentum of [p'] is the view [off, off + n) of the fused buffer. *)
Definition is_view (p' : Param F) (off n : nat) : Prop :=
  exp_avg_of p' = InFlat off n.

(** The two smoothing fields of a dict: [lamb_coeff_freeze], [last_factor]. *)
Definition smoothing_of (e : Entry F) : option (F * F) :=
  match e with
  | FullEntry s => Some (s_lamb_coeff_freeze s, s_last_factor s)
  | PartialEntry a b => Some (a, b)
  | _ => None
  end.

(** The step count [load_state_dict] reads: that of the first parameter of
    the first group. *)
Definition first_step (gs : list (Group F)) : option Z :=
  match param_at gs 0 0 with
  | Some p => match p_state p with FullEntry s => Some (s_step s) | _ => None end
  | None => None
  end.

(** [deepspeed.enable_backward_allreduce] *)
Definition backward_allreduce (o : Opt F) : option bool :=
  match deepspeed o with
  | Some engine => Some (enable_backward_allreduce engine)
  | None => None
  end.

(** Two optimizers over groups of the same sizes. *)
Definition same_shape (gs gs' : list (Group F)) : Prop :=
  Forall2 (fun g g' => length (params g) = length (params g')) gs gs'.

(** The masks of the groups. *)
Definition masks (gs : list (Group F)) : list (option (tensor F)) :=
  map (fun g => exp_avg_mask (hyper g)) gs.
(** The groups of [loader] once [torch]'s [load_state_dict] has run on the
    dict of [saver] and the masks have been put back. *)
Definition loaded_groups (loader saver : Opt F) : list (Group F) :=
  map (fun gm => restore_mask (fst gm) (snd gm))
      (combine (map (fun gs => load_group (fst gs) (snd gs))
                    (combine (param_groups loader) (sd_param_groups (state_dict saver))))
               (map (fun g => exp_avg_mask (hyper g)) (param_groups loader))).


(** The constructor-time attributes and [initialize] stay, and the
    parameters of the result are related to those before. *)
Definition frame_rel (o : Opt F) (R : Param F -> Param F -> Prop)
    (fr fr' : Opt F * Locals F) : Prop :=
  config (fst fr) = config o -> initialize (fst fr) = initialize o ->
  config (fst fr') = config o /\ initialize (fst fr') = initialize o /\
  groups_rel R (param_groups (fst fr)) (param_groups (fst fr')).

(** Everything in the optimizer but the fused buffer and the error buffers. *)
Definition outside_buffers (o : Opt F) :=
  (config o, initialize o, lamb_freeze_key o, deepspeed o, scaling_coeffs o,
   lamb_coeffs o, param_groups o, dummy_exp_avg o, corrected_tensor_sizes o,
   server_chunk_sizes o).

(** A view of a cell that does not see the momentum, the second moments,
    the data, [lamb_coeff_freeze] or [lamb_coeffs]. *)
Definition stage_blind {T : Type} (proj : Cell F -> T) : Prop :=
  (forall c m flat,
     proj (set_c_shared (set_sh_flat flat (c_shared c))
             (set_c_state (set_s_exp_avg m (c_state c)) c)) = proj c) /\
  (forall c v, proj (set_c_state (set_s_exp_avg_sq v (c_state c)) c) = proj c) /\
  (forall c v, proj (set_c_state (set_s_exp_avg_sq_back v (c_state c)) c) = proj c) /\
  (forall c d, proj (set_c_data d c) = proj c) /\
  (forall c x, proj (set_c_state (set_s_lamb_coeff_freeze x (c_state c)) c) = proj c) /\
  (forall c l, proj (set_c_shared (set_sh_lamb_coeffs l (c_shared c)) c) = proj c).


(** The step count of a dict: 0 until the dict is initialised. *)
Definition step_of (e : Entry F) : Z :=
  match e with
  | FullEntry s => s_step s
  | _ => 0%Z
  end.

(** The gradient the first loop uses for a parameter: the override when
    there is one, [p.grad] otherwise. *)
Definition chosen_grad (p : Param F) (x : option (Grad F)) : option (Grad F) :=
  match x with
  | Some g => Some g
  | None => p_grad p
  end.

(** The shared state once the first loop has bound [state] for parameter
    [j] of group [i]. *)
Definition entered (init : bool) (i j : nat) (sh : Shared F) : Shared F :=
  if negb init then set_sh_key true (set_sh_state (Some (i, j)) sh)
  else set_sh_state (Some (i, j)) sh.

(** The cell of a parameter when its stage starts. *)
Definition cell_of (s : PState F) (p : Param F) (sh : Shared F) : Cell F :=
  {| c_state := set_s_step (s_step s + 1) s; c_data := p_data p; c_shared := sh |}.

(** A view of a cell blind to what the stages write and to [last_factor]. *)
Definition factor_blind {T : Type} (proj : Cell F -> T) : Prop :=
  stage_blind proj /\
  (forall c x, proj (set_c_state (set_s_last_factor x (c_state c)) c) = proj c).

(** The last factor is as it was, or is what lines 359-367 make of some
    factor and the last one. *)
Definition factor_step (cfg : Config F) (before after : F) : Prop :=
  after = before \/ exists factor, after = clamp_factor cfg before factor.









(** The training loop between two steps: [backward()] gives every
    parameter of every group a gradient, or none. *)
Definition backward (grads : list (list (option (Grad F)))) (o : Opt F) : Opt F :=
  set_param_groups
    (map (fun gx =>
            set_params
              (map (fun px => {| p_data := p_data (fst px);
                                 p_grad := match snd px with
                                           | Some g => g
                                           | None => p_grad (fst px)
                                           end;
                                 p_state := p_state (fst px) |})
                   (zip_pad (params (fst gx))
                            (match snd gx with Some l => l | None => [] end)))
              (fst gx))
         (zip_pad (param_groups o) grads))
    o.

(** The momentum of a parameter that has one, while nothing is fused, has
    the parameter's element count. *)
Definition momentum_sized (p : Param F) : Prop :=
  match p_state p with
  | FullEntry s => numel (read [] (s_exp_avg s)) = numel (p_data p)
  | _ => True
  end.

(** What the first loop of the first step may do to a parameter. *)
Definition boot_rel (p p' : Param F) : Prop :=
  p_data p' = p_data p /\ (momentum_sized p -> momentum_sized p').

(** The data of a parameter is what it was. *)
Definition same_data (p p' : Param F) : Prop := p_data p' = p_data p.

(** [grads_this_group] once line 183 has run. *)
Definition grads_of_group (g : Group F) (y : option (list (option (Grad F))))
  : list (option (Grad F)) :=
  match y with
  | None => repeat None (length (params g))
  | Some l => l
  end.

(** The parameter the first loop visits at position [j] of group [i], with
    the override [zip] pairs it with: nothing when [zip] stops before. *)
Definition visit (gs : list (Group F)) (gg : list (option (list (option (Grad F)))))
    (i j : nat) : option (Param F * option (Grad F)) :=
  match nth_error gs i, nth_error gg i with
  | Some g, Some y =>
      match nth_error (params g) j, nth_error (grads_of_group g y) j with
      | Some p, Some x => Some (p, x)
      | _, _ => None
      end
  | _, _ => None
  end.

(** The gradient the first loop finds at position [j] of group [i]. *)
Definition gradient_at (gs : list (Group F)) (gg : list (option (list (option (Grad F)))))
    (i j : nat) : option (Grad F) :=
  match visit gs gg i j with
  | Some (p, x) => chosen_grad p x
  | None => None
  end.

(** The position of the last parameter of group [i], in the order of the
    loop, that has a gradient. *)
Definition last_in_group (i : nat) (g : Group F) (y : option (list (option (Grad F))))
  : option (nat * nat) :=
  fold_visits
    (pick (fun j p x => match chosen_grad p x with
                        | Some _ => Some (i, j)
                        | None => None
                        end))
    0 (params g) (grads_of_group g y) None.

(** The position of the last parameter, in the order of the first loop,
    that has a gradient: what the variable [state] of line 195 refers to
    when the loop is over. *)
Definition last_updated (gs : list (Group F)) (gg : list (option (list (option (Grad F)))))
  : option (nat * nat) :=
  fold_visits (pick last_in_group) 0 gs gg None.

(** The step count of a parameter is the same, and its dict is still
    complete if it was. *)
Definition count_kept (p p' : Param F) : Prop :=
  step_of (p_state p') = step_of (p_state p) /\ (is_full p -> is_full p').

(** What an in-place operation on a momentum works on: the fused buffers
    and the storage of the momentum. *)
Definition held (c : Cell F) : list (tensor F) * Storage F :=
  (sh_flat (c_shared c), s_exp_avg (c_state c)).

(** The element count of the fused buffer. *)
Definition fused_length (flat : list (tensor F)) : nat := length (nth 0 flat []).

(** The elements [off, off + n) of the fused buffer. *)
Definition slice (off n : nat) (flat : list (tensor F)) : tensor F :=
  firstn n (skipn off (nth 0 flat [])).

(** A momentum stored apart from the elements [off, off + n) of a fused
    buffer of [len] elements: in storage of its own, or in a view within
    the buffer that does not overlap them. *)
Definition apart (off n len : nat) (st : Storage F) : Prop :=
  match st with
  | Own _ => True
  | InFlat off' n' => (off' + n' <= len /\ (off' + n' <= off \/ off + n <= off'))%nat
  end.

(** The fused buffer keeps its element count, and its elements
    [off, off + n). *)
Definition region_kept (off n : nat) (flat flat' : list (tensor F)) : Prop :=
  fused_length flat' = fused_length flat /\ slice off n flat' = slice off n flat.

(** The momentum of the parameter, if it has one, is stored apart from the
    elements [off, off + n) of the fused buffer. *)
Definition writes_apart (off n len : nat) (p : Param F) : Prop :=
  match p_state p with
  | FullEntry s => apart off n len (s_exp_avg s)
  | _ => True
  end.

(** The parameter is as it was, but for the empty dict that reading
    [self.state[p]] creates when there is none. *)
Definition touched (p p' : Param F) : Prop := p' = p \/ p' = touch p.


(** The second moments of a parameter. *)
Definition exp_avg_sq_of (p : Param F) : tensor F :=
  match p_state p with
  | FullEntry s => s_exp_avg_sq s
  | _ => []
  end.

Definition exp_avg_sq_back_of (p : Param F) : tensor F :=
  match p_state p with
  | FullEntry s => s_exp_avg_sq_back s
  | _ => []
  end.

(** A parameter [p'] of an optimizer that has loaded a dict: the data and
    the gradient of the parameter [fst pq] it was, the step count, the
    momentum and the second moments of the parameter [snd pq] the dict was
    saved from, whose momentum was read in the fused buffers [flat]. *)
Definition restored (flat : list (tensor F)) (pq : Param F * Param F) (p' : Param F)
  : Prop :=
  p_data p' = p_data (fst pq) /\ p_grad p' = p_grad (fst pq) /\
  step_of (p_state p') = step_of (p_state (snd pq)) /\
  momentum [] p' = momentum flat (snd pq) /\
  exp_avg_sq_of p' = exp_avg_sq_of (snd pq) /\
  exp_avg_sq_back_of p' = exp_avg_sq_back_of (snd pq).

(** A parameter that has its dict still has it, with the same second
    moment [exp_avg_sq]. *)
Definition variance_kept (p p' : Param F) : Prop :=
  forall s, p_state p = FullEntry s ->
    exists s', p_state p' = FullEntry s' /\ s_exp_avg_sq s' = s_exp_avg_sq s.

(** The number of parameters of a group, and of all groups, for which the
    first loop finds a gradient. *)
Definition gradients_in_group (g : Group F) (y : option (list (option (Grad F)))) : nat :=
  fold_visits (fun _ p x n => match chosen_grad p x with Some _ => S n | None => n end)
    0 (params g) (grads_of_group g y) 0%nat.

Definition gradients_found (gs : list (Group F))
    (gg : list (option (list (option (Grad F))))) : nat :=
  fold_visits (fun _ g y n => (n + gradients_in_group g y)%nat) 0 gs gg 0%nat.

(** A parameter without dict has none still, or has got one whose momentum
    is a tensor of zeros of its element count. *)
Definition starts_at_zero (p p' : Param F) : Prop :=
  p_state p = NoEntry ->
  forall s', p_state p' = FullEntry s' ->
    s_exp_avg s' = Own (zeros (numel (p_data p))).

(** The step count a dict holds for the first parameter of the first
    group, if it holds one. *)
Definition saved_first_step (sd : StateDict F) : option Z :=
  match sd_param_groups sd with
  | (_, FullEntry s :: _) :: _ => Some (s_step s)
  | _ => None
  end.

(** The view that is the momentum of a parameter, once the momenta are
    fused: its offset in the fused buffer and its element count. *)
Definition view_of (p : Param F) : option (nat * nat) :=
  match exp_avg_of p with
  | InFlat off n => Some (off, n)
  | Own _ => None
  end.

(** The momenta of the parameters are views of the fused buffer that follow
    one another from offset [off]: the offset at which the last one ends. *)
Fixpoint views_from (off : nat) (ps : list (Param F)) : option nat :=
  match ps with
  | [] => Some off
  | p :: ps' =>
      match view_of p with
      | Some (off', n) => if Nat.eqb off' off then views_from (off + n) ps' else None
      | None => None
      end
  end.

(** How the momenta are stored: each in storage of its own while there is
    no fused buffer; once there is one, as views that follow one another
    from offset 0, in the order of the loops, within the buffer. *)
Definition laid_out (o : Opt F) : Prop :=
  match exp_avg_flat o with
  | [] => Forall (fun p => view_of p = None) (all_params (param_groups o))
  | _ => exists e, views_from 0 (all_params (param_groups o)) = Some e /\
                   (e <= fused_length (exp_avg_flat o))%nat
  end.

(** The momentum of a parameter is stored where it was. *)
Definition view_kept (p p' : Param F) : Prop := view_of p' = view_of p.

(** A momentum tensor after a write through it: the same view, or storage
    of its own still. *)
Definition same_storage (st st' : Storage F) : Prop :=
  match st with
  | InFlat off n => st' = InFlat off n
  | Own _ => exists d, st' = Own d
  end.

(** The fused buffers are as many, and the first has its element count. *)
Definition buffer_sized (flat flat' : list (tensor F)) : Prop :=
  length flat' = length flat /\ fused_length flat' = fused_length flat.

(** What a write through a momentum leaves: the element counts of the
    fused buffers and where the momentum is stored. *)
Definition sized (a b : list (tensor F) * Storage F) : Prop :=
  buffer_sized (fst a) (fst b) /\ same_storage (snd a) (snd b).

(** Position [(i, j)] comes before position [(i', j')] in the order of the
    loops. *)
Definition before_position (i j i' j' : nat) : Prop :=
  (i < i')%nat \/ (i = i' /\ (j < j')%nat).

(** The number of parameters of the groups before group [i]. *)
Definition params_before (gs : list (Group F)) (i : nat) : nat :=
  length (all_params (firstn i gs)).

(** The optimizers a training run can hold: built by the constructor, then
    any sequence of gradients and steps, whatever the steps' outcomes. *)
Inductive reachable : Opt F -> Prop :=
| reach_new groups engine freeze coeff fmax fmin threshold world o :
    OnebitLamb_init groups engine freeze false coeff fmax fmin threshold (Some world) = Ok o ->
    reachable o
| reach_backward grads o :
    reachable o -> reachable (backward grads o)
| reach_step net grads o :
    reachable o -> reachable (fst (step net grads o)).
End Notions.

Section ScalingNotions.
Context {F : Type} `{Scalar F}.


(** [united_scale] of lines 173-174. *)
Definition united_scale (momentum_scales : list (list F)) : F :=
  fdiv (pysum (map pysum momentum_scales))
       (of_nat (list_sum (map (@length F) momentum_scales))).

(** *** The formula of the coefficients, as the specification words it

    Written on the operations of the scalars only, without the functions
    of the model of [step]. *)








(** The local variables at the start of [step]. *)
Definition no_locals : Locals F := {| exp_avg_last_step := []; state_var := None |}.
End ScalingNotions.

(** * Concrete optimizers

    Inputs on which the definitions are run, over binary64. *)

Module Demo.
Import PrimFloat.
Local Open Scope float_scope.

Definition flt : Type := PrimFloat.float.

(** The default hyperparameters of the constructor. *)
Definition hyper0 : Hyper flt :=
  {| lr := 0.001; bias_correction := true; betas := (0.9, 0.999); eps := 0.00000001;
     weight_decay := 0; max_grad_norm := 0; max_coeff := 10; min_coeff := 0.01;
     exp_avg_mask := None |}.

Definition engine0 : Engine :=
  {| enable_backward_allreduce := true; local_rank := 0%Z |}.

Definition dense (g : tensor flt) : option (Grad flt) :=
  Some {| is_sparse := false; g_data := g |}.


(** A backend that leaves the buffers as they are. *)
Definition idle_net : Net flt := fun b w s _ => (b, w, s).

(** Two parameters of three and two elements after the first loop of their
    first step, on two workers: every dict is there, nothing is fused. *)
Definition unfused : Opt flt :=
  {| config := {| freeze_step := 3; coeff_beta := 0.99; factor_max := 4.5;
                  factor_min := 0.5; factor_threshold := 0.1;
                  size := 2; divider := make_divider 2 |};
     param_groups :=
       [ {| hyper := hyper0;
            params :=
              [ {| p_data := [1; 2; 3]; p_grad := dense [0.5; 0.5; 0.5];
                   p_state := FullEntry
                     {| s_step := 1; s_lamb_coeff_freeze := 0; s_last_factor := 1;
                        s_exp_avg := Own [0.125; 0.25; 0.375];
                        s_exp_avg_sq := [0; 0; 0]; s_exp_avg_sq_back := [0; 0; 0] |} |};
                {| p_data := [4; 5]; p_grad := dense [0.25; 0.25];
                   p_state := FullEntry
                     {| s_step := 1; s_lamb_coeff_freeze := 0; s_last_factor := 1;
                        s_exp_avg := Own [0.5; 0.625];
                        s_exp_avg_sq := [0; 0]; s_exp_avg_sq_back := [0; 0] |} |} ] |} ];
     deepspeed := Some engine0;
     lamb_freeze_key := true;
     initialize := false;
     exp_avg_flat := [];
     dummy_exp_avg := None;
     corrected_tensor_sizes := [];
     server_chunk_sizes := [];
     worker_errors := [];
     server_errors := [];
     scaling_coeffs := [];
     lamb_coeffs := [] |}.

(** One parameter of two elements on one worker, [freeze_step = 3], as the
    constructor leaves it. *)
Definition single_groups : list (Group flt) :=
  [ {| hyper := hyper0;
       params := [ {| p_data := [1; 2]; p_grad := dense [0.5; -0.25];
                      p_state := NoEntry |} ] |} ].

Definition unwrap (r : res (Opt flt)) : Opt flt :=
  match r with
  | Ok o => o
  | Raise _ => unfused
  end.

Definition single : Opt flt :=
  unwrap (OnebitLamb_init single_groups (Some engine0) 3 false 0.99 4.5 0.5 0.1 (Some 1%nat)).

(** [n] calls of [step()] with the gradients the parameters hold. *)
Fixpoint steps (n : nat) (o : Opt flt) : Opt flt :=
  match n with
  | O => o
  | S n' => fst (step idle_net GradsNone (steps n' o))
  end.

(** The same optimizer after its first step, and in the compression stage
    (after four steps). *)
Definition bootstrapped : Opt flt := Eval vm_compute in steps 1 single.
Definition compressing : Opt flt := Eval vm_compute in steps 4 single.

(** The same optimizer with a momentum mask on its group. *)
Definition masked : Opt flt :=
  set_param_groups (map (set_exp_avg_mask (Some [1; 0])) (param_groups compressing))
    compressing.


(** Two parameters of three and two elements on two workers,
    [freeze_step = 3], as the constructor leaves them. *)
Definition pair_groups : list (Group flt) :=
  [ {| hyper := hyper0;
       params := [ {| p_data := [1; 2; 3]; p_grad := dense [0.5; 0.5; 0.5];
                      p_state := NoEntry |};
                   {| p_data := [4; 5]; p_grad := dense [0.25; 0.25];
                      p_state := NoEntry |} ] |} ].

Definition pair : Opt flt :=
  unwrap (OnebitLamb_init pair_groups (Some engine0) 3 false 0.99 4.5 0.5 0.1 (Some 2%nat)).

(** The same two parameters after three steps, the second of them with no
    gradient for the second parameter. *)
Definition uneven : Opt flt :=
  backward [[dense [0.5; 0.5; 0.5]; dense [0.25; 0.25]]]
    (fst (step idle_net GradsNone
            (backward [[dense [0.5; 0.5; 0.5]; None]] (steps 1 pair)))).

(** The same two parameters after the first step, the second of them
    without gradient. *)
Definition second_idle : Opt flt :=
  Eval vm_compute in backward [[dense [0.5; 0.5; 0.5]; None]] (steps 1 pair).

(** The same two parameters in the compression stage (after four steps),
    the second of them without gradient. *)
Definition second_idle_compressing : Opt flt :=
  Eval vm_compute in backward [[dense [0.5; 0.5; 0.5]; None]] (steps 4 pair).



(** The same two parameters after two steps, both of them without
    gradient. *)
Definition both_idle : Opt flt :=
  Eval vm_compute in backward [[None; None]] (steps 2 pair).

(** The two parameters as the constructor leaves them, the second of them
    without gradient. *)
Definition pair_second_idle : Opt flt :=
  Eval vm_compute in backward [[dense [0.5; 0.5; 0.5]; None]] pair.

(** One parameter with [freeze_step = 3] after two steps. *)
Definition two_steps : Opt flt := Eval vm_compute in steps 2 single.

(** The dict of [bootstrapped] (one step done, [freeze_step = 3]) and the
    dict of [compressing] (four steps done), without the three entries that
    [state_dict] adds to those of [torch]. *)
Definition plain_dict (o : Opt flt) : StateDict flt :=
  {| sd_param_groups := sd_param_groups (state_dict o);
     sd_worker_errors := None; sd_server_errors := None; sd_scaling_coeffs := None |}.



End Demo.

(** * Properties *)

(** ** Lists *)

Section ListFacts.
Context {A B : Type}.

Lemma Forall2_right (R : A -> B -> Prop) (P : B -> Prop) l l' :
  Forall2 R l l' -> (forall a b, R a b -> P b) -> Forall P l'.
Proof.
  intros HR HP. induction HR; constructor; eauto.
Qed.

Lemma Forall2_nth_error (R : A -> B -> Prop) l l' n a b :
  Forall2 R l l' -> nth_error l n = Some a -> nth_error l' n = Some b -> R a b.
Proof.
  intros HR. revert n. induction HR as [|x y l l' Hxy _ IH]; intros [|n]; simpl;
    try discriminate.
  - intros Ha Hb. inversion Ha; inversion Hb; subst. exact Hxy.
  - apply IH.
Qed.

Lemma Forall2_nth_error_l (R : A -> B -> Prop) l l' n a :
  Forall2 R l l' -> nth_error l n = Some a -> exists b, nth_error l' n = Some b /\ R a b.
Proof.
  intros HR. revert n. induction HR as [|x y l l' Hxy _ IH]; intros [|n]; simpl;
    try discriminate.
  - intros Ha. inversion Ha; subst. eauto.
  - apply IH.
Qed.
End ListFacts.

Lemma Forall2_refl {A} (R : A -> A -> Prop) l : (forall a, R a a) -> Forall2 R l l.
Proof. intros HR. induction l; constructor; auto. Qed.

Lemma nth_error_combine_inv {A B} (l : list A) (l' : list B) k a b :
  nth_error (combine l l') k = Some (a, b) ->
  nth_error l k = Some a /\ nth_error l' k = Some b.
Proof.
  revert l' k. induction l as [|x l IH]; intros [|y l'] k; simpl;
    try (destruct k; discriminate).
  destruct k as [|k]; simpl.
  - intros Heq. inversion Heq. split; reflexivity.
  - apply IH.
Qed.

Lemma firstn_skipn_prefix {A} (pre rest : list A) off n :
  (off + n <= length pre)%nat ->
  firstn n (skipn off (pre ++ rest)) = firstn n (skipn off pre).
Proof.
  intros Hle. rewrite skipn_app, firstn_app, length_skipn.
  replace (n - (length pre - off))%nat with 0%nat by lia.
  simpl. apply app_nil_r.
Qed.

Lemma firstn_skipn_firstn {A} (b : list A) off n k :
  (off + n <= k)%nat ->
  firstn n (skipn off (firstn k b)) = firstn n (skipn off b).
Proof.
  intros Hle. rewrite skipn_firstn_comm, firstn_firstn.
  replace (Nat.min n (k - off)) with n by lia. reflexivity.
Qed.

(** ** Loops and sequences *)

Section LoopFacts.
Context {A X St : Type}.
Variable body : nat -> A -> X -> St -> out (A * St).
Variable RA : A -> option X -> A -> Prop.
Variable RS : St -> St -> Prop.
Variable Pre : A -> X -> Prop.
Hypothesis RA_refl : forall a ox, RA a ox a.
Hypothesis RS_refl : forall s, RS s s.
Hypothesis RS_trans : forall s1 s2 s3, RS s1 s2 -> RS s2 s3 -> RS s1 s3.
Hypothesis body_ok :
  forall k a x s, Pre a x ->
    RA a (Some x) (fst (fst (body k a x s))) /\ RS s (snd (fst (body k a x s))).

Lemma zip_pad_nil_r (l : list A) : zip_pad l (@nil X) = map (fun a => (a, None)) l.
Proof. destruct l; reflexivity. Qed.

Lemma Forall2_unchanged (l : list A) :
  Forall2 (fun ax a' => RA (fst ax) (snd ax) a') (map (fun a => (a, None)) l) l.
Proof. induction l; simpl; constructor; auto. Qed.

Lemma Forall2_unreached (l : list A) (xs : list X) :
  Forall2 (fun ax a' => RA (fst ax) (snd ax) a') (zip_pad l xs) l.
Proof.
  revert xs. induction l as [|a l IH]; intros [|x xs]; simpl; constructor; auto.
  apply Forall2_unchanged.
Qed.

(** Whatever the outcome of the loop, every element is related to what it
    was, and so is the shared state. *)
Lemma for_each_rel l xs :
  Forall (fun ax => Pre (fst ax) (snd ax)) (combine l xs) ->
  forall k s,
    Forall2 (fun ax a' => RA (fst ax) (snd ax) a') (zip_pad l xs)
            (fst (fst (for_each body k l xs s))) /\
    RS s (snd (fst (for_each body k l xs s))).
Proof.
  revert xs. induction l as [|a l IH]; intros xs Hpre k s.
  - simpl. split; [constructor | apply RS_refl].
  - destruct xs as [|x xs].
    + simpl. split; [constructor; [apply RA_refl | apply Forall2_unchanged] | apply RS_refl].
    + simpl in Hpre. inversion Hpre as [|? ? Hax Hrest]; subst. simpl in Hax.
      simpl. destruct (body_ok k s Hax) as [Ha Hs].
      destruct (body k a x s) as [[a' s'] [e|]]; simpl in *.
      * split; [|exact Hs]. constructor; [exact Ha | apply Forall2_unreached].
      * destruct (IH xs Hrest (S k) s') as [IHl IHs].
        destruct (for_each body (S k) l xs s') as [[l'' s''] e]. simpl in *.
        split; [constructor; assumption | eapply RS_trans; eassumption].
Qed.
End LoopFacts.

Section LoopIndexFacts.
Context {A X St : Type}.
Variable body : nat -> A -> X -> St -> out (A * St).

Lemma for_each_length l xs k s :
  length (fst (fst (for_each body k l xs s))) = length l.
Proof.
  revert xs k s. induction l as [|a l IH]; intros [|x xs] k s; simpl; try reflexivity.
  destruct (body k a x s) as [[a' s'] [e|]]; simpl; [reflexivity|].
  specialize (IH xs (S k) s').
  destruct (for_each body (S k) l xs s') as [[l'' s''] e]. simpl in *. f_equal. exact IH.
Qed.

(** Whatever the outcome, the element at [j] is as it was, or as the body
    left it when run on it with its index. *)
Lemma for_each_nth l xs k s j a :
  nth_error l j = Some a ->
  exists a',
    nth_error (fst (fst (for_each body k l xs s))) j = Some a' /\
    (a' = a \/
     exists x s0, nth_error xs j = Some x /\ a' = fst (fst (body (k + j) a x s0))).
Proof.
  revert xs k s j. induction l as [|b l IH]; intros xs k s j; [destruct j; discriminate|].
  destruct xs as [|x xs].
  - simpl. intros Hj. exists a. split; [exact Hj | left; reflexivity].
  - simpl. destruct (body k b x s) as [[b' s'] [e|]] eqn:Hb.
    + destruct j; simpl.
      * intros Hj. inversion Hj; subst. exists b'. split; [reflexivity|].
        right. exists x, s. rewrite Nat.add_0_r, Hb. split; reflexivity.
      * intros Hj. exists a. split; [exact Hj | left; reflexivity].
    + specialize (IH xs (S k) s').
      destruct (for_each body (S k) l xs s') as [[l'' s''] e] eqn:Hrest. simpl in *.
      destruct j; simpl.
      * intros Hj. inversion Hj; subst. exists b'. split; [reflexivity|].
        right. exists x, s. rewrite Nat.add_0_r, Hb. split; reflexivity.
      * intros Hj. destruct (IH j Hj) as (a' & Ha' & Hcase).
        exists a'. split; [exact Ha'|].
        destruct Hcase as [Heq | (x0 & s0 & Hx & Heq)]; [left; exact Heq|].
        right. exists x0, s0. rewrite Nat.add_succ_r. split; assumption.
Qed.

(** When the loop ends without exception, the body has run without
    exception on every element [zip] reaches, and the others are as they were. *)
Lemma for_each_ok_nth l xs k s l' s' j a :
  for_each body k l xs s = ((l', s'), None) ->
  nth_error l j = Some a ->
  match nth_error xs j with
  | Some x => exists s0 s1 a', body (k + j) a x s0 = ((a', s1), None) /\
                               nth_error l' j = Some a'
  | None => nth_error l' j = Some a
  end.
Proof.
  revert xs k s l' s' j. induction l as [|b l IH]; intros xs k s l' s' j;
    [destruct j; discriminate|].
  destruct xs as [|x xs].
  - simpl. intros Hrun Hj. inversion Hrun; subst. destruct j; exact Hj.
  - simpl. destruct (body k b x s) as [[b' s1] [e|]] eqn:Hb; [discriminate|].
    destruct (for_each body (S k) l xs s1) as [[l'' s''] e] eqn:Hrest.
    intros Hrun Hj. inversion Hrun; subst.
    destruct j; simpl in *.
    + inversion Hj; subst. exists s, s1, b'. rewrite Nat.add_0_r. split; [exact Hb | reflexivity].
    + specialize (IH xs (S k) s1 l'' s' j Hrest Hj). rewrite Nat.add_succ_r. exact IH.
Qed.

End LoopIndexFacts.

Section SequenceFacts.
Context {S1 S2 : Type}.

Lemma and_then_ok (x : out S1) (inj : S1 -> S2) (k : S1 -> out S2) t :
  and_then x inj k = (t, None) -> exists s, x = (s, None) /\ k s = (t, None).
Proof.
  destruct x as [s [e|]]; simpl; [discriminate|]. intros Hk. exists s. auto.
Qed.

Lemma and_then_cases (x : out S1) (inj : S1 -> S2) (k : S1 -> out S2) :
  (exists s e, x = (s, Some e) /\ and_then x inj k = (inj s, Some e)) \/
  (exists s, x = (s, None) /\ and_then x inj k = k s).
Proof.
  destruct x as [s [e|]]; simpl; [left | right]; eauto.
Qed.
End SequenceFacts.

Lemma keeps_done {S T} (proj : S -> T) : keeps proj (fun s => done s).
Proof. intros s. reflexivity. Qed.

Lemma keeps_bind {S T} (proj : S -> T) (f g : S -> out S) :
  keeps proj f -> keeps proj g -> keeps proj (fun s => f s >>= g).
Proof.
  intros Hf Hg s. specialize (Hf s). unfold and_then.
  destruct (f s) as [s' [e|]]; simpl in *; [exact Hf|].
  rewrite Hg. exact Hf.
Qed.

Lemma keeps_for_range {S T} (proj : S -> T) (body : nat -> S -> out S) idx :
  (forall i, keeps proj (body i)) -> keeps proj (for_range body idx).
Proof.
  intros Hb. induction idx as [|i idx IH]; simpl.
  - apply keeps_done.
  - apply keeps_bind; [apply Hb | exact IH].
Qed.

Lemma for_range_ok_inv {S} (P : S -> Prop) (body : nat -> S -> out S) idx s s' :
  (forall i s1 s2, P s1 -> body i s1 = (s2, None) -> P s2) ->
  P s -> for_range body idx s = (s', None) -> P s'.
Proof.
  intros Hbody. revert s. induction idx as [|i idx IH]; intros s Hs; simpl.
  - unfold done. intros Heq. inversion Heq; subst. exact Hs.
  - intros Hrun. apply and_then_ok in Hrun. destruct Hrun as (s1 & Hb & Hrest).
    eapply IH; [eapply Hbody; eassumption | exact Hrest].
Qed.

Lemma length_inplace {F} (old new : tensor F) : length (inplace old new) = length old.
Proof.
  unfold inplace. rewrite length_firstn, length_app, length_skipn. lia.
Qed.

Lemma map_length_list_set {A} (l : list (list A)) i old new :
  nth_error l i = Some old -> length new = length old ->
  map (@length A) (list_set i new l) = map (@length A) l.
Proof.
  revert i. induction l as [|a l IH]; intros [|i]; simpl; try discriminate.
  - intros Ha Hlen. inversion Ha; subst. rewrite Hlen. reflexivity.
  - intros Ha Hlen. f_equal. apply IH; assumption.
Qed.

Lemma bind_fst_cases {S} (f g : S -> out S) s :
  fst (f s >>= g) = fst (f s) \/ fst (f s >>= g) = fst (g (fst (f s))).
Proof.
  unfold and_then. destruct (f s) as [s' [e|]]; simpl; [left | right]; reflexivity.
Qed.

Lemma zip_pad_fst {A X} (l : list A) (xs : list X) : map fst (zip_pad l xs) = l.
Proof.
  revert xs. induction l as [|a l IH]; intros [|x xs]; simpl; try reflexivity.
  - f_equal. rewrite map_map. simpl. apply map_id.
  - f_equal. apply IH.
Qed.

Lemma Forall2_zip_pad {A X B} (R : A -> B -> Prop) (l : list A) (xs : list X) l' :
  Forall2 (fun ax b => R (fst ax) b) (zip_pad l xs) l' -> Forall2 R l l'.
Proof.
  intros HR. rewrite <- (zip_pad_fst l xs).
  induction HR; simpl; constructor; assumption.
Qed.

Lemma zip_pad_nth_error {A X} (l : list A) (xs : list X) j a :
  nth_error l j = Some a -> nth_error (zip_pad l xs) j = Some (a, nth_error xs j).
Proof.
  revert xs j. induction l as [|b l IH]; intros xs j; [destruct j; discriminate|].
  destruct xs as [|x xs].
  - simpl zip_pad. intros Hj.
    change ((b, None) :: map (fun a0 : A => (a0, @None X)) l)
      with (map (fun a0 : A => (a0, @None X)) (b :: l)).
    rewrite nth_error_map, Hj. simpl. destruct j; reflexivity.
  - destruct j; simpl.
    + intros Hj. inversion Hj; reflexivity.
    + apply IH.
Qed.

(** ** Reading the per-parameter dicts *)

Section Views.
Context {F : Type} `{Scalar F}.

Lemma set_params_id (g : Group F) : set_params (params g) g = g.
Proof. destruct g; reflexivity. Qed.

Lemma touch_full (p : Param F) : is_full p -> touch p = p.
Proof. intros [s Hs]. unfold touch. rewrite Hs. reflexivity. Qed.

Lemma state_exp_avg_full (p : Param F) : is_full p -> state_exp_avg p = Ok (exp_avg_of p).
Proof. intros [s Hs]. unfold state_exp_avg, exp_avg_of. rewrite Hs. reflexivity. Qed.

Lemma state_exp_avg_ok (p : Param F) m : state_exp_avg p = Ok m -> is_full p.
Proof.
  unfold state_exp_avg, is_full. destruct (p_state p); try discriminate.
  intros _. eexists; reflexivity.
Qed.

Lemma collect_params_full {X} (f : Param F -> Storage F -> X) ps :
  Forall is_full ps ->
  collect_params f ps = ((ps, map (fun p => f p (exp_avg_of p)) ps), None).
Proof.
  induction 1 as [|p ps Hp Hps IH]; simpl; [reflexivity|].
  rewrite (state_exp_avg_full Hp), IH, (touch_full Hp). reflexivity.
Qed.

Lemma collect_groups_full {X} (f : Param F -> Storage F -> X) gs :
  all_full gs ->
  collect_groups f gs =
    ((gs, map (fun g => map (fun p => f p (exp_avg_of p)) (params g)) gs), None).
Proof.
  induction 1 as [|g gs Hg Hgs IH]; simpl; [reflexivity|].
  rewrite (collect_params_full f Hg), IH, set_params_id. reflexivity.
Qed.

Lemma collect_params_ok {X} (f : Param F -> Storage F -> X) ps ps' xs :
  collect_params f ps = ((ps', xs), None) -> Forall is_full ps.
Proof.
  revert ps' xs. induction ps as [|p ps IH]; intros ps' xs; simpl; [constructor|].
  destruct (state_exp_avg p) eqn:Hp; [|discriminate].
  destruct (collect_params f ps) as [[ps'' ys] e] eqn:Hc.
  intros Heq. inversion Heq; subst.
  constructor; [eapply state_exp_avg_ok; eassumption | eapply IH; reflexivity].
Qed.

Lemma collect_groups_ok {X} (f : Param F -> Storage F -> X) gs gs' xss :
  collect_groups f gs = ((gs', xss), None) -> all_full gs.
Proof.
  revert gs' xss. induction gs as [|g gs IH]; intros gs' xss; simpl; [constructor|].
  destruct (collect_params f (params g)) as [[ps xs] [e|]] eqn:Hp; [discriminate|].
  destruct (collect_groups f gs) as [[gs'' yss] e] eqn:Hc.
  intros Heq. inversion Heq; subst.
  constructor; [eapply collect_params_ok; eassumption | eapply IH; reflexivity].
Qed.

Lemma Forall_all_params (P : Param F -> Prop) (gs : list (Group F)) :
  Forall P (all_params gs) <-> (forall g p, In g gs -> In p (params g) -> P p).
Proof.
  unfold all_params. rewrite Forall_forall. split.
  - intros Hall g p Hg Hp. apply Hall. apply in_concat.
    exists (params g). split; [apply in_map; exact Hg | exact Hp].
  - intros Hall p Hin. apply in_concat in Hin. destruct Hin as (ps & Hps & Hp).
    apply in_map_iff in Hps. destruct Hps as (g & Heq & Hg). subst ps. eauto.
Qed.
End Views.

(** ** The fused momentum buffer *)

Section Fusion.
Context {F : Type} `{Scalar F}.

Lemma slice_middle {A} (pre t post : list A) :
  firstn (length t) (skipn (length pre) (pre ++ t ++ post)) = t.
Proof.
  rewrite skipn_app, skipn_all, Nat.sub_diag. simpl.
  rewrite firstn_app, firstn_all, Nat.sub_diag. simpl. apply app_nil_r.
Qed.

Lemma all_params_cons (g : Group F) gs :
  all_params (g :: gs) = params g ++ all_params gs.
Proof. reflexivity. Qed.

Lemma all_full_flat (gs : list (Group F)) :
  all_full gs <-> Forall is_full (all_params gs).
Proof.
  unfold all_full. induction gs as [|g gs IH]; simpl.
  - split; constructor.
  - rewrite all_params_cons, Forall_app. split.
    + intros Hf. inversion Hf; subst. split; [assumption | apply IH; assumption].
    + intros [H1 H2]. constructor; [assumption | apply IH; assumption].
Qed.

(** [rebind_groups] visits the parameters in the order of [all_params]. *)
Lemma rebind_params_app (flat : list (tensor F)) off ps qs :
  rebind_params flat off (ps ++ qs) =
    (fst (rebind_params flat off ps) ++
       fst (rebind_params flat (snd (rebind_params flat off ps)) qs),
     snd (rebind_params flat (snd (rebind_params flat off ps)) qs)).
Proof.
  revert off. induction ps as [|p ps IH]; intros off; simpl.
  - destruct (rebind_params flat off qs); reflexivity.
  - destruct (p_state p) as [| | |s].
    1-3: rewrite IH; destruct (rebind_params flat off ps) as [a b]; simpl;
         destruct (rebind_params flat b qs); reflexivity.
    rewrite IH.
    destruct (rebind_params flat (off + numel (read flat (s_exp_avg s))) ps) as [a b]; simpl.
    destruct (rebind_params flat b qs); reflexivity.
Qed.

Lemma rebind_groups_flat (flat : list (tensor F)) off (gs : list (Group F)) :
  all_params (fst (rebind_groups flat off gs)) = fst (rebind_params flat off (all_params gs))
  /\ snd (rebind_groups flat off gs) = snd (rebind_params flat off (all_params gs)).
Proof.
  revert off. induction gs as [|g gs IH]; intros off; simpl.
  - split; reflexivity.
  - rewrite all_params_cons, rebind_params_app.
    destruct (rebind_params flat off (params g)) as [ps off'] eqn:Hp. simpl.
    destruct (IH off') as [IH1 IH2].
    destruct (rebind_groups flat off' gs) as [gs' off''] eqn:Hg. simpl in *.
    rewrite all_params_cons. simpl. rewrite IH1, IH2. split; reflexivity.
Qed.

Lemma rebind_groups_shape (flat : list (tensor F)) off (gs : list (Group F)) :
  Forall2 (fun g g' => hyper g' = hyper g /\ length (params g') = length (params g))
          gs (fst (rebind_groups flat off gs)).
Proof.
  revert off. induction gs as [|g gs IH]; intros off; simpl; [constructor|].
  destruct (rebind_params flat off (params g)) as [ps off'] eqn:Hp.
  specialize (IH off'). destruct (rebind_groups flat off' gs) as [gs' off'']. simpl in *.
  constructor; [|assumption]. split; [reflexivity|]. simpl.
  clear -Hp. revert off ps off' Hp.
  induction (params g) as [|p l IHl]; intros off ps off' Hp; simpl in *.
  - inversion Hp; reflexivity.
  - destruct (p_state p);
      match type of Hp with
      | (let (_, _) := rebind_params ?f ?o ?l in _) = _ =>
          destruct (rebind_params f o l) as [a b] eqn:Hr
      end; inversion Hp; subst; simpl; f_equal; eapply IHl; eassumption.
Qed.

(** Each parameter gets the view that follows those before it; the view
    shows, in a buffer laid out as [pre ++ momenta ++ post], what the
    momentum held. *)
Lemma rebind_params_spec (old : list (tensor F)) (ps : list (Param F)) :
  Forall is_full ps ->
  forall pre post,
    snd (rebind_params old (length pre) ps) =
      (length pre + length (concat (map (momentum old) ps)))%nat /\
    Forall2 (fun p p' =>
               p_data p' = p_data p /\ p_grad p' = p_grad p /\
               exists s off,
                 p_state p = FullEntry s /\
                 p_state p' = FullEntry (set_s_exp_avg (InFlat off (numel (momentum old p))) s) /\
                 (length pre <= off)%nat /\
                 (off + numel (momentum old p) <=
                    length pre + length (concat (map (momentum old) ps)))%nat /\
                 firstn (numel (momentum old p))
                   (skipn off (pre ++ concat (map (momentum old) ps) ++ post)) =
                   momentum old p)
            ps (fst (rebind_params old (length pre) ps)).
Proof.
  induction 1 as [|p ps [s Hs] Hps IH]; intros pre post; simpl.
  - split; [lia | constructor].
  - rewrite Hs.
    assert (Hm : momentum old p = read old (s_exp_avg s)).
    { unfold momentum, exp_avg_of. rewrite Hs. reflexivity. }
    rewrite <- Hm.
    specialize (IH (pre ++ momentum old p) post).
    rewrite length_app in IH. unfold numel in *.
    destruct (rebind_params old (length pre + length (momentum old p)) ps) as [ps' off'].
    simpl in *. destruct IH as [IHoff IHps]. rewrite length_app. split; [lia|].
    constructor.
    + split; [reflexivity|]. split; [reflexivity|].
      exists s, (length pre). split; [assumption|]. split; [reflexivity|].
      split; [lia|]. split; [lia|].
      repeat rewrite <- app_assoc. apply slice_middle.
    + eapply Forall2_impl; [|exact IHps].
      intros q q' (Hd & Hg & s' & off & Hq & Hq' & Hlo & Hhi & Hsl).
      split; [assumption|]. split; [assumption|].
      exists s', off. split; [assumption|]. split; [assumption|].
      split; [lia|]. split; [lia|].
      repeat rewrite <- app_assoc in Hsl. repeat rewrite <- app_assoc. exact Hsl.
Qed.

Lemma concat_map_params {X} (f : Param F -> X) (gs : list (Group F)) :
  concat (map (fun g => map f (params g)) gs) = map f (all_params gs).
Proof.
  unfold all_params. induction gs as [|g gs IH]; simpl; [reflexivity|].
  rewrite map_app, IH. reflexivity.
Qed.

(** What lines 253-277 do when there is no fused buffer yet and every
    parameter has its dict. *)
Lemma init_fused_momentum_run (o : Opt F) :
  exp_avg_flat o = [] ->
  all_full (param_groups o) ->
  (size (config o) * divider (config o))%nat <> 0%nat ->
  all_params (param_groups o) <> [] ->
  let m := (size (config o) * divider (config o))%nat in
  let ts := tensor_size (param_groups o) in
  let pad := if Nat.eqb (ts mod m) 0 then 0%nat else (m - ts mod m)%nat in
  exists o',
    init_fused_momentum o = (o', None) /\
    exp_avg_flat o' = [concat (map (momentum []) (all_params (param_groups o))) ++ zeros pad] /\
    param_groups o' = fst (rebind_groups [] 0 (param_groups o)) /\
    corrected_tensor_sizes o' = corrected_tensor_sizes o ++ [(ts + pad)%nat] /\
    server_chunk_sizes o' = server_chunk_sizes o ++ [((ts + pad) / size (config o))%nat] /\
    dummy_exp_avg o' =
      (if Nat.eqb pad 0 then dummy_exp_avg o
       else Some (InFlat (snd (rebind_groups [] 0 (param_groups o))) pad)) /\
    config o' = config o /\ deepspeed o' = deepspeed o /\
    lamb_freeze_key o' = lamb_freeze_key o /\ initialize o' = initialize o /\
    worker_errors o' = worker_errors o /\ server_errors o' = server_errors o /\
    scaling_coeffs o' = scaling_coeffs o /\ lamb_coeffs o' = lamb_coeffs o.
Proof.
  intros Hflat Hfull Hm Hne m ts pad.
  unfold init_fused_momentum. rewrite Hflat. simpl negb. cbv iota.
  rewrite (collect_groups_full _ Hfull).
  rewrite !concat_map_params, !map_map. simpl fst. simpl snd.
  change (list_sum (map (fun x : Param F => numel (p_data x)) (all_params (param_groups o))))
    with ts.
  cbn [config set_param_groups]. fold m.
  destruct (Nat.eqb m 0) eqn:Hm0; [apply Nat.eqb_eq in Hm0; contradiction|].
  unfold padding.
  destruct (Nat.eqb (ts mod m) 0) eqn:Hmod; simpl negb; cbv iota.
  - (* no padding *)
    destruct (map (fun x : Param F => exp_avg_of x) (all_params (param_groups o))) eqn:Hmp.
    { apply map_eq_nil in Hmp. contradiction. }
    rewrite <- Hmp. clear Hmp.
    cbn [exp_avg_flat param_groups set_param_groups set_corrected_tensor_sizes
         set_server_chunk_sizes set_exp_avg_flat].
    rewrite Hflat. simpl app.
    destruct (rebind_groups [] 0 (param_groups o)) as [gs' off] eqn:Hr.
    eexists. split; [reflexivity|]. subst pad. cbn.
    rewrite Nat.add_0_r, app_nil_r, map_map.
    repeat split; reflexivity.
  - (* padding *)
    assert (Hpos : (m - ts mod m)%nat <> 0%nat).
    { pose proof (Nat.mod_upper_bound ts m Hm). lia. }
    destruct (map (fun x : Param F => exp_avg_of x) (all_params (param_groups o))
                ++ [Own (zeros (m - ts mod m))]) eqn:Hmp.
    { apply app_eq_nil in Hmp. destruct Hmp as [_ Hmp]. discriminate. }
    rewrite <- Hmp. clear Hmp.
    cbn [exp_avg_flat param_groups set_param_groups set_corrected_tensor_sizes
         set_server_chunk_sizes set_exp_avg_flat set_dummy_exp_avg].
    rewrite Hflat. simpl app.
    destruct (rebind_groups [] 0 (param_groups o)) as [gs' off] eqn:Hr.
    eexists. split; [reflexivity|]. subst pad. cbn.
    destruct (Nat.eqb (m - ts mod m) 0) eqn:Hz; [apply Nat.eqb_eq in Hz; contradiction|].
    rewrite map_app, concat_app, map_map. simpl. rewrite app_nil_r.
    repeat split; reflexivity.
Qed.
End Fusion.

(** ** Saving and loading *)

Section CheckpointFacts.
Context {F : Type} `{Scalar F}.

Lemma all_params_map_params (f : Param F -> Param F) (gs : list (Group F)) :
  all_params (map (fun g => set_params (map f (params g)) g) gs) = map f (all_params gs).
Proof.
  unfold all_params. induction gs as [|g gs IH]; simpl; [reflexivity|].
  rewrite map_app, IH. reflexivity.
Qed.

Lemma same_sizes_state_dict (loader saver : Opt F) :
  same_shape (param_groups loader) (param_groups saver) ->
  length (param_groups loader) = length (sd_param_groups (state_dict saver)) /\
  same_sizes (param_groups loader) (sd_param_groups (state_dict saver)) = true.
Proof.
  unfold same_shape, same_sizes, state_dict. simpl.
  induction 1 as [|g g' gs gs' Hg Hgs [IH1 IH2]]; simpl; [split; reflexivity|].
  split; [f_equal; exact IH1|].
  rewrite length_map, Hg, Nat.eqb_refl. exact IH2.
Qed.

Lemma params_restore_mask (g : Group F) m : params (restore_mask g m) = params g.
Proof. destruct m; reflexivity. Qed.

Lemma first_step_loaded (loader saver : Opt F) z :
  same_shape (param_groups loader) (param_groups saver) ->
  first_step (param_groups saver) = Some z ->
  exists g gs p ps s,
    loaded_groups loader saver = g :: gs /\ params g = p :: ps /\
    p_state p = FullEntry s /\ s_step s = z.
Proof.
  unfold loaded_groups, state_dict, first_step, param_at. simpl.
  intros Hshape Hfirst. destruct Hshape as [|g g' gs gs' Hg Hgs]; [discriminate|].
  simpl in Hfirst. simpl.
  destruct (params g') as [|p' ps'] eqn:Hp'; [discriminate|].
  destruct (params g) as [|p ps] eqn:Hp; [discriminate|].
  simpl in Hfirst. destruct (p_state p') as [| | |s] eqn:Hs; try discriminate.
  inversion Hfirst; subst z.
  do 5 eexists. split; [reflexivity|]. rewrite params_restore_mask. simpl.
  rewrite Hp. simpl. split; [reflexivity|]. simpl. rewrite Hs. simpl.
  split; reflexivity.
Qed.

(** [load_state_dict] on the dict of [saver]: the two branches of line 419. *)
Lemma load_state_dict_run (loader saver : Opt F) z :
  same_shape (param_groups loader) (param_groups saver) ->
  first_step (param_groups saver) = Some z ->
  let o1 := set_server_chunk_sizes []
              (set_corrected_tensor_sizes []
                 (set_dummy_exp_avg None
                    (set_exp_avg_flat []
                       (set_param_groups (loaded_groups loader saver) loader)))) in
  load_state_dict (state_dict saver) loader =
    if Z.leb (freeze_step (config loader)) z
    then load_compression (state_dict saver) o1
    else reset_compression o1.
Proof.
  intros Hshape Hfirst o1.
  destruct (same_sizes_state_dict loader saver Hshape) as [Hlen Hsizes].
  destruct (first_step_loaded loader saver Hshape Hfirst) as (g & gs & p & ps & s & Hg & Hp & Hs & Hz).
  unfold load_state_dict, torch_load_state_dict.
  rewrite Hlen, Nat.eqb_refl, Hsizes. simpl negb. cbv iota.
  cbn [param_groups set_param_groups set_server_chunk_sizes set_corrected_tensor_sizes
       set_dummy_exp_avg set_exp_avg_flat config].
  fold (loaded_groups loader saver). rewrite Hg, Hp, Hs, Hz.
  subst o1. rewrite Hg. reflexivity.
Qed.

Lemma reset_smoothing_spec (p : Param F) :
  smoothing_of (p_state (reset_smoothing p)) = Some (fzero, fone).
Proof. unfold reset_smoothing. destruct (p_state p); reflexivity. Qed.

(** Lines 439-448. *)
Lemma reset_compression_run (o : Opt F) :
  (lamb_freeze_key o = true -> deepspeed o <> None) ->
  exists o',
    reset_compression o = (o', None) /\
    lamb_freeze_key o' = false /\
    param_groups o' =
      map (fun g => set_params (map reset_smoothing (params g)) g) (param_groups o) /\
    worker_errors o' = [] /\ server_errors o' = [] /\ scaling_coeffs o' = [] /\
    (lamb_freeze_key o = true -> backward_allreduce o' = Some true) /\
    (lamb_freeze_key o = false -> deepspeed o' = deepspeed o).
Proof.
  intros Hengine. unfold reset_compression, backward_allreduce.
  destruct o as [cfg gs ds key ini flat dummy cs ss we se sc lc]. simpl in *.
  destruct key; simpl.
  - destruct ds as [engine|]; [|exfalso; apply Hengine; reflexivity]. simpl.
    eexists. split; [reflexivity|]. simpl. repeat split; try reflexivity. discriminate.
  - eexists. split; [reflexivity|]. simpl. repeat split; try reflexivity. discriminate.
Qed.

(** Lines 424-433. *)
Lemma load_compression_run (sd : StateDict F) (o : Opt F) w s sc :
  sd_worker_errors sd = Some w -> sd_server_errors sd = Some s ->
  sd_scaling_coeffs sd = Some sc -> (length w <= length s)%nat ->
  exists o',
    load_compression sd o = (o', None) /\
    lamb_freeze_key o' = lamb_freeze_key o /\
    worker_errors o' = w /\ server_errors o' = s /\ scaling_coeffs o' = sc.
Proof.
  intros Hw Hs Hsc Hlen. unfold load_compression. rewrite Hw, Hs, Hsc.
  destruct (Nat.ltb (length s) (length w)) eqn:Hl; [apply Nat.ltb_lt in Hl; lia|].
  eexists. split; [reflexivity|]. destruct o; simpl. repeat split; reflexivity.
Qed.
End CheckpointFacts.

(** ** What each part of [step] does to the parameters *)

Section GroupRelations.
Context {F : Type} `{Scalar F}.

Lemma groups_rel_refl (R : Param F -> Param F -> Prop) gs :
  (forall p, R p p) -> groups_rel R gs gs.
Proof.
  intros HR. unfold groups_rel. induction gs as [|g gs IH]; constructor; [|exact IH].
  split; [reflexivity | apply Forall2_refl; exact HR].
Qed.

Lemma groups_rel_trans (R1 R2 R3 : Param F -> Param F -> Prop) gs1 gs2 gs3 :
  (forall a b c, R1 a b -> R2 b c -> R3 a c) ->
  groups_rel R1 gs1 gs2 -> groups_rel R2 gs2 gs3 -> groups_rel R3 gs1 gs3.
Proof.
  intros HR H12. revert gs3. unfold groups_rel in *.
  induction H12 as [|g1 g2 l1 l2 [Hh12 Hp12] _ IH]; intros gs3 H23;
    inversion H23 as [|? g3 ? l3 [Hh23 Hp23] Hrest]; subst; constructor.
  - split; [congruence|].
    clear -HR Hp12 Hp23. revert Hp23. generalize (params g3).
    induction Hp12 as [|a b la lb Hab _ IHp]; intros l Hl; inversion Hl; subst;
      constructor; eauto.
  - apply IH. exact Hrest.
Qed.

Lemma groups_rel_impl (R1 R2 : Param F -> Param F -> Prop) gs gs' :
  (forall a b, R1 a b -> R2 a b) -> groups_rel R1 gs gs' -> groups_rel R2 gs gs'.
Proof.
  intros HR. unfold groups_rel. apply Forall2_impl.
  intros g g' [Hh Hp]. split; [exact Hh|]. eapply Forall2_impl; eassumption.
Qed.

Lemma groups_rel_param_at (R : Param F -> Param F -> Prop) gs gs' i j p :
  groups_rel R gs gs' -> param_at gs i j = Some p ->
  exists p', param_at gs' i j = Some p' /\ R p p'.
Proof.
  unfold param_at. intros Hrel Hp.
  destruct (nth_error gs i) as [g|] eqn:Hg; [|discriminate].
  destruct (Forall2_nth_error_l _ Hrel Hg) as (g' & Hg' & _ & Hps).
  rewrite Hg'. eapply Forall2_nth_error_l; eassumption.
Qed.

Lemma groups_rel_all_params (R : Param F -> Param F -> Prop) gs gs' :
  groups_rel R gs gs' -> Forall2 R (all_params gs) (all_params gs').
Proof.
  unfold groups_rel, all_params.
  induction 1 as [|g g' l l' [_ Hp] _ IH]; simpl; [constructor|].
  apply Forall2_app; assumption.
Qed.

Variable R : Param F -> Param F -> Prop.
Hypothesis R_refl : forall p, R p p.

Lemma collect_params_rel {X} (f : Param F -> Storage F -> X) ps :
  (forall p, R p (touch p)) ->
  Forall2 R ps (fst (fst (collect_params f ps))).
Proof.
  intros Ht. induction ps as [|p ps IH]; simpl; [constructor|].
  destruct (state_exp_avg p).
  - destruct (collect_params f ps) as [[ps' xs] e]. simpl in *. constructor; auto.
  - simpl. constructor; [apply Ht | apply Forall2_refl; exact R_refl].
Qed.

Lemma collect_groups_rel {X} (f : Param F -> Storage F -> X) gs :
  (forall p, R p (touch p)) ->
  groups_rel R gs (fst (fst (collect_groups f gs))).
Proof.
  intros Ht. unfold groups_rel. induction gs as [|g gs IH]; simpl; [constructor|].
  pose proof (collect_params_rel f (params g) Ht) as Hp.
  destruct (collect_params f (params g)) as [[ps xs] [e|]]; simpl in *.
  - constructor; [split; [reflexivity | exact Hp]|].
    apply (groups_rel_refl R gs R_refl).
  - destruct (collect_groups f gs) as [[gs' xss] e]. simpl in *.
    constructor; [split; [reflexivity | exact Hp] | exact IH].
Qed.

Lemma rebind_params_rel (flat : list (tensor F)) off ps :
  (forall p s v, p_state p = FullEntry s ->
     R p (set_p_state (FullEntry (set_s_exp_avg v s)) p)) ->
  Forall2 R ps (fst (rebind_params flat off ps)).
Proof.
  intros Hv. revert off. induction ps as [|p ps IH]; intros off; simpl; [constructor|].
  destruct (p_state p) as [| | |s] eqn:Hs.
  1-3: specialize (IH off); destruct (rebind_params flat off ps); simpl in *;
       constructor; auto.
  specialize (IH (off + numel (read flat (s_exp_avg s)))%nat).
  destruct (rebind_params flat (off + numel (read flat (s_exp_avg s))) ps).
  simpl in *. constructor; auto.
Qed.

Lemma rebind_groups_rel (flat : list (tensor F)) off gs :
  (forall p s v, p_state p = FullEntry s ->
     R p (set_p_state (FullEntry (set_s_exp_avg v s)) p)) ->
  groups_rel R gs (fst (rebind_groups flat off gs)).
Proof.
  intros Hv. unfold groups_rel. revert off.
  induction gs as [|g gs IH]; intros off; simpl; [constructor|].
  pose proof (rebind_params_rel flat off (params g) Hv) as Hp.
  destruct (rebind_params flat off (params g)) as [ps off'].
  specialize (IH off'). destruct (rebind_groups flat off' gs) as [gs' off''].
  simpl in *. constructor; [split; [reflexivity | exact Hp] | exact IH].
Qed.

(** A loop over the groups whose body is a loop over the parameters. *)
Lemma nested_loop_rel {X Y : Type}
    (body : Hyper F -> nat -> nat -> Param F -> X -> Shared F -> out (Param F * Shared F))
    (xs_of : Group F -> Y -> list X) gs ys sh :
  (forall h i j p x s, R p (fst (fst (body h i j p x s)))) ->
  groups_rel R gs
    (fst (fst (for_each
                 (fun i g y s =>
                    and_then (for_each (body (hyper g) i) 0 (params g) (xs_of g y) s)
                             (fun r => (set_params (fst r) g, snd r))
                             (fun r => done (set_params (fst r) g, snd r)))
                 0 gs ys sh))).
Proof.
  intros Hbody. unfold groups_rel.
  eapply Forall2_zip_pad with (xs := ys).
  refine (proj1 (@for_each_rel _ _ _ _
                   (fun g (_ : option Y) g' => hyper g' = hyper g /\ Forall2 R (params g) (params g'))
                   (fun _ _ => True) (fun _ _ => True) _ _ _ _ gs ys _ 0%nat sh)).
  - intros g _. split; [reflexivity | apply Forall2_refl; exact R_refl].
  - auto.
  - auto.
  - intros i g y s _. split; [|exact I].
    pose proof (@for_each_rel _ _ _ (body (hyper g) i)
                  (fun p (_ : option X) p' => R p p') (fun _ _ => True) (fun _ _ => True)
                  (fun p _ => R_refl p) (fun _ => I) (fun _ _ _ _ _ => I)) as Hin.
    specialize (Hin (fun k p x s0 _ => conj (Hbody (hyper g) i k p x s0) I)).
    specialize (Hin (params g) (xs_of g y)).
    assert (Hpre : Forall (fun ax : Param F * X => True) (combine (params g) (xs_of g y))).
    { apply Forall_forall. auto. }
    specialize (Hin Hpre 0%nat s). destruct Hin as [Hin _].
    apply Forall2_zip_pad in Hin.
    unfold and_then.
    destruct (for_each (body (hyper g) i) 0 (params g) (xs_of g y) s) as [[ps s'] [e|]];
      simpl in *; split; try reflexivity; exact Hin.
  - apply Forall_forall. auto.
Qed.

(** The shared state through a loop over the groups whose body is a loop
    over the parameters. *)
Lemma nested_loop_shared {X Y : Type} (RS : Shared F -> Shared F -> Prop)
    (body : Hyper F -> nat -> nat -> Param F -> X -> Shared F -> out (Param F * Shared F))
    (xs_of : Group F -> Y -> list X) gs ys sh :
  (forall s, RS s s) -> (forall s1 s2 s3, RS s1 s2 -> RS s2 s3 -> RS s1 s3) ->
  (forall h i j p x s, RS s (snd (fst (body h i j p x s)))) ->
  RS sh
    (snd (fst (for_each
                 (fun i g y s =>
                    and_then (for_each (body (hyper g) i) 0 (params g) (xs_of g y) s)
                             (fun r => (set_params (fst r) g, snd r))
                             (fun r => done (set_params (fst r) g, snd r)))
                 0 gs ys sh))).
Proof.
  intros Hrefl Htrans Hbody.
  refine (proj2 (@for_each_rel _ _ _ _ (fun _ _ _ => True) RS (fun _ _ => True)
                   _ Hrefl Htrans _ gs ys _ 0%nat sh)).
  - auto.
  - intros i g y s _. split; [exact I|].
    pose proof (@for_each_rel _ _ _ (body (hyper g) i)
                  (fun _ _ _ => True) RS (fun _ _ => True)
                  (fun _ _ => I) Hrefl Htrans) as Hin.
    specialize (Hin (fun k p x s0 _ => conj I (Hbody (hyper g) i k p x s0))).
    specialize (Hin (params g) (xs_of g y)).
    assert (Hpre : Forall (fun ax : Param F * X => True) (combine (params g) (xs_of g y))).
    { apply Forall_forall. auto. }
    specialize (Hin Hpre 0%nat s). destruct Hin as [_ Hin].
    unfold and_then.
    destruct (for_each (body (hyper g) i) 0 (params g) (xs_of g y) s) as [[ps s'] [e|]];
      simpl in *; exact Hin.
  - apply Forall_forall. auto.
Qed.

(** The same, when the visits keep the shared state related only for pairs
    that satisfy a precondition. *)
Lemma nested_loop_shared_pre {X Y : Type} (RS : Shared F -> Shared F -> Prop)
    (Pre : Param F -> X -> Prop)
    (body : Hyper F -> nat -> nat -> Param F -> X -> Shared F -> out (Param F * Shared F))
    (xs_of : Group F -> Y -> list X) gs ys sh :
  (forall s, RS s s) -> (forall s1 s2 s3, RS s1 s2 -> RS s2 s3 -> RS s1 s3) ->
  (forall h i j p x s, Pre p x -> RS s (snd (fst (body h i j p x s)))) ->
  Forall (fun gy => Forall (fun px => Pre (fst px) (snd px))
                      (combine (params (fst gy)) (xs_of (fst gy) (snd gy))))
         (combine gs ys) ->
  RS sh
    (snd (fst (for_each
                 (fun i g y s =>
                    and_then (for_each (body (hyper g) i) 0 (params g) (xs_of g y) s)
                             (fun r => (set_params (fst r) g, snd r))
                             (fun r => done (set_params (fst r) g, snd r)))
                 0 gs ys sh))).
Proof.
  intros Hrefl Htrans Hbody Hpre.
  refine (proj2 (@for_each_rel _ _ _ _ (fun _ _ _ => True) RS
                   (fun g y => Forall (fun px => Pre (fst px) (snd px))
                                 (combine (params g) (xs_of g y)))
                   _ Hrefl Htrans _ gs ys Hpre 0%nat sh)).
  - auto.
  - intros i g y s Hg. split; [exact I|].
    pose proof (@for_each_rel _ _ _ (body (hyper g) i)
                  (fun _ _ _ => True) RS Pre
                  (fun _ _ => I) Hrefl Htrans) as Hin.
    specialize (Hin (fun k p x s0 Hp => conj I (Hbody (hyper g) i k p x s0 Hp))).
    specialize (Hin (params g) (xs_of g y) Hg 0%nat s). destruct Hin as [_ Hin].
    unfold and_then.
    destruct (for_each (body (hyper g) i) 0 (params g) (xs_of g y) s) as [[ps s'] [e|]];
      simpl in *; exact Hin.
Qed.
End GroupRelations.

Section PhaseRelations.
Context {F : Type} `{Scalar F}.
Variable R : Param F -> Param F -> Prop.
Hypothesis R_refl : forall p, R p p.
Hypothesis R_trans : forall a b c, R a b -> R b c -> R a c.
Hypothesis R_touch : forall p, R p (touch p).
Hypothesis R_rebind :
  forall p s v, p_state p = FullEntry s ->
    R p (set_p_state (FullEntry (set_s_exp_avg v s)) p).

Lemma first_loop_param_groups gg (o : Opt F) loc :
  param_groups (fst (fst (first_loop gg (o, loc)))) =
    fst (fst (for_each (first_loop_group (config o) (initialize o) (scaling_coeffs o)) 0
                (param_groups o) gg (shared_of o loc))).
Proof.
  unfold first_loop, and_then.
  destruct (for_each _ 0 (param_groups o) gg (shared_of o loc)) as [[gs sh] [e|]];
    reflexivity.
Qed.

Lemma first_loop_groups_rel gg (o : Opt F) loc :
  (forall h i j p x s,
     R p (fst (fst (first_loop_body (config o) (initialize o) (scaling_coeffs o)
                      h i j p x s)))) ->
  groups_rel R (param_groups o) (param_groups (fst (fst (first_loop gg (o, loc))))).
Proof.
  intros Hbody. rewrite first_loop_param_groups.
  exact (nested_loop_rel R R_refl
           (first_loop_body (config o) (initialize o) (scaling_coeffs o))
           (fun g y => match y with
                       | None => repeat None (length (params g))
                       | Some l => l
                       end)
           (param_groups o) gg (shared_of o loc) Hbody).
Qed.

Lemma second_loop_groups_rel (o : Opt F) loc :
  (forall h i j p x s,
     R p (fst (fst (second_loop_body (config o) (scaling_coeffs o)
                      (exp_avg_last_step loc) h i j p x s)))) ->
  groups_rel R (param_groups o) (param_groups (fst (fst (second_loop (o, loc))))).
Proof.
  intros Hbody. unfold second_loop.
  destruct (lamb_freeze_key o && initialize o); [|apply groups_rel_refl; exact R_refl].
  pose proof (nested_loop_rel R R_refl
                (second_loop_body (config o) (scaling_coeffs o) (exp_avg_last_step loc))
                (fun g (_ : unit) => units (params g))
                (param_groups o) (units (param_groups o)) (shared_of o loc) Hbody) as Hrel.
  match goal with
  | |- groups_rel R _ (param_groups (fst (fst (and_then ?x ?a ?b)))) =>
      assert (Heq : param_groups (fst (fst (and_then x a b))) = fst (fst x))
  end.
  { unfold and_then.
    destruct (for_each _ 0 (param_groups o) (units (param_groups o)) (shared_of o loc))
      as [[gs sh] [e|]]; reflexivity. }
  rewrite Heq. exact Hrel.
Qed.

Lemma calibrate_groups_rel (o : Opt F) :
  groups_rel R (param_groups o) (param_groups (fst (calibrate o))).
Proof.
  unfold calibrate.
  destruct (negb (Nat.eqb (length (scaling_coeffs o)) 0));
    [apply groups_rel_refl; exact R_refl|].
  pose proof (collect_groups_rel R R_refl
                (fun _ m => momentum_scale (exp_avg_flat o) m) (param_groups o) R_touch) as Hc.
  destruct (collect_groups _ (param_groups o)) as [[gs ms] [e|]]; simpl in *; [exact Hc|].
  destruct (united_scale_of ms); simpl; [|exact Hc].
  destruct (append_scaling_coeffs a ms _) as [sc e]. simpl. exact Hc.
Qed.

Lemma snapshot_groups_rel (o : Opt F) loc :
  groups_rel R (param_groups o)
    (param_groups (fst (fst (snapshot_and_calibrate (o, loc))))).
Proof.
  unfold snapshot_and_calibrate.
  destruct (lamb_freeze_key o); [|apply groups_rel_refl; exact R_refl].
  pose proof (collect_groups_rel R R_refl
                (fun _ m => read (exp_avg_flat o) m) (param_groups o) R_touch) as Hc.
  destruct (collect_groups _ (param_groups o)) as [[gs cl] [e|]]; simpl in *; [exact Hc|].
  pose proof (calibrate_groups_rel (set_param_groups gs o)) as Hcal.
  unfold and_then.
  destruct (calibrate (set_param_groups gs o)) as [o' [e|]]; simpl in *;
    eapply groups_rel_trans; try exact Hc; try exact Hcal; exact R_trans.
Qed.

Lemma init_fused_groups_rel (o : Opt F) :
  groups_rel R (param_groups o) (param_groups (fst (init_fused_momentum o))).
Proof.
  unfold init_fused_momentum.
  destruct (negb (Nat.eqb (length (exp_avg_flat o)) 0));
    [apply groups_rel_refl; exact R_refl|].
  pose proof (collect_groups_rel R R_refl
                (fun p m => (m, numel (p_data p))) (param_groups o) R_touch) as Hc.
  destruct (collect_groups _ (param_groups o)) as [[gs items] [e|]]; simpl in *; [exact Hc|].
  destruct (Nat.eqb (size (config o) * divider (config o)) 0); [exact Hc|].
  set (padded := negb (Nat.eqb (list_sum (map snd (concat items))
                                  mod (size (config o) * divider (config o))) 0)).
  destruct padded.
  - destruct (map fst (concat items) ++ _) eqn:Hm; [simpl; exact Hc|].
    cbn [param_groups set_param_groups set_corrected_tensor_sizes set_server_chunk_sizes
         set_exp_avg_flat set_dummy_exp_avg exp_avg_flat].
    pose proof (rebind_groups_rel R R_refl (exp_avg_flat o) 0 gs R_rebind) as Hr.
    destruct (rebind_groups (exp_avg_flat o) 0 gs) as [gs' off]. simpl in *.
    eapply groups_rel_trans; [exact R_trans | exact Hc | exact Hr].
  - destruct (map fst (concat items)) eqn:Hm; [simpl; exact Hc|].
    cbn [param_groups set_param_groups set_corrected_tensor_sizes set_server_chunk_sizes
         set_exp_avg_flat set_dummy_exp_avg exp_avg_flat].
    pose proof (rebind_groups_rel R R_refl (exp_avg_flat o) 0 gs R_rebind) as Hr.
    destruct (rebind_groups (exp_avg_flat o) 0 gs) as [gs' off]. simpl in *.
    eapply groups_rel_trans; [exact R_trans | exact Hc | exact Hr].
Qed.
End PhaseRelations.

Ltac break_match :=
  match goal with
  | |- context [match ?x with _ => _ end] => destruct x eqn:?
  end.

Section FieldFrames.
Context {F : Type} `{Scalar F}.

Lemma append_scaling_coeffs_fst united ms (acc : list (list F)) :
  exists rows, fst (append_scaling_coeffs united ms acc) = acc ++ rows.
Proof.
  revert acc. induction ms as [|row ms IH]; intros acc; simpl.
  - exists []. rewrite app_nil_r. reflexivity.
  - destruct (coeffs_row united row) as [r|e]; simpl.
    + destruct (IH (acc ++ [r])) as [rows Hrows]. exists ([r] ++ rows).
      rewrite Hrows, <- app_assoc. reflexivity.
    + exists []. rewrite app_nil_r. reflexivity.
Qed.

Lemma calibrate_frame (o : Opt F) :
  let o' := fst (calibrate o) in
  config o' = config o /\ initialize o' = initialize o /\
  lamb_freeze_key o' = lamb_freeze_key o /\ deepspeed o' = deepspeed o /\
  exp_avg_flat o' = exp_avg_flat o /\ worker_errors o' = worker_errors o /\
  server_errors o' = server_errors o /\ lamb_coeffs o' = lamb_coeffs o /\
  dummy_exp_avg o' = dummy_exp_avg o /\
  corrected_tensor_sizes o' = corrected_tensor_sizes o /\
  server_chunk_sizes o' = server_chunk_sizes o.
Proof.
  unfold calibrate. repeat break_match; simpl; repeat split; congruence.
Qed.

Lemma snapshot_frame (o : Opt F) loc :
  let o' := fst (fst (snapshot_and_calibrate (o, loc))) in
  config o' = config o /\ initialize o' = initialize o /\
  lamb_freeze_key o' = lamb_freeze_key o /\ deepspeed o' = deepspeed o /\
  exp_avg_flat o' = exp_avg_flat o /\ worker_errors o' = worker_errors o /\
  server_errors o' = server_errors o /\ lamb_coeffs o' = lamb_coeffs o /\
  dummy_exp_avg o' = dummy_exp_avg o /\
  corrected_tensor_sizes o' = corrected_tensor_sizes o /\
  server_chunk_sizes o' = server_chunk_sizes o.
Proof.
  unfold snapshot_and_calibrate.
  destruct (lamb_freeze_key o) eqn:Hkey;
    [|simpl; repeat split; try reflexivity; assumption].
  destruct (collect_groups _ (param_groups o)) as [[gs cl] [e|]];
    [simpl; repeat split; try reflexivity; assumption|].
  pose proof (calibrate_frame (set_param_groups gs o)) as Hc. cbv zeta in Hc.
  unfold and_then. destruct (calibrate (set_param_groups gs o)) as [o' [e|]];
    simpl in *; rewrite Hkey in Hc; exact Hc.
Qed.

Lemma first_loop_frame gg (o : Opt F) loc :
  let o' := fst (fst (first_loop gg (o, loc))) in
  config o' = config o /\ initialize o' = initialize o /\
  deepspeed o' = deepspeed o /\ scaling_coeffs o' = scaling_coeffs o /\
  worker_errors o' = worker_errors o /\ server_errors o' = server_errors o /\
  dummy_exp_avg o' = dummy_exp_avg o /\
  corrected_tensor_sizes o' = corrected_tensor_sizes o /\
  server_chunk_sizes o' = server_chunk_sizes o.
Proof.
  unfold first_loop, and_then.
  destruct (for_each _ 0 (param_groups o) gg (shared_of o loc)) as [[gs sh] [e|]];
    simpl; repeat split; reflexivity.
Qed.

Lemma second_loop_frame (o : Opt F) loc :
  let o' := fst (fst (second_loop (o, loc))) in
  config o' = config o /\ initialize o' = initialize o /\
  deepspeed o' = deepspeed o /\ scaling_coeffs o' = scaling_coeffs o /\
  worker_errors o' = worker_errors o /\ server_errors o' = server_errors o /\
  dummy_exp_avg o' = dummy_exp_avg o /\
  corrected_tensor_sizes o' = corrected_tensor_sizes o /\
  server_chunk_sizes o' = server_chunk_sizes o.
Proof.
  unfold second_loop, and_then.
  destruct (lamb_freeze_key o && initialize o); [|simpl; repeat split; reflexivity].
  destruct (for_each _ 0 (param_groups o) _ (shared_of o loc)) as [[gs sh] [e|]];
    simpl; repeat split; reflexivity.
Qed.

Lemma init_fused_frame (o : Opt F) :
  let o' := fst (init_fused_momentum o) in
  config o' = config o /\ initialize o' = initialize o /\
  lamb_freeze_key o' = lamb_freeze_key o /\ deepspeed o' = deepspeed o /\
  scaling_coeffs o' = scaling_coeffs o /\ worker_errors o' = worker_errors o /\
  server_errors o' = server_errors o /\ lamb_coeffs o' = lamb_coeffs o.
Proof.
  unfold init_fused_momentum. repeat break_match; simpl; repeat split; congruence.
Qed.

Lemma append_error_buffers_frame i (o : Opt F) :
  let o' := fst (append_error_buffers i o) in
  config o' = config o /\ initialize o' = initialize o /\
  lamb_freeze_key o' = lamb_freeze_key o /\ deepspeed o' = deepspeed o /\
  scaling_coeffs o' = scaling_coeffs o /\ lamb_coeffs o' = lamb_coeffs o /\
  param_groups o' = param_groups o /\ exp_avg_flat o' = exp_avg_flat o /\
  dummy_exp_avg o' = dummy_exp_avg o /\
  corrected_tensor_sizes o' = corrected_tensor_sizes o /\
  server_chunk_sizes o' = server_chunk_sizes o.
Proof.
  unfold append_error_buffers. repeat break_match; simpl; repeat split; congruence.
Qed.

Lemma compressed_allreduce_frame net i k (o : Opt F) :
  let o' := fst (compressed_allreduce net i k o) in
  config o' = config o /\ initialize o' = initialize o /\
  lamb_freeze_key o' = lamb_freeze_key o /\ deepspeed o' = deepspeed o /\
  scaling_coeffs o' = scaling_coeffs o /\ lamb_coeffs o' = lamb_coeffs o /\
  param_groups o' = param_groups o /\
  dummy_exp_avg o' = dummy_exp_avg o /\
  corrected_tensor_sizes o' = corrected_tensor_sizes o /\
  server_chunk_sizes o' = server_chunk_sizes o.
Proof.
  unfold compressed_allreduce. repeat break_match; simpl; repeat split; congruence.
Qed.

Lemma keeps_append_error_buffers i :
  keeps (fun o : Opt F => (outside_buffers o, exp_avg_flat o)) (append_error_buffers i).
Proof.
  intros o. unfold outside_buffers.
  destruct (append_error_buffers_frame i o) as (? & ? & ? & ? & ? & ? & ? & ? & ? & ? & ?).
  congruence.
Qed.

Lemma keeps_init_error_buffers :
  keeps (fun o : Opt F => (outside_buffers o, exp_avg_flat o)) init_error_buffers.
Proof.
  intros o. unfold init_error_buffers.
  destruct (initialize o && Nat.eqb (length (worker_errors o)) 0); [|reflexivity].
  exact (@keeps_for_range _ _ (fun o : Opt F => (outside_buffers o, exp_avg_flat o))
           append_error_buffers _ keeps_append_error_buffers o).
Qed.

Lemma keeps_compressed_allreduce net i k :
  keeps (@outside_buffers F) (compressed_allreduce net i k).
Proof.
  intros o. unfold outside_buffers.
  destruct (compressed_allreduce_frame net i k o) as (? & ? & ? & ? & ? & ? & ? & ? & ? & ?).
  congruence.
Qed.

Lemma keeps_communicate net : keeps (@outside_buffers F) (communicate net).
Proof.
  intros o. unfold communicate.
  destruct (lamb_freeze_key o); [|reflexivity].
  destruct (Nat.ltb 1 (size (config o))); [|reflexivity].
  refine (@keeps_for_range _ _ (@outside_buffers F) (communicate_body net) _ _ o).
  intros i o1. unfold communicate_body.
  destruct (negb (initialize o1)); [|apply keeps_compressed_allreduce].
  refine (@keeps_bind _ _ (@outside_buffers F) _ _ _ _ o1); [apply keeps_bind|].
  - intros o2. pose proof (keeps_append_error_buffers i o2) as Hk. congruence.
  - apply keeps_compressed_allreduce.
  - intros o2. reflexivity.
Qed.

Lemma finish_frame (o : Opt F) loc :
  let o' := fst (finish (o, loc)) in
  config o' = config o /\ param_groups o' = param_groups o /\
  exp_avg_flat o' = exp_avg_flat o /\ scaling_coeffs o' = scaling_coeffs o /\
  worker_errors o' = worker_errors o /\ server_errors o' = server_errors o /\
  lamb_coeffs o' = lamb_coeffs o /\ dummy_exp_avg o' = dummy_exp_avg o /\
  corrected_tensor_sizes o' = corrected_tensor_sizes o /\
  server_chunk_sizes o' = server_chunk_sizes o.
Proof.
  unfold finish, disable_backward_allreduce.
  repeat break_match; simpl; repeat split; congruence.
Qed.
End FieldFrames.

Section StepRelations.
Context {F : Type} `{Scalar F}.
Variable o : Opt F.

Lemma frame_rel_refl (R : Param F -> Param F -> Prop) fr :
  (forall p, R p p) -> frame_rel o R fr fr.
Proof.
  intros HR Hc Hi. split; [exact Hc|]. split; [exact Hi|]. apply groups_rel_refl. exact HR.
Qed.

Lemma frame_rel_seq (R1 R2 R3 : Param F -> Param F -> Prop) fr1 fr2 fr3 :
  (forall a b c, R1 a b -> R2 b c -> R3 a c) ->
  frame_rel o R1 fr1 fr2 -> frame_rel o R2 fr2 fr3 -> frame_rel o R3 fr1 fr3.
Proof.
  intros HR H12 H23 Hc Hi. destruct (H12 Hc Hi) as (Hc2 & Hi2 & Hg12).
  destruct (H23 Hc2 Hi2) as (Hc3 & Hi3 & Hg23).
  split; [exact Hc3|]. split; [exact Hi3|]. eapply groups_rel_trans; eassumption.
Qed.

Lemma frame_rel_bind (R1 R2 R3 : Param F -> Param F -> Prop)
    (f g : Opt F * Locals F -> out (Opt F * Locals F)) :
  (forall a b c, R1 a b -> R2 b c -> R3 a c) ->
  (forall p, R2 p p) ->
  (forall fr, frame_rel o R1 fr (fst (f fr))) ->
  (forall fr, frame_rel o R2 fr (fst (g fr))) ->
  forall fr, frame_rel o R3 fr (fst (f fr >>= g)).
Proof.
  intros HR Hrefl Hf Hg fr. specialize (Hf fr). unfold and_then.
  destruct (f fr) as [fr' [e|]]; simpl in *.
  - eapply frame_rel_seq; [exact HR | exact Hf | apply frame_rel_refl; exact Hrefl].
  - eapply frame_rel_seq; [exact HR | exact Hf | apply Hg].
Qed.

Lemma frame_rel_on_opt (R : Param F -> Param F -> Prop) (f : Opt F -> out (Opt F)) :
  (forall o1, config (fst (f o1)) = config o1 /\ initialize (fst (f o1)) = initialize o1 /\
              groups_rel R (param_groups o1) (param_groups (fst (f o1)))) ->
  forall fr, frame_rel o R fr (fst (on_opt f fr)).
Proof.
  intros Hf [o1 loc] Hc Hi. destruct (Hf o1) as (Hc1 & Hi1 & Hg).
  unfold on_opt, and_then. simpl in *.
  destruct (f o1) as [o2 [e|]]; simpl in *; repeat split; congruence.
Qed.

Variables R1 R2 R3 : Param F -> Param F -> Prop.
Hypothesis R1_refl : forall p, R1 p p.
Hypothesis R1_trans : forall a b c, R1 a b -> R1 b c -> R1 a c.
Hypothesis R1_touch : forall p, R1 p (touch p).
Hypothesis R1_rebind :
  forall p s v, p_state p = FullEntry s ->
    R1 p (set_p_state (FullEntry (set_s_exp_avg v s)) p).
Hypothesis R1_first_loop :
  forall sc h i j p x s,
    R1 p (fst (fst (first_loop_body (config o) (initialize o) sc h i j p x s))).
Hypothesis R2_refl : forall p, R2 p p.
Hypothesis R2_second_loop :
  initialize o = true ->
  forall sc last h i j p x s,
    R2 p (fst (fst (second_loop_body (config o) sc last h i j p x s))).
Hypothesis R_seq : forall a b c, R1 a b -> R2 b c -> R3 a c.

Lemma snapshot_frame_rel fr : frame_rel o R1 fr (fst (snapshot_and_calibrate fr)).
Proof.
  destruct fr as [o1 loc]. intros Hc Hi. cbn [fst] in Hc, Hi.
  pose proof (snapshot_frame o1 loc) as Hfr; cbv zeta in Hfr; destruct Hfr as (Hc1 & Hi1 & _).
  split; [congruence|]. split; [congruence|].
  apply snapshot_groups_rel; assumption.
Qed.

Lemma first_loop_frame_rel gg fr : frame_rel o R1 fr (fst (first_loop gg fr)).
Proof.
  destruct fr as [o1 loc]. intros Hc Hi. cbn [fst] in Hc, Hi.
  pose proof (first_loop_frame gg o1 loc) as Hfr; cbv zeta in Hfr; destruct Hfr as (Hc1 & Hi1 & _).
  split; [congruence|]. split; [congruence|].
  apply first_loop_groups_rel; [exact R1_refl|].
  rewrite Hc, Hi. intros. apply R1_first_loop.
Qed.

Lemma second_loop_frame_rel fr : frame_rel o R2 fr (fst (second_loop fr)).
Proof.
  destruct fr as [o1 loc]. intros Hc Hi. cbn [fst] in Hc, Hi.
  pose proof (second_loop_frame o1 loc) as Hfr; cbv zeta in Hfr; destruct Hfr as (Hc1 & Hi1 & _).
  split; [congruence|]. split; [congruence|].
  destruct (initialize o) eqn:Hinit.
  - apply second_loop_groups_rel; [exact R2_refl|].
    rewrite Hc. intros. apply R2_second_loop. reflexivity.
  - unfold second_loop. rewrite Hi, andb_false_r. apply groups_rel_refl. exact R2_refl.
Qed.

Lemma init_fused_frame_rel fr : frame_rel o R1 fr (fst (on_opt init_fused_momentum fr)).
Proof.
  apply frame_rel_on_opt. intros o1.
  pose proof (init_fused_frame o1) as Hfr; cbv zeta in Hfr; destruct Hfr as (Hc1 & Hi1 & _).
  split; [exact Hc1|]. split; [exact Hi1|].
  apply init_fused_groups_rel; assumption.
Qed.

Lemma init_error_buffers_frame_rel fr :
  frame_rel o R1 fr (fst (on_opt init_error_buffers fr)).
Proof.
  apply frame_rel_on_opt. intros o1.
  pose proof (keeps_init_error_buffers o1) as Hk. unfold outside_buffers in Hk.
  inversion Hk as [[Hc1 Hi1 Hk1 Hd1 Hs1 Hl1 Hg1 Hdu Hco Hch Hfl]].
  split; [reflexivity|]. split; [reflexivity|].
  apply groups_rel_refl. exact R1_refl.
Qed.

Lemma communicate_frame_rel net fr :
  frame_rel o R1 fr (fst (on_opt (communicate net) fr)).
Proof.
  apply frame_rel_on_opt. intros o1.
  pose proof (keeps_communicate net o1) as Hk. unfold outside_buffers in Hk.
  inversion Hk as [[Hc1 Hi1 Hk1 Hd1 Hs1 Hl1 Hg1 Hdu Hco Hch]].
  split; [reflexivity|]. split; [reflexivity|].
  apply groups_rel_refl. exact R1_refl.
Qed.

(** The parameters after [step], whatever its outcome, are related to the
    parameters before by what the first loop and the fusion may do, followed
    by what the second loop may do. *)
Lemma step_groups_rel net grads :
  config (fst (step net grads o)) = config o /\
  groups_rel R3 (param_groups o) (param_groups (fst (step net grads o))).
Proof.
  unfold step.
  destruct (grads_group_of grads (length (param_groups o))) as [gg|e].
  2:{ simpl. split; [reflexivity|]. apply groups_rel_refl. intros p. eapply R_seq; eauto. }
  assert (Hpipe : forall fr,
             frame_rel o R3 fr
               (fst (snapshot_and_calibrate fr >>= first_loop gg >>=
                     on_opt init_fused_momentum >>= on_opt init_error_buffers >>=
                     on_opt (communicate net) >>= second_loop))).
  { apply (@frame_rel_bind R1 R2 R3); [exact R_seq | exact R2_refl | | apply second_loop_frame_rel].
    apply (@frame_rel_bind R1 R1 R1); [exact R1_trans | exact R1_refl | | apply communicate_frame_rel].
    apply (@frame_rel_bind R1 R1 R1); [exact R1_trans | exact R1_refl | | apply init_error_buffers_frame_rel].
    apply (@frame_rel_bind R1 R1 R1); [exact R1_trans | exact R1_refl | | apply init_fused_frame_rel].
    apply (@frame_rel_bind R1 R1 R1); [exact R1_trans | exact R1_refl | | apply first_loop_frame_rel].
    apply snapshot_frame_rel. }
  match goal with
  | |- context [and_then ?x fst finish] =>
      specialize (Hpipe (set_lamb_coeffs [] o,
                         {| exp_avg_last_step := []; state_var := None |}));
      destruct (Hpipe eq_refl eq_refl) as (Hc & _ & Hg); clear Hpipe;
      destruct x as [[o6 loc6] [e|]]
  end; unfold and_then; cbn [fst snd] in *.
  - split; assumption.
  - pose proof (finish_frame o6 loc6) as Hfr; cbv zeta in Hfr.
    destruct Hfr as (Hc6 & Hg6 & _).
    rewrite Hc6, Hg6. split; assumption.
Qed.
End StepRelations.

Section StepSuccess.
Context {F : Type} `{Scalar F}.

Lemma on_opt_ok (f : Opt F -> out (Opt F)) fr fr' :
  on_opt f fr = (fr', None) -> f (fst fr) = (fst fr', None) /\ snd fr' = snd fr.
Proof.
  unfold on_opt, and_then, done. destruct (f (fst fr)) as [o' [e|]]; [discriminate|].
  intros Heq. inversion Heq; subst. split; reflexivity.
Qed.

(** A step that ends without exception went through every part of it
    without exception. *)
Lemma step_ok_inv net grads (o o' : Opt F) :
  step net grads o = (o', None) ->
  exists gg o1 loc1 o2 loc2 o3 o4 o5 o6 loc6,
    grads_group_of grads (length (param_groups o)) = Ok gg /\
    snapshot_and_calibrate (set_lamb_coeffs [] o, no_locals) = ((o1, loc1), None) /\
    first_loop gg (o1, loc1) = ((o2, loc2), None) /\
    init_fused_momentum o2 = (o3, None) /\
    init_error_buffers o3 = (o4, None) /\
    communicate net o4 = (o5, None) /\
    second_loop (o5, loc2) = ((o6, loc6), None) /\
    finish (o6, loc6) = (o', None).
Proof.
  unfold step. destruct (grads_group_of grads (length (param_groups o))) as [gg|e];
    [|discriminate].
  fold (@no_locals F). intros Hrun.
  apply and_then_ok in Hrun. destruct Hrun as ([o6 loc6] & Hrun & Hfin).
  apply and_then_ok in Hrun. destruct Hrun as ([o5 loc5] & Hrun & Hsecond).
  apply and_then_ok in Hrun. destruct Hrun as ([o4 loc4] & Hrun & Hcomm).
  apply and_then_ok in Hrun. destruct Hrun as ([o3 loc3] & Hrun & Hbuf).
  apply and_then_ok in Hrun. destruct Hrun as ([o2 loc2] & Hrun & Hfuse).
  apply and_then_ok in Hrun. destruct Hrun as ([o1 loc1] & Hsnap & Hfirst).
  apply on_opt_ok in Hfuse, Hbuf, Hcomm. simpl in Hfuse, Hbuf, Hcomm.
  destruct Hfuse as [Hfuse ?], Hbuf as [Hbuf ?], Hcomm as [Hcomm ?]. subst.
  exists gg, o1, loc1, o2, loc2, o3, o4, o5, o6, loc6. repeat split; assumption.
Qed.
End StepSuccess.

(** ** What the stages do to one parameter *)

Section CellFacts.
Context {F : Type} `{Scalar F} {T : Type}.
Variable proj : Cell F -> T.
Hypothesis blind : stage_blind proj.

Lemma keeps_on_exp_avg f : keeps proj (on_exp_avg f).
Proof.
  destruct blind as (Hm & _). intros c. unfold on_exp_avg.
  destruct (f (cell_exp_avg c)); [|reflexivity].
  destruct (write _ _ _) as [m flat]. simpl. apply Hm.
Qed.

Lemma keeps_on_exp_avg_sq f : keeps proj (on_exp_avg_sq f).
Proof.
  destruct blind as (_ & Hv & _). intros c. unfold on_exp_avg_sq.
  destruct (f _); [|reflexivity]. simpl. apply Hv.
Qed.

Lemma keeps_on_exp_avg_sq_back f : keeps proj (on_exp_avg_sq_back f).
Proof.
  destruct blind as (_ & _ & Hv & _). intros c. unfold on_exp_avg_sq_back.
  destruct (f _); [|reflexivity]. simpl. apply Hv.
Qed.

Lemma keeps_apply_update h lamb_coeff update : keeps proj (apply_update h lamb_coeff update).
Proof.
  destruct blind as (_ & _ & _ & Hd & _). intros c. unfold apply_update.
  destruct (ew2 _ _ _); [|reflexivity]. simpl. apply Hd.
Qed.

Lemma keeps_momentum_update beta1 grad : keeps proj (momentum_update beta1 grad).
Proof.
  unfold momentum_update. apply keeps_bind; apply keeps_on_exp_avg.
Qed.

Lemma keeps_warmup_lamb cfg h : keeps proj (warmup_lamb cfg h).
Proof.
  destruct blind as (_ & _ & _ & _ & Hx & Hl). intros c. unfold warmup_lamb.
  destruct (ew2 fdiv _ _) as [update|]; [|reflexivity].
  destruct (if fgtb (weight_decay h) fzero then _ else _) as [update'|]; [|reflexivity].
  rewrite keeps_apply_update.
  match goal with
  | |- proj (set_c_shared (set_sh_lamb_coeffs ?l _) (set_c_state ?s c)) = _ =>
      transitivity (proj (set_c_state s c)); [exact (Hl (set_c_state s c) l)|]
  end.
  destruct (negb (feqb _ fone)); [apply Hx|].
  destruct c as [s d sh]; destruct s; reflexivity.
Qed.

Lemma keeps_warmup_stage cfg init h grad : keeps proj (warmup_stage cfg init h grad).
Proof.
  unfold warmup_stage. destruct (betas h) as [beta1 beta2].
  apply keeps_bind; [apply keeps_bind; [apply keeps_bind|]|].
  - apply keeps_momentum_update.
  - apply keeps_on_exp_avg_sq.
  - apply keeps_on_exp_avg_sq.
  - intros c. destruct blind as (_ & _ & Hv & _).
    destruct (Z.eqb (s_step (c_state c)) (freeze_step cfg)).
    + destruct init; [rewrite keeps_warmup_lamb|]; apply Hv.
    + destruct init; [apply keeps_warmup_lamb | reflexivity].
Qed.

Lemma keeps_compression_stage init sc h i j grad :
  keeps proj (compression_stage init sc h i j grad).
Proof.
  unfold compression_stage. destruct init; [|apply keeps_done].
  apply keeps_bind; [apply keeps_momentum_update|].
  intros c. destruct (nth_error sc i) as [row|]; [|reflexivity].
  destruct (nth_error row j); [apply keeps_on_exp_avg | reflexivity].
Qed.
End CellFacts.

Section FirstLoopBody.
Context {F : Type} `{Scalar F}.

Lemma get_or_init_partial (p : Param F) :
  (forall s, p_state (get_or_init p) <> FullEntry s) -> get_or_init p = p.
Proof.
  unfold get_or_init. destruct (p_state p) eqn:Hs; simpl; intros Hn; try reflexivity;
    exfalso; eapply Hn; reflexivity.
Qed.

(** The body of the first loop, case by case. *)
Lemma first_loop_body_spec cfg init sc h i j (p : Param F) x sh :
  match chosen_grad p x with
  | None => first_loop_body cfg init sc h i j p x sh = ((p, sh), None)
  | Some g =>
      if is_sparse g then
        first_loop_body cfg init sc h i j p x sh = ((p, sh), Some SparseGradientError)
      else
        match p_state (get_or_init p) with
        | FullEntry s =>
            exists c' e,
              first_loop_body cfg init sc h i j p x sh = (close_cell (get_or_init p) c', e) /\
              forall (T : Type) (proj : Cell F -> T), stage_blind proj ->
                proj c' = proj (cell_of s p (entered init i j sh))
        | _ =>
            first_loop_body cfg init sc h i j p x sh =
              ((p, entered init i j sh), Some KeyError)
        end
  end.
Proof.
  unfold first_loop_body, chosen_grad.
  destruct (match x with Some g => Some g | None => p_grad p end) as [g|]; [|reflexivity].
  destruct (is_sparse g); [reflexivity|].
  change (if negb init
          then set_sh_key true (set_sh_state (Some (i, j)) sh)
          else set_sh_state (Some (i, j)) sh) with (entered init i j sh).
  destruct (p_state (get_or_init p)) as [| | |s] eqn:Hs.
  1-3: rewrite get_or_init_partial; [reflexivity | intros s Hc; rewrite Hs in Hc; discriminate].
  assert (Hdata : p_data (get_or_init p) = p_data p).
  { unfold get_or_init. destruct (p_state p); reflexivity. }
  rewrite Hdata. fold (cell_of s p (entered init i j sh)).
  set (c0 := cell_of s p (entered init i j sh)).
  set (stage := if negb (sh_key (entered init i j sh))
                then warmup_stage cfg init h (g_data g) c0
                else compression_stage init sc h i j (g_data g) c0).
  assert (Hblind : forall (T : Type) (proj : Cell F -> T), stage_blind proj ->
                     proj (fst stage) = proj c0).
  { intros T proj Hb. subst stage.
    destruct (negb (sh_key (entered init i j sh)));
      [apply keeps_warmup_stage | apply keeps_compression_stage]; exact Hb. }
  destruct stage as [c' e]. exists c', e. split; [|exact Hblind].
  unfold and_then. destruct e; reflexivity.
Qed.
End FirstLoopBody.

Section SecondLoopBody.
Context {F : Type} `{Scalar F}.

Lemma last_factor_blind : stage_blind (fun c : Cell F => s_last_factor (c_state c)).
Proof. repeat split. Qed.

Lemma compressed_lamb_spec cfg h last (c : Cell F) :
  (forall (T : Type) (proj : Cell F -> T), factor_blind proj ->
     proj (fst (compressed_lamb cfg h last c)) = proj c) /\
  factor_step cfg (s_last_factor (c_state c))
    (s_last_factor (c_state (fst (compressed_lamb cfg h last c)))).
Proof.
  unfold compressed_lamb. destruct (betas h) as [beta1 beta2].
  destruct (ew2 fsub _ _) as [diff|]; [|split; [reflexivity | left; reflexivity]].
  set (f1 := on_exp_avg_sq_back (fun v => Ok (scale v beta2))).
  set (f2 := on_exp_avg_sq_back
               (fun v => addcmul_sq v (fsub fone beta2) (unscale diff (fsub fone beta1)))).
  assert (H12 : forall (T : Type) (proj : Cell F -> T), stage_blind proj ->
                  keeps proj (fun c => f1 c >>= f2)).
  { intros T proj Hb. apply keeps_bind; apply keeps_on_exp_avg_sq_back; exact Hb. }
  match goal with
  | |- context [and_then (and_then (f1 c) _ f2) _ ?k] => set (rest := k)
  end.
  assert (Hrest : forall c1,
             (forall (T : Type) (proj : Cell F -> T), factor_blind proj ->
                proj (fst (rest c1)) = proj c1) /\
             factor_step cfg (s_last_factor (c_state c1))
               (s_last_factor (c_state (fst (rest c1))))).
  { intros c1. subst rest. cbv beta.
    destruct (ew2 fdiv _ _) as [update_prelim|]; [|split; [reflexivity | left; reflexivity]].
    destruct (if fgtb (weight_decay h) fzero then _ else _) as [update|];
      [|split; [reflexivity | left; reflexivity]].
    destruct (raw_factor _ _ _ _ _) as [factor|];
      [|split; [reflexivity | left; reflexivity]].
    split.
    - intros T proj [Hb Hf]. rewrite (keeps_apply_update Hb).
      destruct Hb as (_ & _ & _ & _ & _ & Hl).
      match goal with
      | |- proj (set_c_shared (set_sh_lamb_coeffs ?l _) (set_c_state ?s c1)) = _ =>
          transitivity (proj (set_c_state s c1)); [exact (Hl (set_c_state s c1) l)|]
      end.
      apply Hf.
    - right. exists factor.
      rewrite (keeps_apply_update last_factor_blind). reflexivity. }
  destruct (bind_fst_cases (fun c => f1 c >>= f2) rest c) as [Hcase|Hcase];
    rewrite Hcase; clear Hcase.
  - split.
    + intros T proj [Hb _]. apply (H12 T proj Hb).
    + left. apply (H12 _ _ last_factor_blind).
  - destruct (Hrest (fst (f1 c >>= f2))) as [Hb Hf]. split.
    + intros T proj Hfb. rewrite (Hb T proj Hfb). apply (H12 T proj (proj1 Hfb)).
    + rewrite (H12 _ _ last_factor_blind c) in Hf. exact Hf.
Qed.

Lemma second_loop_cell_spec cfg sc last_step h i j (c : Cell F) :
  (forall (T : Type) (proj : Cell F -> T), factor_blind proj ->
     proj (fst (second_loop_cell cfg sc last_step h i j c)) = proj c) /\
  factor_step cfg (s_last_factor (c_state c))
    (s_last_factor (c_state (fst (second_loop_cell cfg sc last_step h i j c)))).
Proof.
  unfold second_loop_cell.
  destruct (index2 sc i j) as [coeff|]; [|split; [reflexivity | left; reflexivity]].
  set (f1 := on_exp_avg (fun m => Ok (unscale m coeff))).
  set (f2 := fun c : Cell F =>
               match exp_avg_mask h with
               | Some mask => on_exp_avg (fun m => ew2 fmul m mask) c
               | None => done c
               end).
  set (rest := fun c : Cell F =>
                 match index2 last_step i j with
                 | Raise e => raised c e
                 | Ok last => compressed_lamb cfg h last c
                 end).
  assert (H12 : forall (T : Type) (proj : Cell F -> T), stage_blind proj ->
                  keeps proj (fun c => f1 c >>= f2)).
  { intros T proj Hb. apply keeps_bind; [apply keeps_on_exp_avg; exact Hb|].
    intros c1. unfold f2. destruct (exp_avg_mask h);
      [apply keeps_on_exp_avg; exact Hb | reflexivity]. }
  assert (Hrest : forall c1,
             (forall (T : Type) (proj : Cell F -> T), factor_blind proj ->
                proj (fst (rest c1)) = proj c1) /\
             factor_step cfg (s_last_factor (c_state c1))
               (s_last_factor (c_state (fst (rest c1))))).
  { intros c1. unfold rest. destruct (index2 last_step i j);
      [apply compressed_lamb_spec | split; [reflexivity | left; reflexivity]]. }
  destruct (bind_fst_cases (fun c => f1 c >>= f2) rest c) as [Hcase|Hcase];
    rewrite Hcase; clear Hcase.
  - split.
    + intros T proj [Hb _]. apply (H12 T proj Hb).
    + left. apply (H12 _ _ last_factor_blind).
  - destruct (Hrest (fst (f1 c >>= f2))) as [Hb Hf]. split.
    + intros T proj Hfb. rewrite (Hb T proj Hfb). apply (H12 T proj (proj1 Hfb)).
    + rewrite (H12 _ _ last_factor_blind c) in Hf. exact Hf.
Qed.
End SecondLoopBody.

(** ** The correction factor *)

Section FactorFacts.
Context {F : Type} `{Scalar F}.




End FactorFacts.

(** ** The order of binary64

    [<] and [==] on floats, from the specification of the primitive
    operations: a total order on the numbers that are not NaN, and false
    whenever an operand is NaN. *)

Section Binary64Order.
Import SpecFloat FloatOps FloatAxioms.







Local Open Scope float_scope.










End Binary64Order.

(** ** The scaling coefficients *)

Section ScalingFacts.
Context {F : Type} `{Scalar F}.









Lemma step_scaling_coeffs_bad_grads net grads e (o : Opt F) :
  grads_group_of grads (length (param_groups o)) = Raise e ->
  step net grads o = (o, Some e).
Proof. intros Hgg. unfold step. rewrite Hgg. reflexivity. Qed.






End ScalingFacts.

(** ** The order of the first loop *)

Section VisitFacts.
Context {A X St T : Type}.
Variable body : nat -> A -> X -> St -> out (A * St).

(** A loop that ends without exception leaves in a component of the shared
    state what its visits assigned, one after the other. *)
Lemma for_each_ok_fold (proj : St -> T) (upd : nat -> A -> X -> T -> T) :
  (forall k a x s a' s', body k a x s = ((a', s'), None) -> proj s' = upd k a x (proj s)) ->
  forall l xs k s l' s',
    for_each body k l xs s = ((l', s'), None) ->
    proj s' = fold_visits upd k l xs (proj s).
Proof.
  intros Hbody. induction l as [|a l IH]; intros xs k s l' s'.
  - simpl. unfold done. intros Heq. inversion Heq; subst. destruct xs; reflexivity.
  - destruct xs as [|x xs].
    + simpl. unfold done. intros Heq. inversion Heq; subst. reflexivity.
    + simpl. destruct (body k a x s) as [[a' s1] [e|]] eqn:Hb; [discriminate|].
      destruct (for_each body (S k) l xs s1) as [[l'' s''] e] eqn:Hrest.
      intros Heq. inversion Heq; subst.
      rewrite (IH _ _ _ _ _ Hrest). rewrite (Hbody _ _ _ _ _ _ Hb). reflexivity.
Qed.

Lemma fold_visits_pick (f : nat -> A -> X -> option T) l xs k acc :
  fold_visits (pick f) k l xs acc =
    match fold_visits (pick f) k l xs None with
    | Some v => Some v
    | None => acc
    end.
Proof.
  revert xs k acc. induction l as [|a l IH]; intros [|x xs] k acc; simpl; try reflexivity.
  rewrite (IH xs (S k) (pick f k a x acc)), (IH xs (S k) (pick f k a x None)).
  unfold pick. destruct (fold_visits _ (S k) l xs None); [reflexivity|].
  destruct (f k a x); reflexivity.
Qed.

Lemma fold_visits_none (f : nat -> A -> X -> option T) l xs k :
  fold_visits (pick f) k l xs None = None ->
  forall j b y, nth_error l j = Some b -> nth_error xs j = Some y ->
    f (k + j)%nat b y = None.
Proof.
  revert xs k. induction l as [|a l IH]; intros xs k Hnone j b y Hb Hy;
    [destruct j; discriminate|].
  destruct xs as [|x xs]; [destruct j; discriminate|].
  simpl in Hnone. rewrite fold_visits_pick in Hnone.
  destruct (fold_visits (pick f) (S k) l xs None) eqn:Hrest; [discriminate|].
  unfold pick in Hnone. destruct (f k a x) eqn:Hf; [discriminate|].
  destruct j as [|j]; simpl in Hb, Hy.
  - inversion Hb; inversion Hy; subst. rewrite Nat.add_0_r. exact Hf.
  - rewrite Nat.add_succ_r. change (S (k + j)) with (S k + j)%nat.
    eapply (IH xs (S k)); eassumption.
Qed.

(** The value picked last comes from a pair the loop visits, and no pair
    after it gives one. *)
Lemma fold_visits_last (f : nat -> A -> X -> option T) l xs k v :
  fold_visits (pick f) k l xs None = Some v ->
  exists j a x,
    nth_error l j = Some a /\ nth_error xs j = Some x /\ f (k + j)%nat a x = Some v /\
    forall j' b y, (j < j')%nat -> nth_error l j' = Some b -> nth_error xs j' = Some y ->
      f (k + j')%nat b y = None.
Proof.
  revert xs k. induction l as [|a l IH]; intros [|x xs] k; simpl; try discriminate.
  rewrite fold_visits_pick.
  destruct (fold_visits (pick f) (S k) l xs None) as [w|] eqn:Hrest.
  - intros Heq. inversion Heq; subst w. clear Heq.
    destruct (IH _ _ Hrest) as (j & b & y & Hb & Hy & Hf & Hlast).
    exists (S j), b, y. rewrite Nat.add_succ_r. repeat split; try assumption.
    intros [|j'] b' y' Hlt Hb' Hy'; [lia|].
    rewrite Nat.add_succ_r. apply (Hlast j' b' y'); [lia | assumption | assumption].
  - unfold pick. destruct (f k a x) as [w|] eqn:Hf; [|discriminate].
    intros Heq. inversion Heq; subst w. clear Heq.
    exists 0%nat, a, x. rewrite Nat.add_0_r. repeat split; try assumption.
    intros [|j'] b' y' Hlt Hb' Hy'; [lia|]. simpl in Hb', Hy'.
    rewrite Nat.add_succ_r. change (S (k + j')) with (S k + j')%nat.
    eapply fold_visits_none; eassumption.
Qed.
End VisitFacts.

Section FirstLoopOrder.
Context {F : Type} `{Scalar F}.

Lemma sh_state_blind : stage_blind (fun c : Cell F => sh_state (c_shared c)).
Proof. repeat split. Qed.

Lemma sh_key_blind : stage_blind (fun c : Cell F => sh_key (c_shared c)).
Proof. repeat split. Qed.

Lemma s_step_blind : stage_blind (fun c : Cell F => s_step (c_state c)).
Proof. repeat split. Qed.

Lemma step_of_get_or_init (p : Param F) s :
  p_state (get_or_init p) = FullEntry s -> s_step s = step_of (p_state p).
Proof.
  unfold get_or_init.
  destruct (p_state p) eqn:Hp; simpl; rewrite ?Hp; intros Hs; inversion Hs; reflexivity.
Qed.

(** A visit of the first loop that ends without exception: a parameter
    without gradient is skipped; one with a gradient has its step count
    incremented, and [state] refers to its dict. *)
Lemma first_loop_body_ok cfg init sc h i j (p : Param F) x sh p' sh' :
  first_loop_body cfg init sc h i j p x sh = ((p', sh'), None) ->
  match chosen_grad p x with
  | None => p' = p /\ sh' = sh
  | Some _ =>
      sh_state sh' = Some (i, j) /\
      exists s', p_state p' = FullEntry s' /\ s_step s' = (step_of (p_state p) + 1)%Z
  end.
Proof.
  intros Hrun.
  pose proof (first_loop_body_spec cfg init sc h i j p x sh) as Hspec.
  destruct (chosen_grad p x) as [g|].
  2:{ rewrite Hspec in Hrun. inversion Hrun. split; reflexivity. }
  destruct (is_sparse g); [rewrite Hspec in Hrun; discriminate|].
  destruct (p_state (get_or_init p)) as [| | |s] eqn:Hs.
  1-3: rewrite Hspec in Hrun; discriminate.
  destruct Hspec as (c' & e & Hrun' & Hblind). rewrite Hrun' in Hrun.
  unfold close_cell in Hrun. inversion Hrun; subst. clear Hrun. split.
  - rewrite (Hblind _ (fun c => sh_state (c_shared c)) sh_state_blind).
    unfold cell_of, entered. simpl. destruct (negb init); reflexivity.
  - exists (c_state c'). split; [reflexivity|].
    rewrite (Hblind _ (fun c => s_step (c_state c)) s_step_blind).
    unfold cell_of. simpl. rewrite (step_of_get_or_init p Hs). reflexivity.
Qed.

(** Once the optimizer is initialised the first loop leaves
    [lamb_freeze_key] as it is, whatever its outcome. *)
Lemma first_loop_body_key cfg sc h i j (p : Param F) x sh :
  sh_key (snd (fst (first_loop_body cfg true sc h i j p x sh))) = sh_key sh.
Proof.
  pose proof (first_loop_body_spec cfg true sc h i j p x sh) as Hspec.
  destruct (chosen_grad p x) as [g|]; [|rewrite Hspec; reflexivity].
  destruct (is_sparse g); [rewrite Hspec; reflexivity|].
  destruct (p_state (get_or_init p)) as [| | |s] eqn:Hs.
  1-3: rewrite Hspec; reflexivity.
  destruct Hspec as (c' & e & Hrun & Hblind). rewrite Hrun. simpl.
  rewrite (Hblind _ (fun c => sh_key (c_shared c)) sh_key_blind). reflexivity.
Qed.

Lemma first_loop_key gg (o : Opt F) loc :
  initialize o = true ->
  lamb_freeze_key (fst (fst (first_loop gg (o, loc)))) = lamb_freeze_key o.
Proof.
  intros Hinit.
  pose proof (nested_loop_shared
                (fun s s' : Shared F => sh_key s' = sh_key s)
                (first_loop_body (config o) (initialize o) (scaling_coeffs o))
                (fun g y => grads_of_group g y)
                (param_groups o) gg (shared_of o loc)) as Hsh.
  assert (Hkey : sh_key (snd (fst (for_each
            (first_loop_group (config o) (initialize o) (scaling_coeffs o))
            0 (param_groups o) gg (shared_of o loc)))) = lamb_freeze_key o).
  { apply Hsh; try congruence.
    rewrite Hinit. intros. apply first_loop_body_key. }
  clear Hsh. unfold first_loop, and_then.
  match type of Hkey with
  | sh_key (snd (fst ?x)) = _ => destruct x as [[gs sh] [e|]]
  end; simpl in *; exact Hkey.
Qed.

(** The group of a visit of the outer loop that ends without exception. *)
Lemma first_loop_group_ok cfg init sc i (g : Group F) y sh g' sh' :
  first_loop_group cfg init sc i g y sh = ((g', sh'), None) ->
  exists ps',
    for_each (first_loop_body cfg init sc (hyper g) i) 0 (params g) (grads_of_group g y) sh
      = ((ps', sh'), None) /\
    g' = set_params ps' g.
Proof.
  unfold first_loop_group. fold (grads_of_group g y). intros Hrun.
  apply and_then_ok in Hrun. destruct Hrun as ([ps' s1] & Hloop & Hdone).
  unfold done in Hdone. simpl in Hdone. inversion Hdone; subst.
  exists ps'. split; [exact Hloop | reflexivity].
Qed.

Lemma first_loop_ok gg (o : Opt F) loc o2 loc2 :
  first_loop gg (o, loc) = ((o2, loc2), None) ->
  exists gs2 sh2,
    for_each (first_loop_group (config o) (initialize o) (scaling_coeffs o)) 0
      (param_groups o) gg (shared_of o loc) = ((gs2, sh2), None) /\
    param_groups o2 = gs2 /\ state_var loc2 = sh_state sh2.
Proof.
  unfold first_loop. intros Hrun.
  apply and_then_ok in Hrun. destruct Hrun as ([gs2 sh2] & Hloop & Hdone).
  unfold done, store_shared in Hdone. inversion Hdone; subst.
  exists gs2, sh2. repeat split. exact Hloop.
Qed.

(** After a first loop that ends without exception, [state] refers to the
    dict of the last parameter that has a gradient. *)
Lemma first_loop_ok_state gg (o : Opt F) loc o2 loc2 :
  first_loop gg (o, loc) = ((o2, loc2), None) ->
  state_var loc2 =
    match last_updated (param_groups o) gg with
    | Some ij => Some ij
    | None => state_var loc
    end.
Proof.
  intros Hrun. apply first_loop_ok in Hrun.
  destruct Hrun as (gs2 & sh2 & Hloop & _ & Hstate). rewrite Hstate.
  unfold last_updated. rewrite <- fold_visits_pick.
  change (state_var loc) with (sh_state (shared_of o loc)).
  eapply for_each_ok_fold with (proj := @sh_state F); [|exact Hloop].
  intros i g y s g' s' Hg. apply first_loop_group_ok in Hg.
  destruct Hg as (ps' & Hin & _).
  unfold pick at 1, last_in_group. rewrite <- fold_visits_pick.
  eapply for_each_ok_fold with (proj := @sh_state F); [|exact Hin].
  intros j p x s0 p' s1 Hp. apply first_loop_body_ok in Hp.
  unfold pick. destruct (chosen_grad p x); destruct Hp as [Hp1 Hp2]; congruence.
Qed.

(** The parameter at a position after a first loop that ends without
    exception. *)
Lemma first_loop_ok_at gg (o : Opt F) loc o2 loc2 i j g p :
  first_loop gg (o, loc) = ((o2, loc2), None) ->
  nth_error (param_groups o) i = Some g -> nth_error (params g) j = Some p ->
  match visit (param_groups o) gg i j with
  | Some (_, x) =>
      exists sh0 sh1 p',
        first_loop_body (config o) (initialize o) (scaling_coeffs o) (hyper g) i j p x sh0
          = ((p', sh1), None) /\
        param_at (param_groups o2) i j = Some p'
  | None => param_at (param_groups o2) i j = Some p
  end.
Proof.
  intros Hrun Hg Hp. apply first_loop_ok in Hrun.
  destruct Hrun as (gs2 & sh2 & Hloop & Hgs & _). subst gs2.
  pose proof (for_each_ok_nth _ _ _ _ _ i Hloop Hg) as Hat.
  unfold visit, param_at. rewrite Hg, Hp.
  destruct (nth_error gg i) as [y|]; [|rewrite Hat; exact Hp].
  destruct Hat as (s0 & s1 & g' & Hbody & Hg'). rewrite Hg'.
  apply first_loop_group_ok in Hbody. destruct Hbody as (ps' & Hin & Heq). subst g'.
  pose proof (for_each_ok_nth _ _ _ _ _ j Hin Hp) as Hat. cbn [params set_params].
  destruct (nth_error (grads_of_group g y) j) as [x|]; [|exact Hat].
  destruct Hat as (s3 & s4 & p' & Hbody & Hp'). exists s3, s4, p'. split; assumption.
Qed.

Lemma entry_at_param_at (gs : list (Group F)) i j :
  entry_at gs (i, j) = option_map (@p_state F) (param_at gs i j).
Proof.
  unfold entry_at, param_at. simpl. destruct (nth_error gs i) as [g|]; [|reflexivity].
  destruct (nth_error (params g) j); reflexivity.
Qed.

(** The position [last_updated] gives is one the loop visits, with a
    gradient. *)
Lemma last_updated_visit (gs : list (Group F)) gg i j :
  last_updated gs gg = Some (i, j) ->
  exists p x g, visit gs gg i j = Some (p, x) /\ chosen_grad p x = Some g.
Proof.
  unfold last_updated. intros Hlast. apply fold_visits_last in Hlast.
  destruct Hlast as (i0 & g & y & Hg & Hy & Hin & _). simpl in Hin.
  unfold last_in_group in Hin. apply fold_visits_last in Hin.
  destruct Hin as (j0 & p & x & Hp & Hx & Hpick & _). simpl in Hpick.
  destruct (chosen_grad p x) as [gr|] eqn:Hgr; [|discriminate].
  inversion Hpick; subst i0 j0.
  exists p, x, gr. unfold visit. rewrite Hg, Hy, Hp, Hx. split; [reflexivity | exact Hgr].
Qed.
End FirstLoopOrder.

(** ** Writes through the momenta *)

Section WriteFacts.
Context {F : Type} `{Scalar F}.
Variable W : list (tensor F) * Storage F -> list (tensor F) * Storage F -> Prop.
Hypothesis W_refl : forall a, W a a.
Hypothesis W_trans : forall a b c, W a b -> W b c -> W a c.
Hypothesis W_write :
  forall flat st v, length v = length (read flat st) ->
    W (flat, st) (snd (write flat st v), fst (write flat st v)).

Lemma ew2_length (f : F -> F -> F) (a b r : tensor F) :
  ew2 f a b = Ok r -> length r = length a.
Proof.
  revert b r. induction a as [|x a IH]; intros [|y b] r; simpl; try discriminate.
  - intros Heq. inversion Heq. reflexivity.
  - destruct (ew2 f a b) as [r'|] eqn:Hr; [|discriminate].
    intros Heq. inversion Heq; subst. simpl. f_equal. eapply IH. exact Hr.
Qed.

Lemma W_on_exp_avg (f : tensor F -> res (tensor F)) (c : Cell F) :
  (forall m v, f m = Ok v -> length v = length m) ->
  W (held c) (held (fst (on_exp_avg f c))).
Proof.
  intros Hf. unfold on_exp_avg.
  destruct (f (cell_exp_avg c)) as [v|e] eqn:Hv; [|apply W_refl].
  pose proof (W_write (sh_flat (c_shared c)) (s_exp_avg (c_state c)) v (Hf _ _ Hv)) as Hw.
  destruct (write _ _ v) as [m flat]. exact Hw.
Qed.

Lemma W_bind (f g : Cell F -> out (Cell F)) :
  (forall c, W (held c) (held (fst (f c)))) ->
  (forall c, W (held c) (held (fst (g c)))) ->
  forall c, W (held c) (held (fst (f c >>= g))).
Proof.
  intros Hf Hg c. specialize (Hf c). unfold and_then.
  destruct (f c) as [c' [e|]]; simpl in *; [exact Hf|].
  eapply W_trans; [exact Hf | apply Hg].
Qed.

Lemma W_keeps (f : Cell F -> out (Cell F)) :
  keeps (@held F) f -> forall c, W (held c) (held (fst (f c))).
Proof. intros Hk c. rewrite Hk. apply W_refl. Qed.

Lemma W_momentum_update beta1 grad (c : Cell F) :
  W (held c) (held (fst (momentum_update beta1 grad c))).
Proof.
  unfold momentum_update. revert c. apply W_bind; intros c; apply W_on_exp_avg.
  - intros m v Heq. inversion Heq. unfold scale. apply length_map.
  - intros m v Heq. unfold add_scaled in Heq. eapply ew2_length. exact Heq.
Qed.

Lemma held_on_exp_avg_sq f : keeps (@held F) (on_exp_avg_sq f).
Proof. intros c. unfold on_exp_avg_sq. destruct (f _); reflexivity. Qed.

Lemma held_warmup_lamb cfg h : keeps (@held F) (warmup_lamb cfg h).
Proof.
  intros c. unfold warmup_lamb, apply_update. repeat break_match; reflexivity.
Qed.

Lemma W_warmup_stage cfg init h grad (c : Cell F) :
  W (held c) (held (fst (warmup_stage cfg init h grad c))).
Proof.
  unfold warmup_stage. destruct (betas h) as [beta1 beta2]. revert c.
  apply W_bind; [apply W_bind; [apply W_bind|]|].
  - apply W_momentum_update.
  - apply W_keeps, held_on_exp_avg_sq.
  - apply W_keeps, held_on_exp_avg_sq.
  - apply W_keeps. intros c.
    destruct (Z.eqb (s_step (c_state c)) (freeze_step cfg)), init;
      try rewrite held_warmup_lamb; reflexivity.
Qed.

Lemma W_compression_stage init sc h i j grad (c : Cell F) :
  W (held c) (held (fst (compression_stage init sc h i j grad c))).
Proof.
  unfold compression_stage. destruct init; [|apply W_refl]. revert c.
  apply W_bind; [apply W_momentum_update|].
  intros c. destruct (nth_error sc i) as [row|]; [|apply W_refl].
  destruct (nth_error row j); [|apply W_refl].
  apply W_on_exp_avg. intros m v Heq. inversion Heq. unfold scale. apply length_map.
Qed.

(** A visit of the first loop leaves the fused buffers as they are, or
    writes them through the momentum of the parameter visited, which has
    a gradient. *)
Lemma W_first_loop_body cfg init sc h i j (p : Param F) x sh :
  let r := fst (first_loop_body cfg init sc h i j p x sh) in
  sh_flat (snd r) = sh_flat sh \/
  exists s, p_state (get_or_init p) = FullEntry s /\ chosen_grad p x <> None /\
            W (sh_flat sh, s_exp_avg s) (sh_flat (snd r), exp_avg_of (fst r)).
Proof.
  unfold first_loop_body. fold (chosen_grad p x).
  destruct (chosen_grad p x) as [g|] eqn:Hg; [|left; reflexivity].
  destruct (is_sparse g); [left; reflexivity|].
  change (if negb init
          then set_sh_key true (set_sh_state (Some (i, j)) sh)
          else set_sh_state (Some (i, j)) sh) with (entered init i j sh).
  destruct (p_state (get_or_init p)) as [| | |s] eqn:Hs.
  1-3: left; unfold entered; destruct (negb init); reflexivity.
  right. exists s. split; [reflexivity|]. split; [discriminate|].
  set (c0 := {| c_state := set_s_step (s_step s + 1) s;
                c_data := p_data (get_or_init p); c_shared := entered init i j sh |}).
  assert (Hheld : held c0 = (sh_flat sh, s_exp_avg s)).
  { unfold held, c0, entered. simpl. destruct (negb init); destruct s; reflexivity. }
  rewrite <- Hheld.
  set (stage := if negb (sh_key (entered init i j sh))
                then warmup_stage cfg init h (g_data g) c0
                else compression_stage init sc h i j (g_data g) c0).
  assert (Hw : W (held c0) (held (fst stage))).
  { subst stage. destruct (negb (sh_key (entered init i j sh)));
      [apply W_warmup_stage | apply W_compression_stage]. }
  destruct stage as [c' e]. unfold and_then. destruct e; exact Hw.
Qed.
End WriteFacts.

(** ** Parameters the first loop skips *)

Section Skipped.
Context {F : Type} `{Scalar F}.

Lemma visits_Forall (P : Param F -> option (Grad F) -> Prop) gs gg :
  (forall i j q x, visit gs gg i j = Some (q, x) -> P q x) ->
  Forall (fun gy => Forall (fun px => P (fst px) (snd px))
                      (combine (params (fst gy)) (grads_of_group (fst gy) (snd gy))))
         (combine gs gg).
Proof.
  intros Hvisit. apply Forall_forall. intros [g y] Hgy.
  apply In_nth_error in Hgy. destruct Hgy as [i Hi].
  apply nth_error_combine_inv in Hi. destruct Hi as [Hg Hy].
  apply Forall_forall. intros [q x] Hqx.
  apply In_nth_error in Hqx. destruct Hqx as [j Hj].
  apply nth_error_combine_inv in Hj. destruct Hj as [Hq Hx]. simpl in *.
  apply (Hvisit i j). unfold visit. rewrite Hg, Hy, Hq, Hx. reflexivity.
Qed.

Lemma first_loop_group_params cfg init sc i (g : Group F) y sh :
  params (fst (fst (first_loop_group cfg init sc i g y sh))) =
    fst (fst (for_each (first_loop_body cfg init sc (hyper g) i) 0 (params g)
                (grads_of_group g y) sh)).
Proof.
  unfold first_loop_group, and_then. fold (grads_of_group g y).
  destruct (for_each _ 0 (params g) (grads_of_group g y) sh) as [[ps s'] [e|]]; reflexivity.
Qed.

(** Whatever the outcome of the first loop, a parameter for which it finds
    no gradient is as it was. *)
Lemma first_loop_absent gg (o : Opt F) loc i j p :
  param_at (param_groups o) i j = Some p ->
  gradient_at (param_groups o) gg i j = None ->
  param_at (param_groups (fst (fst (first_loop gg (o, loc))))) i j = Some p.
Proof.
  intros Hp Hgrad. rewrite first_loop_param_groups.
  unfold param_at in *. unfold gradient_at, visit in Hgrad.
  destruct (nth_error (param_groups o) i) as [g|] eqn:Hg; [|discriminate].
  destruct (for_each_nth (first_loop_group (config o) (initialize o) (scaling_coeffs o))
              (param_groups o) gg 0 (shared_of o loc) i Hg) as (g' & Hg' & Hcase).
  rewrite Hg'. destruct Hcase as [Heq|(y & s0 & Hy & Heq)]; [subst g'; exact Hp|].
  subst g'. rewrite first_loop_group_params. rewrite Hy, Hp in Hgrad.
  destruct (for_each_nth (first_loop_body (config o) (initialize o) (scaling_coeffs o)
                            (hyper g) (0 + i))
              (params g) (grads_of_group g y) 0 s0 j Hp) as (p' & Hp' & Hcase).
  rewrite Hp'. destruct Hcase as [Heq|(x & s1 & Hx & Heq)]; [subst p'; reflexivity|].
  rewrite Hx in Hgrad. subst p'. unfold first_loop_body.
  fold (chosen_grad p x). rewrite Hgrad. reflexivity.
Qed.

Lemma write_flat_length (flat : list (tensor F)) st v :
  length (snd (write flat st v)) = length flat.
Proof. destruct st; [reflexivity|]. destruct flat; reflexivity. Qed.

(** The first loop allocates no fused buffer, and frees none. *)
Lemma first_loop_flat_length gg (o : Opt F) loc :
  length (exp_avg_flat (fst (fst (first_loop gg (o, loc))))) = length (exp_avg_flat o).
Proof.
  pose proof (nested_loop_shared
                (fun s s' : Shared F => length (sh_flat s') = length (sh_flat s))
                (first_loop_body (config o) (initialize o) (scaling_coeffs o))
                (fun g y => grads_of_group g y)
                (param_groups o) gg (shared_of o loc)) as Hsh.
  assert (Hlen : length (sh_flat (snd (fst (for_each
            (first_loop_group (config o) (initialize o) (scaling_coeffs o))
            0 (param_groups o) gg (shared_of o loc))))) = length (exp_avg_flat o)).
  { apply Hsh; try congruence. intros h i j p x s.
    destruct (@W_first_loop_body _ _
                (fun a b => length (fst b) = length (fst a))
                (fun a => eq_refl)
                (fun a b c Hab Hbc => eq_trans Hbc Hab)
                (fun flat st v _ => write_flat_length flat st v)
                (config o) (initialize o) (scaling_coeffs o) h i j p x s)
      as [Hflat|(s0 & _ & _ & Hw)]; [rewrite Hflat; reflexivity | exact Hw]. }
  clear Hsh. unfold first_loop, and_then.
  match type of Hlen with
  | length (sh_flat (snd (fst ?x))) = _ => destruct x as [[gs sh] [e|]]
  end; simpl in *; exact Hlen.
Qed.

(** A write through a momentum stored apart from a region of the fused
    buffer leaves the region, and the element count of the buffer. *)
Lemma write_region off n len (flat : list (tensor F)) st v :
  length v = length (read flat st) ->
  fused_length flat = len -> apart off n len st ->
  fused_length (snd (write flat st v)) = len /\
  slice off n (snd (write flat st v)) = slice off n flat /\
  apart off n len (fst (write flat st v)).
Proof.
  intros Hv Hlen Hapart. destruct st as [d|off' n'].
  - simpl. repeat split. exact Hlen.
  - destruct flat as [|b rest];
      [simpl; split; [assumption | split; [reflexivity | assumption]]|].
    unfold fused_length, slice in *. simpl in *.
    destruct Hapart as [Hin Hdis].
    rewrite length_firstn, length_skipn in Hv.
    assert (Hv' : length v = n') by lia.
    split; [|split; [|split; assumption]].
    + rewrite !length_app, length_firstn, length_skipn. lia.
    + destruct Hdis as [Hbefore|Hafter].
      * rewrite app_assoc.
        assert (Hpre : length (firstn off' b ++ v) = (off' + n')%nat).
        { rewrite length_app, length_firstn. lia. }
        rewrite skipn_app, Hpre.
        rewrite (skipn_all2 (firstn off' b ++ v)) by lia.
        simpl. rewrite skipn_skipn.
        replace (off - (off' + n') + (off' + n'))%nat with off by lia. reflexivity.
      * rewrite firstn_skipn_prefix by (rewrite length_firstn; lia).
        apply firstn_skipn_firstn. exact Hafter.
Qed.

(** Whatever its outcome, the first loop leaves the elements of the fused
    buffer that no parameter with a gradient has its momentum in. *)
Lemma first_loop_region gg (o : Opt F) loc off n :
  (forall i j q x, visit (param_groups o) gg i j = Some (q, x) ->
     chosen_grad q x <> None ->
     writes_apart off n (fused_length (exp_avg_flat o)) q) ->
  region_kept off n (exp_avg_flat o) (exp_avg_flat (fst (fst (first_loop gg (o, loc))))).
Proof.
  intros Hvisit. set (len := fused_length (exp_avg_flat o)) in *.
  pose proof (nested_loop_shared_pre
                (fun s s' : Shared F =>
                   fused_length (sh_flat s) = len ->
                   fused_length (sh_flat s') = len /\
                   slice off n (sh_flat s') = slice off n (sh_flat s))
                (fun q x => chosen_grad q x <> None -> writes_apart off n len q)
                (first_loop_body (config o) (initialize o) (scaling_coeffs o))
                (fun g y => grads_of_group g y)
                (param_groups o) gg (shared_of o loc)) as Hsh.
  assert (Hkept : fused_length (exp_avg_flat o) = len ->
            fused_length (sh_flat (snd (fst (for_each
              (first_loop_group (config o) (initialize o) (scaling_coeffs o))
              0 (param_groups o) gg (shared_of o loc))))) = len /\
            slice off n (sh_flat (snd (fst (for_each
              (first_loop_group (config o) (initialize o) (scaling_coeffs o))
              0 (param_groups o) gg (shared_of o loc))))) = slice off n (exp_avg_flat o)).
  { apply Hsh; clear Hsh.
    - intros s Hs. split; [exact Hs | reflexivity].
    - intros s1 s2 s3 H12 H23 Hs. destruct (H12 Hs) as [H2 E2].
      destruct (H23 H2) as [H3 E3]. split; [exact H3 | congruence].
    - intros h i j q x s Hq Hs.
      destruct (@W_first_loop_body _ _
                  (fun a b =>
                     fused_length (fst a) = len -> apart off n len (snd a) ->
                     fused_length (fst b) = len /\
                     slice off n (fst b) = slice off n (fst a) /\
                     apart off n len (snd b)))
        with (cfg := config o) (init := initialize o) (sc := scaling_coeffs o)
             (h := h) (i := i) (j := j) (p := q) (x := x) (sh := s)
        as [Hflat|(s0 & Hs0 & Hgrad & Hw)].
      + intros a Ha Hap. repeat split; assumption.
      + intros a b c Hab Hbc Ha Hap. destruct (Hab Ha Hap) as (Hb & Eb & Hbp).
        destruct (Hbc Hb Hbp) as (Hc & Ec & Hcp). repeat split; try assumption. congruence.
      + intros flat st v Hv Hl Hap. simpl. apply write_region; assumption.
      + rewrite Hflat. split; [exact Hs | reflexivity].
      + simpl in Hw. destruct (Hw Hs) as (Hl & Hsl & _); [|split; assumption].
        specialize (Hq Hgrad). unfold writes_apart in Hq. unfold get_or_init in Hs0.
        destruct (p_state q) eqn:Hpq; simpl in Hs0; rewrite ?Hpq in Hs0;
          inversion Hs0; subst; simpl; auto.
    - apply (visits_Forall
               (fun q x => chosen_grad q x <> None -> writes_apart off n len q)).
      intros i j q x Hv. apply Hvisit with (i := i) (j := j). exact Hv. }
  clear Hsh. unfold region_kept, first_loop, and_then.
  match type of Hkept with
  | _ -> fused_length (sh_flat (snd (fst ?x))) = _ /\ _ => destruct x as [[gs sh] [e|]]
  end; simpl in *; destruct (Hkept eq_refl) as [Hl Hsl]; split; assumption.
Qed.

(** The rest of a step of the warmup stage, after the first loop: nothing
    is fused, communicated or updated. *)
Lemma warmup_rest net (o2 : Opt F) loc2 :
  lamb_freeze_key o2 = false -> exp_avg_flat o2 <> [] ->
  let o' := fst (and_then
                   (on_opt init_fused_momentum (o2, loc2) >>= on_opt init_error_buffers >>=
                    on_opt (communicate net) >>= second_loop)
                   fst finish) in
  param_groups o' = param_groups o2 /\ exp_avg_flat o' = exp_avg_flat o2.
Proof.
  intros Hkey Hflat.
  assert (Hfuse : on_opt init_fused_momentum (o2, loc2) = ((o2, loc2), None)).
  { unfold on_opt, init_fused_momentum. simpl fst.
    destruct (exp_avg_flat o2); [contradiction|]. reflexivity. }
  rewrite Hfuse. cbn [and_then].
  pose proof (keeps_init_error_buffers o2) as Hk. unfold outside_buffers in Hk.
  destruct (init_error_buffers o2) as [o4 e] eqn:Hb. cbn [fst] in Hk.
  inversion Hk as [[Hc4 Hi4 Hkey4 Hd4 Hsc4 Hl4 Hg4 Hdu4 Hco4 Hch4 Hfl4]]. clear Hk.
  assert (Hbuf : on_opt init_error_buffers (o2, loc2) = ((o4, loc2), e)).
  { unfold on_opt, and_then. cbn [fst snd]. rewrite Hb. destruct e; reflexivity. }
  rewrite Hbuf. destruct e as [e|]; cbn [and_then fst];
    [split; reflexivity|].
  assert (Hcomm : on_opt (communicate net) (o4, loc2) = ((o4, loc2), None)).
  { unfold on_opt, communicate. cbn [fst snd]. rewrite Hkey4, Hkey. reflexivity. }
  rewrite Hcomm. cbn [and_then].
  assert (Hsecond : second_loop (o4, loc2) = ((o4, loc2), None)).
  { unfold second_loop. rewrite Hkey4, Hkey. reflexivity. }
  rewrite Hsecond. cbn [and_then fst].
  pose proof (finish_frame o4 loc2) as Hfin. cbv zeta in Hfin.
  destruct Hfin as (_ & Hg & Hf & _). split; congruence.
Qed.
End Skipped.

(** ** Sparse gradients *)

Section SparseFacts.
Context {F : Type} `{Scalar F}.






Lemma touched_refl (p : Param F) : touched p p.
Proof. left. reflexivity. Qed.

Lemma touch_touch (p : Param F) : touch (touch p) = touch p.
Proof. unfold touch. destruct (p_state p) eqn:Hp; simpl; rewrite ?Hp; reflexivity. Qed.

Lemma touched_trans (a b c : Param F) : touched a b -> touched b c -> touched a c.
Proof.
  unfold touched. intros [Hab|Hab] [Hbc|Hbc]; subst; auto.
  right. apply touch_touch.
Qed.

Lemma touched_grad (p p' : Param F) : touched p p' -> p_grad p' = p_grad p.
Proof.
  intros [Heq|Heq]; subst; [reflexivity|].
  unfold touch. destruct (p_state p); reflexivity.
Qed.

(** What the first loop finds at a position depends on the gradients and
    on the number of parameters of the groups only. *)
Lemma gradient_at_touched (gs gs' : list (Group F)) gg i j :
  groups_rel touched gs gs' -> gradient_at gs' gg i j = gradient_at gs gg i j.
Proof.
  intros Hrel. unfold gradient_at, visit.
  destruct (nth_error gs i) as [g|] eqn:Hg.
  - destruct (Forall2_nth_error_l _ Hrel Hg) as (g' & Hg' & _ & Hps). rewrite Hg'.
    destruct (nth_error gg i) as [y|]; [|reflexivity].
    assert (Hy : grads_of_group g' y = grads_of_group g y).
    { unfold grads_of_group. destruct y; [reflexivity|].
      rewrite (Forall2_length Hps). reflexivity. }
    rewrite Hy.
    destruct (nth_error (params g) j) as [p|] eqn:Hp.
    + destruct (Forall2_nth_error_l _ Hps Hp) as (p' & Hp' & Ht). rewrite Hp'.
      destruct (nth_error (grads_of_group g y) j) as [x|]; [|reflexivity].
      unfold chosen_grad. rewrite (touched_grad Ht). reflexivity.
    + destruct (nth_error (params g') j) as [p'|] eqn:Hp'; [|reflexivity].
      exfalso. apply nth_error_None in Hp.
      assert (Hlt : (j < length (params g'))%nat).
      { apply nth_error_Some. rewrite Hp'. discriminate. }
      rewrite <- (Forall2_length Hps) in Hlt. lia.
  - destruct (nth_error gs' i) as [g'|] eqn:Hg'; [|reflexivity].
    exfalso. apply nth_error_None in Hg.
    assert (Hlt : (i < length gs')%nat).
    { apply nth_error_Some. rewrite Hg'. discriminate. }
    rewrite <- (Forall2_length Hrel) in Hlt. lia.
Qed.
End SparseFacts.

(** ** The parts of a step, one after the other *)

Section Sequences.
Context {S : Type}.

(** A property every statement of a sequence keeps, whatever its outcome,
    is kept by the sequence. *)
Lemma inv_bind (P : S -> Prop) (f g : S -> out S) :
  (forall s, P s -> P (fst (f s))) -> (forall s, P s -> P (fst (g s))) ->
  forall s, P s -> P (fst (f s >>= g)).
Proof.
  intros Hf Hg s Hs. specialize (Hf s Hs). unfold and_then.
  destruct (f s) as [s' [e|]]; simpl in *; [exact Hf | apply Hg; exact Hf].
Qed.

Lemma keeps_ok {T} (proj : S -> T) (f : S -> out S) s s' e :
  keeps proj f -> f s = (s', e) -> proj s' = proj s.
Proof. intros Hk Hf. specialize (Hk s). rewrite Hf in Hk. exact Hk. Qed.
End Sequences.

Section Pipeline.
Context {F : Type} `{Scalar F}.

Lemma on_opt_fst (f : Opt F -> out (Opt F)) fr :
  fst (fst (on_opt f fr)) = fst (f (fst fr)).
Proof.
  unfold on_opt, and_then. destruct (f (fst fr)) as [o' [e|]]; reflexivity.
Qed.

Lemma inv_on_opt (P : Opt F -> Prop) (f : Opt F -> out (Opt F)) :
  (forall o, P o -> P (fst (f o))) ->
  forall fr, P (fst fr) -> P (fst (fst (on_opt f fr))).
Proof. intros Hf fr Hfr. rewrite on_opt_fst. apply Hf. exact Hfr. Qed.

(** The second loop leaves [lamb_freeze_key] as it is. *)
Lemma second_loop_body_key cfg sc last h i j (p : Param F) u sh :
  sh_key (snd (fst (second_loop_body cfg sc last h i j p u sh))) = sh_key sh.
Proof.
  unfold second_loop_body. destruct (p_state (touch p)) as [| | |s]; try reflexivity.
  match goal with
  | |- context [second_loop_cell cfg sc last h i j ?c0] =>
      destruct (second_loop_cell_spec cfg sc last h i j c0) as [Hblind _];
      specialize (Hblind _ (fun cell => sh_key (c_shared cell)));
      destruct (second_loop_cell cfg sc last h i j c0) as [c' [e|]]
  end; simpl in *; apply Hblind; repeat split.
Qed.

Lemma second_loop_key (o : Opt F) loc :
  lamb_freeze_key (fst (fst (second_loop (o, loc)))) = lamb_freeze_key o.
Proof.
  unfold second_loop.
  destruct (lamb_freeze_key o && initialize o); [|reflexivity].
  pose proof (nested_loop_shared
                (fun s s' : Shared F => sh_key s' = sh_key s)
                (second_loop_body (config o) (scaling_coeffs o) (exp_avg_last_step loc))
                (fun g (_ : unit) => units (params g))
                (param_groups o) (units (param_groups o)) (shared_of o loc)) as Hsh.
  assert (Hkey : sh_key (snd (fst (for_each
            (second_loop_group (config o) (scaling_coeffs o) (exp_avg_last_step loc))
            0 (param_groups o) (units (param_groups o)) (shared_of o loc))))
          = lamb_freeze_key o).
  { apply Hsh; try congruence. intros. apply second_loop_body_key. }
  clear Hsh. unfold and_then.
  match type of Hkey with
  | sh_key (snd (fst ?x)) = _ => destruct x as [[gs sh] [e|]]
  end; simpl in *; exact Hkey.
Qed.

(** The statements of a step before the communication: the snapshot, the
    first loop, the fusion and the allocation of the error buffers. *)
Lemma before_communication gg (o : Opt F) fr :
  config (fst fr) = config o /\ initialize (fst fr) = initialize o /\
  deepspeed (fst fr) = deepspeed o /\
  (initialize o = true -> lamb_freeze_key (fst fr) = lamb_freeze_key o) ->
  let fr' := fst (snapshot_and_calibrate fr >>= first_loop gg >>=
                  on_opt init_fused_momentum >>= on_opt init_error_buffers) in
  config (fst fr') = config o /\ initialize (fst fr') = initialize o /\
  deepspeed (fst fr') = deepspeed o /\
  (initialize o = true -> lamb_freeze_key (fst fr') = lamb_freeze_key o).
Proof.
  set (Q := fun o1 : Opt F =>
              config o1 = config o /\ initialize o1 = initialize o /\
              deepspeed o1 = deepspeed o /\
              (initialize o = true -> lamb_freeze_key o1 = lamb_freeze_key o)).
  set (P := fun fr1 : Opt F * Locals F => Q (fst fr1)).
  assert (H1 : forall fr1, P fr1 -> P (fst (snapshot_and_calibrate fr1))).
  { intros [o1 loc] (Hc & Hi & Hd & Hk). unfold P, Q. cbn [fst] in *.
    pose proof (snapshot_frame o1 loc) as Hf. cbv zeta in Hf.
    destruct Hf as (Hc1 & Hi1 & Hk1 & Hd1 & _).
    repeat split; try congruence. intros Hinit. rewrite Hk1. auto. }
  assert (H2 : forall fr1, P fr1 -> P (fst (first_loop gg fr1))).
  { intros [o1 loc] (Hc & Hi & Hd & Hk). unfold P, Q. cbn [fst] in *.
    pose proof (first_loop_frame gg o1 loc) as Hf. cbv zeta in Hf.
    destruct Hf as (Hc1 & Hi1 & Hd1 & _).
    repeat split; try congruence. intros Hinit.
    rewrite first_loop_key by congruence. auto. }
  assert (H3 : forall fr1, P fr1 -> P (fst (on_opt init_fused_momentum fr1))).
  { apply (inv_on_opt Q). intros o1 (Hc & Hi & Hd & Hk). unfold Q.
    pose proof (init_fused_frame o1) as Hf. cbv zeta in Hf.
    destruct Hf as (Hc1 & Hi1 & Hk1 & Hd1 & _).
    repeat split; try congruence. intros Hinit. rewrite Hk1. auto. }
  assert (H4 : forall fr1, P fr1 -> P (fst (on_opt init_error_buffers fr1))).
  { apply (inv_on_opt Q). intros o1 (Hc & Hi & Hd & Hk). unfold Q.
    pose proof (keeps_init_error_buffers o1) as Hf. unfold outside_buffers in Hf.
    inversion Hf as [[Hc4 Hi4 Hkey4 Hd4 Hsc4 Hl4 Hg4 Hdu4 Hco4 Hch4 Hfl4]].
    repeat split; try congruence. intros Hinit. rewrite Hkey4. auto. }
  intros Hfr. cbv zeta.
  apply (inv_bind P (fun fr1 => snapshot_and_calibrate fr1 >>= first_loop gg >>=
                                on_opt init_fused_momentum)
           (on_opt init_error_buffers)); [|exact H4|exact Hfr].
  intros fr1 Hfr1.
  apply (inv_bind P (fun fr2 => snapshot_and_calibrate fr2 >>= first_loop gg)
           (on_opt init_fused_momentum)); [|exact H3|exact Hfr1].
  intros fr2 Hfr2.
  apply (inv_bind P snapshot_and_calibrate (first_loop gg)); assumption.
Qed.

(** Lines 290-292: nothing is communicated outside the compression stage,
    or on one worker. *)
Lemma communicate_idle net (o : Opt F) :
  (size (config o) <= 1)%nat \/ lamb_freeze_key o = false ->
  communicate net o = done o.
Proof.
  intros Hcase. unfold communicate.
  destruct (lamb_freeze_key o); [|reflexivity].
  destruct Hcase as [Hsize|Hkey]; [|discriminate].
  destruct (Nat.ltb 1 (size (config o))) eqn:Hlt; [|reflexivity].
  apply Nat.ltb_lt in Hlt. lia.
Qed.
End Pipeline.

(** ** Loops whose visits depend on the shared state *)

Section LoopInvariants.
Context {A X St : Type}.
Variable body : nat -> A -> X -> St -> out (A * St).
Variable Inv : St -> Prop.

(** A loop whose visits all pass leaves everything as it is. *)
Lemma for_each_skip l xs k s :
  (forall j a x k', nth_error l j = Some a -> nth_error xs j = Some x ->
     body k' a x s = ((a, s), None)) ->
  for_each body k l xs s = ((l, s), None).
Proof.
  revert xs k. induction l as [|a l IH]; intros [|x xs] k Hskip; simpl; try reflexivity.
  rewrite (Hskip 0%nat a x k eq_refl eq_refl).
  rewrite IH; [reflexivity|].
  intros j b y k' Hb Hy. apply (Hskip (S j) b y k'); assumption.
Qed.

(** Whatever the outcome of the loop, every element is related to what it
    was, when the visits keep an invariant of the shared state. *)
Lemma for_each_rel_inv (RA : A -> A -> Prop) l xs :
  (forall a, RA a a) ->
  (forall k a x s, Inv s ->
     RA a (fst (fst (body k a x s))) /\ Inv (snd (fst (body k a x s)))) ->
  forall k s, Inv s ->
    Forall2 RA l (fst (fst (for_each body k l xs s))) /\
    Inv (snd (fst (for_each body k l xs s))).
Proof.
  intros Hrefl Hbody. revert xs.
  induction l as [|a l IH]; intros xs k s Hs.
  - simpl. split; [constructor | exact Hs].
  - destruct xs as [|x xs].
    + simpl. split; [apply Forall2_refl; exact Hrefl | exact Hs].
    + simpl. destruct (Hbody k a x s Hs) as [Ha Hs'].
      destruct (body k a x s) as [[a' s'] [e|]]; simpl in *.
      * split; [|exact Hs']. constructor; [exact Ha | apply Forall2_refl; exact Hrefl].
      * destruct (IH xs (S k) s' Hs') as [IHl IHs].
        destruct (for_each body (S k) l xs s') as [[l'' s''] e]. simpl in *.
        split; [constructor; assumption | exact IHs].
Qed.

(** A loop that ends without exception has run each visit in a state that
    satisfies an invariant the visits keep. *)
Lemma for_each_ok_nth_inv l xs k s l' s' :
  (forall k a x s a' s', Inv s -> body k a x s = ((a', s'), None) -> Inv s') ->
  Inv s ->
  for_each body k l xs s = ((l', s'), None) ->
  Inv s' /\
  forall j a, nth_error l j = Some a ->
    match nth_error xs j with
    | Some x => exists s0 s1 a', Inv s0 /\ body (k + j) a x s0 = ((a', s1), None) /\
                                 nth_error l' j = Some a'
    | None => nth_error l' j = Some a
    end.
Proof.
  intros Hbody. revert xs k s l' s'.
  induction l as [|b l IH]; intros xs k s l' s' Hs.
  - simpl. unfold done. intros Heq. inversion Heq; subst.
    split; [exact Hs|]. intros j a Hj. destruct j; discriminate.
  - destruct xs as [|x xs].
    + simpl. unfold done. intros Heq. inversion Heq; subst.
      split; [exact Hs|]. intros j a Hj. destruct j; exact Hj.
    + simpl. destruct (body k b x s) as [[b' s1] [e|]] eqn:Hb; [discriminate|].
      destruct (for_each body (S k) l xs s1) as [[l'' s''] e] eqn:Hrest.
      intros Heq. inversion Heq; subst.
      destruct (IH xs (S k) s1 l'' s' (Hbody _ _ _ _ _ _ Hs Hb) Hrest) as [Hs' Hat].
      split; [exact Hs'|]. intros [|j] a Hj; simpl in *.
      * inversion Hj; subst. exists s, s1, b'. rewrite Nat.add_0_r. repeat split; assumption.
      * specialize (Hat j a Hj). rewrite Nat.add_succ_r. exact Hat.
Qed.
End LoopInvariants.

Section NestedInvariants.
Context {F : Type} `{Scalar F}.

Lemma store_shared_id (o : Opt F) loc :
  store_shared (param_groups o, shared_of o loc) o loc = (o, loc).
Proof. destruct o, loc. reflexivity. Qed.

(** A first loop that finds no gradient changes nothing. *)
Lemma first_loop_idle gg (o : Opt F) loc :
  (forall i j, gradient_at (param_groups o) gg i j = None) ->
  first_loop gg (o, loc) = ((o, loc), None).
Proof.
  intros Hnone. unfold first_loop.
  rewrite for_each_skip.
  - unfold and_then, done. rewrite store_shared_id. reflexivity.
  - intros i g y k Hg Hy. unfold first_loop_group. fold (grads_of_group g y).
    rewrite for_each_skip; [unfold and_then, done; simpl; rewrite set_params_id; reflexivity|].
    intros j p x k' Hp Hx. specialize (Hnone i j).
    unfold gradient_at, visit in Hnone. rewrite Hg, Hy, Hp, Hx in Hnone.
    unfold first_loop_body. fold (chosen_grad p x). rewrite Hnone. reflexivity.
Qed.

Lemma param_at_In (gs : list (Group F)) i j p :
  param_at gs i j = Some p -> In p (all_params gs).
Proof.
  unfold param_at, all_params. destruct (nth_error gs i) as [g|] eqn:Hg; [|discriminate].
  intros Hp. apply in_concat. exists (params g). split.
  - apply in_map. eapply nth_error_In. exact Hg.
  - eapply nth_error_In. exact Hp.
Qed.

(** The parameters through a loop over the groups whose body is a loop over
    the parameters, when the visits keep an invariant of the shared state. *)
Lemma nested_loop_rel_inv {X Y : Type} (R : Param F -> Param F -> Prop)
    (Inv : Shared F -> Prop)
    (body : Hyper F -> nat -> nat -> Param F -> X -> Shared F -> out (Param F * Shared F))
    (xs_of : Group F -> Y -> list X) gs ys sh :
  (forall p, R p p) ->
  (forall h i j p x s, Inv s ->
     R p (fst (fst (body h i j p x s))) /\ Inv (snd (fst (body h i j p x s)))) ->
  Inv sh ->
  groups_rel R gs
    (fst (fst (for_each
                 (fun i g y s =>
                    and_then (for_each (body (hyper g) i) 0 (params g) (xs_of g y) s)
                             (fun r => (set_params (fst r) g, snd r))
                             (fun r => done (set_params (fst r) g, snd r)))
                 0 gs ys sh))) /\
  Inv (snd (fst (for_each
                 (fun i g y s =>
                    and_then (for_each (body (hyper g) i) 0 (params g) (xs_of g y) s)
                             (fun r => (set_params (fst r) g, snd r))
                             (fun r => done (set_params (fst r) g, snd r)))
                 0 gs ys sh))).
Proof.
  intros Hrefl Hbody Hsh. unfold groups_rel.
  apply (@for_each_rel_inv _ _ _ _ Inv
           (fun g g' => hyper g' = hyper g /\ Forall2 R (params g) (params g'))).
  - intros g. split; [reflexivity | apply Forall2_refl; exact Hrefl].
  - intros i g y s Hs.
    destruct (@for_each_rel_inv _ _ _ (body (hyper g) i) Inv R (params g) (xs_of g y)
                Hrefl (Hbody (hyper g) i) 0%nat s Hs) as [Hps Hs'].
    unfold and_then.
    destruct (for_each (body (hyper g) i) 0 (params g) (xs_of g y) s) as [[ps s'] [e|]];
      simpl in *; repeat split; assumption.
  - exact Hsh.
Qed.
End NestedInvariants.

(** ** Where the momenta are stored *)

Section Layout.
Context {F : Type} `{Scalar F}.

Lemma exp_avg_of_touch (p : Param F) : exp_avg_of (touch p) = exp_avg_of p.
Proof. unfold exp_avg_of, touch. destruct (p_state p) eqn:Hp; simpl; rewrite ?Hp; reflexivity. Qed.

Lemma view_kept_refl (p : Param F) : view_kept p p.
Proof. reflexivity. Qed.

Lemma view_kept_trans (a b c : Param F) : view_kept a b -> view_kept b c -> view_kept a c.
Proof. unfold view_kept. congruence. Qed.

Lemma view_kept_touch (p : Param F) : view_kept p (touch p).
Proof. unfold view_kept, view_of. rewrite exp_avg_of_touch. reflexivity. Qed.

Lemma buffer_sized_refl (flat : list (tensor F)) : buffer_sized flat flat.
Proof. split; reflexivity. Qed.

Lemma buffer_sized_trans (a b c : list (tensor F)) :
  buffer_sized a b -> buffer_sized b c -> buffer_sized a c.
Proof. unfold buffer_sized. intros [? ?] [? ?]. split; congruence. Qed.

Lemma views_from_kept (ps ps' : list (Param F)) off :
  Forall2 view_kept ps ps' -> views_from off ps' = views_from off ps.
Proof.
  intros Hrel. revert off. induction Hrel as [|p p' ps ps' Hp _ IH]; intros off; simpl.
  - reflexivity.
  - rewrite Hp. destruct (view_of p) as [[off' n]|]; [|reflexivity].
    destruct (Nat.eqb off' off); [apply IH | reflexivity].
Qed.

(** The layout depends on the views of the parameters and on the element
    count of the fused buffer only. *)
Lemma laid_out_kept (o o' : Opt F) :
  groups_rel view_kept (param_groups o) (param_groups o') ->
  buffer_sized (exp_avg_flat o) (exp_avg_flat o') ->
  laid_out o -> laid_out o'.
Proof.
  intros Hrel [Hlen Hfused] Hlaid. apply groups_rel_all_params in Hrel.
  unfold laid_out in *.
  destruct (exp_avg_flat o) as [|b flat] eqn:Hflat;
    destruct (exp_avg_flat o') as [|b' flat'] eqn:Hflat'; try discriminate.
  - clear -Hrel Hlaid. induction Hrel as [|p p' ps ps' Hp _ IH]; [constructor|].
    inversion Hlaid; subst. constructor; [|apply IH; assumption].
    unfold view_kept in Hp. congruence.
  - destruct Hlaid as (e & Hviews & He). exists e.
    rewrite (views_from_kept _ Hrel). split; [exact Hviews|]. rewrite Hfused. exact He.
Qed.

(** A write through a momentum leaves the element counts of the fused
    buffers, and the momentum where it is stored. *)
Lemma write_sized (flat : list (tensor F)) st v :
  length v = length (read flat st) ->
  buffer_sized flat (snd (write flat st v)) /\ same_storage st (fst (write flat st v)).
Proof.
  intros Hv. destruct st as [d|off n]; simpl.
  - split; [apply buffer_sized_refl | eexists; reflexivity].
  - split; [|reflexivity]. destruct flat as [|b rest]; [apply buffer_sized_refl|].
    unfold buffer_sized, fused_length. simpl in *. split; [reflexivity|].
    rewrite length_firstn, length_skipn in Hv.
    rewrite !length_app, length_firstn, length_skipn. lia.
Qed.

Lemma same_storage_refl (st : Storage F) : same_storage st st.
Proof. destruct st; simpl; [eexists|]; reflexivity. Qed.

Lemma same_storage_trans (a b c : Storage F) :
  same_storage a b -> same_storage b c -> same_storage a c.
Proof.
  destruct a; simpl.
  - intros [d' Hb] Hc. subst b. exact Hc.
  - intros Hb Hc. subst b. exact Hc.
Qed.

Lemma sized_refl (a : list (tensor F) * Storage F) : sized a a.
Proof. split; [apply buffer_sized_refl | apply same_storage_refl]. Qed.

Lemma sized_trans (a b c : list (tensor F) * Storage F) :
  sized a b -> sized b c -> sized a c.
Proof.
  intros [H1 H2] [H3 H4].
  split; [eapply buffer_sized_trans | eapply same_storage_trans]; eassumption.
Qed.

Lemma sized_write (flat : list (tensor F)) st v :
  length v = length (read flat st) ->
  sized (flat, st) (snd (write flat st v), fst (write flat st v)).
Proof. intros Hv. apply write_sized. exact Hv. Qed.

Lemma same_storage_view (p p' : Param F) :
  same_storage (exp_avg_of p) (exp_avg_of p') -> view_kept p p'.
Proof.
  unfold view_kept, view_of. destruct (exp_avg_of p); simpl.
  - intros [d' Heq]. rewrite Heq. reflexivity.
  - intros Heq. rewrite Heq. reflexivity.
Qed.

Lemma held_on_exp_avg_sq_back f : keeps (@held F) (on_exp_avg_sq_back f).
Proof. intros c. unfold on_exp_avg_sq_back. destruct (f _); reflexivity. Qed.

Lemma held_compressed_lamb cfg h last : keeps (@held F) (compressed_lamb cfg h last).
Proof.
  intros c. unfold compressed_lamb. destruct (betas h) as [beta1 beta2].
  destruct (ew2 fsub _ _) as [diff|]; [|reflexivity].
  match goal with
  | |- held (fst (and_then (and_then (?f1 c) _ ?f2) _ ?rest)) = _ =>
      apply (@keeps_bind _ _ (@held F) (fun c0 => f1 c0 >>= f2) rest)
  end.
  - apply keeps_bind; apply held_on_exp_avg_sq_back.
  - intros c1. unfold apply_update. repeat break_match; reflexivity.
Qed.

(** The dict a visit of the first loop works on holds the momentum where
    the parameter had it. *)
Lemma get_or_init_storage (p : Param F) s :
  p_state (get_or_init p) = FullEntry s -> same_storage (exp_avg_of p) (s_exp_avg s).
Proof.
  unfold get_or_init, exp_avg_of.
  destruct (p_state p) eqn:Hp; simpl; rewrite ?Hp; intros Heq; inversion Heq; subst; simpl.
  - eexists. reflexivity.
  - eexists. reflexivity.
  - apply same_storage_refl.
Qed.

Lemma sh_flat_entered init i j (sh : Shared F) : sh_flat (entered init i j sh) = sh_flat sh.
Proof. unfold entered. destruct (negb init); reflexivity. Qed.

(** A visit of the first loop, whatever its outcome, leaves the momentum of
    the parameter where it is stored and the element counts of the fused
    buffers. *)
Lemma first_loop_body_layout cfg init sc h i j (p : Param F) x sh :
  let r := fst (first_loop_body cfg init sc h i j p x sh) in
  view_kept p (fst r) /\ buffer_sized (sh_flat sh) (sh_flat (snd r)).
Proof.
  cbv zeta. unfold first_loop_body. fold (chosen_grad p x).
  destruct (chosen_grad p x) as [g|] eqn:Hg;
    [|split; [reflexivity | apply buffer_sized_refl]].
  destruct (is_sparse g); [split; [reflexivity | apply buffer_sized_refl]|].
  change (if negb init
          then set_sh_key true (set_sh_state (Some (i, j)) sh)
          else set_sh_state (Some (i, j)) sh) with (entered init i j sh).
  destruct (p_state (get_or_init p)) as [| | |s] eqn:Hs.
  1-3: simpl; rewrite sh_flat_entered; split; [|apply buffer_sized_refl];
       rewrite get_or_init_partial;
       [reflexivity | intros s0 Hc; rewrite Hs in Hc; discriminate].
  set (c0 := {| c_state := set_s_step (s_step s + 1) s;
                c_data := p_data (get_or_init p); c_shared := entered init i j sh |}).
  assert (Hheld : held c0 = (sh_flat sh, s_exp_avg s)).
  { unfold held, c0. simpl. rewrite sh_flat_entered. destruct s; reflexivity. }
  set (stage := if negb (sh_key (entered init i j sh))
                then warmup_stage cfg init h (g_data g) c0
                else compression_stage init sc h i j (g_data g) c0).
  assert (Hw : sized (held c0) (held (fst stage))).
  { subst stage. destruct (negb (sh_key (entered init i j sh)));
      [apply (W_warmup_stage sized sized_refl sized_trans sized_write)
      | apply (W_compression_stage sized sized_refl sized_trans sized_write)]. }
  rewrite Hheld in Hw. destruct Hw as [Hbuf Hst]. cbn [fst snd] in Hbuf, Hst.
  assert (Hres : fst (and_then stage (close_cell (get_or_init p))
                        (fun c => done (close_cell (get_or_init p) c)))
                 = close_cell (get_or_init p) (fst stage)).
  { unfold and_then, done. destruct stage as [c' [e|]]; reflexivity. }
  rewrite Hres. unfold close_cell, held in *. cbn [fst snd] in *. split; [|exact Hbuf].
  apply same_storage_view. unfold exp_avg_of at 2. cbn [p_state].
  eapply same_storage_trans; [apply get_or_init_storage; exact Hs | exact Hst].
Qed.
End Layout.

Section SecondLoopWrites.
Context {F : Type} `{Scalar F}.
Variable W : list (tensor F) * Storage F -> list (tensor F) * Storage F -> Prop.
Hypothesis W_refl : forall a, W a a.
Hypothesis W_trans : forall a b c, W a b -> W b c -> W a c.
Hypothesis W_write :
  forall flat st v, length v = length (read flat st) ->
    W (flat, st) (snd (write flat st v), fst (write flat st v)).

Lemma W_second_loop_cell cfg sc last_step h i j (c : Cell F) :
  W (held c) (held (fst (second_loop_cell cfg sc last_step h i j c))).
Proof.
  unfold second_loop_cell. destruct (index2 sc i j) as [coeff|]; [|apply W_refl].
  revert c. apply (W_bind W W_trans); [apply (W_bind W W_trans)|].
  - intros c. apply (W_on_exp_avg W W_refl W_write).
    intros m v Heq. inversion Heq. unfold unscale. apply length_map.
  - intros c. destruct (exp_avg_mask h) as [mask|]; [|apply W_refl].
    apply (W_on_exp_avg W W_refl W_write). intros m v Heq. eapply ew2_length. exact Heq.
  - intros c. destruct (index2 last_step i j) as [last|]; [|apply W_refl].
    rewrite held_compressed_lamb. apply W_refl.
Qed.
End SecondLoopWrites.

Section LayoutOfLoops.
Context {F : Type} `{Scalar F}.

Lemma second_loop_body_layout cfg sc last h i j (p : Param F) u sh :
  let r := fst (second_loop_body cfg sc last h i j p u sh) in
  view_kept p (fst r) /\ buffer_sized (sh_flat sh) (sh_flat (snd r)).
Proof.
  cbv zeta. unfold second_loop_body.
  destruct (p_state (touch p)) as [| | |s] eqn:Hs.
  1-3: simpl; split; [apply view_kept_touch | apply buffer_sized_refl].
  set (c0 := {| c_state := s; c_data := p_data (touch p);
                c_shared := set_sh_state (Some (i, j)) sh |}).
  pose proof (W_second_loop_cell sized sized_refl sized_trans sized_write
                cfg sc last h i j c0) as [Hbuf Hst].
  set (cell := second_loop_cell cfg sc last h i j c0) in *.
  assert (Hres : fst (and_then cell (close_cell (touch p))
                        (fun c => done (close_cell (touch p) c)))
                 = close_cell (touch p) (fst cell)).
  { unfold and_then, done. destruct cell as [c' [e|]]; reflexivity. }
  rewrite Hres. unfold close_cell, held, c0 in *. cbn [fst snd] in *.
  split; [|exact Hbuf].
  eapply view_kept_trans; [apply view_kept_touch|].
  apply same_storage_view. unfold exp_avg_of. rewrite Hs. cbn [p_state]. exact Hst.
Qed.

Lemma first_loop_buffer_sized gg (o : Opt F) loc :
  buffer_sized (exp_avg_flat o) (exp_avg_flat (fst (fst (first_loop gg (o, loc))))).
Proof.
  pose proof (nested_loop_shared
                (fun s s' : Shared F => buffer_sized (sh_flat s) (sh_flat s'))
                (first_loop_body (config o) (initialize o) (scaling_coeffs o))
                (fun g y => grads_of_group g y)
                (param_groups o) gg (shared_of o loc)) as Hsh.
  assert (Hlen : buffer_sized (exp_avg_flat o)
            (sh_flat (snd (fst (for_each
               (first_loop_group (config o) (initialize o) (scaling_coeffs o))
               0 (param_groups o) gg (shared_of o loc)))))).
  { apply Hsh.
    - intros s. apply buffer_sized_refl.
    - intros s1 s2 s3. apply buffer_sized_trans.
    - intros h i j p x s. apply first_loop_body_layout. }
  clear Hsh. unfold first_loop, and_then.
  match type of Hlen with
  | buffer_sized _ (sh_flat (snd (fst ?x))) => destruct x as [[gs sh] [e|]]
  end; simpl in *; exact Hlen.
Qed.

Lemma second_loop_buffer_sized (o : Opt F) loc :
  buffer_sized (exp_avg_flat o) (exp_avg_flat (fst (fst (second_loop (o, loc))))).
Proof.
  unfold second_loop.
  destruct (lamb_freeze_key o && initialize o); [|apply buffer_sized_refl].
  pose proof (nested_loop_shared
                (fun s s' : Shared F => buffer_sized (sh_flat s) (sh_flat s'))
                (second_loop_body (config o) (scaling_coeffs o) (exp_avg_last_step loc))
                (fun g (_ : unit) => units (params g))
                (param_groups o) (units (param_groups o)) (shared_of o loc)) as Hsh.
  assert (Hlen : buffer_sized (exp_avg_flat o)
            (sh_flat (snd (fst (for_each
               (second_loop_group (config o) (scaling_coeffs o) (exp_avg_last_step loc))
               0 (param_groups o) (units (param_groups o)) (shared_of o loc)))))).
  { apply Hsh.
    - intros s. apply buffer_sized_refl.
    - intros s1 s2 s3. apply buffer_sized_trans.
    - intros h i j p x s. apply second_loop_body_layout. }
  clear Hsh. unfold and_then.
  match type of Hlen with
  | buffer_sized _ (sh_flat (snd (fst ?x))) => destruct x as [[gs sh] [e|]]
  end; simpl in *; exact Hlen.
Qed.

Lemma first_loop_layout gg (o : Opt F) loc :
  laid_out o -> laid_out (fst (fst (first_loop gg (o, loc)))).
Proof.
  apply laid_out_kept; [|apply first_loop_buffer_sized].
  apply first_loop_groups_rel; [exact view_kept_refl|].
  intros h i j p x s. apply first_loop_body_layout.
Qed.

Lemma second_loop_layout (o : Opt F) loc :
  laid_out o -> laid_out (fst (fst (second_loop (o, loc)))).
Proof.
  apply laid_out_kept; [|apply second_loop_buffer_sized].
  apply second_loop_groups_rel; [exact view_kept_refl|].
  intros h i j p x s. apply second_loop_body_layout.
Qed.

Lemma snapshot_layout (o : Opt F) loc :
  laid_out o -> laid_out (fst (fst (snapshot_and_calibrate (o, loc)))).
Proof.
  apply laid_out_kept.
  - apply snapshot_groups_rel;
      [exact view_kept_refl | exact view_kept_trans | exact view_kept_touch].
  - pose proof (snapshot_frame o loc) as Hf. cbv zeta in Hf.
    destruct Hf as (_ & _ & _ & _ & Hflat & _). rewrite Hflat. apply buffer_sized_refl.
Qed.
End LayoutOfLoops.

Section LayoutOfStep.
Context {F : Type} `{Scalar F}.

Lemma laid_out_same (o o' : Opt F) :
  param_groups o' = param_groups o -> exp_avg_flat o' = exp_avg_flat o ->
  laid_out o -> laid_out o'.
Proof. unfold laid_out. intros Hg Hf. rewrite Hg, Hf. auto. Qed.

Lemma views_from_rebind (flat : list (tensor F)) (ps : list (Param F)) off :
  Forall is_full ps ->
  views_from off (fst (rebind_params flat off ps)) = Some (snd (rebind_params flat off ps)).
Proof.
  intros Hfull. revert off. induction Hfull as [|p ps [s Hs] _ IH]; intros off; simpl.
  - reflexivity.
  - rewrite Hs. specialize (IH (off + numel (read flat (s_exp_avg s)))%nat).
    destruct (rebind_params flat (off + numel (read flat (s_exp_avg s))) ps) as [ps' off'].
    simpl in *. unfold view_of, exp_avg_of. simpl. rewrite Nat.eqb_refl. exact IH.
Qed.

(** An exception in lines 253-277 leaves the momenta unfused. *)
Lemma init_fused_raised (o o' : Opt F) e :
  init_fused_momentum o = (o', Some e) ->
  exp_avg_flat o' = exp_avg_flat o /\
  groups_rel view_kept (param_groups o) (param_groups o').
Proof.
  unfold init_fused_momentum.
  destruct (negb (Nat.eqb (length (exp_avg_flat o)) 0)); [discriminate|].
  pose proof (collect_groups_rel view_kept view_kept_refl
                (fun p m => (m, numel (p_data p))) (param_groups o) view_kept_touch) as Hc.
  destruct (collect_groups _ (param_groups o)) as [[gs items] [e0|]]; simpl in *.
  { unfold raised. intros Heq. inversion Heq; subst. split; [reflexivity | exact Hc]. }
  destruct (Nat.eqb (size (config o) * divider (config o)) 0).
  { unfold raised. intros Heq. inversion Heq; subst. split; [reflexivity | exact Hc]. }
  destruct (negb (Nat.eqb _ 0)).
  - destruct (map fst (concat items) ++ _).
    + unfold raised. intros Heq. inversion Heq; subst. split; [reflexivity | exact Hc].
    + destruct (rebind_groups _ 0 _). discriminate.
  - destruct (map fst (concat items)).
    + unfold raised. intros Heq. inversion Heq; subst. split; [reflexivity | exact Hc].
    + destruct (rebind_groups _ 0 _). discriminate.
Qed.

(** Lines 253-277 end without exception only when they have something to
    fuse. *)
Lemma init_fused_ok_inv (o o' : Opt F) :
  exp_avg_flat o = [] -> init_fused_momentum o = (o', None) ->
  all_full (param_groups o) /\
  (size (config o) * divider (config o))%nat <> 0%nat /\
  all_params (param_groups o) <> [].
Proof.
  intros Hflat. unfold init_fused_momentum. rewrite Hflat. simpl negb. cbv iota.
  destruct (collect_groups _ (param_groups o)) as [[gs items] [e0|]] eqn:Hc; [discriminate|].
  pose proof (collect_groups_ok _ _ Hc) as Hfull.
  rewrite (collect_groups_full _ Hfull) in Hc. inversion Hc; subst gs items. clear Hc.
  rewrite !concat_map_params, !map_map. cbn [config set_param_groups fst snd].
  destruct (Nat.eqb (size (config o) * divider (config o)) 0) eqn:Hm; [discriminate|].
  apply Nat.eqb_neq in Hm. intros Hrun.
  split; [exact Hfull|]. split; [exact Hm|].
  intros Hnil. rewrite Hnil in Hrun. simpl in Hrun.
  destruct (size (config o) * divider (config o))%nat as [|m] eqn:Hsd; [contradiction|].
  rewrite Nat.Div0.mod_0_l in Hrun. simpl in Hrun. discriminate.
Qed.

Lemma fusion_layout (o : Opt F) : laid_out o -> laid_out (fst (init_fused_momentum o)).
Proof.
  intros Hlaid. destruct (exp_avg_flat o) as [|b flat] eqn:Hflat.
  2:{ unfold init_fused_momentum. rewrite Hflat. exact Hlaid. }
  destruct (init_fused_momentum o) as [o' [e|]] eqn:Hrun; cbn [fst].
  - apply init_fused_raised in Hrun. destruct Hrun as [Hf Hg].
    eapply laid_out_kept; [exact Hg | rewrite Hf; apply buffer_sized_refl | exact Hlaid].
  - destruct (init_fused_ok_inv o Hflat Hrun) as (Hfull & Hm & Hne).
    destruct (init_fused_momentum_run o Hflat Hfull Hm Hne)
      as (o1 & Hrun1 & Hbuf & Hgs & _).
    rewrite Hrun in Hrun1. inversion Hrun1; subst o1. clear Hrun1.
    unfold laid_out. rewrite Hbuf, Hgs.
    destruct (rebind_groups_flat [] 0 (param_groups o)) as [Hall _]. rewrite Hall.
    apply all_full_flat in Hfull.
    exists (snd (rebind_params [] 0 (all_params (param_groups o)))).
    split; [apply views_from_rebind; exact Hfull|].
    destruct (rebind_params_spec [] Hfull [] []) as [Hoff _]. simpl in Hoff.
    rewrite Hoff. unfold fused_length. simpl. rewrite length_app. lia.
Qed.

Lemma list_set_sized (flat : list (tensor F)) i buffer v :
  nth_error flat i = Some buffer -> length v = length buffer ->
  buffer_sized flat (list_set i v flat).
Proof.
  intros Hi Hv. unfold buffer_sized, fused_length.
  destruct flat as [|b rest]; [destruct i; discriminate|].
  destruct i as [|i]; simpl in *.
  - inversion Hi; subst. split; [reflexivity | exact Hv].
  - split; [|reflexivity]. f_equal. clear -Hi. revert i Hi.
    induction rest as [|a rest IH]; intros [|i]; simpl; try discriminate; auto.
Qed.

Lemma keeps_sizes_compressed_allreduce net i k :
  keeps (fun o : Opt F => (length (exp_avg_flat o), fused_length (exp_avg_flat o)))
        (compressed_allreduce net i k).
Proof.
  intros o. unfold compressed_allreduce.
  destruct (nth_error (exp_avg_flat o) i) as [buffer|] eqn:Hi; [|reflexivity].
  destruct (nth_error (worker_errors o) k); [|reflexivity].
  destruct (nth_error (server_errors o) k); [|reflexivity].
  destruct (deepspeed o); [|reflexivity].
  destruct (net _ _ _ _) as [[b w] s].
  destruct (list_set_sized (exp_avg_flat o) i (inplace buffer b) Hi (length_inplace buffer b))
    as [Hl Hf].
  unfold done. cbn [fst exp_avg_flat set_exp_avg_flat]. f_equal; assumption.
Qed.

Lemma keeps_sizes_communicate net :
  keeps (fun o : Opt F => (length (exp_avg_flat o), fused_length (exp_avg_flat o)))
        (communicate net).
Proof.
  intros o. unfold communicate.
  destruct (lamb_freeze_key o); [|reflexivity].
  destruct (Nat.ltb 1 (size (config o))); [|reflexivity].
  set (proj := fun o1 : Opt F => (length (exp_avg_flat o1), fused_length (exp_avg_flat o1))).
  refine (@keeps_for_range _ _ proj (communicate_body net) _ _ o).
  intros i o1. unfold communicate_body.
  destruct (negb (initialize o1)); [|apply keeps_sizes_compressed_allreduce].
  refine (@keeps_bind _ _ proj _ _ _ _ o1); [apply keeps_bind|].
  - intros o2. pose proof (append_error_buffers_frame i o2) as Hk. cbv zeta in Hk.
    destruct Hk as (_ & _ & _ & _ & _ & _ & _ & Hf & _). unfold proj. rewrite Hf. reflexivity.
  - apply keeps_sizes_compressed_allreduce.
  - intros o2. reflexivity.
Qed.

Lemma communicate_layout net (o : Opt F) :
  laid_out o -> laid_out (fst (communicate net o)).
Proof.
  apply laid_out_kept.
  - pose proof (keeps_communicate net o) as Hk. unfold outside_buffers in Hk.
    inversion Hk as [[Hc1 Hi1 Hk1 Hd1 Hs1 Hl1 Hg1 Hdu Hco Hch]].
    apply groups_rel_refl. exact view_kept_refl.
  - pose proof (keeps_sizes_communicate net o) as Hk. inversion Hk as [[Hl Hf]].
    split; assumption.
Qed.

Lemma error_buffers_layout (o : Opt F) :
  laid_out o -> laid_out (fst (init_error_buffers o)).
Proof.
  pose proof (keeps_init_error_buffers o) as Hk. unfold outside_buffers in Hk.
  inversion Hk as [[Hc4 Hi4 Hkey4 Hd4 Hsc4 Hl4 Hg4 Hdu4 Hco4 Hch4 Hfl4]].
  apply laid_out_same; assumption.
Qed.

(** Whatever the outcome of [step], the momenta are stored as they were,
    or have just been fused. *)
Lemma step_layout net grads (o : Opt F) :
  laid_out o -> laid_out (fst (step net grads o)).
Proof.
  intros Hlaid. unfold step.
  destruct (grads_group_of grads (length (param_groups o))) as [gg|e]; [|exact Hlaid].
  fold (@no_locals F).
  set (P := fun fr : Opt F * Locals F => laid_out (fst fr)).
  assert (H1 : forall fr, P fr -> P (fst (snapshot_and_calibrate fr))).
  { intros [o1 loc]. apply snapshot_layout. }
  assert (H2 : forall fr, P fr -> P (fst (first_loop gg fr))).
  { intros [o1 loc]. apply first_loop_layout. }
  assert (H3 : forall fr, P fr -> P (fst (on_opt init_fused_momentum fr))).
  { apply (inv_on_opt (@laid_out F)). exact fusion_layout. }
  assert (H4 : forall fr, P fr -> P (fst (on_opt init_error_buffers fr))).
  { apply (inv_on_opt (@laid_out F)). exact error_buffers_layout. }
  assert (H5 : forall fr, P fr -> P (fst (on_opt (communicate net) fr))).
  { apply (inv_on_opt (@laid_out F)). exact (communicate_layout net). }
  assert (H6 : forall fr, P fr -> P (fst (second_loop fr))).
  { intros [o1 loc]. apply second_loop_layout. }
  assert (Hpipe : P (fst (snapshot_and_calibrate (set_lamb_coeffs [] o, no_locals) >>=
                          first_loop gg >>= on_opt init_fused_momentum >>=
                          on_opt init_error_buffers >>= on_opt (communicate net) >>=
                          second_loop))).
  { apply (inv_bind P (fun fr => snapshot_and_calibrate fr >>= first_loop gg >>=
                                 on_opt init_fused_momentum >>= on_opt init_error_buffers >>=
                                 on_opt (communicate net)) second_loop);
      [|exact H6|exact Hlaid].
    intros fr5 Hfr5.
    apply (inv_bind P (fun fr => snapshot_and_calibrate fr >>= first_loop gg >>=
                                 on_opt init_fused_momentum >>= on_opt init_error_buffers)
             (on_opt (communicate net))); [|exact H5|exact Hfr5].
    intros fr4 Hfr4.
    apply (inv_bind P (fun fr => snapshot_and_calibrate fr >>= first_loop gg >>=
                                 on_opt init_fused_momentum)
             (on_opt init_error_buffers)); [|exact H4|exact Hfr4].
    intros fr3 Hfr3.
    apply (inv_bind P (fun fr => snapshot_and_calibrate fr >>= first_loop gg)
             (on_opt init_fused_momentum)); [|exact H3|exact Hfr3].
    intros fr2 Hfr2.
    apply (inv_bind P snapshot_and_calibrate (first_loop gg)); assumption. }
  unfold P in Hpipe.
  match goal with
  | |- laid_out (fst (and_then ?x fst finish)) => destruct x as [[o6 loc6] [e|]]
  end; unfold and_then; cbn [fst snd] in *; [exact Hpipe|].
  pose proof (finish_frame o6 loc6) as Hfin. cbv zeta in Hfin.
  destruct Hfin as (_ & Hg & Hf & _).
  eapply laid_out_same; eassumption.
Qed.

Lemma Forall2_map_r {A B} (R : A -> B -> Prop) (f : A -> B) (l : list A) :
  (forall a, R a (f a)) -> Forall2 R l (map f l).
Proof. intros Hf. induction l; simpl; constructor; auto. Qed.

Lemma backward_layout grads (o : Opt F) : laid_out o -> laid_out (backward grads o).
Proof.
  apply laid_out_kept; [|apply buffer_sized_refl].
  unfold backward, groups_rel. cbn [param_groups set_param_groups].
  apply Forall2_zip_pad with (xs := grads). apply Forall2_map_r.
  intros [g x]. cbn [fst snd hyper params set_params]. split; [reflexivity|].
  apply Forall2_zip_pad with (xs := match x with Some l => l | None => [] end).
  apply Forall2_map_r. intros [p y]. reflexivity.
Qed.

Lemma init_layout groups engine freeze coeff fmax fmin threshold world (o : Opt F) :
  OnebitLamb_init groups engine freeze false coeff fmax fmin threshold (Some world) = Ok o ->
  laid_out o.
Proof.
  unfold OnebitLamb_init. destruct groups as [|g groups]; [discriminate|].
  intros Hnew. inversion Hnew; subst o. clear Hnew. unfold laid_out.
  cbn [exp_avg_flat param_groups]. apply Forall_all_params. intros g' p Hg Hp.
  change (In g' (map (fun g0 : Group F =>
                        set_params (map (set_p_state NoEntry) (params g0)) g0)
                     (g :: groups))) in Hg.
  apply in_map_iff in Hg. destruct Hg as (g0 & Hg0 & _). subst g'.
  cbn [params set_params] in Hp.
  apply in_map_iff in Hp. destruct Hp as (p0 & Hp0 & _). subst p. reflexivity.
Qed.

(** Along a training run the momenta are stored each on its own, then, from
    the first step that fuses them, as views of the fused buffer that
    follow one another. *)
Lemma reachable_laid_out (o : Opt F) : reachable o -> laid_out o.
Proof.
  induction 1 as [groups engine freeze coeff fmax fmin threshold world o Hnew
                 | grads o _ IH | net grads o _ IH].
  - eapply init_layout. exact Hnew.
  - apply backward_layout. exact IH.
  - apply step_layout. exact IH.
Qed.
End LayoutOfStep.

Section LoopUntil.
Context {A X St : Type}.
Variable body : nat -> A -> X -> St -> out (A * St).
Variable RS : St -> St -> Prop.
Hypothesis RS_refl : forall s, RS s s.
Hypothesis RS_trans : forall s1 s2 s3, RS s1 s2 -> RS s2 s3 -> RS s1 s3.

End LoopUntil.

Section Positions.
Context {F : Type} `{Scalar F}.

Lemma views_from_le (ps : list (Param F)) off e :
  views_from off ps = Some e -> (off <= e)%nat.
Proof.
  revert off. induction ps as [|p ps IH]; intros off; simpl.
  - intros Heq. inversion Heq. lia.
  - destruct (view_of p) as [[off' n]|]; [|discriminate].
    destruct (Nat.eqb off' off); [|discriminate].
    intros Hrest. apply IH in Hrest. lia.
Qed.

(** In a sequence of views that follow one another, every element is a
    view between the start and the end of the sequence. *)
Lemma views_from_nth (ps : list (Param F)) start e k q :
  views_from start ps = Some e -> nth_error ps k = Some q ->
  exists o n, view_of q = Some (o, n) /\ (start <= o /\ o + n <= e)%nat.
Proof.
  revert start k. induction ps as [|b ps IH]; intros start k Hviews Hq;
    [destruct k; discriminate|].
  simpl in Hviews. destruct (view_of b) as [[offb nb]|] eqn:Vb; [|discriminate].
  destruct (Nat.eqb offb start) eqn:Hb; [|discriminate].
  apply Nat.eqb_eq in Hb. subst offb.
  destruct k as [|k]; simpl in Hq.
  - inversion Hq; subst b. exists start, nb. split; [exact Vb|].
    apply views_from_le in Hviews. lia.
  - edestruct IH as (o & n & Vq & H1 & H2); [exact Hviews | exact Hq |].
    exists o, n. split; [exact Vq | lia].
Qed.

(** A view that comes before another one ends where the other starts, or
    before. *)
Lemma views_from_apart (ps : list (Param F)) start e k k' p q o n o' n' :
  views_from start ps = Some e ->
  nth_error ps k = Some p -> nth_error ps k' = Some q -> (k < k')%nat ->
  view_of p = Some (o, n) -> view_of q = Some (o', n') ->
  (o + n <= o')%nat.
Proof.
  revert start k k'. induction ps as [|a ps IH]; intros start k k' Hviews Hp Hq Hlt Vp Vq;
    [destruct k; discriminate|].
  simpl in Hviews. destruct (view_of a) as [[offa na]|] eqn:Va; [|discriminate].
  destruct (Nat.eqb offa start) eqn:Hoff; [|discriminate].
  apply Nat.eqb_eq in Hoff. subst offa.
  destruct k' as [|k']; [lia|]. simpl in Hq.
  destruct k as [|k]; simpl in Hp.
  - inversion Hp; subst a. rewrite Va in Vp. inversion Vp; subst o n.
    edestruct views_from_nth as (o1 & n1 & Vq1 & H1 & _); [exact Hviews | exact Hq |].
    rewrite Vq in Vq1. inversion Vq1; subst. exact H1.
  - apply (IH _ k k' Hviews Hp Hq); [lia | exact Vp | exact Vq].
Qed.

Lemma params_before_cons (g0 : Group F) gs i :
  params_before (g0 :: gs) (S i) = (length (params g0) + params_before gs i)%nat.
Proof. unfold params_before. simpl firstn. rewrite all_params_cons, length_app. reflexivity. Qed.

Lemma params_before_succ (gs : list (Group F)) i g :
  nth_error gs i = Some g ->
  params_before gs (S i) = (params_before gs i + length (params g))%nat.
Proof.
  revert i. induction gs as [|g0 gs IH]; intros [|i] Hg; try discriminate; simpl in Hg.
  - inversion Hg; subst. rewrite params_before_cons. unfold params_before. simpl. lia.
  - rewrite !params_before_cons, (IH i Hg). lia.
Qed.

Lemma params_before_le (gs : list (Group F)) a b :
  (a <= b)%nat -> (params_before gs a <= params_before gs b)%nat.
Proof.
  revert a b. induction gs as [|g0 gs IH]; intros a b Hab.
  - unfold params_before. rewrite !firstn_nil. lia.
  - destruct a as [|a]; [unfold params_before at 1; simpl; lia|].
    destruct b as [|b]; [lia|].
    rewrite !params_before_cons. specialize (IH a b). lia.
Qed.

Lemma params_before_mono (gs : list (Group F)) i i' g :
  (i < i')%nat -> nth_error gs i = Some g ->
  (params_before gs i + length (params g) <= params_before gs i')%nat.
Proof.
  intros Hlt Hg. rewrite <- (params_before_succ gs i Hg). apply params_before_le. lia.
Qed.

Lemma param_at_flat (gs : list (Group F)) i j p :
  param_at gs i j = Some p ->
  nth_error (all_params gs) (params_before gs i + j) = Some p.
Proof.
  unfold param_at. revert i. induction gs as [|g gs IH]; intros [|i]; simpl;
    try discriminate.
  - intros Hp. rewrite all_params_cons.
    change (params_before (g :: gs) 0) with 0%nat. simpl.
    rewrite nth_error_app1; [exact Hp|]. apply nth_error_Some. rewrite Hp. discriminate.
  - intros Hp. rewrite params_before_cons, all_params_cons, <- Nat.add_assoc.
    rewrite nth_error_app2 by lia.
    replace (length (params g) + (params_before gs i + j) - length (params g))%nat
      with (params_before gs i + j)%nat by lia.
    apply IH. exact Hp.
Qed.

Lemma before_position_flat (gs : list (Group F)) i j p i' j' q :
  param_at gs i j = Some p -> param_at gs i' j' = Some q ->
  before_position i j i' j' ->
  (params_before gs i + j < params_before gs i' + j')%nat.
Proof.
  intros Hp Hq [Hlt|[Heq Hlt]]; [|subst; lia].
  unfold param_at in Hp. destruct (nth_error gs i) as [g|] eqn:Hg; [|discriminate].
  assert (Hj : (j < length (params g))%nat).
  { apply nth_error_Some. rewrite Hp. discriminate. }
  pose proof (params_before_mono gs Hlt Hg). lia.
Qed.

(** Once the momenta are fused, the momentum of every parameter is a view
    within the fused buffer. *)
Lemma laid_out_view (o : Opt F) i j p :
  laid_out o -> exp_avg_flat o <> [] -> param_at (param_groups o) i j = Some p ->
  exists off n, view_of p = Some (off, n) /\
                (off + n <= fused_length (exp_avg_flat o))%nat.
Proof.
  unfold laid_out. intros Hlaid Hflat Hp.
  destruct (exp_avg_flat o) as [|b flat] eqn:Hf; [contradiction|].
  destruct Hlaid as (e & Hviews & He).
  apply param_at_flat in Hp.
  edestruct views_from_nth as (off & n & Vp & _ & Hn); [exact Hviews | exact Hp |].
  exists off, n. split; [exact Vp | lia].
Qed.

Lemma view_of_full (q : Param F) s off n :
  p_state q = FullEntry s -> s_exp_avg s = InFlat off n -> view_of q = Some (off, n).
Proof. intros Hq Hs. unfold view_of, exp_avg_of. rewrite Hq, Hs. reflexivity. Qed.

(** Once the momenta are fused, the momentum of a parameter is stored
    apart from the view of any parameter at another position. *)
Lemma laid_out_apart (o : Opt F) i j p i' j' q off n :
  laid_out o -> exp_avg_flat o <> [] ->
  param_at (param_groups o) i j = Some p -> param_at (param_groups o) i' j' = Some q ->
  before_position i j i' j' \/ before_position i' j' i j ->
  view_of p = Some (off, n) ->
  writes_apart off n (fused_length (exp_avg_flat o)) q.
Proof.
  intros Hlaid Hflat Hp Hq Horder Vp.
  destruct (laid_out_view o i' j' Hlaid Hflat Hq) as (off' & n' & Vq & Hin).
  unfold laid_out in Hlaid.
  destruct (exp_avg_flat o) as [|b flat] eqn:Hf; [contradiction|].
  destruct Hlaid as (e & Hviews & He).
  unfold writes_apart.
  destruct (p_state q) as [| | |s] eqn:Hs; try exact I.
  destruct (s_exp_avg s) as [d|o1 n1] eqn:Hst; [exact I|].
  rewrite (view_of_full q Hs Hst) in Vq. inversion Vq; subst o1 n1. simpl.
  split; [exact Hin|].
  destruct Horder as [Hbefore|Hafter].
  - right.
    assert (Hlt : (params_before (param_groups o) i + j
                   < params_before (param_groups o) i' + j')%nat)
      by (eapply before_position_flat; eassumption).
    eapply views_from_apart;
      [exact Hviews | apply param_at_flat; exact Hp | apply param_at_flat; exact Hq
      | exact Hlt | exact Vp | eapply view_of_full; eassumption].
  - left.
    assert (Hlt : (params_before (param_groups o) i' + j'
                   < params_before (param_groups o) i + j)%nat)
      by (eapply before_position_flat; eassumption).
    eapply views_from_apart;
      [exact Hviews | apply param_at_flat; exact Hq | apply param_at_flat; exact Hp
      | exact Hlt | eapply view_of_full; eassumption | exact Vp].
Qed.
End Positions.

Section RegionUntil.
Context {F : Type} `{Scalar F}.

Lemma momentum_own (flat flat' : list (tensor F)) (p : Param F) :
  view_of p = None -> momentum flat' p = momentum flat p.
Proof.
  unfold view_of, momentum. destruct (exp_avg_of p); [reflexivity | discriminate].
Qed.

Lemma momentum_view (flat : list (tensor F)) (p : Param F) off n :
  view_of p = Some (off, n) -> momentum flat p = slice off n flat.
Proof.
  unfold view_of, momentum. destruct (exp_avg_of p); [discriminate|].
  intros Heq. inversion Heq; subst. reflexivity.
Qed.

Lemma view_of_touched (p p' : Param F) : touched p p' -> view_of p' = view_of p.
Proof. intros [Heq|Heq]; subst; [reflexivity | apply view_kept_touch]. Qed.



End RegionUntil.

Section LayoutUses.
Context {F : Type} `{Scalar F}.


Lemma visit_param_at (gs : list (Group F)) gg i j q x :
  visit gs gg i j = Some (q, x) -> param_at gs i j = Some q.
Proof.
  unfold visit, param_at.
  destruct (nth_error gs i) as [g|]; [|discriminate].
  destruct (nth_error gg i) as [y|]; [|discriminate].
  destruct (nth_error (params g) j) as [p|]; [|discriminate].
  destruct (nth_error (grads_of_group g y) j); [|discriminate].
  intros Heq. inversion Heq. reflexivity.
Qed.


End LayoutUses.

(** ** Runs of the examples *)

Lemma reachable_pair : reachable Demo.pair.
Proof.
  apply (reach_new Demo.pair_groups (Some Demo.engine0) 3 0.99%float 4.5%float 0.5%float
           0.1%float 2%nat).
  vm_compute. reflexivity.
Qed.

Lemma reachable_steps n (o : Opt float) : reachable o -> reachable (Demo.steps n o).
Proof.
  intros Ho. induction n as [|n IH]; [exact Ho|]. cbn [Demo.steps]. apply reach_step.
  exact IH.
Qed.

(** * The claims *)

Section FusionClaims.
Context {F : Type} `{Scalar F}.

Lemma make_divider_ge (n : nat) : (1 <= n -> n <= make_divider n)%nat.
Proof.
  intros Hn. unfold make_divider.
  assert (Hg : (0 < Nat.gcd n 8 <= 8)%nat).
  { split.
    - destruct (Nat.eq_dec (Nat.gcd n 8) 0) as [Hz|Hz]; [|lia].
      apply Nat.gcd_eq_0 in Hz. lia.
    - apply Nat.divide_pos_le; [lia | apply Nat.gcd_divide_r]. }
  transitivity ((n * 8) / 8)%nat.
  - rewrite Nat.div_mul; lia.
  - apply Nat.div_le_compat_l. exact Hg.
Qed.

Lemma padded_is_multiple (ts m : nat) :
  m <> 0%nat ->
  let pad := if Nat.eqb (ts mod m) 0 then 0%nat else (m - ts mod m)%nat in
  ((ts + pad) mod m = 0 /\ pad < m)%nat.
Proof.
  intros Hm pad. subst pad.
  pose proof (Nat.mod_upper_bound ts m Hm) as Hr.
  destruct (Nat.eqb (ts mod m) 0) eqn:Hz.
  - apply Nat.eqb_eq in Hz. rewrite Nat.add_0_r. split; [assumption | lia].
  - apply Nat.eqb_neq in Hz. split; [|lia].
    pose proof (Nat.div_mod_eq ts m) as Hd.
    replace (ts + (m - ts mod m))%nat with ((ts / m + 1) * m)%nat by nia.
    apply Nat.Div0.mod_mul.
Qed.

Lemma length_momenta (flat : list (tensor F)) (gs : list (Group F)) :
  momenta_match flat gs ->
  length (concat (map (momentum flat) (all_params gs))) = tensor_size gs.
Proof.
  unfold momenta_match, tensor_size. rewrite length_concat, map_map.
  induction 1 as [|p ps Hp Hps IH]; simpl; [reflexivity|].
  unfold numel in *. rewrite Hp, IH. reflexivity.
Qed.

(** C5. On first access (no fused buffer yet, every parameter with its
    momentum, of the parameter's element count), for every world size >= 1
    with [divider = (8 * world_size) / gcd(world_size, 8)], the fused buffer
    is the parameters' momenta followed by [pad] zeros, where the sum of the
    parameters' element counts plus [pad] is the next multiple of
    [world_size * divider]; the views of the parameters end before the
    padding, which is the dummy buffer. *)
Theorem fused_buffer_is_padded_sum (o : Opt F) :
  (1 <= size (config o))%nat ->
  divider (config o) = make_divider (size (config o)) ->
  exp_avg_flat o = [] ->
  all_full (param_groups o) ->
  momenta_match [] (param_groups o) ->
  all_params (param_groups o) <> [] ->
  let m := (size (config o) * divider (config o))%nat in
  let ts := tensor_size (param_groups o) in
  exists o' pad,
    init_fused_momentum o = (o', None) /\
    exp_avg_flat o' = [concat (map (momentum []) (all_params (param_groups o))) ++ zeros pad] /\
    length (concat (map (momentum []) (all_params (param_groups o))) ++ zeros pad)
      = (ts + pad)%nat /\
    ((ts + pad) mod m = 0)%nat /\ (pad < m)%nat /\
    corrected_tensor_sizes o' = corrected_tensor_sizes o ++ [(ts + pad)%nat] /\
    Forall (fun p' => exists off n, is_view p' off n /\ (off + n <= ts)%nat)
           (all_params (param_groups o')) /\
    (pad <> 0%nat -> dummy_exp_avg o' = Some (InFlat ts pad)).
Proof.
  intros Hsize Hdiv Hflat Hfull Hmatch Hne m ts.
  assert (Hm : m <> 0%nat).
  { subst m. rewrite Hdiv. pose proof (make_divider_ge Hsize). nia. }
  destruct (init_fused_momentum_run o Hflat Hfull Hm Hne)
    as (o' & Hrun & Hbuf & Hgs & Hcor & _ & Hdummy & _).
  fold m ts in Hbuf, Hcor, Hdummy.
  set (pad := if Nat.eqb (ts mod m) 0 then 0%nat else (m - ts mod m)%nat) in *.
  destruct (padded_is_multiple ts Hm) as [Hmul Hlt]. fold pad in Hmul, Hlt.
  pose proof (length_momenta Hmatch) as Hlen. fold ts in Hlen.
  destruct (rebind_groups_flat [] 0 (param_groups o)) as [Hall Hoff].
  apply all_full_flat in Hfull.
  destruct (rebind_params_spec [] Hfull [] (zeros pad)) as [Hend Hviews].
  simpl length in Hend, Hviews. rewrite Hlen in Hend, Hviews.
  exists o', pad. split; [exact Hrun|]. split; [exact Hbuf|].
  split.
  { rewrite length_app, Hlen. unfold zeros. rewrite repeat_length. reflexivity. }
  split; [exact Hmul|]. split; [exact Hlt|]. split; [exact Hcor|]. split.
  - rewrite Hgs, Hall.
    eapply Forall2_right; [exact Hviews|].
    intros p p' (_ & _ & s & off & _ & Hp' & _ & Hhi & _).
    exists off, (numel (momentum [] p)). split; [|simpl in Hhi; exact Hhi].
    unfold is_view, exp_avg_of. rewrite Hp'. reflexivity.
  - intros Hpad. rewrite Hdummy.
    destruct (Nat.eqb pad 0) eqn:Hz; [apply Nat.eqb_eq in Hz; contradiction|].
    rewrite Hoff, Hend. reflexivity.
Qed.

Lemma init_fused_momentum_ok (o o' : Opt F) :
  exp_avg_flat o = [] ->
  init_fused_momentum o = (o', None) ->
  all_full (param_groups o) /\
  (size (config o) * divider (config o))%nat <> 0%nat /\
  all_params (param_groups o) <> [].
Proof.
  intros Hflat Hrun.
  assert (Hfull : all_full (param_groups o)).
  { unfold init_fused_momentum in Hrun. rewrite Hflat in Hrun. simpl in Hrun.
    destruct (collect_groups _ (param_groups o)) as [[gs items] [e|]] eqn:Hc;
      [discriminate|].
    eapply collect_groups_ok; eassumption. }
  split; [exact Hfull|].
  unfold init_fused_momentum in Hrun. rewrite Hflat in Hrun. simpl negb in Hrun.
  cbv iota in Hrun. rewrite (collect_groups_full _ Hfull) in Hrun.
  cbn [config set_param_groups] in Hrun.
  destruct (Nat.eqb (size (config o) * divider (config o)) 0) eqn:Hm; [discriminate|].
  apply Nat.eqb_neq in Hm. split; [exact Hm|].
  intros Hnil. rewrite !concat_map_params, Hnil in Hrun. simpl in Hrun.
  rewrite Nat.Div0.mod_0_l in Hrun. simpl in Hrun.
  discriminate.
Qed.

(** C6. When the momenta are fused, every parameter's momentum reads back
    what it held before, and becomes a view of the fused buffer: whatever is
    later written into the buffer in place is what the momentum shows. *)
Theorem fuse_unflatten_roundtrip (o o' : Opt F) :
  exp_avg_flat o = [] ->
  init_fused_momentum o = (o', None) ->
  exists buffer,
    exp_avg_flat o' = [buffer] /\
    Forall2 (fun p p' =>
               momentum (exp_avg_flat o') p' = momentum (exp_avg_flat o) p /\
               exists off n,
                 is_view p' off n /\ (off + n <= length buffer)%nat /\
                 forall written : tensor F,
                   momentum [inplace buffer written] p' =
                     firstn n (skipn off (inplace buffer written)))
            (all_params (param_groups o)) (all_params (param_groups o')).
Proof.
  intros Hflat Hrun.
  destruct (init_fused_momentum_ok o Hflat Hrun) as (Hfull & Hm & Hne).
  destruct (init_fused_momentum_run o Hflat Hfull Hm Hne)
    as (o2 & Hrun2 & Hbuf & Hgs & _).
  rewrite Hrun in Hrun2. inversion Hrun2; subst o2. clear Hrun2.
  set (pad := if Nat.eqb (tensor_size (param_groups o)
                            mod (size (config o) * divider (config o))) 0
              then 0%nat
              else (size (config o) * divider (config o)
                    - tensor_size (param_groups o)
                      mod (size (config o) * divider (config o)))%nat) in *.
  destruct (rebind_groups_flat [] 0 (param_groups o)) as [Hall _].
  apply all_full_flat in Hfull.
  destruct (rebind_params_spec [] Hfull [] (zeros pad)) as [_ Hviews].
  simpl length in Hviews. simpl app in Hviews.
  eexists. split; [exact Hbuf|].
  rewrite Hgs, Hall, Hbuf, Hflat.
  eapply Forall2_impl; [|exact Hviews].
  intros p p' (_ & _ & s & off & _ & Hp' & _ & Hhi & Hsl).
  assert (Hview : exp_avg_of p' = InFlat off (numel (momentum [] p))).
  { unfold exp_avg_of. rewrite Hp'. reflexivity. }
  split.
  - unfold momentum at 1. rewrite Hview. simpl. exact Hsl.
  - exists off, (numel (momentum [] p)). split; [exact Hview|]. split.
    + rewrite length_app. lia.
    + intros written. unfold momentum. rewrite Hview. reflexivity.
Qed.
End FusionClaims.

(** The fused buffer of two parameters of 3 and 2 elements on 2 workers. *)
Lemma fused_buffer_is_padded_sum_witness :
  exists o' pad,
    init_fused_momentum Demo.unfused = (o', None) /\
    exp_avg_flat o' =
      [concat (map (momentum []) (all_params (param_groups Demo.unfused))) ++ zeros pad] /\
    length (concat (map (momentum []) (all_params (param_groups Demo.unfused))) ++ zeros pad)
      = (tensor_size (param_groups Demo.unfused) + pad)%nat /\
    ((tensor_size (param_groups Demo.unfused) + pad) mod (2 * make_divider 2) = 0)%nat /\
    (pad < 2 * make_divider 2)%nat /\
    corrected_tensor_sizes o' = [(tensor_size (param_groups Demo.unfused) + pad)%nat] /\
    Forall (fun p' => exists off n,
                is_view p' off n /\ (off + n <= tensor_size (param_groups Demo.unfused))%nat)
           (all_params (param_groups o')) /\
    (pad <> 0%nat -> dummy_exp_avg o' = Some (InFlat (tensor_size (param_groups Demo.unfused)) pad)).
Proof.
  apply (@fused_buffer_is_padded_sum _ float_scalar Demo.unfused).
  - simpl. lia.
  - reflexivity.
  - reflexivity.
  - repeat constructor; eexists; reflexivity.
  - repeat constructor.
  - discriminate.
Defined.

Lemma fuse_unflatten_roundtrip_witness :
  exists buffer,
    exp_avg_flat (fst (init_fused_momentum Demo.unfused)) = [buffer] /\
    Forall2 (fun p p' =>
               momentum (exp_avg_flat (fst (init_fused_momentum Demo.unfused))) p' =
                 momentum [] p /\
               exists off n,
                 is_view p' off n /\ (off + n <= length buffer)%nat /\
                 forall written : tensor Demo.flt,
                   momentum [inplace buffer written] p' =
                     firstn n (skipn off (inplace buffer written)))
            (all_params (param_groups Demo.unfused))
            (all_params (param_groups (fst (init_fused_momentum Demo.unfused)))).
Proof.
  apply (@fuse_unflatten_roundtrip _ float_scalar Demo.unfused
           (fst (init_fused_momentum Demo.unfused))).
  - reflexivity.
  - vm_compute. reflexivity.
Defined.

Section CheckpointClaims.
Context {F : Type} `{Scalar F}.

(** X17. Loading the dict saved from [saver] into [loader] (the same
    optimizer, or another over groups of the same sizes), the first
    parameter of [saver] having a step count.  When that count is below the
    [freeze_step] of [loader] (and [loader] has an engine if it is in the
    compression stage), [load_state_dict] ends without exception,
    [lamb_freeze_key] is false, every parameter has
    [lamb_coeff_freeze = 0.0] and [last_factor = 1.0], the error buffers and
    the scaling coefficients are emptied, and the all-reduce of the engine
    is enabled again if [loader] was in the compression stage (the engine is
    left as it was otherwise).  When the count is at or above [freeze_step]
    (and [saver] has no more worker errors than server errors),
    [load_state_dict] ends without exception, [lamb_freeze_key] is what
    [loader] had, and the error buffers and the scaling coefficients are
    those of [saver]. *)
Theorem load_after_save (saver loader : Opt F) (z : Z) :
  same_shape (param_groups loader) (param_groups saver) ->
  first_step (param_groups saver) = Some z ->
  ((z < freeze_step (config loader))%Z ->
   (lamb_freeze_key loader = true -> deepspeed loader <> None) ->
   exists o',
     load_state_dict (state_dict saver) loader = (o', None) /\
     lamb_freeze_key o' = false /\
     Forall (fun p => smoothing_of (p_state p) = Some (fzero, fone))
            (all_params (param_groups o')) /\
     worker_errors o' = [] /\ server_errors o' = [] /\ scaling_coeffs o' = [] /\
     (lamb_freeze_key loader = true -> backward_allreduce o' = Some true) /\
     (lamb_freeze_key loader = false -> deepspeed o' = deepspeed loader))
  /\
  ((freeze_step (config loader) <= z)%Z ->
   (length (worker_errors saver) <= length (server_errors saver))%nat ->
   exists o',
     load_state_dict (state_dict saver) loader = (o', None) /\
     lamb_freeze_key o' = lamb_freeze_key loader /\
     worker_errors o' = worker_errors saver /\
     server_errors o' = server_errors saver /\
     scaling_coeffs o' = scaling_coeffs saver).
Proof.
  intros Hshape Hfirst.
  pose proof (load_state_dict_run loader saver Hshape Hfirst) as Hrun.
  cbv zeta in Hrun. split.
  - intros Hlt Hengine. apply Z.leb_gt in Hlt. rewrite Hlt in Hrun. rewrite Hrun.
    match goal with
    | |- context [reset_compression ?o1] =>
        destruct (reset_compression_run o1) as (o' & Hr & Hk & Hgs & Hw & Hs & Hsc & Hon & Hoff)
    end.
    { destruct loader; simpl in *; exact Hengine. }
    exists o'. split; [exact Hr|]. split; [exact Hk|]. split.
    { rewrite Hgs, all_params_map_params. apply Forall_map, Forall_forall.
      intros p _. apply reset_smoothing_spec. }
    split; [exact Hw|]. split; [exact Hs|]. split; [exact Hsc|]. split.
    + intros Hkey. apply Hon. destruct loader; simpl in *; exact Hkey.
    + intros Hkey. rewrite Hoff; destruct loader; simpl in *; [reflexivity | exact Hkey].
  - intros Hge Hlen. apply Z.leb_le in Hge. rewrite Hge in Hrun. rewrite Hrun.
    match goal with
    | |- context [load_compression ?sd ?o1] =>
        destruct (@load_compression_run _ sd o1 (worker_errors saver) (server_errors saver)
                    (scaling_coeffs saver) eq_refl eq_refl eq_refl Hlen)
          as (o' & Hr & Hk & Hw & Hs & Hsc)
    end.
    exists o'. split; [exact Hr|]. split.
    { rewrite Hk. destruct loader; reflexivity. }
    repeat split; assumption.
Qed.
End CheckpointClaims.

(** Saved in the compression stage, loaded into the same optimizer. *)
Lemma load_after_save_witness :
  exists o',
    load_state_dict (state_dict Demo.compressing) Demo.compressing = (o', None) /\
    lamb_freeze_key o' = lamb_freeze_key Demo.compressing /\
    worker_errors o' = worker_errors Demo.compressing /\
    server_errors o' = server_errors Demo.compressing /\
    scaling_coeffs o' = scaling_coeffs Demo.compressing.
Proof.
  refine (proj2 (@load_after_save _ float_scalar Demo.compressing Demo.compressing 4%Z
                   _ _) _ _).
  - repeat constructor.
  - reflexivity.
  - vm_compute. discriminate.
  - simpl. lia.
Defined.

(** C7 fails on the code.  A dict saved in the compression stage, the step
    count of the first parameter at 4 with [freeze_step = 3], is loaded into
    a newly built optimizer: [load_state_dict] ends without exception and
    takes the error buffers and the scaling coefficients of the dict (the
    branch of line 420, which prints that the compression stage continues),
    but [lamb_freeze_key] is still false: the optimizer is in the warmup
    stage. *)
Lemma load_into_new_optimizer_stays_warmup :
  first_step (param_groups Demo.compressing) = Some 4%Z /\
  freeze_step (config Demo.single) = 3%Z /\
  lamb_freeze_key Demo.compressing = true /\
  lamb_freeze_key Demo.single = false /\
  snd (load_state_dict (state_dict Demo.compressing) Demo.single) = None /\
  lamb_freeze_key (fst (load_state_dict (state_dict Demo.compressing) Demo.single)) = false /\
  scaling_coeffs (fst (load_state_dict (state_dict Demo.compressing) Demo.single))
    = scaling_coeffs Demo.compressing /\
  scaling_coeffs Demo.compressing <> [] /\
  worker_errors (fst (load_state_dict (state_dict Demo.compressing) Demo.single))
    = worker_errors Demo.compressing /\
  server_errors (fst (load_state_dict (state_dict Demo.compressing) Demo.single))
    = server_errors Demo.compressing.
Proof. vm_compute. repeat split; try reflexivity. discriminate. Qed.

(** C9 fails on the code: the group of the optimizer has no mask, the group
    of the dict has one, and after [load_state_dict] the group has the mask
    of the dict. *)
Lemma load_state_dict_takes_saved_mask :
  masks (param_groups Demo.compressing) = [None] /\
  masks (map (fun g => {| hyper := fst g; params := [] |})
             (sd_param_groups (state_dict Demo.masked))) = [Some [1; 0]%float] /\
  snd (load_state_dict (state_dict Demo.masked) Demo.compressing) = None /\
  masks (param_groups (fst (load_state_dict (state_dict Demo.masked) Demo.compressing)))
    = [Some [1; 0]%float].
Proof. vm_compute. repeat split; reflexivity. Qed.

Section FactorClaims.

End FactorClaims.



Section ScalingClaims.
Context {F : Type} `{Scalar F}.

End ScalingClaims.



(** ** The first step *)

Section Bootstrap.
Context {F : Type} `{Scalar F}.

Lemma boot_rel_refl (p : Param F) : boot_rel p p.
Proof. split; [reflexivity | auto]. Qed.

(** Lines 188-250 on the first step: the dict is created, the step count
    incremented, and nothing else. *)
Lemma first_loop_body_bootstrap cfg sc h i j (p : Param F) x sh :
  let r := fst (first_loop_body cfg false sc h i j p x sh) in
  boot_rel p (fst r) /\ sh_flat (snd r) = sh_flat sh.
Proof.
  unfold first_loop_body.
  destruct (match x with Some g => Some g | None => p_grad p end) as [g|];
    [|split; [apply boot_rel_refl | reflexivity]].
  destruct (is_sparse g); [split; [apply boot_rel_refl | reflexivity]|].
  unfold get_or_init, boot_rel, momentum_sized.
  destruct (p_state p) as [| |lcf lf|s] eqn:Hp; simpl; rewrite ?Hp; simpl;
    (split; [|reflexivity]); (split; [reflexivity|]);
    intros Hs; try exact Hs; rewrite ?Hp; simpl; try exact I;
    unfold zeros_like, zeros, numel; apply repeat_length.
Qed.

(** The first loop of the first step. *)
Lemma first_loop_bootstrap gg (o : Opt F) loc :
  initialize o = false ->
  let o' := fst (fst (first_loop gg (o, loc))) in
  groups_rel boot_rel (param_groups o) (param_groups o') /\
  exp_avg_flat o' = exp_avg_flat o.
Proof.
  intros Hinit. split.
  - apply first_loop_groups_rel; [exact boot_rel_refl|].
    rewrite Hinit. intros. apply first_loop_body_bootstrap.
  - pose proof (nested_loop_shared
                  (fun s s' : Shared F => sh_flat s' = sh_flat s)
                  (first_loop_body (config o) (initialize o) (scaling_coeffs o))
                  (fun g y => match y with
                              | None => repeat None (length (params g))
                              | Some l => l
                              end)
                  (param_groups o) gg (shared_of o loc)) as Hsh.
    unfold first_loop, and_then.
    change (for_each (first_loop_group (config o) (initialize o) (scaling_coeffs o)) 0
              (param_groups o) gg (shared_of o loc))
      with (for_each
              (fun i g y s =>
                 and_then (for_each (first_loop_body (config o) (initialize o)
                                       (scaling_coeffs o) (hyper g) i) 0 (params g)
                             (match y with
                              | None => repeat None (length (params g))
                              | Some l => l
                              end) s)
                          (fun r => (set_params (fst r) g, snd r))
                          (fun r => done (set_params (fst r) g, snd r)))
              0 (param_groups o) gg (shared_of o loc)).
    assert (Hflat : sh_flat (snd (fst (for_each
              (fun i g y s =>
                 and_then (for_each (first_loop_body (config o) (initialize o)
                                       (scaling_coeffs o) (hyper g) i) 0 (params g)
                             (match y with
                              | None => repeat None (length (params g))
                              | Some l => l
                              end) s)
                          (fun r => (set_params (fst r) g, snd r))
                          (fun r => done (set_params (fst r) g, snd r)))
              0 (param_groups o) gg (shared_of o loc)))) = exp_avg_flat o).
    { apply Hsh; try congruence.
      rewrite Hinit. intros. apply first_loop_body_bootstrap. }
    clear Hsh.
    match type of Hflat with
    | sh_flat (snd (fst ?x)) = _ => destruct x as [[gs sh] [e|]]
    end; simpl in *; exact Hflat.
Qed.

(** The communication of the first step leaves no error buffer behind, and
    the fused buffers keep their sizes. *)
Lemma communicate_bootstrap net (o o' : Opt F) :
  initialize o = false -> worker_errors o = [] -> server_errors o = [] ->
  communicate net o = (o', None) ->
  worker_errors o' = [] /\ server_errors o' = [] /\
  map (@length F) (exp_avg_flat o') = map (@length F) (exp_avg_flat o).
Proof.
  intros Hinit Hw Hs. unfold communicate.
  destruct (lamb_freeze_key o);
    [|intros Heq; inversion Heq; subst; repeat split; assumption].
  destruct (Nat.ltb 1 (size (config o)));
    [|intros Heq; inversion Heq; subst; repeat split; assumption].
  intros Hrun.
  apply (@for_range_ok_inv _
           (fun o1 : Opt F =>
              initialize o1 = false /\ worker_errors o1 = [] /\ server_errors o1 = [] /\
              map (@length F) (exp_avg_flat o1) = map (@length F) (exp_avg_flat o))
           (communicate_body net) _ o o') in Hrun.
  - destruct Hrun as (_ & ? & ? & ?). repeat split; assumption.
  - clear Hrun. intros i o1 o2 (Hi1 & Hw1 & Hs1 & Hl1). unfold communicate_body.
    rewrite Hi1. simpl negb. cbv iota. intros Hrun.
    apply and_then_ok in Hrun. destruct Hrun as (ob & Hrun & Hclear).
    apply and_then_ok in Hrun. destruct Hrun as (oa & Happ & Hred).
    unfold done in Hclear. inversion Hclear; subst o2. clear Hclear.
    pose proof (append_error_buffers_frame i o1) as Hfa. cbv zeta in Hfa.
    rewrite Happ in Hfa. cbn [fst] in Hfa.
    destruct Hfa as (_ & Hia & _ & _ & _ & _ & _ & Hflat & _).
    pose proof (compressed_allreduce_frame net i 0 oa) as Hfb. cbv zeta in Hfb.
    rewrite Hred in Hfb. cbn [fst] in Hfb. destruct Hfb as (_ & Hib & _).
    cbn [initialize worker_errors server_errors exp_avg_flat
         set_server_errors set_worker_errors].
    split; [congruence|]. split; [reflexivity|]. split; [reflexivity|].
    rewrite <- Hl1, <- Hflat.
    unfold compressed_allreduce in Hred.
    destruct (nth_error (exp_avg_flat oa) i) as [buffer|] eqn:Hbuf; [|discriminate].
    destruct (nth_error (worker_errors oa) 0) as [we|]; [|discriminate].
    destruct (nth_error (server_errors oa) 0) as [se|]; [|discriminate].
    destruct (deepspeed oa) as [engine|]; [|discriminate].
    destruct (net buffer we se (local_rank engine)) as [[b w] s].
    unfold done in Hred. inversion Hred; subst ob. cbn [exp_avg_flat set_exp_avg_flat].
    eapply map_length_list_set; [exact Hbuf | apply length_inplace].
  - repeat split; assumption.
Qed.

Lemma groups_rel_tensor_size (gs gs' : list (Group F)) :
  groups_rel same_data gs gs' -> tensor_size gs' = tensor_size gs.
Proof.
  intros Hrel. apply groups_rel_all_params in Hrel. unfold tensor_size.
  induction Hrel as [|p p' ps ps' Hp Hps IH]; simpl; [reflexivity|].
  unfold same_data in Hp. rewrite Hp, IH. reflexivity.
Qed.

(** Whatever its outcome, the first step writes no parameter. *)
Lemma bootstrap_keeps_data net grads (o : Opt F) :
  initialize o = false ->
  groups_rel same_data (param_groups o) (param_groups (fst (step net grads o))).
Proof.
  intros Hinit.
  apply (@step_groups_rel _ _ o same_data same_data same_data).
  - intros p. reflexivity.
  - intros a b c Hab Hbc. unfold same_data in *. congruence.
  - intros p. unfold same_data, touch. destruct (p_state p); reflexivity.
  - intros p s v Hs. reflexivity.
  - intros. rewrite Hinit. apply first_loop_body_bootstrap.
  - intros p. reflexivity.
  - intros Htrue. congruence.
  - intros a b c Hab Hbc. unfold same_data in *. congruence.
Qed.

(** The parts of a first step that ends without exception. *)
Lemma bootstrap_success net grads (o o' : Opt F) :
  initialize o = false -> lamb_freeze_key o = false -> exp_avg_flat o = [] ->
  worker_errors o = [] -> server_errors o = [] ->
  step net grads o = (o', None) ->
  exists o2 o3,
    groups_rel boot_rel (param_groups o) (param_groups o2) /\
    config o2 = config o /\ exp_avg_flat o2 = [] /\
    init_fused_momentum o2 = (o3, None) /\
    param_groups o' = param_groups o3 /\
    map (@length F) (exp_avg_flat o') = map (@length F) (exp_avg_flat o3) /\
    initialize o' = true /\ lamb_freeze_key o' = false /\
    worker_errors o' = [] /\ server_errors o' = [].
Proof.
  intros Hinit Hkey Hflat Hw Hs Hrun.
  apply step_ok_inv in Hrun.
  destruct Hrun as (gg & o1 & loc1 & o2 & loc2 & o3 & o4 & o5 & o6 & loc6 &
                    _ & Hsnap & Hfirst & Hfuse & Hbuf & Hcomm & Hsecond & Hfin).
  unfold snapshot_and_calibrate in Hsnap. cbn [lamb_freeze_key set_lamb_coeffs] in Hsnap.
  rewrite Hkey in Hsnap. unfold done in Hsnap. inversion Hsnap; subst o1 loc1. clear Hsnap.
  pose proof (first_loop_bootstrap gg (set_lamb_coeffs [] o) no_locals Hinit) as Hboot.
  pose proof (first_loop_frame gg (set_lamb_coeffs [] o) no_locals) as Hf1.
  cbv zeta in Hboot, Hf1. rewrite Hfirst in Hboot, Hf1. cbn [fst] in Hboot, Hf1.
  destruct Hboot as [Hrel Hflat2].
  destruct Hf1 as (Hc2 & Hi2 & _ & _ & Hw2 & Hs2 & _).
  cbn [param_groups exp_avg_flat config initialize worker_errors server_errors
       set_lamb_coeffs] in Hrel, Hflat2, Hc2, Hi2, Hw2, Hs2.
  pose proof (init_fused_frame o2) as Hf3. cbv zeta in Hf3. rewrite Hfuse in Hf3.
  cbn [fst] in Hf3. destruct Hf3 as (_ & Hi3 & _ & _ & _ & Hw3 & Hs3 & _).
  unfold init_error_buffers in Hbuf.
  replace (initialize o3) with false in Hbuf by congruence.
  simpl in Hbuf. unfold done in Hbuf. inversion Hbuf; subst o4. clear Hbuf.
  destruct (@communicate_bootstrap net o3 o5) as (Hw5 & Hs5 & Hl5); try congruence.
  pose proof (keeps_communicate net o3) as Hk. rewrite Hcomm in Hk. cbn [fst] in Hk.
  unfold outside_buffers in Hk.
  inversion Hk as [[Hc5 Hi5 Hk5 Hd5 Hsc5 Hl Hg5 Hdu5 Hco5 Hch5]]. clear Hk.
  unfold second_loop in Hsecond.
  replace (initialize o5) with false in Hsecond by congruence.
  rewrite andb_false_r in Hsecond. unfold done in Hsecond.
  inversion Hsecond; subst o6 loc6. clear Hsecond.
  unfold finish in Hfin.
  replace (initialize o5) with false in Hfin by congruence.
  simpl in Hfin. unfold done in Hfin. inversion Hfin; subst o'. clear Hfin.
  exists o2, o3. cbn. rewrite Hflat in Hflat2.
  repeat split; try assumption; congruence.
Qed.

(** What the constructor leaves. *)
Lemma OnebitLamb_init_fields groups engine freeze coeff fmax fmin threshold world (o : Opt F) :
  OnebitLamb_init groups engine freeze false coeff fmax fmin threshold (Some world) = Ok o ->
  initialize o = false /\ lamb_freeze_key o = false /\ exp_avg_flat o = [] /\
  worker_errors o = [] /\ server_errors o = [] /\
  size (config o) = world /\ divider (config o) = make_divider world /\
  Forall (fun p => p_state p = NoEntry) (all_params (param_groups o)).
Proof.
  unfold OnebitLamb_init. destruct groups as [|g gs]; [discriminate|].
  intros Heq. inversion Heq; subst o. clear Heq. cbn [initialize lamb_freeze_key exp_avg_flat
    worker_errors server_errors config size divider param_groups].
  repeat split.
  apply Forall_all_params. intros g' p Hg Hp.
  change (In g' (map (fun g1 : Group F =>
                        set_params (map (set_p_state NoEntry) (params g1)) g1) (g :: gs)))
    in Hg.
  apply in_map_iff in Hg. destruct Hg as (g0 & Hg0 & _). subst g'.
  cbn in Hp. apply in_map_iff in Hp. destruct Hp as (p0 & Hp0 & _). subst p.
  reflexivity.
Qed.

(** The momenta the first loop of the first step creates have the
    parameters' element counts. *)
Lemma bootstrap_momenta_match (gs gs2 : list (Group F)) :
  Forall (fun p => p_state p = NoEntry) (all_params gs) ->
  groups_rel boot_rel gs gs2 -> all_full gs2 -> momenta_match [] gs2.
Proof.
  intros Hnew Hrel Hfull. apply groups_rel_all_params in Hrel.
  apply all_full_flat in Hfull. unfold momenta_match.
  induction Hrel as [|p p' ps ps' Hp Hps IH]; [constructor|].
  inversion Hnew as [|? ? Hp0 Hps0]; subst. inversion Hfull as [|? ? Hf Hfs]; subst.
  constructor; [|apply IH; assumption].
  destruct Hp as [Hd Hsized]. destruct Hf as [s Hs].
  unfold momentum_sized in Hsized. rewrite Hp0, Hs in Hsized.
  unfold momentum, exp_avg_of. rewrite Hs. apply Hsized. exact I.
Qed.
End Bootstrap.

Section BootstrapClaims.
Context {F : Type} `{Scalar F}.

(** C8. The first step of an optimizer the constructor has just built
    writes no parameter, whatever its outcome.  When it ends without
    exception, [initialize] is true and [lamb_freeze_key] false, the momenta
    are views of one fused buffer whose element count is that of the
    parameters padded to a multiple of [world_size * divider], and no error
    buffer is left: [worker_errors] and [server_errors] are empty. *)
Theorem bootstrap_step groups engine freeze coeff fmax fmin threshold world
    (net : Net F) (grads : GradsArg F) (o : Opt F) :
  OnebitLamb_init groups engine freeze false coeff fmax fmin threshold (Some world) = Ok o ->
  let o' := fst (step net grads o) in
  let m := (world * make_divider world)%nat in
  let ts := tensor_size (param_groups o) in
  groups_rel same_data (param_groups o) (param_groups o') /\
  (snd (step net grads o) = None ->
   initialize o' = true /\ lamb_freeze_key o' = false /\
   worker_errors o' = [] /\ server_errors o' = [] /\
   exists buffer pad,
     exp_avg_flat o' = [buffer] /\ length buffer = (ts + pad)%nat /\
     ((ts + pad) mod m = 0)%nat /\ (pad < m)%nat /\
     Forall (fun p' => exists off n, is_view p' off n /\ (off + n <= ts)%nat)
            (all_params (param_groups o'))).
Proof.
  intros Hnew o' m ts.
  destruct (OnebitLamb_init_fields _ _ _ _ _ _ _ _ Hnew)
    as (Hinit & Hkey & Hflat & Hw & Hs & Hsize & Hdiv & Hentries).
  split; [apply bootstrap_keeps_data; exact Hinit|].
  intros Hok.
  assert (Hrun : step net grads o = (o', None)).
  { subst o'. destruct (step net grads o) as [o1 e]. simpl in *. subst e. reflexivity. }
  destruct (@bootstrap_success _ _ net grads o o' Hinit Hkey Hflat Hw Hs Hrun)
    as (o2 & o3 & Hrel & Hc2 & Hflat2 & Hfuse & Hgs & Hlen & Hi' & Hk' & Hw' & Hs').
  split; [exact Hi'|]. split; [exact Hk'|]. split; [exact Hw'|]. split; [exact Hs'|].
  destruct (init_fused_momentum_ok o2 Hflat2 Hfuse) as (Hfull & Hm & Hne).
  destruct (init_fused_momentum_run o2 Hflat2 Hfull Hm Hne)
    as (o3' & Hrun3 & Hbuf & Hgs3 & _).
  rewrite Hfuse in Hrun3. inversion Hrun3; subst o3'. clear Hrun3.
  assert (Hts : tensor_size (param_groups o2) = ts).
  { apply groups_rel_tensor_size. eapply groups_rel_impl; [|exact Hrel].
    intros p p' [Hd _]. exact Hd. }
  rewrite Hc2, Hsize, Hdiv in Hm. rewrite Hc2, Hsize, Hdiv, Hts in Hbuf.
  fold m in Hbuf, Hm.
  set (pad := if Nat.eqb (ts mod m) 0 then 0%nat else (m - ts mod m)%nat) in *.
  destruct (padded_is_multiple ts Hm) as [Hmul Hlt]. fold pad in Hmul, Hlt.
  pose proof (bootstrap_momenta_match Hentries Hrel Hfull) as Hmatch.
  pose proof (length_momenta Hmatch) as Hcat. rewrite Hts in Hcat.
  rewrite Hbuf in Hlen. simpl in Hlen.
  destruct (exp_avg_flat o') as [|buffer [|b rest]] eqn:Hflat'; try discriminate.
  inversion Hlen as [Hlb]. clear Hlen.
  exists buffer, pad. split; [reflexivity|]. split.
  { rewrite Hlb, length_app, Hcat. unfold zeros. rewrite repeat_length. reflexivity. }
  split; [exact Hmul|]. split; [exact Hlt|].
  destruct (rebind_groups_flat [] 0 (param_groups o2)) as [Hall _].
  apply all_full_flat in Hfull.
  destruct (rebind_params_spec [] Hfull [] (zeros pad)) as [_ Hviews].
  simpl length in Hviews. rewrite Hcat in Hviews.
  rewrite Hgs, Hgs3, Hall.
  eapply Forall2_right; [exact Hviews|].
  intros p p' (_ & _ & s & off & _ & Hp' & _ & Hhi & _).
  exists off, (numel (momentum [] p)). split; [|simpl in Hhi; exact Hhi].
  unfold is_view, exp_avg_of. rewrite Hp'. reflexivity.
Qed.
End BootstrapClaims.

(** The first step of two parameters of three and two elements on two
    workers. *)
Lemma bootstrap_step_witness :
  let o' := fst (step Demo.idle_net GradsNone Demo.pair) in
  groups_rel same_data (param_groups Demo.pair) (param_groups o') /\
  initialize o' = true /\ lamb_freeze_key o' = false /\
  worker_errors o' = [] /\ server_errors o' = [] /\
  exists buffer pad,
    exp_avg_flat o' = [buffer] /\
    length buffer = (tensor_size (param_groups Demo.pair) + pad)%nat /\
    ((tensor_size (param_groups Demo.pair) + pad) mod (2 * make_divider 2) = 0)%nat /\
    (pad < 2 * make_divider 2)%nat /\
    Forall (fun p' => exists off n,
                is_view p' off n /\ (off + n <= tensor_size (param_groups Demo.pair))%nat)
           (all_params (param_groups o')).
Proof.
  destruct (@bootstrap_step _ float_scalar Demo.pair_groups (Some Demo.engine0) 3%Z
              0.99%float 4.5%float 0.5%float 0.1%float 2%nat
              Demo.idle_net GradsNone Demo.pair eq_refl) as [Hdata Hok].
  split; [exact Hdata|]. apply Hok. vm_compute. reflexivity.
Defined.

(** After the first step the optimizer holds no error buffer, on one worker
    (lines 291-292 are not entered) and on two (those allocated for the
    communication are deleted by lines 306-307). *)
Lemma bootstrap_leaves_no_error_buffers :
  snd (step Demo.idle_net GradsNone Demo.single) = None /\
  worker_errors (fst (step Demo.idle_net GradsNone Demo.single)) = [] /\
  server_errors (fst (step Demo.idle_net GradsNone Demo.single)) = [] /\
  snd (step Demo.idle_net GradsNone Demo.pair) = None /\
  worker_errors (fst (step Demo.idle_net GradsNone Demo.pair)) = [] /\
  server_errors (fst (step Demo.idle_net GradsNone Demo.pair)) = [].
Proof. vm_compute. repeat split; reflexivity. Qed.

(** ** The end of the warmup stage *)

Section TransitionClaims.
Context {F : Type} `{Scalar F}.

Lemma count_kept_fused (o : Opt F) :
  groups_rel count_kept (param_groups o) (param_groups (fst (init_fused_momentum o))).
Proof.
  apply init_fused_groups_rel.
  - intros p. split; [reflexivity | auto].
  - intros a b c [Hab Fab] [Hbc Fbc]. split; [congruence | auto].
  - intros p. unfold count_kept, touch, is_full.
    destruct (p_state p) eqn:Hp; simpl; rewrite ?Hp; split; auto;
      intros [s Hs]; discriminate.
  - intros p s v Hs. unfold count_kept, is_full. simpl. rewrite Hs.
    split; [reflexivity|]. intros _. eexists. reflexivity.
Qed.

(** X16. In the warmup stage (the first step done, [lamb_freeze_key]
    false), a step that ends without exception has incremented the step
    count of the last parameter, in the order of the loop, that has a
    gradient (the parameter whose dict the variable [state] is left bound
    to); [lamb_freeze_key] becomes true exactly when that count has reached
    [freeze_step], whatever the counts of the other parameters; and then
    [deepspeed.enable_backward_allreduce] is set to false, otherwise the
    engine is left as it is. *)
Theorem warmup_ends_on_last_updated (net : Net F) (grads : GradsArg F) gg (o o' : Opt F) :
  initialize o = true -> lamb_freeze_key o = false ->
  grads_group_of grads (length (param_groups o)) = Ok gg ->
  step net grads o = (o', None) ->
  exists i j p p',
    last_updated (param_groups o) gg = Some (i, j) /\
    param_at (param_groups o) i j = Some p /\
    param_at (param_groups o') i j = Some p' /\
    step_of (p_state p') = (step_of (p_state p) + 1)%Z /\
    lamb_freeze_key o' = Z.leb (freeze_step (config o)) (step_of (p_state p')) /\
    (if lamb_freeze_key o' then backward_allreduce o' = Some false
     else deepspeed o' = deepspeed o).
Proof.
  intros Hinit Hkey Hgg Hrun.
  apply step_ok_inv in Hrun.
  destruct Hrun as (gg' & o1 & loc1 & o2 & loc2 & o3 & o4 & o5 & o6 & loc6 &
                    Hgg' & Hsnap & Hfirst & Hfuse & Hbuf & Hcomm & Hsecond & Hfin).
  rewrite Hgg in Hgg'. inversion Hgg'; subst gg'. clear Hgg'.
  unfold snapshot_and_calibrate in Hsnap. cbn [lamb_freeze_key set_lamb_coeffs] in Hsnap.
  rewrite Hkey in Hsnap. unfold done in Hsnap. inversion Hsnap; subst o1 loc1. clear Hsnap.
  (* the first loop *)
  pose proof (first_loop_ok_state _ _ _ Hfirst) as Hstate.
  cbn [param_groups set_lamb_coeffs state_var no_locals] in Hstate.
  pose proof (first_loop_key gg (set_lamb_coeffs [] o) no_locals Hinit) as Hkey2.
  pose proof (first_loop_frame gg (set_lamb_coeffs [] o) no_locals) as Hf2.
  cbv zeta in Hf2. rewrite Hfirst in Hkey2, Hf2. cbn [fst] in Hkey2, Hf2.
  destruct Hf2 as (Hc2 & Hi2 & Hd2 & _).
  cbn [lamb_freeze_key config initialize deepspeed set_lamb_coeffs] in Hkey2, Hc2, Hi2, Hd2.
  (* the fusion, the error buffers, the communication *)
  pose proof (count_kept_fused o2) as Hrel3.
  pose proof (init_fused_frame o2) as Hf3. cbv zeta in Hf3.
  rewrite Hfuse in Hrel3, Hf3. cbn [fst] in Hrel3, Hf3.
  destruct Hf3 as (Hc3 & Hi3 & Hk3 & Hd3 & _).
  pose proof (keeps_init_error_buffers o3) as Hk4. rewrite Hbuf in Hk4. cbn [fst] in Hk4.
  unfold outside_buffers in Hk4.
  inversion Hk4 as [[Hc4 Hi4 Hkey4 Hd4 Hsc4 Hl4 Hg4 Hdu4 Hco4 Hch4 Hfl4]]. clear Hk4.
  pose proof (keeps_communicate net o4) as Hk5. rewrite Hcomm in Hk5. cbn [fst] in Hk5.
  unfold outside_buffers in Hk5.
  inversion Hk5 as [[Hc5 Hi5 Hkey5 Hd5 Hsc5 Hl5 Hg5 Hdu5 Hco5 Hch5]]. clear Hk5.
  (* the second loop is not entered *)
  assert (Hkey5' : lamb_freeze_key o5 = false) by congruence.
  assert (Hi5' : initialize o5 = true) by congruence.
  unfold second_loop in Hsecond. rewrite Hkey5' in Hsecond. simpl in Hsecond.
  unfold done in Hsecond. inversion Hsecond; subst o6 loc6. clear Hsecond.
  (* lines 383-386 *)
  unfold finish in Hfin. rewrite Hi5', Hkey5' in Hfin. simpl negb in Hfin. cbv iota in Hfin.
  rewrite Hstate in Hfin.
  destruct (last_updated (param_groups o) gg) as [[i j]|] eqn:Hlast; [|discriminate].
  destruct (last_updated_visit _ _ Hlast) as (p & x & g & Hvisit & Hgrad).
  assert (Hp : param_at (param_groups o) i j = Some p).
  { unfold visit in Hvisit. unfold param_at.
    destruct (nth_error (param_groups o) i) as [gr|]; [|discriminate].
    destruct (nth_error gg i) as [y|]; [|discriminate].
    destruct (nth_error (params gr) j) as [q|]; [|discriminate].
    destruct (nth_error (grads_of_group gr y) j); inversion Hvisit; reflexivity. }
  assert (Hp2 : exists p2 s2, param_at (param_groups o2) i j = Some p2 /\
                  p_state p2 = FullEntry s2 /\
                  s_step s2 = (step_of (p_state p) + 1)%Z).
  { unfold param_at in Hp.
    destruct (nth_error (param_groups o) i) as [gr|] eqn:Hgr; [|discriminate].
    pose proof (first_loop_ok_at _ _ _ i j Hfirst Hgr Hp) as Hat.
    cbn [param_groups set_lamb_coeffs] in Hat. rewrite Hvisit in Hat.
    destruct Hat as (sh0 & sh1 & p2 & Hbody & Hat).
    apply first_loop_body_ok in Hbody. rewrite Hgrad in Hbody.
    destruct Hbody as (_ & s2 & Hs2 & Hstep). exists p2, s2. repeat split; assumption. }
  destruct Hp2 as (p2 & s2 & Hat2 & Hs2 & Hstep2).
  destruct (groups_rel_param_at i j Hrel3 Hat2) as (p3 & Hat3 & Hcount & Hfull).
  destruct Hfull as [s3 Hs3]; [exists s2; exact Hs2|].
  assert (Hat5 : param_at (param_groups o5) i j = Some p3) by congruence.
  assert (Hstep3 : s_step s3 = (step_of (p_state p) + 1)%Z).
  { rewrite Hs3, Hs2 in Hcount. simpl in Hcount. congruence. }
  rewrite entry_at_param_at, Hat5 in Hfin. simpl in Hfin. rewrite Hs3 in Hfin.
  assert (Hfreeze : freeze_step (config o5) = freeze_step (config o)) by congruence.
  rewrite Hfreeze in Hfin.
  exists i, j, p, p3. split; [reflexivity|]. split; [exact Hp|].
  destruct (Z.leb (freeze_step (config o)) (s_step s3)) eqn:Hle.
  - unfold disable_backward_allreduce in Hfin. cbn [deepspeed set_lamb_freeze_key] in Hfin.
    destruct (deepspeed o5) as [engine|]; [|discriminate].
    unfold done in Hfin. inversion Hfin; subst o'. clear Hfin.
    cbn. rewrite Hat5, Hs3. simpl. rewrite Hle. repeat split. exact Hstep3.
  - unfold done in Hfin. inversion Hfin; subst o'. clear Hfin.
    rewrite Hat5, Hs3, Hkey5'. simpl. rewrite Hle.
    repeat split; [exact Hstep3 | congruence].
Qed.
End TransitionClaims.

(** The second step of an optimizer with one parameter and
    [freeze_step = 3]: the count becomes 2, the warmup stage goes on. *)
Lemma warmup_ends_on_last_updated_witness :
  exists i j p p',
    last_updated (param_groups Demo.bootstrapped) [None] = Some (i, j) /\
    param_at (param_groups Demo.bootstrapped) i j = Some p /\
    param_at (param_groups (fst (step Demo.idle_net GradsNone Demo.bootstrapped))) i j
      = Some p' /\
    step_of (p_state p') = (step_of (p_state p) + 1)%Z /\
    lamb_freeze_key (fst (step Demo.idle_net GradsNone Demo.bootstrapped))
      = Z.leb (freeze_step (config Demo.bootstrapped)) (step_of (p_state p')) /\
    (if lamb_freeze_key (fst (step Demo.idle_net GradsNone Demo.bootstrapped))
     then backward_allreduce (fst (step Demo.idle_net GradsNone Demo.bootstrapped))
          = Some false
     else deepspeed (fst (step Demo.idle_net GradsNone Demo.bootstrapped))
          = deepspeed Demo.bootstrapped).
Proof.
  apply (@warmup_ends_on_last_updated _ float_scalar Demo.idle_net GradsNone [None]
           Demo.bootstrapped (fst (step Demo.idle_net GradsNone Demo.bootstrapped))).
  - reflexivity.
  - reflexivity.
  - reflexivity.
  - vm_compute. reflexivity.
Defined.

(** C2 fails on the code.  Two parameters, [freeze_step = 3].  The first
    parameter has a gradient in each of three steps, the second one in the
    first and the third only: the third step ends without exception with the
    count of the first parameter at 3, which has reached [freeze_step], and
    the optimizer still in the warmup stage, the all-reduce of the engine
    still enabled: line 384 reads the count of the second parameter, 2,
    through the variable [state] the loop has left. *)
Lemma counter_at_freeze_step_without_transition :
  snd (step Demo.idle_net GradsNone Demo.uneven) = None /\
  freeze_step (config Demo.uneven) = 3%Z /\
  option_map (fun p => step_of (p_state p))
    (param_at (param_groups (fst (step Demo.idle_net GradsNone Demo.uneven))) 0 0)
    = Some 3%Z /\
  option_map (fun p => step_of (p_state p))
    (param_at (param_groups (fst (step Demo.idle_net GradsNone Demo.uneven))) 0 1)
    = Some 2%Z /\
  lamb_freeze_key (fst (step Demo.idle_net GradsNone Demo.uneven)) = false /\
  backward_allreduce (fst (step Demo.idle_net GradsNone Demo.uneven)) = Some true.
Proof. vm_compute. repeat split; reflexivity. Qed.

(** ** Parameters without gradient *)

Section AbsentGradientClaims.
Context {F : Type} `{Scalar F}.

Lemma positions_ordered i j i' j' :
  (i, j) = (i', j') \/ before_position i j i' j' \/ before_position i' j' i j.
Proof.
  unfold before_position.
  destruct (lt_eq_lt_dec i i') as [[Hlt|Heq]|Hgt]; [right; left; left; exact Hlt | |
                                                     right; right; left; exact Hgt].
  subst i'. destruct (lt_eq_lt_dec j j') as [[Hlt|Heq]|Hgt].
  - right. left. right. split; [reflexivity | exact Hlt].
  - subst j'. left. reflexivity.
  - right. right. right. split; [reflexivity | exact Hgt].
Qed.

(** X18. Along a training run, in the warmup stage (the first step done,
    [lamb_freeze_key] false, the momenta fused), a step leaves a parameter
    for which the first loop finds no gradient as it was, whatever the
    outcome of the step: its data, its gradient and its dict (the step
    count, the second moments, the smoothing fields, and the view that is
    its momentum) are the same, and so are the elements of its momentum. *)
Theorem absent_gradient_untouched_in_warmup (net : Net F) (grads : GradsArg F) gg
    (o : Opt F) i j p :
  reachable o ->
  initialize o = true -> lamb_freeze_key o = false -> exp_avg_flat o <> [] ->
  grads_group_of grads (length (param_groups o)) = Ok gg ->
  param_at (param_groups o) i j = Some p ->
  gradient_at (param_groups o) gg i j = None ->
  let o' := fst (step net grads o) in
  param_at (param_groups o') i j = Some p /\
  momentum (exp_avg_flat o') p = momentum (exp_avg_flat o) p.
Proof.
  intros Hreach Hinit Hkey Hflat Hgg Hp Hgrad o'.
  pose proof (first_loop_absent gg (set_lamb_coeffs [] o) no_locals i j Hp Hgrad) as Hat.
  pose proof (first_loop_key gg (set_lamb_coeffs [] o) no_locals Hinit) as Hkey2.
  pose proof (first_loop_flat_length gg (set_lamb_coeffs [] o) no_locals) as Hlen.
  assert (Hregion : forall off n,
            (forall i' j' q x, visit (param_groups o) gg i' j' = Some (q, x) ->
               chosen_grad q x <> None ->
               writes_apart off n (fused_length (exp_avg_flat o)) q) ->
            region_kept off n (exp_avg_flat o)
              (exp_avg_flat (fst (fst (first_loop gg (set_lamb_coeffs [] o, no_locals)))))).
  { intros off n Hq. apply (@first_loop_region _ _ gg (set_lamb_coeffs [] o) no_locals off n Hq). }
  assert (Hrest : param_groups o' =
                    param_groups (fst (fst (first_loop gg (set_lamb_coeffs [] o, no_locals))))
                  /\ exp_avg_flat o' =
                    exp_avg_flat (fst (fst (first_loop gg (set_lamb_coeffs [] o, no_locals))))).
  { subst o'. unfold step. rewrite Hgg. fold (@no_locals F).
    unfold snapshot_and_calibrate. cbn [lamb_freeze_key set_lamb_coeffs].
    rewrite Hkey.
    change (done (set_lamb_coeffs [] o, @no_locals F) >>= first_loop gg)
      with (first_loop gg (set_lamb_coeffs [] o, no_locals)).
    cbn [lamb_freeze_key exp_avg_flat set_lamb_coeffs] in Hkey2, Hlen.
    destruct (first_loop gg (set_lamb_coeffs [] o, no_locals)) as [[o2 loc2] [e|]];
      cbn [and_then fst] in *; [split; reflexivity|].
    apply warmup_rest; [congruence|].
    intros Hnil. rewrite Hnil in Hlen. destruct (exp_avg_flat o); [contradiction|discriminate]. }
  destruct Hrest as [Hgs Hfl]. split; [rewrite Hgs; exact Hat|].
  destruct (view_of p) as [[off n]|] eqn:Vp; [|apply momentum_own; exact Vp].
  rewrite !(momentum_view _ _ Vp), Hfl.
  destruct (Hregion off n) as [_ Hslice]; [|exact Hslice].
  intros i' j' q x Hvisit Hchosen.
  destruct (positions_ordered i j i' j') as [Heq | Horder].
  - exfalso. inversion Heq; subst i' j'. apply Hchosen.
    unfold gradient_at in Hgrad. rewrite Hvisit in Hgrad. exact Hgrad.
  - eapply laid_out_apart;
      [apply reachable_laid_out; exact Hreach | exact Hflat | exact Hp
      | eapply visit_param_at; exact Hvisit | exact Horder | exact Vp].
Qed.
End AbsentGradientClaims.

Lemma reachable_second_idle : reachable Demo.second_idle.
Proof.
  assert (Heq : Demo.second_idle
                = backward [[Demo.dense [0.5; 0.5; 0.5]%float; None]]
                    (Demo.steps 1 Demo.pair)) by (vm_compute; reflexivity).
  rewrite Heq. apply reach_backward. apply reachable_steps. exact reachable_pair.
Qed.

(** The second step of two parameters, the second of them without
    gradient. *)
Lemma absent_gradient_untouched_in_warmup_witness :
  exists p,
    param_at (param_groups Demo.second_idle) 0 1 = Some p /\
    param_at (param_groups (fst (step Demo.idle_net GradsNone Demo.second_idle))) 0 1
      = Some p /\
    momentum (exp_avg_flat (fst (step Demo.idle_net GradsNone Demo.second_idle))) p
      = momentum (exp_avg_flat Demo.second_idle) p.
Proof.
  eexists. split; [vm_compute; reflexivity|].
  assert (H1 : initialize Demo.second_idle = true) by reflexivity.
  assert (H2 : lamb_freeze_key Demo.second_idle = false) by reflexivity.
  assert (H3 : exp_avg_flat Demo.second_idle <> []) by discriminate.
  assert (H4 : grads_group_of (@GradsNone Demo.flt) (length (param_groups Demo.second_idle))
               = Ok [None]) by reflexivity.
  assert (H6 : gradient_at (param_groups Demo.second_idle) [None] 0 1 = None)
    by reflexivity.
  exact (@absent_gradient_untouched_in_warmup _ float_scalar Demo.idle_net GradsNone
           [None] Demo.second_idle 0%nat 1%nat _ reachable_second_idle H1 H2 H3 H4
           eq_refl H6).
Defined.

(** C10 fails on the code.  In the compression stage the first loop skips
    the second parameter, which has no gradient, so its momentum is not
    multiplied by [scaling_coeffs[0][1] = 1.5]; the second loop, which
    visits every parameter, divides it by that coefficient all the same
    (line 330) and updates the data of the parameter. *)
Lemma absent_gradient_updated_in_compression :
  lamb_freeze_key Demo.second_idle_compressing = true /\
  snd (step Demo.idle_net GradsNone Demo.second_idle_compressing) = None /\
  option_map (@p_grad _) (param_at (param_groups Demo.second_idle_compressing) 0 1)
    = Some None /\
  gradient_at (param_groups Demo.second_idle_compressing) [None] 0 1 = None /\
  option_map (@p_data _) (param_at (param_groups Demo.second_idle_compressing) 0 1)
    = Some [3.9908137267237866; 4.9908137267237871]%float /\
  option_map (@p_data _)
    (param_at (param_groups (fst (step Demo.idle_net GradsNone
                                    Demo.second_idle_compressing))) 0 1)
    = Some [3.9907324938575224; 4.9907324938575224]%float /\
  PrimFloat.ltb 3.9907324938575224 3.9908137267237866 = true /\
  scaling_coeffs Demo.second_idle_compressing = [[0.74999999999999989; 1.5]%float] /\
  option_map (momentum (exp_avg_flat Demo.second_idle_compressing))
    (param_at (param_groups Demo.second_idle_compressing) 0 1)
    = Some [0.067749999999999977; 0.067749999999999977]%float /\
  option_map (momentum (exp_avg_flat (fst (step Demo.idle_net GradsNone
                                            Demo.second_idle_compressing))))
    (param_at (param_groups (fst (step Demo.idle_net GradsNone
                                    Demo.second_idle_compressing))) 0 1)
    = Some [PrimFloat.div 0.067749999999999977 1.5;
            PrimFloat.div 0.067749999999999977 1.5] /\
  PrimFloat.ltb (PrimFloat.div 0.067749999999999977 1.5) 0.067749999999999977 = true.
Proof. vm_compute. repeat split; reflexivity. Qed.

(** ** Sparse gradients *)

Section SparseClaims.
Context {F : Type} `{Scalar F}.

End SparseClaims.




(** * Further properties of the optimizer *)

(** ** The constructor *)

Section ConstructorFacts.
Context {F : Type} `{Scalar F}.

(** X1. The optimizer the constructor returns has, for a backend of
    [world] workers, [size = world] and [divider] the least common multiple
    of [world] and 8: a multiple of both. *)
Theorem divider_is_lcm groups engine freeze coeff fmax fmin threshold world (o : Opt F) :
  OnebitLamb_init groups engine freeze false coeff fmax fmin threshold (Some world) = Ok o ->
  size (config o) = world /\
  divider (config o) = Nat.lcm world 8 /\
  Nat.divide world (divider (config o)) /\ Nat.divide 8 (divider (config o)).
Proof.
  intros Hnew.
  destruct (OnebitLamb_init_fields _ _ _ _ _ _ _ _ Hnew)
    as (_ & _ & _ & _ & _ & Hsize & Hdiv & _).
  assert (Hlcm : make_divider world = Nat.lcm world 8).
  { unfold make_divider, Nat.lcm.
    apply Nat.Lcm0.divide_div_mul_exact. apply Nat.gcd_divide_r. }
  rewrite Hdiv, Hlcm. split; [exact Hsize|]. split; [reflexivity|].
  split; [apply Nat.divide_lcm_l | apply Nat.divide_lcm_r].
Qed.
End ConstructorFacts.

(** Two workers: the divider is 8. *)
Lemma divider_is_lcm_witness :
  size (config Demo.pair) = 2%nat /\
  divider (config Demo.pair) = Nat.lcm 2 8 /\
  Nat.divide 2 (divider (config Demo.pair)) /\ Nat.divide 8 (divider (config Demo.pair)).
Proof.
  exact (@divider_is_lcm _ Demo.pair_groups (Some Demo.engine0) 3%Z
           0.99%float 4.5%float 0.5%float 0.1%float 2%nat Demo.pair eq_refl).
Defined.

(** ** What a step leaves *)

Section StepFrames.
Context {F : Type} `{Scalar F}.

Lemma first_loop_body_grad cfg init sc h i j (p : Param F) x sh :
  p_grad (fst (fst (first_loop_body cfg init sc h i j p x sh))) = p_grad p.
Proof.
  pose proof (first_loop_body_spec cfg init sc h i j p x sh) as Hspec.
  destruct (chosen_grad p x) as [g|]; [|rewrite Hspec; reflexivity].
  destruct (is_sparse g); [rewrite Hspec; reflexivity|].
  destruct (p_state (get_or_init p)) as [| | |s] eqn:Hs.
  1-3: rewrite Hspec; reflexivity.
  destruct Hspec as (c' & e & Hrun & _). rewrite Hrun. simpl.
  unfold get_or_init. destruct (p_state p); reflexivity.
Qed.

Lemma second_loop_body_grad cfg sc last h i j (p : Param F) u sh :
  p_grad (fst (fst (second_loop_body cfg sc last h i j p u sh))) = p_grad p.
Proof.
  assert (Ht : p_grad (touch p) = p_grad p).
  { unfold touch. destruct (p_state p); reflexivity. }
  unfold second_loop_body. destruct (p_state (touch p)) as [| | |s]; try exact Ht.
  unfold and_then.
  destruct (second_loop_cell _ _ _ _ _ _ _) as [c' [e|]]; simpl; exact Ht.
Qed.

(** X2. Whatever its outcome, [step] leaves the attributes set by the
    constructor, the hyperparameters of every group, the number of groups
    and of parameters, and the gradient of every parameter: it does not
    zero the gradients. *)
Theorem step_keeps_configuration (net : Net F) (grads : GradsArg F) (o : Opt F) :
  config (fst (step net grads o)) = config o /\
  groups_rel (fun p p' => p_grad p' = p_grad p)
    (param_groups o) (param_groups (fst (step net grads o))).
Proof.
  apply (@step_groups_rel _ _ o (fun p p' => p_grad p' = p_grad p)
           (fun p p' => p_grad p' = p_grad p) (fun p p' => p_grad p' = p_grad p)).
  - reflexivity.
  - intros a b c Hab Hbc. congruence.
  - intros p. unfold touch. destruct (p_state p); reflexivity.
  - intros p s v Hs. reflexivity.
  - intros. apply first_loop_body_grad.
  - reflexivity.
  - intros _. intros. apply second_loop_body_grad.
  - intros a b c Hab Hbc. congruence.
Qed.

(** X3. An initialised optimizer in the compression stage stays in it:
    whatever the outcome of [step], [initialize] and [lamb_freeze_key] are
    still true after it, and the engine is left as it is. *)
Theorem compression_stage_is_kept (net : Net F) (grads : GradsArg F) (o : Opt F) :
  initialize o = true -> lamb_freeze_key o = true ->
  let o' := fst (step net grads o) in
  initialize o' = true /\ lamb_freeze_key o' = true /\ deepspeed o' = deepspeed o.
Proof.
  intros Hinit Hkey. cbv zeta. unfold step.
  destruct (grads_group_of grads (length (param_groups o))) as [gg|e];
    [|simpl; repeat split; assumption].
  fold (@no_locals F).
  pose proof (@before_communication _ _ gg o (set_lamb_coeffs [] o, no_locals)) as Hpre.
  cbv zeta in Hpre.
  set (A := snapshot_and_calibrate (set_lamb_coeffs [] o, no_locals) >>= first_loop gg >>=
            on_opt init_fused_momentum >>= on_opt init_error_buffers) in *.
  destruct Hpre as (Hc & Hi & Hd & Hk); [repeat split; reflexivity|].
  specialize (Hk Hinit).
  assert (Hrest : forall fr : Opt F * Locals F,
            initialize (fst fr) = true /\ lamb_freeze_key (fst fr) = true /\
            deepspeed (fst fr) = deepspeed o ->
            let fr' := fst (on_opt (communicate net) fr >>= second_loop) in
            initialize (fst fr') = true /\ lamb_freeze_key (fst fr') = true /\
            deepspeed (fst fr') = deepspeed o).
  { apply (inv_bind (fun fr : Opt F * Locals F =>
                       initialize (fst fr) = true /\ lamb_freeze_key (fst fr) = true /\
                       deepspeed (fst fr) = deepspeed o)).
    - apply (inv_on_opt (fun o1 : Opt F =>
               initialize o1 = true /\ lamb_freeze_key o1 = true /\
               deepspeed o1 = deepspeed o)).
      intros o1 (Hi1 & Hk1 & Hd1).
      pose proof (keeps_communicate net o1) as Hf. unfold outside_buffers in Hf.
      inversion Hf as [[Hc5 Hi5 Hkey5 Hd5 Hsc5 Hl5 Hg5 Hdu5 Hco5 Hch5]].
      repeat split; congruence.
    - intros [o1 loc] (Hi1 & Hk1 & Hd1). cbn [fst] in *.
      pose proof (second_loop_frame o1 loc) as Hf. cbv zeta in Hf.
      destruct Hf as (_ & Hi2 & Hd2 & _).
      rewrite second_loop_key. repeat split; congruence. }
  destruct A as [fr [e|]] eqn:HA; cbn [and_then fst] in *.
  - repeat split; congruence.
  - specialize (Hrest fr). cbv zeta in Hrest.
    destruct Hrest as (Hi6 & Hk6 & Hd6); [repeat split; congruence|].
    destruct (on_opt (communicate net) fr >>= second_loop) as [[o6 loc6] [e|]];
      cbn [and_then fst] in *; [repeat split; assumption|].
    unfold finish. rewrite Hi6, Hk6. simpl. repeat split; assumption.
Qed.

(** X4. Nothing is communicated on one worker, nor in the warmup stage of
    an initialised optimizer: [step] does not depend on the backend. *)
Theorem step_without_communication (net net' : Net F) (grads : GradsArg F) (o : Opt F) :
  (size (config o) <= 1)%nat \/ (initialize o = true /\ lamb_freeze_key o = false) ->
  step net grads o = step net' grads o.
Proof.
  intros Hcase. unfold step.
  destruct (grads_group_of grads (length (param_groups o))) as [gg|e]; [|reflexivity].
  fold (@no_locals F).
  pose proof (@before_communication _ _ gg o (set_lamb_coeffs [] o, no_locals)) as Hpre.
  cbv zeta in Hpre.
  set (A := snapshot_and_calibrate (set_lamb_coeffs [] o, no_locals) >>= first_loop gg >>=
            on_opt init_fused_momentum >>= on_opt init_error_buffers) in *.
  destruct Hpre as (Hc & Hi & Hd & Hk); [repeat split; reflexivity|].
  destruct A as [[o4 loc4] [e|]]; cbn [and_then fst] in *; [reflexivity|].
  assert (Hidle : forall n : Net F, communicate n o4 = done o4).
  { intros n. apply communicate_idle. destruct Hcase as [Hsize|[Hinit Hkey]].
    - left. rewrite Hc. exact Hsize.
    - right. rewrite (Hk Hinit). exact Hkey. }
  unfold on_opt. cbn [fst snd]. rewrite (Hidle net), (Hidle net'). reflexivity.
Qed.
End StepFrames.

(** One worker, the first step: two backends, the same result. *)
Lemma step_without_communication_witness :
  step Demo.idle_net GradsNone Demo.single
    = step (fun b w s _ => (w, b, s)) GradsNone Demo.single.
Proof.
  apply (@step_without_communication _ float_scalar). left. simpl. lia.
Defined.

(** A step of an optimizer in the compression stage. *)
Lemma compression_stage_is_kept_witness :
  initialize (fst (step Demo.idle_net GradsNone Demo.compressing)) = true /\
  lamb_freeze_key (fst (step Demo.idle_net GradsNone Demo.compressing)) = true /\
  deepspeed (fst (step Demo.idle_net GradsNone Demo.compressing))
    = deepspeed Demo.compressing.
Proof.
  apply (@compression_stage_is_kept _ float_scalar Demo.idle_net GradsNone Demo.compressing);
    reflexivity.
Defined.

(** ** Steps without gradient *)

Section GradientFacts.
Context {F : Type} `{Scalar F}.

(** X5. In the warmup stage of an initialised optimizer (the momenta fused,
    the error buffers allocated), a step for which no parameter has a
    gradient raises [UnboundLocalError] at line 384: the variable [state]
    was never bound.  Nothing but [lamb_coeffs], which is emptied, has
    changed. *)
Theorem step_without_gradient_raises (net : Net F) (grads : GradsArg F) gg (o : Opt F) :
  initialize o = true -> lamb_freeze_key o = false ->
  exp_avg_flat o <> [] -> worker_errors o <> [] ->
  grads_group_of grads (length (param_groups o)) = Ok gg ->
  (forall i j, gradient_at (param_groups o) gg i j = None) ->
  step net grads o = (set_lamb_coeffs [] o, Some UnboundLocalError).
Proof.
  intros Hinit Hkey Hflat Hw Hgg Hnone. unfold step. rewrite Hgg. fold (@no_locals F).
  unfold snapshot_and_calibrate. cbn [lamb_freeze_key set_lamb_coeffs]. rewrite Hkey.
  change (done (set_lamb_coeffs [] o, @no_locals F) >>= first_loop gg)
    with (first_loop gg (set_lamb_coeffs [] o, no_locals)).
  rewrite first_loop_idle by exact Hnone. cbn [and_then].
  assert (Hfuse : on_opt init_fused_momentum (set_lamb_coeffs [] o, @no_locals F)
                  = ((set_lamb_coeffs [] o, no_locals), None)).
  { unfold on_opt, init_fused_momentum. cbn [fst exp_avg_flat set_lamb_coeffs].
    destruct (exp_avg_flat o); [contradiction | reflexivity]. }
  rewrite Hfuse. cbn [and_then].
  assert (Hbuf : on_opt init_error_buffers (set_lamb_coeffs [] o, @no_locals F)
                 = ((set_lamb_coeffs [] o, no_locals), None)).
  { unfold on_opt, init_error_buffers. cbn [fst worker_errors initialize set_lamb_coeffs].
    destruct (worker_errors o); [contradiction|]. rewrite andb_false_r. reflexivity. }
  rewrite Hbuf. cbn [and_then].
  assert (Hcomm : on_opt (communicate net) (set_lamb_coeffs [] o, @no_locals F)
                  = ((set_lamb_coeffs [] o, no_locals), None)).
  { unfold on_opt, communicate. cbn [fst lamb_freeze_key set_lamb_coeffs].
    rewrite Hkey. reflexivity. }
  rewrite Hcomm. cbn [and_then].
  unfold second_loop. cbn [lamb_freeze_key set_lamb_coeffs]. rewrite Hkey.
  cbn [andb and_then done fst].
  unfold finish. cbn [initialize lamb_freeze_key set_lamb_coeffs].
  rewrite Hinit, Hkey. reflexivity.
Qed.

(** X6. The first step needs a gradient for every parameter: when the
    first loop finds none for one of the parameters of a newly built
    optimizer, [step] raises an exception (line 258 finds no ['exp_avg'] in
    the dict of that parameter, unless an earlier statement has raised). *)
Theorem first_step_needs_every_gradient groups engine freeze coeff fmax fmin threshold
    world (net : Net F) (grads : GradsArg F) gg (o : Opt F) i j p :
  OnebitLamb_init groups engine freeze false coeff fmax fmin threshold (Some world) = Ok o ->
  grads_group_of grads (length (param_groups o)) = Ok gg ->
  param_at (param_groups o) i j = Some p ->
  gradient_at (param_groups o) gg i j = None ->
  snd (step net grads o) <> None.
Proof.
  intros Hnew Hgg Hp Hgrad Hok.
  destruct (OnebitLamb_init_fields _ _ _ _ _ _ _ _ Hnew)
    as (Hinit & Hkey & Hflat & Hw & Hs & _ & _ & Hentries).
  assert (Hrun : step net grads o = (fst (step net grads o), None)).
  { destruct (step net grads o) as [o1 e]. simpl in *. subst e. reflexivity. }
  apply step_ok_inv in Hrun.
  destruct Hrun as (gg' & o1 & loc1 & o2 & loc2 & o3 & o4 & o5 & o6 & loc6 &
                    Hgg' & Hsnap & Hfirst & Hfuse & _).
  rewrite Hgg in Hgg'. inversion Hgg'; subst gg'. clear Hgg'.
  unfold snapshot_and_calibrate in Hsnap. cbn [lamb_freeze_key set_lamb_coeffs] in Hsnap.
  rewrite Hkey in Hsnap. unfold done in Hsnap. inversion Hsnap; subst o1 loc1. clear Hsnap.
  pose proof (first_loop_absent gg (set_lamb_coeffs [] o) no_locals i j Hp Hgrad) as Hat.
  pose proof (first_loop_flat_length gg (set_lamb_coeffs [] o) no_locals) as Hlen.
  rewrite Hfirst in Hat, Hlen. cbn [fst exp_avg_flat set_lamb_coeffs] in Hat, Hlen.
  rewrite Hflat in Hlen.
  assert (Hflat2 : exp_avg_flat o2 = []).
  { destruct (exp_avg_flat o2); [reflexivity | discriminate]. }
  destruct (init_fused_momentum_ok o2 Hflat2 Hfuse) as (Hfull & _ & _).
  apply all_full_flat in Hfull.
  rewrite Forall_forall in Hfull, Hentries.
  destruct (Hfull p (param_at_In _ _ _ Hat)) as [s Hfullp].
  rewrite (Hentries p (param_at_In _ _ _ Hp)) in Hfullp. discriminate.
Qed.

(** X7. The step after the first one allocates the error buffers: in the
    warmup stage of an initialised optimizer that holds one fused buffer
    and no error buffer, a step that ends without exception leaves one
    worker error of [corrected_tensor_sizes[0]] zeros and one server error
    of [server_chunk_sizes[0]] zeros. *)
Theorem second_step_allocates_error_buffers (net : Net F) (grads : GradsArg F)
    (o o' : Opt F) buffer n k sizes chunks :
  initialize o = true -> lamb_freeze_key o = false ->
  exp_avg_flat o = [buffer] ->
  corrected_tensor_sizes o = n :: sizes -> server_chunk_sizes o = k :: chunks ->
  worker_errors o = [] -> server_errors o = [] ->
  step net grads o = (o', None) ->
  worker_errors o' = [zeros n] /\ server_errors o' = [zeros k].
Proof.
  intros Hinit Hkey Hflat Hsizes Hchunks Hw Hs Hrun.
  apply step_ok_inv in Hrun.
  destruct Hrun as (gg & o1 & loc1 & o2 & loc2 & o3 & o4 & o5 & o6 & loc6 &
                    _ & Hsnap & Hfirst & Hfuse & Hbuf & Hcomm & Hsecond & Hfin).
  unfold snapshot_and_calibrate in Hsnap. cbn [lamb_freeze_key set_lamb_coeffs] in Hsnap.
  rewrite Hkey in Hsnap. unfold done in Hsnap. inversion Hsnap; subst o1 loc1. clear Hsnap.
  pose proof (first_loop_frame gg (set_lamb_coeffs [] o) no_locals) as Hf2.
  pose proof (first_loop_key gg (set_lamb_coeffs [] o) no_locals Hinit) as Hkey2.
  pose proof (first_loop_flat_length gg (set_lamb_coeffs [] o) no_locals) as Hlen.
  cbv zeta in Hf2. rewrite Hfirst in Hf2, Hkey2, Hlen. cbn [fst] in Hf2, Hkey2, Hlen.
  destruct Hf2 as (_ & Hi2 & _ & _ & Hw2 & Hs2 & _ & Hco2 & Hch2).
  cbn [initialize worker_errors server_errors corrected_tensor_sizes server_chunk_sizes
       lamb_freeze_key exp_avg_flat set_lamb_coeffs] in *.
  rewrite Hflat in Hlen.
  destruct (exp_avg_flat o2) as [|b2 [|b3 rest]] eqn:Hflat2; try discriminate.
  unfold init_fused_momentum in Hfuse. rewrite Hflat2 in Hfuse. simpl in Hfuse.
  unfold done in Hfuse. inversion Hfuse; subst o3. clear Hfuse.
  unfold init_error_buffers in Hbuf. rewrite Hi2, Hinit, Hw2, Hw, Hflat2 in Hbuf.
  simpl in Hbuf. unfold append_error_buffers in Hbuf.
  rewrite Hco2, Hsizes in Hbuf. simpl in Hbuf. rewrite Hch2, Hchunks in Hbuf.
  simpl in Hbuf. rewrite Hw2, Hw, Hs2, Hs in Hbuf. unfold done in Hbuf. simpl in Hbuf.
  inversion Hbuf; subst o4. clear Hbuf.
  unfold communicate in Hcomm. cbn [lamb_freeze_key set_server_errors set_worker_errors]
    in Hcomm. rewrite Hkey2, Hkey in Hcomm. unfold done in Hcomm.
  inversion Hcomm; subst o5. clear Hcomm.
  unfold second_loop in Hsecond.
  cbn [lamb_freeze_key set_server_errors set_worker_errors] in Hsecond.
  rewrite Hkey2, Hkey in Hsecond. unfold done in Hsecond. simpl in Hsecond.
  inversion Hsecond; subst o6 loc6. clear Hsecond.
  pose proof (finish_frame (set_server_errors [zeros k] (set_worker_errors [zeros n] o2))
                loc2) as Hframe.
  cbv zeta in Hframe. rewrite Hfin in Hframe. cbn [fst] in Hframe.
  destruct Hframe as (_ & _ & _ & _ & Hw' & Hs' & _).
  split; [exact Hw' | exact Hs'].
Qed.
End GradientFacts.

(** Two steps done, then a step without any gradient. *)
Lemma step_without_gradient_raises_witness :
  step Demo.idle_net GradsNone Demo.both_idle
    = (set_lamb_coeffs [] Demo.both_idle, Some UnboundLocalError).
Proof.
  apply (@step_without_gradient_raises _ float_scalar Demo.idle_net GradsNone [None]
           Demo.both_idle); try reflexivity; try discriminate.
  intros i j. unfold gradient_at, visit.
  destruct i as [|i]; [|simpl; destruct i; reflexivity].
  destruct j as [|[|j]]; try reflexivity. simpl. destruct j; reflexivity.
Defined.

(** The first step with no gradient for the second parameter. *)
Lemma first_step_needs_every_gradient_witness :
  snd (step Demo.idle_net GradsNone Demo.pair_second_idle) <> None.
Proof.
  assert (H1 : OnebitLamb_init (param_groups Demo.pair_second_idle) (Some Demo.engine0) 3%Z
                 false 0.99%float 4.5%float 0.5%float 0.1%float (Some 2%nat)
               = Ok Demo.pair_second_idle) by reflexivity.
  assert (H2 : grads_group_of (@GradsNone Demo.flt)
                 (length (param_groups Demo.pair_second_idle)) = Ok [None]) by reflexivity.
  assert (H4 : gradient_at (param_groups Demo.pair_second_idle) [None] 0 1 = None)
    by reflexivity.
  exact (@first_step_needs_every_gradient _ float_scalar _ _ _ _ _ _ _ _ Demo.idle_net
           GradsNone [None] Demo.pair_second_idle 0%nat 1%nat _ H1 H2 eq_refl H4).
Defined.

(** The second step of two parameters on two workers. *)
Lemma second_step_allocates_error_buffers_witness :
  worker_errors (fst (step Demo.idle_net GradsNone (Demo.steps 1 Demo.pair)))
    = [zeros 16] /\
  server_errors (fst (step Demo.idle_net GradsNone (Demo.steps 1 Demo.pair)))
    = [zeros 8].
Proof.
  assert (Hflat : exists b, exp_avg_flat (Demo.steps 1 Demo.pair) = [b])
    by (eexists; vm_compute; reflexivity).
  destruct Hflat as [b Hb].
  apply (@second_step_allocates_error_buffers _ float_scalar Demo.idle_net GradsNone
           (Demo.steps 1 Demo.pair) _ b 16%nat 8%nat [] []).
  - vm_compute. reflexivity.
  - vm_compute. reflexivity.
  - exact Hb.
  - vm_compute. reflexivity.
  - vm_compute. reflexivity.
  - vm_compute. reflexivity.
  - vm_compute. reflexivity.
  - vm_compute. reflexivity.
Defined.

(** ** Step counts *)

Section CountFacts.
Context {F : Type} `{Scalar F}.

Lemma count_kept_refl (p : Param F) : count_kept p p.
Proof. split; [reflexivity | auto]. Qed.

Lemma touched_count (p p' : Param F) :
  touched p p' -> step_of (p_state p') = step_of (p_state p).
Proof.
  intros [Heq|Heq]; subst; [reflexivity|].
  unfold touch. destruct (p_state p) eqn:Hp; simpl; rewrite ?Hp; reflexivity.
Qed.

Lemma second_loop_body_count cfg sc last h i j (p : Param F) u sh :
  count_kept p (fst (fst (second_loop_body cfg sc last h i j p u sh))).
Proof.
  assert (Ht : count_kept p (touch p)).
  { unfold count_kept, touch, is_full.
    destruct (p_state p) eqn:Hp; simpl; rewrite ?Hp; split; auto.
    intros [s Hs]. discriminate. }
  unfold second_loop_body. destruct (p_state (touch p)) as [| | |s] eqn:Hs; try exact Ht.
  match goal with
  | |- context [second_loop_cell cfg sc last h i j ?c0] =>
      destruct (second_loop_cell_spec cfg sc last h i j c0) as [Hblind _];
      specialize (Hblind _ (fun cell => s_step (c_state cell)));
      destruct (second_loop_cell cfg sc last h i j c0) as [c' [e|]]
  end; simpl in *.
  - destruct Ht as [Hcount _]. rewrite Hs in Hcount. simpl in Hcount.
    split; [|intros _; eexists; reflexivity].
    simpl. rewrite Hblind by (repeat split). exact Hcount.
  - destruct Ht as [Hcount _]. rewrite Hs in Hcount. simpl in Hcount.
    split; [|intros _; eexists; reflexivity].
    simpl. rewrite Hblind by (repeat split). exact Hcount.
Qed.

(** X8. A step that ends without exception has incremented by one the
    step count of every parameter for which the first loop found a
    gradient, and left the step count of every other parameter, in the
    warmup stage and in the compression stage alike. *)
Theorem step_counts_gradients (net : Net F) (grads : GradsArg F) gg (o o' : Opt F) i j p :
  grads_group_of grads (length (param_groups o)) = Ok gg ->
  step net grads o = (o', None) ->
  param_at (param_groups o) i j = Some p ->
  exists p',
    param_at (param_groups o') i j = Some p' /\
    step_of (p_state p') =
      match gradient_at (param_groups o) gg i j with
      | Some _ => (step_of (p_state p) + 1)%Z
      | None => step_of (p_state p)
      end.
Proof.
  intros Hgg Hrun Hp.
  apply step_ok_inv in Hrun.
  destruct Hrun as (gg' & o1 & loc1 & o2 & loc2 & o3 & o4 & o5 & o6 & loc6 &
                    Hgg' & Hsnap & Hfirst & Hfuse & Hbuf & Hcomm & Hsecond & Hfin).
  rewrite Hgg in Hgg'. inversion Hgg'; subst gg'. clear Hgg'.
  (* the snapshot *)
  pose proof (@snapshot_groups_rel _ _ touched touched_refl touched_trans
                (fun q => or_intror eq_refl) (set_lamb_coeffs [] o) no_locals) as Hrel1.
  rewrite Hsnap in Hrel1. cbn [fst param_groups set_lamb_coeffs] in Hrel1.
  rewrite <- (gradient_at_touched gg i j Hrel1).
  destruct (groups_rel_param_at i j Hrel1 Hp) as (p1 & Hp1 & Ht1).
  rewrite <- (touched_count Ht1). clear Ht1 Hp Hrel1 Hsnap.
  (* the first loop *)
  assert (Hp2 : exists p2, param_at (param_groups o2) i j = Some p2 /\
                  step_of (p_state p2) =
                    match gradient_at (param_groups o1) gg i j with
                    | Some _ => (step_of (p_state p1) + 1)%Z
                    | None => step_of (p_state p1)
                    end).
  { unfold param_at in Hp1.
    destruct (nth_error (param_groups o1) i) as [g|] eqn:Hg; [|discriminate].
    pose proof (first_loop_ok_at _ _ _ i j Hfirst Hg Hp1) as Hat.
    unfold gradient_at. unfold visit in *. rewrite Hg, Hp1 in *.
    destruct (nth_error gg i) as [y|]; [|exists p1; split; [exact Hat | reflexivity]].
    destruct (nth_error (grads_of_group g y) j) as [x|];
      [|exists p1; split; [exact Hat | reflexivity]].
    destruct Hat as (sh0 & sh1 & p2 & Hbody & Hat).
    apply first_loop_body_ok in Hbody. exists p2. split; [exact Hat|].
    destruct (chosen_grad p1 x).
    - destruct Hbody as (_ & s' & Hs' & Hstep). rewrite Hs'. exact Hstep.
    - destruct Hbody as [Heq _]. subst p2. reflexivity. }
  destruct Hp2 as (p2 & Hp2 & Hcount2). rewrite <- Hcount2. clear Hcount2 Hp1 Hfirst.
  (* the fusion, the error buffers, the communication *)
  pose proof (count_kept_fused o2) as Hrel3. rewrite Hfuse in Hrel3. cbn [fst] in Hrel3.
  destruct (groups_rel_param_at i j Hrel3 Hp2) as (p3 & Hp3 & Hcount3 & _).
  pose proof (keeps_init_error_buffers o3) as Hk4. rewrite Hbuf in Hk4. cbn [fst] in Hk4.
  unfold outside_buffers in Hk4.
  inversion Hk4 as [[Hc4 Hi4 Hkey4 Hd4 Hsc4 Hl4 Hg4 Hdu4 Hco4 Hch4 Hfl4]]. clear Hk4.
  pose proof (keeps_communicate net o4) as Hk5. rewrite Hcomm in Hk5. cbn [fst] in Hk5.
  unfold outside_buffers in Hk5.
  inversion Hk5 as [[Hc5 Hi5 Hkey5 Hd5 Hsc5 Hl5 Hg5 Hdu5 Hco5 Hch5]]. clear Hk5.
  (* the second loop *)
  pose proof (@second_loop_groups_rel _ _ count_kept count_kept_refl o5 loc2
                (fun h i0 j0 q u s =>
                   second_loop_body_count (config o5) (scaling_coeffs o5)
                     (exp_avg_last_step loc2) h i0 j0 q u s)) as Hrel6.
  rewrite Hsecond in Hrel6. cbn [fst] in Hrel6.
  assert (Hp5 : param_at (param_groups o5) i j = Some p3) by congruence.
  destruct (groups_rel_param_at i j Hrel6 Hp5) as (p6 & Hp6 & Hcount6 & _).
  pose proof (finish_frame o6 loc6) as Hf. cbv zeta in Hf. rewrite Hfin in Hf.
  cbn [fst] in Hf. destruct Hf as (_ & Hg' & _).
  exists p6. rewrite Hg'. split; [exact Hp6 | congruence].
Qed.
End CountFacts.

(** A step in the compression stage, the second parameter without
    gradient. *)
Lemma step_counts_gradients_witness :
  exists p',
    param_at (param_groups (fst (step Demo.idle_net GradsNone
                                   Demo.second_idle_compressing))) 0 1 = Some p' /\
    step_of (p_state p') = 4%Z.
Proof.
  assert (H1 : grads_group_of (@GradsNone Demo.flt)
                 (length (param_groups Demo.second_idle_compressing)) = Ok [None])
    by reflexivity.
  assert (H2 : step Demo.idle_net GradsNone Demo.second_idle_compressing
               = (fst (step Demo.idle_net GradsNone Demo.second_idle_compressing), None))
    by (vm_compute; reflexivity).
  exact (@step_counts_gradients _ float_scalar Demo.idle_net GradsNone [None]
           Demo.second_idle_compressing _ 0%nat 1%nat _ H1 H2 eq_refl).
Defined.

(** ** Saving and loading *)

Section RoundTrip.
Context {F : Type} `{Scalar F}.

Lemma combine_app_same {A B} (a b : list A) (c d : list B) :
  length a = length c -> combine (a ++ b) (c ++ d) = combine a c ++ combine b d.
Proof.
  revert c. induction a as [|x a IH]; intros [|y c] Hlen; simpl in *; try discriminate.
  - reflexivity.
  - f_equal. apply IH. lia.
Qed.

Lemma restored_saved flat (p q : Param F) :
  restored flat (p, q) (set_p_state (saved_entry flat (p_state q)) p).
Proof.
  unfold restored, momentum, exp_avg_of, exp_avg_sq_of, exp_avg_sq_back_of, saved_entry.
  simpl. destruct (p_state q) as [| | |s]; simpl; repeat split; reflexivity.
Qed.

Lemma restored_reset flat (pq : Param F * Param F) p' :
  restored flat pq p' -> restored flat pq (reset_smoothing p').
Proof.
  unfold restored, momentum, exp_avg_of, exp_avg_sq_of, exp_avg_sq_back_of, reset_smoothing.
  intros (Hd & Hg & Hs & Hm & Hv & Hb).
  destruct (p_state p') as [| | |s]; simpl in *; repeat split; assumption.
Qed.

(** The parameters once [torch]'s [load_state_dict] has run and the masks
    are put back. *)
Lemma loaded_groups_restored (loader saver : Opt F) :
  same_shape (param_groups loader) (param_groups saver) ->
  Forall2 (restored (exp_avg_flat saver))
    (combine (all_params (param_groups loader)) (all_params (param_groups saver)))
    (all_params (loaded_groups loader saver)).
Proof.
  unfold loaded_groups, state_dict. cbn [sd_param_groups].
  generalize (exp_avg_flat saver) as flat.
  generalize (param_groups saver) as gs'. generalize (param_groups loader) as gs.
  intros gs gs' flat Hshape.
  induction Hshape as [|g g' gs gs' Hg Hgs IH]; [constructor|].
  simpl. rewrite !all_params_cons, (combine_app_same _ _ _ _ Hg).
  apply Forall2_app; [|exact IH].
  rewrite params_restore_mask. simpl. clear IH Hgs.
  revert Hg. generalize (params g') as qs. generalize (params g) as ps.
  induction ps as [|p ps IHp]; intros [|q qs] Hlen; simpl in *; try discriminate;
    constructor; [apply restored_saved | apply IHp; lia].
Qed.

Lemma load_compression_frame (sd : StateDict F) (o o' : Opt F) :
  load_compression sd o = (o', None) ->
  param_groups o' = param_groups o /\ exp_avg_flat o' = exp_avg_flat o /\
  dummy_exp_avg o' = dummy_exp_avg o /\
  corrected_tensor_sizes o' = corrected_tensor_sizes o /\
  server_chunk_sizes o' = server_chunk_sizes o.
Proof.
  unfold load_compression. repeat break_match; try discriminate.
  unfold done. intros Heq. inversion Heq; subst. repeat split; reflexivity.
Qed.

Lemma reset_compression_frame (o o' : Opt F) :
  reset_compression o = (o', None) ->
  param_groups o' =
    map (fun g => set_params (map reset_smoothing (params g)) g) (param_groups o) /\
  exp_avg_flat o' = exp_avg_flat o /\ dummy_exp_avg o' = dummy_exp_avg o /\
  corrected_tensor_sizes o' = corrected_tensor_sizes o /\
  server_chunk_sizes o' = server_chunk_sizes o.
Proof.
  unfold reset_compression, and_then.
  destruct (lamb_freeze_key o).
  - cbn [deepspeed set_lamb_freeze_key]. destruct (deepspeed o); [|discriminate].
    unfold done. intros Heq. inversion Heq; subst. repeat split; reflexivity.
  - unfold done. intros Heq. inversion Heq; subst. repeat split; reflexivity.
Qed.

(** X9. Loading the dict saved from [saver] into [loader], an optimizer
    over groups of the same sizes: when [load_state_dict] ends without
    exception, every parameter keeps the data and the gradient it has in
    [loader], and has the step count, the elements of the momentum and the
    second moments it has in [saver]; the momenta are no longer fused
    ([exp_avg_flat], [dummy_exp_avg], [corrected_tensor_sizes] and
    [server_chunk_sizes] are emptied), so the next step fuses them again. *)
Theorem load_restores_the_moments (saver loader o' : Opt F) z :
  same_shape (param_groups loader) (param_groups saver) ->
  first_step (param_groups saver) = Some z ->
  load_state_dict (state_dict saver) loader = (o', None) ->
  Forall2 (restored (exp_avg_flat saver))
    (combine (all_params (param_groups loader)) (all_params (param_groups saver)))
    (all_params (param_groups o')) /\
  exp_avg_flat o' = [] /\ dummy_exp_avg o' = None /\
  corrected_tensor_sizes o' = [] /\ server_chunk_sizes o' = [].
Proof.
  intros Hshape Hfirst Hrun.
  pose proof (load_state_dict_run loader saver Hshape Hfirst) as Hload.
  cbv zeta in Hload. rewrite Hload in Hrun. clear Hload.
  pose proof (loaded_groups_restored loader saver Hshape) as Hrest.
  destruct (Z.leb (freeze_step (config loader)) z).
  - apply load_compression_frame in Hrun.
    destruct Hrun as (Hg & Hf & Hd & Hc & Hs).
    rewrite Hg, Hf, Hd, Hc, Hs. repeat split; try reflexivity. exact Hrest.
  - apply reset_compression_frame in Hrun.
    destruct Hrun as (Hg & Hf & Hd & Hc & Hs).
    rewrite Hg, Hf, Hd, Hc, Hs. repeat split; try reflexivity.
    cbn [param_groups set_server_chunk_sizes set_corrected_tensor_sizes set_dummy_exp_avg
         set_exp_avg_flat set_param_groups].
    rewrite all_params_map_params.
    clear -Hrest. induction Hrest; simpl; constructor;
      [apply restored_reset; assumption | assumption].
Qed.
End RoundTrip.

(** Saved in the compression stage, loaded into a newly built optimizer. *)
Lemma load_restores_the_moments_witness :
  Forall2 (restored (exp_avg_flat Demo.compressing))
    (combine (all_params (param_groups Demo.single))
             (all_params (param_groups Demo.compressing)))
    (all_params (param_groups
       (fst (load_state_dict (state_dict Demo.compressing) Demo.single)))) /\
  exp_avg_flat (fst (load_state_dict (state_dict Demo.compressing) Demo.single)) = [] /\
  dummy_exp_avg (fst (load_state_dict (state_dict Demo.compressing) Demo.single)) = None /\
  corrected_tensor_sizes (fst (load_state_dict (state_dict Demo.compressing) Demo.single))
    = [] /\
  server_chunk_sizes (fst (load_state_dict (state_dict Demo.compressing) Demo.single)) = [].
Proof.
  apply (@load_restores_the_moments _ float_scalar Demo.compressing Demo.single _ 4%Z).
  - repeat constructor.
  - reflexivity.
  - vm_compute. reflexivity.
Defined.

(** ** The frozen variance *)

Section FrozenVariance.
Context {F : Type} `{Scalar F}.

Lemma variance_kept_refl (p : Param F) : variance_kept p p.
Proof. intros s Hs. exists s. split; [exact Hs | reflexivity]. Qed.

Lemma variance_kept_trans (a b c : Param F) :
  variance_kept a b -> variance_kept b c -> variance_kept a c.
Proof.
  intros Hab Hbc s Hs. destruct (Hab s Hs) as (s1 & Hs1 & E1).
  destruct (Hbc s1 Hs1) as (s2 & Hs2 & E2). exists s2. split; [exact Hs2 | congruence].
Qed.

Lemma variance_kept_touch (p : Param F) : variance_kept p (touch p).
Proof.
  intros s Hs. exists s. unfold touch. rewrite Hs. split; [exact Hs | reflexivity].
Qed.

Lemma variance_kept_rebind (p : Param F) s v :
  p_state p = FullEntry s ->
  variance_kept p (set_p_state (FullEntry (set_s_exp_avg v s)) p).
Proof.
  intros Hs s0 Hs0. rewrite Hs in Hs0. inversion Hs0; subst s0.
  eexists. split; reflexivity.
Qed.

Lemma variance_on_exp_avg f :
  keeps (fun c : Cell F => s_exp_avg_sq (c_state c)) (on_exp_avg f).
Proof.
  intros c. unfold on_exp_avg. destruct (f (cell_exp_avg c)); [|reflexivity].
  destruct (write _ _ _) as [m flat]. reflexivity.
Qed.

Lemma variance_on_exp_avg_sq_back f :
  keeps (fun c : Cell F => s_exp_avg_sq (c_state c)) (on_exp_avg_sq_back f).
Proof. intros c. unfold on_exp_avg_sq_back. destruct (f _); reflexivity. Qed.

Lemma variance_compression_stage init sc h i j grad :
  keeps (fun c : Cell F => s_exp_avg_sq (c_state c)) (compression_stage init sc h i j grad).
Proof.
  unfold compression_stage. destruct init; [|apply keeps_done].
  apply keeps_bind.
  - unfold momentum_update. apply keeps_bind; apply variance_on_exp_avg.
  - intros c. destruct (nth_error sc i) as [row|]; [|reflexivity].
    destruct (nth_error row j); [apply variance_on_exp_avg | reflexivity].
Qed.

Lemma variance_compressed_lamb cfg h last :
  keeps (fun c : Cell F => s_exp_avg_sq (c_state c)) (compressed_lamb cfg h last).
Proof.
  intros c. unfold compressed_lamb. destruct (betas h) as [beta1 beta2].
  destruct (ew2 fsub _ _) as [diff|]; [|reflexivity].
  match goal with
  | |- context [on_exp_avg_sq_back ?f c] =>
      pose proof (variance_on_exp_avg_sq_back f c) as K1;
      destruct (on_exp_avg_sq_back f c) as [c1 [e1|]]
  end; cbn [and_then fst] in *; [exact K1|].
  match goal with
  | |- context [on_exp_avg_sq_back ?f c1] =>
      pose proof (variance_on_exp_avg_sq_back f c1) as K2;
      destruct (on_exp_avg_sq_back f c1) as [c2 [e2|]]
  end; cbn [and_then fst] in *; [congruence|].
  rewrite <- K1, <- K2. unfold apply_update. repeat break_match; reflexivity.
Qed.

Lemma variance_second_loop_cell cfg sc last h i j :
  keeps (fun c : Cell F => s_exp_avg_sq (c_state c)) (second_loop_cell cfg sc last h i j).
Proof.
  intros c. unfold second_loop_cell. destruct (index2 sc i j) as [coeff|]; [|reflexivity].
  match goal with
  | |- context [on_exp_avg ?f c] =>
      pose proof (variance_on_exp_avg f c) as K1;
      destruct (on_exp_avg f c) as [c1 [e1|]]
  end; cbn [and_then fst] in *; [exact K1|].
  destruct (exp_avg_mask h) as [mask|].
  - match goal with
    | |- context [on_exp_avg ?f c1] =>
        pose proof (variance_on_exp_avg f c1) as K2;
        destruct (on_exp_avg f c1) as [c2 [e2|]]
    end; cbn [and_then fst] in *; cbv beta in *; [congruence|].
    rewrite <- K1, <- K2.
    destruct (index2 last i j); [apply variance_compressed_lamb | reflexivity].
  - cbn [and_then done]. rewrite <- K1.
    destruct (index2 last i j); [apply variance_compressed_lamb | reflexivity].
Qed.

(** Lines 244-249: in the compression stage the first loop updates the
    momentum only. *)
Lemma first_loop_body_variance cfg sc h i j (p : Param F) x sh :
  sh_key sh = true ->
  variance_kept p (fst (fst (first_loop_body cfg true sc h i j p x sh))) /\
  sh_key (snd (fst (first_loop_body cfg true sc h i j p x sh))) = true.
Proof.
  intros Hkey. split; [|rewrite first_loop_body_key; exact Hkey].
  unfold first_loop_body.
  destruct (match x with Some g => Some g | None => p_grad p end) as [g|];
    [|apply variance_kept_refl].
  destruct (is_sparse g); [apply variance_kept_refl|].
  simpl negb. cbv iota. cbn [sh_key set_sh_state]. rewrite Hkey. simpl negb. cbv iota.
  destruct (p_state (get_or_init p)) as [| | |s] eqn:Hs.
  1-3: rewrite get_or_init_partial;
         [apply variance_kept_refl | intros s Hc; rewrite Hs in Hc; discriminate].
  match goal with
  | |- context [compression_stage true sc h i j (g_data g) ?c0] =>
      pose proof (variance_compression_stage true sc h i j (g_data g) c0) as Hv;
      destruct (compression_stage true sc h i j (g_data g) c0) as [c' [e|]]
  end; simpl in *; intros s0 Hs0; exists (c_state c'); (split; [reflexivity|]);
    rewrite Hv; unfold get_or_init in Hs; rewrite Hs0 in Hs; simpl in Hs;
    rewrite Hs0 in Hs; inversion Hs; reflexivity.
Qed.

Lemma second_loop_body_variance cfg sc last h i j (p : Param F) u sh :
  variance_kept p (fst (fst (second_loop_body cfg sc last h i j p u sh))).
Proof.
  unfold second_loop_body.
  destruct (p_state (touch p)) as [| | |s] eqn:Hs; try apply variance_kept_touch.
  pose proof (variance_second_loop_cell cfg sc last h i j
                {| c_state := s; c_data := p_data (touch p);
                   c_shared := set_sh_state (Some (i, j)) sh |}) as Hv.
  unfold and_then.
  destruct (second_loop_cell _ _ _ _ _ _ _) as [c' [e|]]; simpl in *;
    intros s0 Hs0; exists (c_state c'); (split; [reflexivity|]);
    rewrite Hv; unfold touch in Hs; rewrite Hs0 in Hs; rewrite Hs0 in Hs;
    inversion Hs; reflexivity.
Qed.

(** X10. In the compression stage of an initialised optimizer the second
    moment [exp_avg_sq] is frozen: whatever the outcome of [step], every
    parameter that has its dict still has it, with the same [exp_avg_sq]. *)
Theorem variance_is_frozen (net : Net F) (grads : GradsArg F) (o : Opt F) :
  initialize o = true -> lamb_freeze_key o = true ->
  groups_rel variance_kept (param_groups o) (param_groups (fst (step net grads o))).
Proof.
  intros Hinit Hkey. unfold step.
  destruct (grads_group_of grads (length (param_groups o))) as [gg|e];
    [|apply groups_rel_refl; exact variance_kept_refl].
  fold (@no_locals F).
  set (Q := fun o1 : Opt F =>
              initialize o1 = true /\ lamb_freeze_key o1 = true /\
              groups_rel variance_kept (param_groups o) (param_groups o1)).
  set (P := fun fr1 : Opt F * Locals F => Q (fst fr1)).
  assert (Hstep : forall (o1 o2 : Opt F),
            Q o1 -> initialize o2 = initialize o1 -> lamb_freeze_key o2 = lamb_freeze_key o1 ->
            groups_rel variance_kept (param_groups o1) (param_groups o2) -> Q o2).
  { intros o1 o2 (Hi1 & Hk1 & Hg1) Hi2 Hk2 Hg2. unfold Q.
    split; [congruence|]. split; [congruence|].
    eapply groups_rel_trans; [exact variance_kept_trans | exact Hg1 | exact Hg2]. }
  assert (H1 : forall fr1, P fr1 -> P (fst (snapshot_and_calibrate fr1))).
  { intros [o1 loc] Hq. unfold P in *. cbn [fst] in *.
    pose proof (snapshot_frame o1 loc) as Hf. cbv zeta in Hf.
    destruct Hf as (_ & Hi & Hk & _).
    apply (Hstep o1 _ Hq Hi Hk).
    apply (@snapshot_groups_rel _ _ variance_kept variance_kept_refl variance_kept_trans
             variance_kept_touch). }
  assert (H2 : forall fr1, P fr1 -> P (fst (first_loop gg fr1))).
  { intros [o1 loc] Hq. unfold P in *. cbn [fst] in *.
    pose proof (first_loop_frame gg o1 loc) as Hf. cbv zeta in Hf.
    destruct Hf as (_ & Hi & _).
    destruct Hq as (Hi1 & Hk1 & Hg1).
    apply (Hstep o1 _ (conj Hi1 (conj Hk1 Hg1)) Hi (first_loop_key gg o1 loc Hi1)).
    rewrite first_loop_param_groups, Hi1.
    exact (proj1 (@nested_loop_rel_inv _ _ _ variance_kept (fun s => sh_key s = true)
                    (first_loop_body (config o1) true (scaling_coeffs o1))
                    (fun g y => grads_of_group g y)
                    (param_groups o1) gg (shared_of o1 loc) variance_kept_refl
                    (fun h i j p x s Hs =>
                       first_loop_body_variance (config o1) (scaling_coeffs o1)
                         h i j p x s Hs)
                    Hk1)). }
  assert (H3 : forall fr1, P fr1 -> P (fst (on_opt init_fused_momentum fr1))).
  { apply (inv_on_opt Q). intros o1 Hq.
    pose proof (init_fused_frame o1) as Hf. cbv zeta in Hf.
    destruct Hf as (_ & Hi & Hk & _).
    apply (Hstep o1 _ Hq Hi Hk).
    apply (@init_fused_groups_rel _ _ variance_kept variance_kept_refl variance_kept_trans
             variance_kept_touch variance_kept_rebind). }
  assert (H4 : forall fr1, P fr1 -> P (fst (on_opt init_error_buffers fr1))).
  { apply (inv_on_opt Q). intros o1 Hq.
    pose proof (keeps_init_error_buffers o1) as Hf. unfold outside_buffers in Hf.
    inversion Hf as [[Hc4 Hi4 Hkey4 Hd4 Hsc4 Hl4 Hg4 Hdu4 Hco4 Hch4 Hfl4]].
    apply (Hstep o1 _ Hq Hi4 Hkey4). rewrite Hg4.
    apply groups_rel_refl. exact variance_kept_refl. }
  assert (H5 : forall fr1, P fr1 -> P (fst (on_opt (communicate net) fr1))).
  { apply (inv_on_opt Q). intros o1 Hq.
    pose proof (keeps_communicate net o1) as Hf. unfold outside_buffers in Hf.
    inversion Hf as [[Hc5 Hi5 Hkey5 Hd5 Hsc5 Hl5 Hg5 Hdu5 Hco5 Hch5]].
    apply (Hstep o1 _ Hq Hi5 Hkey5). rewrite Hg5.
    apply groups_rel_refl. exact variance_kept_refl. }
  assert (H6 : forall fr1, P fr1 -> P (fst (second_loop fr1))).
  { intros [o1 loc] Hq. unfold P in *. cbn [fst] in *.
    pose proof (second_loop_frame o1 loc) as Hf. cbv zeta in Hf.
    destruct Hf as (_ & Hi & _).
    apply (Hstep o1 _ Hq Hi (second_loop_key o1 loc)).
    apply (@second_loop_groups_rel _ _ variance_kept variance_kept_refl).
    intros. apply second_loop_body_variance. }
  assert (Hpipe : P (fst (snapshot_and_calibrate (set_lamb_coeffs [] o, no_locals) >>=
                          first_loop gg >>= on_opt init_fused_momentum >>=
                          on_opt init_error_buffers >>= on_opt (communicate net) >>=
                          second_loop))).
  { apply (inv_bind P (fun fr1 => snapshot_and_calibrate fr1 >>= first_loop gg >>=
                         on_opt init_fused_momentum >>= on_opt init_error_buffers >>=
                         on_opt (communicate net)) second_loop); [|exact H6|].
    - intros fr1 Hfr1.
      apply (inv_bind P (fun fr2 => snapshot_and_calibrate fr2 >>= first_loop gg >>=
                           on_opt init_fused_momentum >>= on_opt init_error_buffers)
               (on_opt (communicate net))); [|exact H5|exact Hfr1].
      intros fr2 Hfr2.
      apply (inv_bind P (fun fr3 => snapshot_and_calibrate fr3 >>= first_loop gg >>=
                           on_opt init_fused_momentum)
               (on_opt init_error_buffers)); [|exact H4|exact Hfr2].
      intros fr3 Hfr3.
      apply (inv_bind P (fun fr4 => snapshot_and_calibrate fr4 >>= first_loop gg)
               (on_opt init_fused_momentum)); [|exact H3|exact Hfr3].
      intros fr4 Hfr4.
      apply (inv_bind P snapshot_and_calibrate (first_loop gg)); assumption.
    - unfold P, Q. cbn [fst initialize lamb_freeze_key param_groups set_lamb_coeffs].
      split; [exact Hinit|]. split; [exact Hkey|].
      apply groups_rel_refl. exact variance_kept_refl. }
  destruct (snapshot_and_calibrate (set_lamb_coeffs [] o, no_locals) >>=
            first_loop gg >>= on_opt init_fused_momentum >>=
            on_opt init_error_buffers >>= on_opt (communicate net) >>=
            second_loop) as [[o6 loc6] [e|]]; unfold P, Q in Hpipe;
    cbn [and_then fst] in *; destruct Hpipe as (_ & _ & Hg); [exact Hg|].
  pose proof (finish_frame o6 loc6) as Hf. cbv zeta in Hf. destruct Hf as (_ & Hgs & _).
  rewrite Hgs. exact Hg.
Qed.
End FrozenVariance.

(** A step of two parameters in the compression stage, the second of them
    without gradient. *)
Lemma variance_is_frozen_witness :
  groups_rel variance_kept (param_groups Demo.second_idle_compressing)
    (param_groups (fst (step Demo.idle_net GradsNone Demo.second_idle_compressing))).
Proof.
  apply (@variance_is_frozen _ float_scalar Demo.idle_net GradsNone
           Demo.second_idle_compressing); reflexivity.
Defined.

(** ** The second moment kept for the compression stage *)

Section VarianceBackup.
Context {F : Type} `{Scalar F}.

Lemma moments_warmup_lamb cfg h :
  keeps (fun c : Cell F =>
           (s_step (c_state c), s_exp_avg_sq (c_state c), s_exp_avg_sq_back (c_state c)))
        (warmup_lamb cfg h).
Proof.
  intros c. unfold warmup_lamb, apply_update. repeat break_match; reflexivity.
Qed.

Lemma step_on_exp_avg f : keeps (fun c : Cell F => s_step (c_state c)) (on_exp_avg f).
Proof.
  intros c. unfold on_exp_avg. destruct (f (cell_exp_avg c)); [|reflexivity].
  destruct (write _ _ _) as [m flat]. reflexivity.
Qed.

Lemma step_on_exp_avg_sq f : keeps (fun c : Cell F => s_step (c_state c)) (on_exp_avg_sq f).
Proof. intros c. unfold on_exp_avg_sq. destruct (f _); reflexivity. Qed.

(** Lines 219-243: when the warmup stage of a parameter ends without
    exception at the step whose count is [freeze_step], [exp_avg_sq_back]
    is a copy of [exp_avg_sq]. *)
Lemma warmup_stage_backup cfg h grad (c c' : Cell F) :
  warmup_stage cfg true h grad c = (c', None) ->
  s_step (c_state c') = s_step (c_state c) /\
  (s_step (c_state c') = freeze_step cfg ->
   s_exp_avg_sq_back (c_state c') = s_exp_avg_sq (c_state c')).
Proof.
  unfold warmup_stage. destruct (betas h) as [beta1 beta2]. intros Hrun.
  apply and_then_ok in Hrun. destruct Hrun as (c3 & Hrun & Hlast).
  apply and_then_ok in Hrun. destruct Hrun as (c2 & Hrun & H3).
  apply and_then_ok in Hrun. destruct Hrun as (c1 & H1 & H2).
  assert (Hstep3 : s_step (c_state c3) = s_step (c_state c)).
  { unfold momentum_update in H1. apply and_then_ok in H1. destruct H1 as (c0 & H0 & H1).
    repeat match goal with
           | Hr : on_exp_avg_sq ?f ?a = _ |- _ =>
               pose proof (step_on_exp_avg_sq f a); rewrite Hr in *; clear Hr
           | Hr : on_exp_avg ?f ?a = _ |- _ =>
               pose proof (step_on_exp_avg f a); rewrite Hr in *; clear Hr
           end.
    simpl in *. congruence. }
  cbv beta in Hlast.
  match type of Hlast with
  | warmup_lamb cfg h ?c4 = _ =>
      pose proof (moments_warmup_lamb cfg h c4) as K; rewrite Hlast in K
  end.
  cbn [fst] in K. inversion K as [[Ks Kv Kb]]. clear K.
  destruct (Z.eqb (s_step (c_state c3)) (freeze_step cfg)) eqn:Heq; simpl in *.
  - split; [congruence|]. intros _. congruence.
  - split; [congruence|]. intros Hf. apply Z.eqb_neq in Heq. congruence.
Qed.

(** A visit of the first loop in the warmup stage of an initialised
    optimizer. *)
Lemma first_loop_body_backup cfg sc h i j (p : Param F) x sh p' sh' g :
  first_loop_body cfg true sc h i j p x sh = ((p', sh'), None) ->
  sh_key sh = false -> chosen_grad p x = Some g ->
  exists s', p_state p' = FullEntry s' /\
             s_step s' = (step_of (p_state p) + 1)%Z /\
             (s_step s' = freeze_step cfg -> s_exp_avg_sq_back s' = s_exp_avg_sq s').
Proof.
  intros Hrun Hkey Hg. unfold first_loop_body in Hrun. fold (chosen_grad p x) in Hrun.
  rewrite Hg in Hrun. destruct (is_sparse g); [discriminate|].
  simpl negb in Hrun. cbv iota in Hrun. cbn [sh_key set_sh_state] in Hrun.
  rewrite Hkey in Hrun. simpl negb in Hrun. cbv iota in Hrun.
  destruct (p_state (get_or_init p)) as [| | |s] eqn:Hs; try discriminate.
  apply and_then_ok in Hrun. destruct Hrun as (c' & Hstage & Hclose).
  unfold done, close_cell in Hclose. inversion Hclose; subst p' sh'. clear Hclose.
  apply warmup_stage_backup in Hstage. destruct Hstage as [Hstep Hback].
  exists (c_state c'). split; [reflexivity|]. split; [|exact Hback].
  rewrite Hstep. simpl. rewrite (step_of_get_or_init p Hs). reflexivity.
Qed.

(** The parameter at a position after a first loop that ends without
    exception, in the warmup stage of an initialised optimizer. *)
Lemma first_loop_ok_at_warmup gg (o : Opt F) loc o2 loc2 i j g p :
  initialize o = true -> lamb_freeze_key o = false ->
  first_loop gg (o, loc) = ((o2, loc2), None) ->
  nth_error (param_groups o) i = Some g -> nth_error (params g) j = Some p ->
  match visit (param_groups o) gg i j with
  | Some (_, x) =>
      exists sh0 sh1 p',
        sh_key sh0 = false /\
        first_loop_body (config o) true (scaling_coeffs o) (hyper g) i j p x sh0
          = ((p', sh1), None) /\
        param_at (param_groups o2) i j = Some p'
  | None => param_at (param_groups o2) i j = Some p
  end.
Proof.
  intros Hinit Hkey Hrun Hg Hp. apply first_loop_ok in Hrun.
  destruct Hrun as (gs2 & sh2 & Hloop & Hgs & _). subst gs2. rewrite Hinit in Hloop.
  assert (Hbody : forall h i0 k a x s a' s',
            sh_key s = false ->
            first_loop_body (config o) true (scaling_coeffs o) h i0 k a x s
              = ((a', s'), None) ->
            sh_key s' = false).
  { intros h i0 k a x s a' s' Hs Hb.
    pose proof (first_loop_body_key (config o) (scaling_coeffs o) h i0 k a x s) as Hk.
    rewrite Hb in Hk. simpl in Hk. congruence. }
  assert (Hgroup : forall k a y s a' s',
            sh_key s = false ->
            first_loop_group (config o) true (scaling_coeffs o) k a y s = ((a', s'), None) ->
            sh_key s' = false).
  { intros k a y s a' s' Hs Hb. apply first_loop_group_ok in Hb.
    destruct Hb as (ps' & Hin & _).
    apply (for_each_ok_nth_inv _ (fun s0 => sh_key s0 = false) _ _ _ _
             (Hbody (hyper a) k) Hs Hin). }
  destruct (for_each_ok_nth_inv _ (fun s0 => sh_key s0 = false) _ _ _ _
              Hgroup (Hkey : sh_key (shared_of o loc) = false) Hloop) as [_ Hat].
  specialize (Hat i g Hg). unfold visit, param_at. rewrite Hg, Hp.
  destruct (nth_error gg i) as [y|]; [|rewrite Hat; exact Hp].
  destruct Hat as (s0 & s1 & g' & Hs0 & Hgb & Hg'). rewrite Hg'.
  apply first_loop_group_ok in Hgb. destruct Hgb as (ps' & Hin & Heq). subst g'.
  destruct (for_each_ok_nth_inv _ (fun s3 => sh_key s3 = false) _ _ _ _
              (Hbody (hyper g) (0 + i)%nat) Hs0 Hin) as [_ Hat].
  specialize (Hat j p Hp). cbn [params set_params].
  destruct (nth_error (grads_of_group g y) j) as [x|]; [|exact Hat].
  destruct Hat as (s3 & s4 & p' & Hs3 & Hb & Hp'). exists s3, s4, p'.
  repeat split; assumption.
Qed.

(** X11. In the warmup stage of an initialised optimizer whose momenta are
    fused, a step that ends without exception leaves, for every parameter
    that has a gradient, its step count incremented and, when that count
    is now [freeze_step], [exp_avg_sq_back] equal to [exp_avg_sq]: the
    second moment the compression stage starts from is the one the warmup
    stage ends with. *)
Theorem variance_backup_at_freeze_step (net : Net F) (grads : GradsArg F) gg
    (o o' : Opt F) i j p g :
  initialize o = true -> lamb_freeze_key o = false -> exp_avg_flat o <> [] ->
  grads_group_of grads (length (param_groups o)) = Ok gg ->
  step net grads o = (o', None) ->
  param_at (param_groups o) i j = Some p ->
  gradient_at (param_groups o) gg i j = Some g ->
  exists p' s',
    param_at (param_groups o') i j = Some p' /\ p_state p' = FullEntry s' /\
    s_step s' = (step_of (p_state p) + 1)%Z /\
    (s_step s' = freeze_step (config o) ->
     s_exp_avg_sq_back s' = s_exp_avg_sq s').
Proof.
  intros Hinit Hkey Hflat Hgg Hrun Hp Hgrad.
  assert (Hrest : param_groups o' =
                    param_groups (fst (fst (first_loop gg (set_lamb_coeffs [] o, no_locals))))).
  { pose proof (first_loop_key gg (set_lamb_coeffs [] o) no_locals Hinit) as Hkey2.
    pose proof (first_loop_flat_length gg (set_lamb_coeffs [] o) no_locals) as Hlen.
    replace o' with (fst (step net grads o)) by (rewrite Hrun; reflexivity).
    unfold step. rewrite Hgg. fold (@no_locals F).
    unfold snapshot_and_calibrate. cbn [lamb_freeze_key set_lamb_coeffs]. rewrite Hkey.
    change (done (set_lamb_coeffs [] o, @no_locals F) >>= first_loop gg)
      with (first_loop gg (set_lamb_coeffs [] o, no_locals)).
    cbn [lamb_freeze_key exp_avg_flat set_lamb_coeffs] in Hkey2, Hlen.
    destruct (first_loop gg (set_lamb_coeffs [] o, no_locals)) as [[o2 loc2] [e|]];
      cbn [and_then fst] in *; [reflexivity|].
    apply warmup_rest; [congruence|].
    intros Hnil. rewrite Hnil in Hlen. destruct (exp_avg_flat o); [contradiction|discriminate]. }
  apply step_ok_inv in Hrun.
  destruct Hrun as (gg' & o1 & loc1 & o2 & loc2 & o3 & o4 & o5 & o6 & loc6 &
                    Hgg' & Hsnap & Hfirst & _).
  rewrite Hgg in Hgg'. inversion Hgg'; subst gg'. clear Hgg'.
  unfold snapshot_and_calibrate in Hsnap. cbn [lamb_freeze_key set_lamb_coeffs] in Hsnap.
  rewrite Hkey in Hsnap. unfold done in Hsnap. inversion Hsnap; subst o1 loc1. clear Hsnap.
  rewrite Hfirst in Hrest. cbn [fst] in Hrest. rewrite Hrest.
  unfold param_at in Hp.
  destruct (nth_error (param_groups o) i) as [gr|] eqn:Hgr; [|discriminate].
  pose proof (@first_loop_ok_at_warmup gg (set_lamb_coeffs [] o) no_locals o2 loc2 i j gr p
                Hinit Hkey Hfirst Hgr Hp) as Hat.
  cbn [param_groups config scaling_coeffs set_lamb_coeffs] in Hat.
  unfold gradient_at in Hgrad.
  destruct (visit (param_groups o) gg i j) as [[q x]|] eqn:Hvisit; [|discriminate].
  assert (Hq : q = p).
  { unfold visit in Hvisit. rewrite Hgr, Hp in Hvisit.
    destruct (nth_error gg i) as [y|]; [|discriminate].
    destruct (nth_error (grads_of_group gr y) j); inversion Hvisit; reflexivity. }
  subst q.
  destruct Hat as (sh0 & sh1 & p' & Hsh0 & Hbody & Hp').
  destruct (first_loop_body_backup _ _ _ _ _ _ _ _ Hbody Hsh0 Hgrad) as (s' & Hs' & Hstep & Hb).
  exists p', s'. repeat split; assumption.
Qed.
End VarianceBackup.

(** The third step of one parameter with [freeze_step = 3]. *)
Lemma variance_backup_at_freeze_step_witness :
  exists p' s',
    param_at (param_groups (fst (step Demo.idle_net GradsNone Demo.two_steps))) 0 0
      = Some p' /\
    p_state p' = FullEntry s' /\
    s_step s' = 3%Z /\
    (s_step s' = 3%Z -> s_exp_avg_sq_back s' = s_exp_avg_sq s').
Proof.
  assert (H1 : initialize Demo.two_steps = true) by reflexivity.
  assert (H2 : lamb_freeze_key Demo.two_steps = false) by reflexivity.
  assert (H3 : exp_avg_flat Demo.two_steps <> []) by discriminate.
  assert (H4 : grads_group_of (@GradsNone Demo.flt) (length (param_groups Demo.two_steps))
               = Ok [None]) by reflexivity.
  assert (H5 : step Demo.idle_net GradsNone Demo.two_steps
               = (fst (step Demo.idle_net GradsNone Demo.two_steps), None))
    by (vm_compute; reflexivity).
  assert (H6 : gradient_at (param_groups Demo.two_steps) [None] 0 0
               = Demo.dense [0.5; -0.25]%float) by reflexivity.
  exact (@variance_backup_at_freeze_step _ float_scalar Demo.idle_net GradsNone [None]
           Demo.two_steps _ 0%nat 0%nat _ _ H1 H2 H3 H4 H5 eq_refl H6).
Defined.

(** ** The coefficients a step records *)

Section CoefficientCount.
Context {F : Type} `{Scalar F}.

Lemma coeffs_on_exp_avg f :
  keeps (fun c : Cell F => sh_lamb_coeffs (c_shared c)) (on_exp_avg f).
Proof.
  intros c. unfold on_exp_avg. destruct (f (cell_exp_avg c)); [|reflexivity].
  destruct (write _ _ _) as [m flat]. reflexivity.
Qed.

Lemma coeffs_on_exp_avg_sq f :
  keeps (fun c : Cell F => sh_lamb_coeffs (c_shared c)) (on_exp_avg_sq f).
Proof. intros c. unfold on_exp_avg_sq. destruct (f _); reflexivity. Qed.

Lemma coeffs_on_exp_avg_sq_back f :
  keeps (fun c : Cell F => sh_lamb_coeffs (c_shared c)) (on_exp_avg_sq_back f).
Proof. intros c. unfold on_exp_avg_sq_back. destruct (f _); reflexivity. Qed.

Lemma coeffs_momentum_update beta1 grad :
  keeps (fun c : Cell F => sh_lamb_coeffs (c_shared c)) (momentum_update beta1 grad).
Proof. unfold momentum_update. apply keeps_bind; apply coeffs_on_exp_avg. Qed.

Lemma coeffs_compression_stage init sc h i j grad :
  keeps (fun c : Cell F => sh_lamb_coeffs (c_shared c))
        (compression_stage init sc h i j grad).
Proof.
  unfold compression_stage. destruct init; [|apply keeps_done].
  apply keeps_bind; [apply coeffs_momentum_update|].
  intros c. destruct (nth_error sc i) as [row|]; [|reflexivity].
  destruct (nth_error row j); [apply coeffs_on_exp_avg | reflexivity].
Qed.

(** Line 241: the baseline update records one coefficient. *)
Lemma warmup_lamb_records cfg h (c c' : Cell F) :
  warmup_lamb cfg h c = (c', None) ->
  exists x, sh_lamb_coeffs (c_shared c') = sh_lamb_coeffs (c_shared c) ++ [x].
Proof.
  unfold warmup_lamb, apply_update.
  repeat break_match; intros Heq; try discriminate;
    unfold done in Heq; inversion Heq; subst; simpl; eexists; reflexivity.
Qed.

Lemma warmup_stage_records cfg init h grad (c c' : Cell F) :
  warmup_stage cfg init h grad c = (c', None) ->
  length (sh_lamb_coeffs (c_shared c')) =
    (length (sh_lamb_coeffs (c_shared c)) + if init then 1 else 0)%nat.
Proof.
  unfold warmup_stage. destruct (betas h) as [beta1 beta2]. intros Hrun.
  apply and_then_ok in Hrun. destruct Hrun as (c3 & Hrun & Hlast).
  apply and_then_ok in Hrun. destruct Hrun as (c2 & Hrun & H3).
  apply and_then_ok in Hrun. destruct Hrun as (c1 & H1 & H2).
  assert (Hc3 : sh_lamb_coeffs (c_shared c3) = sh_lamb_coeffs (c_shared c)).
  { pose proof (coeffs_momentum_update beta1 grad c) as K1. rewrite H1 in K1.
    repeat match goal with
           | Hr : on_exp_avg_sq ?f ?a = _ |- _ =>
               pose proof (coeffs_on_exp_avg_sq f a); rewrite Hr in *; clear Hr
           end.
    simpl in *. congruence. }
  cbv beta in Hlast. rewrite <- Hc3.
  assert (Hc4 : forall b : bool,
            sh_lamb_coeffs (c_shared
              (if b then set_c_state (set_s_exp_avg_sq_back (s_exp_avg_sq (c_state c3))
                                        (c_state c3)) c3
               else c3)) = sh_lamb_coeffs (c_shared c3)).
  { intros b. destruct b; reflexivity. }
  destruct init.
  - apply warmup_lamb_records in Hlast. destruct Hlast as [x Hx].
    rewrite Hx, Hc4, length_app. reflexivity.
  - unfold done in Hlast. inversion Hlast; subst c'. rewrite Hc4. lia.
Qed.

(** Lines 338-371: the compressed update records one coefficient. *)
Lemma compressed_lamb_records cfg h last (c c' : Cell F) :
  compressed_lamb cfg h last c = (c', None) ->
  length (sh_lamb_coeffs (c_shared c')) = S (length (sh_lamb_coeffs (c_shared c))).
Proof.
  unfold compressed_lamb. destruct (betas h) as [beta1 beta2].
  destruct (ew2 fsub _ _) as [diff|]; [|discriminate]. intros Hrun.
  apply and_then_ok in Hrun. destruct Hrun as (c2 & Hrun & Hlast).
  apply and_then_ok in Hrun. destruct Hrun as (c1 & H1 & H2).
  assert (Hc2 : sh_lamb_coeffs (c_shared c2) = sh_lamb_coeffs (c_shared c)).
  { repeat match goal with
           | Hr : on_exp_avg_sq_back ?f ?a = _ |- _ =>
               pose proof (coeffs_on_exp_avg_sq_back f a); rewrite Hr in *; clear Hr
           end.
    simpl in *. congruence. }
  rewrite <- Hc2. cbv beta in Hlast. unfold apply_update in Hlast.
  repeat match type of Hlast with
         | context [match ?x with _ => _ end] => destruct x eqn:?
         end; try discriminate;
    unfold done in Hlast; inversion Hlast; subst; simpl; rewrite length_app; simpl; lia.
Qed.

Lemma second_loop_cell_records cfg sc last h i j (c c' : Cell F) :
  second_loop_cell cfg sc last h i j c = (c', None) ->
  length (sh_lamb_coeffs (c_shared c')) = S (length (sh_lamb_coeffs (c_shared c))).
Proof.
  unfold second_loop_cell. destruct (index2 sc i j) as [coeff|]; [|discriminate].
  intros Hrun.
  apply and_then_ok in Hrun. destruct Hrun as (c2 & Hrun & Hlast).
  apply and_then_ok in Hrun. destruct Hrun as (c1 & H1 & H2).
  assert (Hc2 : sh_lamb_coeffs (c_shared c2) = sh_lamb_coeffs (c_shared c)).
  { apply (keeps_ok _ (coeffs_on_exp_avg _)) in H1. simpl in H1.
    cbv beta in H2. destruct (exp_avg_mask h).
    - apply (keeps_ok _ (coeffs_on_exp_avg _)) in H2. simpl in H2. congruence.
    - unfold done in H2. inversion H2; subst. exact H1. }
  cbv beta in Hlast. destruct (index2 last i j); [|discriminate].
  apply compressed_lamb_records in Hlast. congruence.
Qed.

(** A visit of the first loop records a coefficient in the warmup stage of
    an initialised optimizer, for a parameter that has a gradient. *)
Lemma first_loop_body_records cfg init sc h i j (p : Param F) x sh p' sh' :
  first_loop_body cfg init sc h i j p x sh = ((p', sh'), None) ->
  length (sh_lamb_coeffs sh') =
    (length (sh_lamb_coeffs sh) +
     match chosen_grad p x with
     | Some _ => if init && negb (sh_key sh) then 1 else 0
     | None => 0
     end)%nat.
Proof.
  unfold first_loop_body. fold (chosen_grad p x).
  destruct (chosen_grad p x) as [g|];
    [|unfold done; intros Heq; inversion Heq; subst; lia].
  destruct (is_sparse g); [discriminate|].
  destruct (p_state (get_or_init p)) as [| | |s]; try discriminate.
  intros Hrun. apply and_then_ok in Hrun. destruct Hrun as (c' & Hstage & Hclose).
  unfold done, close_cell in Hclose. inversion Hclose; subst p' sh'. clear Hclose.
  destruct init; simpl negb in *; cbv iota in *; cbn [sh_key set_sh_key set_sh_state] in *.
  - destruct (sh_key sh); simpl negb in *; cbv iota in *.
    + pose proof (coeffs_compression_stage true sc h i j (g_data g)) as K.
      apply (keeps_ok _ K) in Hstage. simpl in *. rewrite Hstage. lia.
    + apply warmup_stage_records in Hstage. simpl in *. exact Hstage.
  - pose proof (coeffs_compression_stage false sc h i j (g_data g)) as K.
    apply (keeps_ok _ K) in Hstage. simpl in *. rewrite Hstage. lia.
Qed.

Lemma second_loop_body_records cfg sc last h i j (p : Param F) u sh p' sh' :
  second_loop_body cfg sc last h i j p u sh = ((p', sh'), None) ->
  length (sh_lamb_coeffs sh') = S (length (sh_lamb_coeffs sh)).
Proof.
  unfold second_loop_body. destruct (p_state (touch p)) as [| | |s]; try discriminate.
  intros Hrun. apply and_then_ok in Hrun. destruct Hrun as (c' & Hcell & Hclose).
  unfold done, close_cell in Hclose. inversion Hclose; subst p' sh'. clear Hclose.
  apply second_loop_cell_records in Hcell. exact Hcell.
Qed.

Lemma fold_visits_fixed {A X T} (upd : nat -> A -> X -> T -> T) t l xs k :
  (forall k' a x, upd k' a x t = t) -> fold_visits upd k l xs t = t.
Proof.
  intros Hupd. revert xs k. induction l as [|a l IH]; intros [|x xs] k; simpl;
    try reflexivity. rewrite Hupd. apply IH.
Qed.

Lemma fold_visits_add {A X} (d : A -> X -> nat) l xs k k' n :
  fold_visits (fun _ a x m => (m + d a x)%nat) k l xs n =
    (n + fold_visits (fun _ a x m => (m + d a x)%nat) k' l xs 0)%nat.
Proof.
  revert xs k k' n. induction l as [|a l IH]; intros [|x xs] k k' n; simpl; try lia.
  rewrite (IH xs (S k) (S k') (n + d a x)%nat), (IH xs (S k') (S k') (d a x)). lia.
Qed.

Lemma fold_visits_units {A} (l : list A) k n :
  fold_visits (fun _ (_ : A) (_ : unit) m => S m) k l (units l) n = (n + length l)%nat.
Proof.
  revert k n. induction l as [|a l IH]; intros k n; simpl; [lia|].
  unfold units in IH. rewrite IH. lia.
Qed.

Lemma fold_visits_pair {A X} (d : bool -> A -> X -> nat) l xs k b n :
  fold_visits (fun _ a x (t : bool * nat) => (fst t, (snd t + d (fst t) a x)%nat))
    k l xs (b, n) =
  (b, fold_visits (fun _ a x m => (m + d b a x)%nat) k l xs n).
Proof.
  revert xs k n. induction l as [|a l IH]; intros [|x xs] k n; simpl; try reflexivity.
  apply IH.
Qed.

Lemma fold_visits_count (l : list (Param F)) xs k m :
  fold_visits (fun _ p x n => match chosen_grad p x with Some _ => S n | None => n end)
    k l xs m =
  fold_visits (fun _ p x n =>
                 (n + match chosen_grad p x with Some _ => 1 | None => 0 end)%nat)
    k l xs m.
Proof.
  revert xs k m. induction l as [|p l IH]; intros [|x xs] k m; simpl; try reflexivity.
  destruct (chosen_grad p x).
  - replace (m + 1)%nat with (S m) by lia. apply IH.
  - replace (m + 0)%nat with m by lia. apply IH.
Qed.

(** The first loop of an initialised optimizer records one coefficient for
    each parameter that has a gradient in the warmup stage, none in the
    compression stage; the first loop of the first step records none. *)
Lemma first_loop_records gg (o : Opt F) loc o2 loc2 :
  first_loop gg (o, loc) = ((o2, loc2), None) ->
  length (lamb_coeffs o2) =
    (length (lamb_coeffs o) +
     if initialize o && negb (lamb_freeze_key o)
     then gradients_found (param_groups o) gg else 0)%nat.
Proof.
  unfold first_loop. intros Hrun.
  apply and_then_ok in Hrun. destruct Hrun as ([gs2 sh2] & Hloop & Hdone).
  unfold done, store_shared in Hdone. inversion Hdone; subst o2 loc2. clear Hdone.
  cbn [lamb_coeffs set_param_groups set_exp_avg_flat set_lamb_freeze_key set_lamb_coeffs].
  change (lamb_coeffs o) with (sh_lamb_coeffs (shared_of o loc)).
  change (lamb_freeze_key o) with (sh_key (shared_of o loc)).
  revert Hloop. generalize (shared_of o loc) as sh. intros sh Hloop.
  destruct (initialize o) eqn:Hinit.
  - (* initialised: the stage does not change within the loop *)
    set (d := fun (p : Param F) (x : option (Grad F)) =>
                match chosen_grad p x with Some _ => 1%nat | None => 0%nat end).
    assert (Hpair : (sh_key sh2, length (sh_lamb_coeffs sh2)) =
              fold_visits
                (fun (_ : nat) (g : Group F) y (t : bool * nat) =>
                   (fst t,
                    fold_visits (fun _ p x m => (m + if negb (fst t) then d p x else 0)%nat)
                      0 (params g) (grads_of_group g y) (snd t)))
                0 (param_groups o) gg (sh_key sh, length (sh_lamb_coeffs sh))).
    { eapply (for_each_ok_fold _ (fun s => (sh_key s, length (sh_lamb_coeffs s))));
        [|exact Hloop].
      intros i g y s g' s' Hg. apply first_loop_group_ok in Hg.
      destruct Hg as (ps' & Hin & _). cbn [fst snd].
      assert (Hstage : (sh_key s', length (sh_lamb_coeffs s')) =
                fold_visits
                  (fun (_ : nat) (p : Param F) x (t : bool * nat) =>
                     (fst t, (snd t + if negb (fst t) then d p x else 0)%nat))
                  0 (params g) (grads_of_group g y) (sh_key s, length (sh_lamb_coeffs s))).
      { eapply (for_each_ok_fold _ (fun s0 => (sh_key s0, length (sh_lamb_coeffs s0))));
          [|exact Hin].
        intros j p x s0 p' s1 Hp. cbn [fst snd].
        pose proof (first_loop_body_key (config o) (scaling_coeffs o) (hyper g) i j p x s0)
          as Hk. rewrite Hp in Hk. simpl in Hk. rewrite Hk.
        apply first_loop_body_records in Hp. rewrite Hp. f_equal. f_equal.
        unfold d. destruct (chosen_grad p x); simpl; destruct (sh_key s0); reflexivity. }
      rewrite Hstage.
      apply (fold_visits_pair (fun (b : bool) p x => if negb b then d p x else 0%nat)). }
    simpl andb. destruct (sh_key sh) eqn:Hkey; simpl negb; cbv iota.
    + rewrite fold_visits_fixed in Hpair.
      * inversion Hpair. lia.
      * intros k g y. cbn [fst snd]. f_equal.
        apply fold_visits_fixed. intros. simpl. lia.
    + assert (Hfold : forall gs ys k n,
                fold_visits
                  (fun (_ : nat) (g : Group F) y (t : bool * nat) =>
                     (fst t,
                      fold_visits
                        (fun _ p x m => (m + if negb (fst t) then d p x else 0)%nat)
                        0 (params g) (grads_of_group g y) (snd t)))
                  k gs ys (false, n) =
                (false,
                 (n + fold_visits (fun _ g y m => (m + gradients_in_group g y)%nat)
                        0 gs ys 0)%nat)).
      { induction gs as [|g gs IH]; intros [|y ys] k n; simpl;
          try (f_equal; lia).
        rewrite IH. f_equal.
        rewrite (fold_visits_add (fun g0 y0 => gradients_in_group g0 y0) gs ys 1 0
                   (gradients_in_group g y)).
        assert (Hg : fold_visits (fun _ p x m => (m + d p x)%nat) 0 (params g)
                       (grads_of_group g y) n = (n + gradients_in_group g y)%nat).
        { rewrite (fold_visits_add d (params g) (grads_of_group g y) 0 0 n).
          f_equal. unfold gradients_in_group. rewrite fold_visits_count. reflexivity. }
        rewrite Hg. lia. }
      rewrite Hfold in Hpair. inversion Hpair. unfold gradients_found. lia.
  - (* the first step *)
    simpl andb. cbv iota.
    assert (Hlen : length (sh_lamb_coeffs sh2) =
              fold_visits (fun (_ : nat) (_ : Group F)
                             (_ : option (list (option (Grad F)))) (n : nat) => n)
                0 (param_groups o) gg (length (sh_lamb_coeffs sh))).
    { eapply (for_each_ok_fold _ (fun s => length (sh_lamb_coeffs s))); [|exact Hloop].
      intros i g y s g' s' Hg. apply first_loop_group_ok in Hg.
      destruct Hg as (ps' & Hin & _).
      assert (Hstage : length (sh_lamb_coeffs s') =
                fold_visits (fun (_ : nat) (_ : Param F) (_ : option (Grad F)) (n : nat) => n)
                  0 (params g) (grads_of_group g y) (length (sh_lamb_coeffs s))).
      { eapply (for_each_ok_fold _ (fun s0 => length (sh_lamb_coeffs s0))); [|exact Hin].
        intros j p x s0 p' s1 Hp. apply first_loop_body_records in Hp.
        rewrite Hp. simpl. destruct (chosen_grad p x); lia. }
      rewrite Hstage. apply fold_visits_fixed. reflexivity. }
    rewrite Hlen, fold_visits_fixed by reflexivity. lia.
Qed.
End CoefficientCount.

Section RecordedCoefficients.
Context {F : Type} `{Scalar F}.

Lemma second_loop_records (o : Opt F) loc o6 loc6 :
  second_loop (o, loc) = ((o6, loc6), None) ->
  length (lamb_coeffs o6) =
    (length (lamb_coeffs o) +
     if lamb_freeze_key o && initialize o
     then length (all_params (param_groups o)) else 0)%nat.
Proof.
  unfold second_loop.
  destruct (lamb_freeze_key o && initialize o);
    [|unfold done; intros Heq; inversion Heq; subst; lia].
  intros Hrun. apply and_then_ok in Hrun. destruct Hrun as ([gs2 sh2] & Hloop & Hdone).
  unfold done, store_shared in Hdone. inversion Hdone; subst o6 loc6. clear Hdone.
  cbn [lamb_coeffs set_param_groups set_exp_avg_flat set_lamb_freeze_key set_lamb_coeffs].
  change (lamb_coeffs o) with (sh_lamb_coeffs (shared_of o loc)).
  revert Hloop. generalize (shared_of o loc) as sh. intros sh Hloop.
  assert (Hlen : length (sh_lamb_coeffs sh2) =
            fold_visits (fun (_ : nat) (g : Group F) (_ : unit) (n : nat) =>
                           (n + length (params g))%nat)
              0 (param_groups o) (units (param_groups o)) (length (sh_lamb_coeffs sh))).
  { eapply (for_each_ok_fold _ (fun s => length (sh_lamb_coeffs s))); [|exact Hloop].
    intros i g u s g' s' Hg. unfold second_loop_group in Hg.
    apply and_then_ok in Hg. destruct Hg as ([ps' s1] & Hin & Hd).
    unfold done in Hd. simpl in Hd. inversion Hd; subst g' s'. clear Hd.
    rewrite <- (fold_visits_units (params g) 0).
    eapply (for_each_ok_fold _ (fun s0 => length (sh_lamb_coeffs s0))); [|exact Hin].
    intros j p v s0 p' s2 Hp. apply second_loop_body_records in Hp. exact Hp. }
  rewrite Hlen. clear. generalize (length (sh_lamb_coeffs sh)) as n. generalize 0%nat as k.
  unfold all_params.
  induction (param_groups o) as [|g gs IH]; intros k n; simpl; [lia|].
  unfold units in IH. rewrite IH, length_app. lia.
Qed.

Lemma groups_rel_count (R : Param F -> Param F -> Prop) (gs gs' : list (Group F)) :
  groups_rel R gs gs' -> length (all_params gs') = length (all_params gs).
Proof.
  intros Hrel. apply groups_rel_all_params in Hrel. symmetry.
  eapply Forall2_length. exact Hrel.
Qed.

(** X12. After a step that ends without exception, [get_lamb_coeffs()]
    holds what this step has recorded and nothing of the steps before:
    nothing after the first step; in the warmup stage, one coefficient for
    each parameter for which the first loop found a gradient; in the
    compression stage, one coefficient for every parameter. *)
Theorem coefficients_of_the_last_step (net : Net F) (grads : GradsArg F) gg (o o' : Opt F) :
  grads_group_of grads (length (param_groups o)) = Ok gg ->
  step net grads o = (o', None) ->
  length (get_lamb_coeffs o') =
    if initialize o
    then if lamb_freeze_key o
         then length (all_params (param_groups o))
         else gradients_found (param_groups o) gg
    else 0%nat.
Proof.
  intros Hgg Hrun. unfold get_lamb_coeffs.
  apply step_ok_inv in Hrun.
  destruct Hrun as (gg' & o1 & loc1 & o2 & loc2 & o3 & o4 & o5 & o6 & loc6 &
                    Hgg' & Hsnap & Hfirst & Hfuse & Hbuf & Hcomm & Hsecond & Hfin).
  rewrite Hgg in Hgg'. inversion Hgg'; subst gg'. clear Hgg'.
  (* the snapshot *)
  pose proof (snapshot_frame (set_lamb_coeffs [] o) no_locals) as Hf1. cbv zeta in Hf1.
  rewrite Hsnap in Hf1. cbn [fst] in Hf1.
  destruct Hf1 as (_ & Hi1 & Hk1 & _ & _ & _ & _ & Hl1 & _).
  cbn [initialize lamb_freeze_key lamb_coeffs set_lamb_coeffs] in Hi1, Hk1, Hl1.
  pose proof (@snapshot_groups_rel _ _ (fun _ _ : Param F => True) (fun _ => I)
                (fun _ _ _ _ _ => I) (fun _ => I) (set_lamb_coeffs [] o) no_locals) as Hg1.
  rewrite Hsnap in Hg1. cbn [fst param_groups set_lamb_coeffs] in Hg1.
  assert (Hwarm : lamb_freeze_key o = false -> param_groups o1 = param_groups o).
  { intros Hkey. unfold snapshot_and_calibrate in Hsnap.
    cbn [lamb_freeze_key set_lamb_coeffs] in Hsnap. rewrite Hkey in Hsnap.
    unfold done in Hsnap. inversion Hsnap; subst. reflexivity. }
  (* the first loop *)
  pose proof (first_loop_records _ _ _ Hfirst) as Hl2.
  rewrite Hl1, Hi1, Hk1 in Hl2. simpl length in Hl2.
  pose proof (first_loop_frame gg o1 loc1) as Hf2. cbv zeta in Hf2.
  rewrite Hfirst in Hf2. cbn [fst] in Hf2. destruct Hf2 as (_ & Hi2 & _).
  pose proof (@first_loop_groups_rel _ _ (fun _ _ : Param F => True) (fun _ => I)
                gg o1 loc1 (fun _ _ _ _ _ _ => I)) as Hg2.
  rewrite Hfirst in Hg2. cbn [fst] in Hg2.
  (* the fusion, the error buffers, the communication *)
  pose proof (init_fused_frame o2) as Hf3. cbv zeta in Hf3. rewrite Hfuse in Hf3.
  cbn [fst] in Hf3. destruct Hf3 as (_ & Hi3 & Hk3 & _ & _ & _ & _ & Hl3).
  pose proof (@init_fused_groups_rel _ _ (fun _ _ : Param F => True) (fun _ => I)
                (fun _ _ _ _ _ => I) (fun _ => I) (fun _ _ _ _ => I) o2) as Hg3.
  rewrite Hfuse in Hg3. cbn [fst] in Hg3.
  pose proof (keeps_init_error_buffers o3) as Hk4. rewrite Hbuf in Hk4. cbn [fst] in Hk4.
  unfold outside_buffers in Hk4.
  inversion Hk4 as [[Hc4 Hi4 Hkey4 Hd4 Hsc4 Hl4 Hgs4 Hdu4 Hco4 Hch4 Hfl4]]. clear Hk4.
  pose proof (keeps_communicate net o4) as Hk5. rewrite Hcomm in Hk5. cbn [fst] in Hk5.
  unfold outside_buffers in Hk5.
  inversion Hk5 as [[Hc5 Hi5 Hkey5 Hd5 Hsc5 Hl5 Hgs5 Hdu5 Hco5 Hch5]]. clear Hk5.
  (* the second loop, the end *)
  pose proof (second_loop_records _ _ Hsecond) as Hl6.
  pose proof (finish_frame o6 loc6) as Hf7. cbv zeta in Hf7. rewrite Hfin in Hf7.
  cbn [fst] in Hf7. destruct Hf7 as (_ & _ & _ & _ & _ & _ & Hl7 & _).
  assert (Hcount : length (all_params (param_groups o5))
                   = length (all_params (param_groups o))).
  { rewrite Hgs5, Hgs4, (groups_rel_count Hg3), (groups_rel_count Hg2).
    apply (groups_rel_count Hg1). }
  assert (Hkey2 : initialize o = true -> lamb_freeze_key o2 = lamb_freeze_key o).
  { intros Hinit. pose proof (first_loop_key gg o1 loc1) as Hk.
    rewrite Hfirst in Hk. cbn [fst] in Hk. rewrite Hk; congruence. }
  rewrite Hl7, Hl6, Hl5, Hl4, Hl3, Hl2, Hi5, Hi4, Hi3, Hi2, Hi1, Hkey5, Hkey4, Hk3, Hcount.
  destruct (initialize o) eqn:Hinit.
  - rewrite (Hkey2 eq_refl). destruct (lamb_freeze_key o) eqn:Hkey; simpl.
    + reflexivity.
    + rewrite (Hwarm eq_refl). lia.
  - rewrite andb_false_r. simpl. reflexivity.
Qed.
End RecordedCoefficients.

(** A step of the warmup stage, the second parameter without gradient: one
    coefficient. *)
Lemma coefficients_of_the_last_step_witness :
  length (get_lamb_coeffs (fst (step Demo.idle_net GradsNone Demo.second_idle))) = 1%nat.
Proof.
  assert (H1 : grads_group_of (@GradsNone Demo.flt) (length (param_groups Demo.second_idle))
               = Ok [None]) by reflexivity.
  assert (H2 : step Demo.idle_net GradsNone Demo.second_idle
               = (fst (step Demo.idle_net GradsNone Demo.second_idle), None))
    by (vm_compute; reflexivity).
  exact (@coefficients_of_the_last_step _ float_scalar Demo.idle_net GradsNone [None]
           Demo.second_idle _ H1 H2).
Defined.

(** ** The momenta after the first step *)

Section FirstStepMomenta.
Context {F : Type} `{Scalar F}.

Lemma first_loop_body_zero cfg sc h i j (p : Param F) x sh :
  starts_at_zero p (fst (fst (first_loop_body cfg false sc h i j p x sh))).
Proof.
  intros Hp s' Hs'. unfold first_loop_body in Hs'.
  destruct (match x with Some g => Some g | None => p_grad p end) as [g|];
    [|simpl in Hs'; congruence].
  destruct (is_sparse g); [simpl in Hs'; congruence|].
  unfold get_or_init in Hs'. rewrite Hp in Hs'. simpl in Hs'.
  inversion Hs'. reflexivity.
Qed.

(** The momenta read in the fused buffer what they held before the
    fusion. *)
Lemma fused_reads_back (o o' : Opt F) :
  exp_avg_flat o = [] -> init_fused_momentum o = (o', None) ->
  Forall2 (fun p p' => momentum (exp_avg_flat o') p' = momentum [] p)
    (all_params (param_groups o)) (all_params (param_groups o')).
Proof.
  intros Hflat Hrun.
  destruct (init_fused_momentum_ok o Hflat Hrun) as (Hfull & Hm & Hne).
  destruct (init_fused_momentum_run o Hflat Hfull Hm Hne)
    as (o2 & Hrun2 & Hbuf & Hgs & _).
  rewrite Hrun in Hrun2. inversion Hrun2; subst o2. clear Hrun2.
  destruct (rebind_groups_flat [] 0 (param_groups o)) as [Hall _].
  apply all_full_flat in Hfull.
  match type of Hbuf with
  | _ = [_ ++ ?pad] =>
      destruct (rebind_params_spec [] Hfull [] pad) as [_ Hviews]
  end.
  simpl length in Hviews. simpl app in Hviews.
  rewrite Hgs, Hall, Hbuf.
  eapply Forall2_impl; [|exact Hviews].
  intros p p' (_ & _ & s & off & _ & Hp' & _ & _ & Hsl).
  unfold momentum at 1. unfold exp_avg_of. rewrite Hp'. simpl. exact Hsl.
Qed.

(** X13. The first step does not use the values of the gradients: on one
    worker, when the first step of a newly built optimizer ends without
    exception, the momentum of every parameter is still a tensor of zeros
    (the gradients of that step are dropped). *)
Theorem first_step_leaves_zero_momenta groups engine freeze coeff fmax fmin threshold
    (net : Net F) (grads : GradsArg F) (o o' : Opt F) :
  OnebitLamb_init groups engine freeze false coeff fmax fmin threshold (Some 1%nat) = Ok o ->
  step net grads o = (o', None) ->
  Forall2 (fun p p' => momentum (exp_avg_flat o') p' = zeros (numel (p_data p)))
    (all_params (param_groups o)) (all_params (param_groups o')).
Proof.
  intros Hnew Hrun.
  destruct (OnebitLamb_init_fields _ _ _ _ _ _ _ _ Hnew)
    as (Hinit & Hkey & Hflat & Hw & Hs & Hsize & _ & Hentries).
  apply step_ok_inv in Hrun.
  destruct Hrun as (gg & o1 & loc1 & o2 & loc2 & o3 & o4 & o5 & o6 & loc6 &
                    _ & Hsnap & Hfirst & Hfuse & Hbuf & Hcomm & Hsecond & Hfin).
  unfold snapshot_and_calibrate in Hsnap. cbn [lamb_freeze_key set_lamb_coeffs] in Hsnap.
  rewrite Hkey in Hsnap. unfold done in Hsnap. inversion Hsnap; subst o1 loc1. clear Hsnap.
  (* the first loop *)
  pose proof (first_loop_bootstrap gg (set_lamb_coeffs [] o) no_locals Hinit) as Hboot.
  cbv zeta in Hboot. rewrite Hfirst in Hboot. cbn [fst] in Hboot.
  destruct Hboot as [_ Hflat2].
  cbn [exp_avg_flat set_lamb_coeffs] in Hflat2. rewrite Hflat in Hflat2.
  pose proof (@first_loop_groups_rel _ _ starts_at_zero
                (fun p _ s' _ => ltac:(congruence)) gg (set_lamb_coeffs [] o) no_locals) as Hrel.
  cbn [initialize config scaling_coeffs set_lamb_coeffs] in Hrel. rewrite Hinit in Hrel.
  specialize (Hrel (fun h i j p x s =>
                      first_loop_body_zero (config o) (scaling_coeffs o) h i j p x s)).
  rewrite Hfirst in Hrel. cbn [fst param_groups set_lamb_coeffs] in Hrel.
  pose proof (first_loop_frame gg (set_lamb_coeffs [] o) no_locals) as Hf2.
  cbv zeta in Hf2. rewrite Hfirst in Hf2. cbn [fst] in Hf2.
  destruct Hf2 as (Hc2 & Hi2 & _).
  cbn [config initialize set_lamb_coeffs] in Hc2, Hi2.
  (* the fusion *)
  pose proof (fused_reads_back o2 Hflat2 Hfuse) as Hback.
  destruct (init_fused_momentum_ok o2 Hflat2 Hfuse) as (Hfull & _ & _).
  pose proof (init_fused_frame o2) as Hf3. cbv zeta in Hf3. rewrite Hfuse in Hf3.
  cbn [fst] in Hf3. destruct Hf3 as (Hc3 & Hi3 & _).
  (* nothing after it *)
  unfold init_error_buffers in Hbuf.
  replace (initialize o3) with false in Hbuf by congruence.
  simpl in Hbuf. unfold done in Hbuf. inversion Hbuf; subst o4. clear Hbuf.
  rewrite communicate_idle in Hcomm by (left; rewrite Hc3, Hc2, Hsize; lia).
  unfold done in Hcomm. inversion Hcomm; subst o5. clear Hcomm.
  unfold second_loop in Hsecond.
  replace (initialize o3) with false in Hsecond by congruence.
  rewrite andb_false_r in Hsecond. unfold done in Hsecond.
  inversion Hsecond; subst o6 loc6. clear Hsecond.
  pose proof (finish_frame o3 loc2) as Hf. cbv zeta in Hf. rewrite Hfin in Hf.
  cbn [fst] in Hf. destruct Hf as (_ & Hgs' & Hflat' & _).
  rewrite Hgs', Hflat'.
  (* every momentum was a tensor of zeros when fused *)
  apply groups_rel_all_params in Hrel. apply all_full_flat in Hfull.
  assert (Hdata : Forall2 (fun p p2 : Param F => p_data p2 = p_data p)
                    (all_params (param_groups o)) (all_params (param_groups o2))).
  { pose proof (first_loop_bootstrap gg (set_lamb_coeffs [] o) no_locals Hinit) as Hb.
    cbv zeta in Hb. rewrite Hfirst in Hb. cbn [fst] in Hb. destruct Hb as [Hb _].
    apply groups_rel_all_params in Hb. cbn [param_groups set_lamb_coeffs] in Hb.
    eapply Forall2_impl; [|exact Hb]. intros a b [Hd _]. exact Hd. }
  clear -Hrel Hfull Hback Hentries Hdata.
  revert Hback Hfull Hentries Hdata.
  generalize (all_params (param_groups o3)) as ps3.
  induction Hrel as [|p p2 ps ps2 Hp Hps IH]; intros ps3 Hback Hfull Hentries Hdata.
  - inversion Hback. constructor.
  - inversion Hback as [|? p3 ? ps3' Hm Hms]; subst.
    inversion Hfull as [|? ? [s2 Hs2] Hfulls]; subst.
    inversion Hentries as [|? ? Hno Hnos]; subst.
    inversion Hdata as [|? ? ? ? Hd Hds]; subst.
    constructor; [|apply IH; assumption].
    rewrite Hm. unfold momentum, exp_avg_of. rewrite Hs2.
    rewrite (Hp Hno s2 Hs2). reflexivity.
Qed.
End FirstStepMomenta.

(** The first step of one parameter on one worker. *)
Lemma first_step_leaves_zero_momenta_witness :
  Forall2 (fun p p' =>
             momentum (exp_avg_flat (fst (step Demo.idle_net GradsNone Demo.single))) p'
               = zeros (numel (p_data p)))
    (all_params (param_groups Demo.single))
    (all_params (param_groups (fst (step Demo.idle_net GradsNone Demo.single)))).
Proof.
  apply (@first_step_leaves_zero_momenta _ float_scalar Demo.single_groups
           (Some Demo.engine0) 3%Z 0.99%float 4.5%float 0.5%float 0.1%float
           Demo.idle_net GradsNone Demo.single).
  - reflexivity.
  - vm_compute. reflexivity.
Defined.

(** ** Dicts that cannot be loaded *)

Section LoadEdges.
Context {F : Type} `{Scalar F}.

(** The dict of the first parameter once [torch]'s [load_state_dict] has
    run and the masks are put back: the first one of the dict loaded. *)
Lemma first_loaded_entry (sd : StateDict F) (gs : list (Group F)) masks g gs' p ps :
  map (fun gm => restore_mask (fst gm) (snd gm))
      (combine (map (fun gs0 => load_group (fst gs0) (snd gs0))
                    (combine gs (sd_param_groups sd))) masks) = g :: gs' ->
  params g = p :: ps ->
  exists h es rest, sd_param_groups sd = (h, p_state p :: es) :: rest.
Proof.
  destruct gs as [|g0 gs0]; [discriminate|].
  destruct (sd_param_groups sd) as [|[h es] rest]; [discriminate|].
  destruct masks as [|m masks]; [discriminate|]. simpl.
  intros Heq Hp. inversion Heq; subst g. clear Heq.
  rewrite params_restore_mask in Hp. simpl in Hp.
  destruct (params g0) as [|p0 ps0]; [discriminate|].
  destruct es as [|e es]; [discriminate|]. simpl in Hp. inversion Hp; subst.
  exists h, es, rest. reflexivity.
Qed.

(** X14. A dict that holds no step count for the first parameter of the
    first group - one saved before the first step - cannot be loaded:
    [load_state_dict] raises an exception.  When [torch]'s
    [load_state_dict] has accepted the dict, the exception is [KeyError]
    (line 419 finds no ['step']) or [IndexError] (it finds no first
    parameter), and the optimizer is left without fused buffer. *)
Theorem load_needs_a_step_count (sd : StateDict F) (o : Opt F) :
  saved_first_step sd = None ->
  snd (load_state_dict sd o) <> None /\
  (forall o1, torch_load_state_dict sd o = Ok o1 ->
     (snd (load_state_dict sd o) = Some KeyError \/
      snd (load_state_dict sd o) = Some IndexError) /\
     exp_avg_flat (fst (load_state_dict sd o)) = []).
Proof.
  intros Hnone. unfold load_state_dict.
  destruct (torch_load_state_dict sd o) as [o1|e] eqn:Htorch.
  2:{ unfold raised; simpl. split; [discriminate|]. intros o1 Hc; discriminate. }
  cbn [param_groups set_param_groups set_server_chunk_sizes set_corrected_tensor_sizes
       set_dummy_exp_avg set_exp_avg_flat config].
  assert (Hgroups : param_groups o1 =
            map (fun gs0 => load_group (fst gs0) (snd gs0))
                (combine (param_groups o) (sd_param_groups sd))).
  { unfold torch_load_state_dict in Htorch.
    destruct (negb (Nat.eqb _ _)); [discriminate|].
    destruct (negb (same_sizes _ _)); [discriminate|].
    inversion Htorch. reflexivity. }
  destruct (map _ (combine (param_groups o1) _)) as [|g gs'] eqn:Hmap.
  { unfold raised; simpl. split; [discriminate|].
    intros o2 _. split; [right; reflexivity | reflexivity]. }
  destruct (params g) as [|p ps] eqn:Hp.
  { unfold raised; simpl. split; [discriminate|].
    intros o2 _. split; [right; reflexivity | reflexivity]. }
  rewrite Hgroups in Hmap.
  destruct (first_loaded_entry sd _ _ Hmap Hp) as (h & es & rest & Hsd).
  unfold saved_first_step in Hnone. rewrite Hsd in Hnone.
  destruct (p_state p) as [| | |s]; try discriminate; unfold raised; simpl;
    (split; [discriminate|]); intros o2 _; (split; [left; reflexivity | reflexivity]).
Qed.

(** X15. The three entries that [state_dict] adds to those of [torch]
    ([worker_errors], [server_errors], [scaling_coeffs]) are read only when
    the step count the dict holds for the first parameter has reached
    [freeze_step]: below it, [load_state_dict] gives the same result
    whatever these entries, also when they are missing; at or above it, a
    dict in which one of them is missing is not loaded without exception. *)
Theorem one_bit_entries_read_from_freeze_step (sd sd' : StateDict F) (o : Opt F) z :
  saved_first_step sd = Some z ->
  sd_param_groups sd' = sd_param_groups sd ->
  ((z < freeze_step (config o))%Z -> load_state_dict sd' o = load_state_dict sd o) /\
  ((freeze_step (config o) <= z)%Z ->
   sd_worker_errors sd = None \/ sd_server_errors sd = None \/
   sd_scaling_coeffs sd = None ->
   snd (load_state_dict sd o) <> None).
Proof.
  intros Hfirst Hsame.
  assert (Htorch : torch_load_state_dict sd' o = torch_load_state_dict sd o).
  { unfold torch_load_state_dict. rewrite Hsame. reflexivity. }
  unfold load_state_dict. rewrite Htorch.
  destruct (torch_load_state_dict sd o) as [o1|e] eqn:Hload;
    [|split; [reflexivity | unfold raised; simpl; intros; discriminate]].
  cbn [param_groups set_param_groups set_server_chunk_sizes set_corrected_tensor_sizes
       set_dummy_exp_avg set_exp_avg_flat config].
  assert (Hgroups : param_groups o1 =
            map (fun gs0 => load_group (fst gs0) (snd gs0))
                (combine (param_groups o) (sd_param_groups sd)) /\
            config o1 = config o).
  { unfold torch_load_state_dict in Hload.
    destruct (negb (Nat.eqb _ _)); [discriminate|].
    destruct (negb (same_sizes _ _)); [discriminate|].
    inversion Hload. split; reflexivity. }
  destruct Hgroups as [Hgroups Hconfig].
  destruct (map _ (combine (param_groups o1) _)) as [|g gs'] eqn:Hmap;
    [split; [reflexivity | unfold raised; simpl; intros; discriminate]|].
  destruct (params g) as [|p ps] eqn:Hp;
    [split; [reflexivity | unfold raised; simpl; intros; discriminate]|].
  rewrite Hgroups in Hmap.
  destruct (first_loaded_entry sd _ _ Hmap Hp) as (h & es & rest & Hsd).
  unfold saved_first_step in Hfirst. rewrite Hsd in Hfirst.
  destruct (p_state p) as [| | |s]; try discriminate.
  inversion Hfirst; subst z. rewrite Hconfig. split.
  - intros Hlt. apply Z.leb_gt in Hlt. rewrite Hlt. reflexivity.
  - intros Hge Hmissing. apply Z.leb_le in Hge. rewrite Hge.
    unfold load_compression.
    destruct (sd_worker_errors sd); [|unfold raised; simpl; discriminate].
    destruct (sd_server_errors sd); [|unfold raised; simpl; discriminate].
    destruct (sd_scaling_coeffs sd); [|unfold raised; simpl; discriminate].
    destruct Hmissing as [Hm|[Hm|Hm]]; discriminate.
Qed.
End LoadEdges.

(** The dict of a newly built optimizer. *)
Lemma load_needs_a_step_count_witness :
  snd (load_state_dict (state_dict Demo.single) Demo.single) <> None /\
  (forall o1, torch_load_state_dict (state_dict Demo.single) Demo.single = Ok o1 ->
     (snd (load_state_dict (state_dict Demo.single) Demo.single) = Some KeyError \/
      snd (load_state_dict (state_dict Demo.single) Demo.single) = Some IndexError) /\
     exp_avg_flat (fst (load_state_dict (state_dict Demo.single) Demo.single)) = []).
Proof.
  apply (@load_needs_a_step_count _ _ (state_dict Demo.single) Demo.single). reflexivity.
Defined.

(** One step done, three steps to the compression stage: the three entries
    are not read. *)
Lemma one_bit_entries_read_from_freeze_step_witness :
  load_state_dict (Demo.plain_dict Demo.bootstrapped) Demo.bootstrapped
    = load_state_dict (state_dict Demo.bootstrapped) Demo.bootstrapped.
Proof.
  refine (proj1 (@one_bit_entries_read_from_freeze_step _ _ (state_dict Demo.bootstrapped)
                   (Demo.plain_dict Demo.bootstrapped) Demo.bootstrapped 1%Z _ _) _).
  - reflexivity.
  - reflexivity.
  - simpl. lia.
Defined.
